(** * init-react-project: the tsconfig.app.json patch and the setup scripts

    A shallow embedding of [setup-react.js] (the Node entry point) and of
    the shell entry point, with the JavaScript built-ins they call
    ([String.prototype.replace] with a global regular expression,
    [JSON.parse], [JSON.stringify]) written out as functions on UTF-16
    code units. *)

From Stdlib Require Import ZArith NArith List String Ascii Bool Lia.
From Stdlib Require Import SpecFloat Sorted.
Import ListNotations.

Set Implicit Arguments.
Local Open Scope N_scope.

(** ** Text *)

(** A JavaScript string is a sequence of UTF-16 code units; the regular
    expressions of the scripts carry no [u] flag, so they work on code
    units too. *)
Module Text.

Definition text := list N.

(** ASCII literals of this development, as code units. *)
Definition lit (s : string) : text :=
  List.map N_of_ascii (list_ascii_of_string s).

Definition dquote : N := 34.
Definition backslash : N := 92.
Definition slash : N := 47.
Definition star : N := 42.
Definition comma : N := 44.
Definition LF : N := 10.
Definition CR : N := 13.

(** [LineTerminator] of ECMAScript: what [.] refuses and what [$]
    stops at under the [m] flag. *)
Definition isLineTerminator (c : N) : bool :=
  (c =? 10) || (c =? 13) || (c =? 8232) || (c =? 8233).

(** What [\s] accepts: [WhiteSpace] and [LineTerminator]. *)
Definition isWhiteSpace (c : N) : bool :=
  (c =? 9) || (c =? 11) || (c =? 12) || (c =? 32) || (c =? 160)
  || (c =? 5760) || ((8192 <=? c) && (c <=? 8202))
  || (c =? 8239) || (c =? 8287) || (c =? 12288) || (c =? 65279)
  || isLineTerminator c.

(** [[}\]]] *)
Definition isCloser (c : N) : bool := (c =? 125) || (c =? 93).

(** The literal letter of [s*]. *)
Definition isLetterS (c : N) : bool := c =? 115.

Fixpoint startsWith (p l : text) : bool :=
  match p, l with
  | [], _ => true
  | a :: p', b :: l' => (a =? b) && startsWith p' l'
  | _ :: _, [] => false
  end.

(** [occurs p l]: the text [p] occurs somewhere in [l]. *)
Fixpoint occurs (p l : text) : bool :=
  startsWith p l ||
  match l with
  | [] => false
  | _ :: r => occurs p r
  end.

End Text.
Import Text.

(** ** [String.prototype.replace] with a global regular expression *)

Module Regex.

(** A matcher answers, for the input that remains at the current
    position, the length of the match found there and the text that
    replaces it.  None of the patterns below looks behind the current
    position or matches the empty string. *)
Definition matcher := text -> option (nat * text).

Section Replace.
Variable m : matcher.

(** [replaceFrom skip l]: the scan of [replace] with the [g] flag.
    [skip] counts the code units of the last match that still lie
    ahead; a position is tried only when it is zero, and after a
    match the scan resumes behind it. *)
Fixpoint replaceFrom (skip : nat) (l : text) : text :=
  match l with
  | [] => []
  | c :: r =>
      match skip with
      | S k => replaceFrom k r
      | O =>
          match m l with
          | Some (len, repl) => repl ++ replaceFrom (pred len) r
          | None => c :: replaceFrom 0 r
          end
      end
  end.

Definition replaceAll (l : text) : text := replaceFrom 0 l.
End Replace.

(** [findClose l]: the number of code units up to and including the
    first [*/] of [l]; the lazy [[\s\S]*?] stops there. *)
Fixpoint findClose (l : text) : option nat :=
  match l with
  | a :: r =>
      if (a =? star) && startsWith [slash] r then Some 2%nat
      else option_map S (findClose r)
  | [] => None
  end.

(** [/\/\*[\s\S]*?\*\//] *)
Definition blockComment : matcher := fun l =>
  match l with
  | a :: b :: r =>
      if (a =? slash) && (b =? star)
      then option_map (fun k => (2 + k, []))%nat (findClose r)
      else None
  | _ => None
  end.

(** The greedy run of a class. *)
Fixpoint spanLen (p : N -> bool) (l : text) : nat :=
  match l with
  | c :: r => if p c then S (spanLen p r) else O
  | [] => O
  end.

(** [/\/\/.*$/m]: the greedy [.*] takes every code unit that is not a
    line terminator, after which [$] holds (end of input, or a line
    terminator next). *)
Definition lineComment : matcher := fun l =>
  match l with
  | a :: b :: r =>
      if (a =? slash) && (b =? slash)
      then Some (2 + spanLen (fun c => negb (isLineTerminator c)) r, [])%nat
      else None
  | _ => None
  end.

(** [cls*[}\]]], greedy with backtracking: the length it matches at
    the head of [l]. *)
Fixpoint starCloser (cls : N -> bool) (l : text) : option nat :=
  match l with
  | [] => None
  | c :: r =>
      let stop := if isCloser c then Some 1%nat else None in
      if cls c
      then match starCloser cls r with
           | Some k => Some (S k)
           | None => stop
           end
      else stop
  end.

(** [/,(cls*[}\]])/] with the replacement ['$1']: the comma goes, the
    group stays. *)
Definition trailingComma (cls : N -> bool) : matcher := fun l =>
  match l with
  | a :: r =>
      if a =? comma
      then option_map (fun k => (S k, firstn k r)) (starCloser cls r)
      else None
  | [] => None
  end.

(** [text.replace(/\/\*[\s\S]*?\*\//g, '').replace(/\/\/.*$/gm, '')] *)
Definition stripBlockComments (t : text) : text := replaceAll blockComment t.
Definition stripLineComments (t : text) : text := replaceAll lineComment t.
Definition stripComments (t : text) : text :=
  stripLineComments (stripBlockComments t).

End Regex.
Import Regex.

(** ** Numbers *)

(** A Number is an IEEE 754 binary64 value, here the Standard Library's
    [spec_float] at precision 53 and [emax] 1024.  [JSON.parse] rounds
    the decimal literal to the nearest value, ties to even;
    [JSON.stringify] prints the shortest decimal that reads back
    ([Number::toString]), and [null] for an infinity. *)
Module Number.
Local Open Scope Z_scope.

Definition number := spec_float.
Definition prec : Z := 53.
Definition emax : Z := 1024.

(** The Number nearest to [num / den], both positive. *)
Definition ofRatio (neg : bool) (num den : Z) : number :=
  let '(mz, ez, lz) := SFdiv_core_binary prec emax num 0 den 0 in
  binary_round_aux prec emax neg mz ez lz.

(** The Number nearest to [m * 10 ^ e10], [m] not negative. *)
Definition ofDecimal (neg : bool) (m e10 : Z) : number :=
  if m =? 0 then S754_zero neg
  else if 0 <=? e10 then ofRatio neg (m * 10 ^ e10) 1
       else ofRatio neg m (10 ^ (- e10)).

Definition sameValue (x y : number) : bool :=
  match x, y with
  | S754_zero a, S754_zero b => Bool.eqb a b
  | S754_infinity a, S754_infinity b => Bool.eqb a b
  | S754_nan, S754_nan => true
  | S754_finite a m e, S754_finite b m' e' =>
      Bool.eqb a b && (m =? m')%positive && (e =? e')
  | _, _ => false
  end.

(** [ToBoolean] of a Number: zero and NaN are falsy. *)
Definition truthy (x : number) : bool :=
  match x with
  | S754_zero _ | S754_nan => false
  | _ => true
  end.

Definition digit (d : Z) : N := Z.to_N (48 + d).

(** The [k] lowest decimal digits of [z], highest first. *)
Fixpoint digitsOf (k : nat) (z : Z) : text :=
  match k with
  | O => []
  | S k' => digitsOf k' (z / 10) ++ [digit (z mod 10)]
  end.

(** The number of decimal digits of [z], at least one. *)
Fixpoint digits10 (fuel : nat) (z : Z) : nat :=
  match fuel with
  | O => 1%nat
  | S f => if z <? 10 then 1%nat else S (digits10 f (z / 10))
  end.

Definition decimal (z : Z) : text :=
  digitsOf (digits10 (Z.to_nat (Z.log2 z)) z) z.

(** For [0 < xn / xd < 1]: the least [j >= 1] with
    [xn * 10 ^ j >= xd]. *)
Fixpoint leadingZeros (fuel : nat) (xn xd j : Z) : Z :=
  match fuel with
  | O => j
  | S f => if xd <=? xn * 10 then j else leadingZeros f (xn * 10) xd (j + 1)
  end.

(** The [n] with [10 ^ (n - 1) <= xn / xd < 10 ^ n]. *)
Definition decimalExponent (xn xd : Z) : Z :=
  if xd <=? xn
  then Z.of_nat (digits10 (Z.to_nat (Z.log2 (xn / xd))) (xn / xd))
  else 1 - leadingZeros (Z.to_nat (Z.log2 xd)) xn xd 1.

(** The candidates with [k] digits for [x = xn / xd]: the two
    integers around [x / 10 ^ (n - k)].  The answer is [(s, n)] for
    the one that reads back as [x], the closer of the two when both
    do, the even one on a tie. *)
Definition pick (x : number) (xn xd n k : Z) : option (Z * Z) :=
  let '(sn, sd) :=
    if k <=? n then (xn, xd * 10 ^ (n - k)) else (xn * 10 ^ (k - n), xd) in
  let lo := sn / sd in
  let r := sn mod sd in
  let hi := if lo + 1 <? 10 ^ k then (lo + 1, n) else (10 ^ (k - 1), n + 1) in
  let reads (c : Z * Z) := sameValue (ofDecimal false (fst c) (snd c - k)) x in
  match reads (lo, n), reads hi with
  | true, true =>
      match 2 * r ?= sd with
      | Lt => Some (lo, n)
      | Gt => Some hi
      | Eq => if Z.even lo then Some (lo, n) else Some hi
      end
  | true, false => Some (lo, n)
  | false, true => Some hi
  | false, false => None
  end.

(** The least [k] that has a candidate, looked for among the first
    [fuel] values of [k]. *)
Fixpoint shortest (fuel : nat) (x : number) (xn xd n k : Z) : Z * Z * Z :=
  match fuel with
  | O => (xn / xd, n, k)
  | S f =>
      match pick x xn xd n k with
      | Some (s, n') => (s, n', k)
      | None => shortest f x xn xd n (k + 1)
      end
  end.

Definition zeros (n : Z) : text := repeat 48%N (Z.to_nat n).

(** [Number::toString] of a positive finite [m * 2 ^ e].  The search
    for the digits goes as far as the decimal expansion of the number:
    [n] digits for an integer, [- e] more for a fraction.  With that
    many digits the lower candidate is the number itself, so the search
    has ended by then. *)
Definition positiveToString (m : positive) (e : Z) : text :=
  let xn := if 0 <=? e then Zpos m * 2 ^ e else Zpos m in
  let xd := if 0 <=? e then 1 else 2 ^ (- e) in
  let n0 := decimalExponent xn xd in
  let '(s, n, k) :=
    shortest (Z.to_nat (n0 + Z.max 0 (- e))) (S754_finite false m e)
             xn xd n0 1 in
  let ds := digitsOf (Z.to_nat k) s in
  if (k <=? n) && (n <=? 21) then ds ++ zeros (n - k)
  else if (0 <? n) && (n <=? 21)
  then firstn (Z.to_nat n) ds ++ lit "." ++ skipn (Z.to_nat n) ds
  else if (-6 <? n) && (n <=? 0) then lit "0." ++ zeros (- n) ++ ds
  else
    let ex := lit "e" ++ (if 0 <=? n - 1 then lit "+" else lit "-")
              ++ decimal (Z.abs (n - 1)) in
    if k =? 1 then ds ++ ex
    else firstn 1 ds ++ lit "." ++ skipn 1 ds ++ ex.

Definition toString (x : number) : text :=
  match x with
  | S754_nan => lit "NaN"
  | S754_zero _ => lit "0"
  | S754_infinity s => (if s then lit "-" else []) ++ lit "Infinity"
  | S754_finite s m e => (if s then lit "-" else []) ++ positiveToString m e
  end.

Definition isFinite (x : number) : bool :=
  match x with
  | S754_zero _ | S754_finite _ _ _ => true
  | _ => false
  end.

End Number.
Import Number.

(** ** JSON values, [JSON.parse] and [JSON.stringify] *)

Module Json.
Import Number.

(** The values [JSON.parse] builds, and what the script makes of them.
    An array is an object too: an assignment to a named property of
    it creates that property, which [JSON.stringify] then leaves out.
    [named] holds these; [JSON.parse] leaves it empty.  The properties
    of an object are kept in the order [JSON.stringify] lists them. *)
Unset Elimination Schemes.
Inductive value : Type :=
| VNull
| VBool (b : bool)
| VNum (x : number)
| VStr (s : text)
| VArr (elems : list value) (named : list (text * value))
| VObj (props : list (text * value)).
Set Elimination Schemes.

Fixpoint text_eqb (a b : text) : bool :=
  match a, b with
  | [], [] => true
  | x :: a', y :: b' => (x =? y) && text_eqb a' b'
  | _, _ => false
  end.

(** *** Property keys *)

Definition isDigit (c : N) : bool := (48 <=? c) && (c <=? 57).

Fixpoint digitsValue (acc : N) (l : text) : N :=
  match l with
  | [] => acc
  | c :: r => digitsValue (10 * acc + (c - 48)) r
  end.

(** An array index is a canonical numeric string below [2^32 - 1];
    such keys are listed first, in ascending order. *)
Definition arrayIndex (k : text) : option N :=
  match k with
  | [] => None
  | c :: r =>
      if forallb isDigit k && (negb (c =? 48) || text_eqb r [])
         && (List.length k <=? 10)%nat && (digitsValue 0 k <? 4294967295)
      then Some (digitsValue 0 k)
      else None
  end.

Fixpoint lookup (k : text) (props : list (text * value)) : option value :=
  match props with
  | [] => None
  | (k', v) :: r => if text_eqb k k' then Some v else lookup k r
  end.

Definition hasKey (k : text) (props : list (text * value)) : bool :=
  match lookup k props with Some _ => true | None => false end.

(** An existing property keeps its place and takes the new value. *)
Fixpoint replaceValue (k : text) (v : value) (props : list (text * value))
  : list (text * value) :=
  match props with
  | [] => []
  | (k', v') :: r =>
      if text_eqb k k' then (k', v) :: r else (k', v') :: replaceValue k v r
  end.

(** A new array index goes before the first key that is not a lower
    array index. *)
Fixpoint insertIndex (i : N) (k : text) (v : value)
         (props : list (text * value)) : list (text * value) :=
  match props with
  | [] => [(k, v)]
  | (k', v') :: r =>
      match arrayIndex k' with
      | Some j => if j <? i then (k', v') :: insertIndex i k v r
                  else (k, v) :: props
      | None => (k, v) :: props
      end
  end.

(** [CreateDataProperty] and, for the keys the script assigns,
    [Set]: no property of the values at hand has a setter. *)
Definition defineProperty (k : text) (v : value)
           (props : list (text * value)) : list (text * value) :=
  if hasKey k props then replaceValue k v props
  else match arrayIndex k with
       | Some i => insertIndex i k v props
       | None => props ++ [(k, v)]
       end.

(** The members of an object literal, defined one after the other: a
    repeated key keeps its first place and its last value. *)
Definition makeObject (members : list (text * value)) : list (text * value) :=
  fold_left (fun props kv => defineProperty (fst kv) (snd kv) props)
            members [].

(** *** [JSON.parse] *)

Inductive parsed (A : Type) : Type :=
| POk (a : A) (rest : text)
| PSyntaxError
| PFuel.
Arguments PSyntaxError {A}.
Arguments PFuel {A}.

Definition isJsonWS (c : N) : bool :=
  (c =? 9) || (c =? 10) || (c =? 13) || (c =? 32).

Fixpoint skipWS (l : text) : text :=
  match l with
  | c :: r => if isJsonWS c then skipWS r else l
  | [] => []
  end.

Definition hexValue (c : N) : option N :=
  if (48 <=? c) && (c <=? 57) then Some (c - 48)
  else if (97 <=? c) && (c <=? 102) then Some (c - 87)
  else if (65 <=? c) && (c <=? 70) then Some (c - 55)
  else None.

(** What follows the backslash of a two-character escape. *)
Definition unescape (e : N) : option N :=
  if e =? 34 then Some 34          (* quotation mark *)
  else if e =? 92 then Some 92     (* reverse solidus *)
  else if e =? 47 then Some 47     (* solidus *)
  else if e =? 98 then Some 8      (* b: backspace *)
  else if e =? 102 then Some 12    (* f: form feed *)
  else if e =? 110 then Some 10    (* n: line feed *)
  else if e =? 114 then Some 13    (* r: carriage return *)
  else if e =? 116 then Some 9     (* t: tab *)
  else None.

Definition consChar (c : N) (p : option (text * text)) : option (text * text) :=
  match p with
  | Some (s, rest) => Some (c :: s, rest)
  | None => None
  end.

(** The characters of a string and what follows its closing quote;
    the opening quote has been read. *)
Fixpoint parseChars (l : text) : option (text * text) :=
  match l with
  | [] => None
  | c :: r =>
      if c =? dquote then Some ([], r)
      else if c =? backslash then
        match r with
        | [] => None
        | e :: r1 =>
            if e =? 117 then
              match r1 with
              | h1 :: h2 :: h3 :: h4 :: r2 =>
                  match hexValue h1, hexValue h2, hexValue h3, hexValue h4 with
                  | Some a, Some b, Some c', Some d =>
                      consChar (((a * 16 + b) * 16 + c') * 16 + d)
                               (parseChars r2)
                  | _, _, _, _ => None
                  end
              | _ => None
              end
            else
              match unescape e with
              | Some c' => consChar c' (parseChars r1)
              | None => None
              end
        end
      else if c <? 32 then None
      else consChar c (parseChars r)
  end.

(** The greedy run of decimal digits. *)
Fixpoint digitsRun (l : text) : text * text :=
  match l with
  | c :: r => if isDigit c then let '(ds, rest) := digitsRun r in (c :: ds, rest)
              else ([], l)
  | [] => ([], [])
  end.

(** A JSON number: an optional minus, then a zero or a digit run that
    does not start with zero, then an optional point with digits,
    then an optional exponent with an optional sign and digits. *)
Definition parseSign (l : text) : bool * text :=
  match l with
  | c :: r => if c =? 45 then (true, r) else (false, l)
  | [] => (false, l)
  end.

Definition parseInt (l : text) : option (text * text) :=
  match l with
  | c :: r => if c =? 48 then Some ([c], r)
              else if isDigit c then Some (digitsRun l)
              else None
  | [] => None
  end.

Definition parseFrac (l : text) : option (text * text) :=
  match l with
  | c :: r =>
      if c =? 46
      then match digitsRun r with
           | ([], _) => None
           | (fs, rest) => Some (fs, rest)
           end
      else Some ([], l)
  | [] => Some ([], l)
  end.

Definition parseExp (l : text) : option (Z * text) :=
  match l with
  | c :: r =>
      if (c =? 101) || (c =? 69)
      then
        let '(eneg, r1) :=
          match r with
          | s :: r' => if s =? 45 then (true, r')
                       else if s =? 43 then (false, r')
                       else (false, r)
          | [] => (false, r)
          end in
        match digitsRun r1 with
        | ([], _) => None
        | (es, rest) =>
            Some (if eneg then (- Z.of_N (digitsValue 0 es))%Z
                  else Z.of_N (digitsValue 0 es), rest)
        end
      else Some (0%Z, l)
  | [] => Some (0%Z, l)
  end.

Definition parseNumber (l : text) : option (number * text) :=
  let '(neg, l1) := parseSign l in
  match parseInt l1 with
  | None => None
  | Some (ints, l2) =>
      match parseFrac l2 with
      | None => None
      | Some (fracs, l3) =>
          match parseExp l3 with
          | None => None
          | Some (e, l4) =>
              Some (ofDecimal neg (Z.of_N (digitsValue 0 (ints ++ fracs)))
                              (e - Z.of_nat (List.length fracs))%Z, l4)
          end
      end
  end.

Definition literal (word : string) (v : value) (l : text) : parsed value :=
  if startsWith (lit word) l then POk v (skipn (List.length (lit word)) l)
  else PSyntaxError.

(** What comes of a step that went well, [k] applied to it. *)
Definition andThen {A B : Type} (p : parsed A) (k : A -> text -> parsed B)
  : parsed B :=
  match p with
  | POk a rest => k a rest
  | PSyntaxError => PSyntaxError
  | PFuel => PFuel
  end.

(** The parser descends by three functions that call one another: for a
    value, for the members of an object after its brace, for the
    elements of an array after its bracket.  Each is written here over
    the functions it calls. *)
Section Descent.
Variable value_ : text -> parsed value.
Variable members_ : text -> parsed (list (text * value)).
Variable elements_ : text -> parsed (list value).

Definition valueAt (l : text) : parsed value :=
  match skipWS l with
  | [] => PSyntaxError
  | c :: r =>
      if c =? 123 then
        match skipWS r with
        | d :: r' =>
            if d =? 125 then POk (VObj []) r'
            else andThen (members_ (d :: r'))
                         (fun ms rest => POk (VObj (makeObject ms)) rest)
        | [] => PSyntaxError
        end
      else if c =? 91 then
        match skipWS r with
        | d :: r' =>
            if d =? 93 then POk (VArr [] []) r'
            else andThen (elements_ (d :: r'))
                         (fun vs rest => POk (VArr vs []) rest)
        | [] => PSyntaxError
        end
      else if c =? dquote then
        match parseChars r with
        | Some (s, rest) => POk (VStr s) rest
        | None => PSyntaxError
        end
      else if c =? 116 then literal "true" (VBool true) (c :: r)
      else if c =? 102 then literal "false" (VBool false) (c :: r)
      else if c =? 110 then literal "null" VNull (c :: r)
      else
        match parseNumber (c :: r) with
        | Some (x, rest) => POk (VNum x) rest
        | None => PSyntaxError
        end
  end.

Definition membersAt (l : text) : parsed (list (text * value)) :=
  match skipWS l with
  | c :: r =>
      if c =? dquote then
        match parseChars r with
        | None => PSyntaxError
        | Some (k, r1) =>
            match skipWS r1 with
            | c1 :: r2 =>
                if c1 =? 58 then
                  andThen (value_ r2) (fun v r3 =>
                    match skipWS r3 with
                    | c3 :: r4 =>
                        if c3 =? 44 then
                          andThen (members_ r4)
                                  (fun ms rest => POk ((k, v) :: ms) rest)
                        else if c3 =? 125 then POk [(k, v)] r4
                        else PSyntaxError
                    | [] => PSyntaxError
                    end)
                else PSyntaxError
            | [] => PSyntaxError
            end
        end
      else PSyntaxError
  | [] => PSyntaxError
  end.

Definition elementsAt (l : text) : parsed (list value) :=
  andThen (value_ l) (fun v r1 =>
    match skipWS r1 with
    | c :: r2 =>
        if c =? 44 then
          andThen (elements_ r2) (fun vs rest => POk (v :: vs) rest)
        else if c =? 93 then POk [v] r2
        else PSyntaxError
    | [] => PSyntaxError
    end).
End Descent.

(** The three functions, with the depth of the calls bounded by
    [fuel]. *)
Fixpoint parseValue (fuel : nat) (l : text) : parsed value :=
  match fuel with
  | O => PFuel
  | S f => valueAt (parseMembers f) (parseElements f) l
  end

with parseMembers (fuel : nat) (l : text) : parsed (list (text * value)) :=
  match fuel with
  | O => PFuel
  | S f => membersAt (parseValue f) (parseMembers f) l
  end

with parseElements (fuel : nat) (l : text) : parsed (list value) :=
  match fuel with
  | O => PFuel
  | S f => elementsAt (parseValue f) (parseElements f) l
  end.

(** [JSON.parse(text)]: one value, then white space only.  Every call
    of the parser reads a code unit within two steps, so the fuel
    below is never used up (lemma [JSON_parse_fuel]). *)
Definition JSON_parse (t : text) : parsed value :=
  match parseValue (2 * List.length t + 1) t with
  | POk v rest =>
      match skipWS rest with
      | [] => POk v []
      | _ :: _ => PSyntaxError
      end
  | PSyntaxError => PSyntaxError
  | PFuel => PFuel
  end.

(** *** [JSON.stringify(value, null, 2)] *)

Definition hexDigit (d : N) : N := if d <? 10 then 48 + d else 87 + d.

(** [UnicodeEscape]: backslash, [u] and four lower-case hex digits. *)
Definition unicodeEscape (c : N) : text :=
  [backslash; 117; hexDigit (c / 4096 mod 16); hexDigit (c / 256 mod 16);
   hexDigit (c / 16 mod 16); hexDigit (c mod 16)].

Definition isHighSurrogate (c : N) : bool := (55296 <=? c) && (c <=? 56319).
Definition isLowSurrogate (c : N) : bool := (56320 <=? c) && (c <=? 57343).

Definition quoteUnit (c : N) : text :=
  if c =? 8 then [backslash; 98]
  else if c =? 9 then [backslash; 116]
  else if c =? 10 then [backslash; 110]
  else if c =? 12 then [backslash; 102]
  else if c =? 13 then [backslash; 114]
  else if c =? 34 then [backslash; 34]
  else if c =? 92 then [backslash; 92]
  else if c <? 32 then unicodeEscape c
  else [c].

(** [QuoteJSONString] without the quotes: a surrogate pair goes
    through, a lone surrogate is escaped. *)
Fixpoint quoteChars (l : text) : text :=
  match l with
  | [] => []
  | c :: r =>
      if isHighSurrogate c then
        match r with
        | d :: r' =>
            if isLowSurrogate d then c :: d :: quoteChars r'
            else unicodeEscape c ++ quoteChars r
        | [] => unicodeEscape c
        end
      else if isLowSurrogate c then unicodeEscape c ++ quoteChars r
      else quoteUnit c ++ quoteChars r
  end.

Definition quote (s : text) : text := [dquote] ++ quoteChars s ++ [dquote].

Fixpoint join (sep : text) (parts : list text) : text :=
  match parts with
  | [] => []
  | [p] => p
  | p :: ps => p ++ sep ++ join sep ps
  end.

Definition gap : text := [32; 32].

(** [SerializeJSONProperty] at the indentation [indent]. *)
Fixpoint serialize (indent : text) (v : value) : text :=
  match v with
  | VNull => lit "null"
  | VBool b => if b then lit "true" else lit "false"
  | VNum x => if isFinite x then toString x else lit "null"
  | VStr s => quote s
  | VArr elems _ =>
      match elems with
      | [] => lit "[]"
      | _ :: _ =>
          lit "[" ++ [LF] ++ (indent ++ gap)
          ++ join ([comma; LF] ++ (indent ++ gap))
                  (List.map (serialize (indent ++ gap)) elems)
          ++ [LF] ++ indent ++ lit "]"
      end
  | VObj props =>
      match props with
      | [] => lit "{}"
      | _ :: _ =>
          lit "{" ++ [LF] ++ (indent ++ gap)
          ++ join ([comma; LF] ++ (indent ++ gap))
                  (List.map (fun kv => quote (fst kv) ++ lit ": "
                                       ++ serialize (indent ++ gap) (snd kv))
                            props)
          ++ [LF] ++ indent ++ lit "}"
      end
  end.

Definition JSON_stringify (v : value) : text := serialize [] v.

End Json.
Import Json.

(** ** The patch of [tsconfig.app.json] *)

Inductive exn : Type :=
| SyntaxError                      (* JSON.parse *)
| TypeError                        (* a property of null or undefined *)
| CommandFailed (command : text)   (* execSync *)
| FsError (path : text).           (* fs and process.chdir *)

(** How a piece of the script ends. *)
Inductive outcome (A : Type) : Type :=
| Normal (a : A)
| Throws (e : exn)
| Exits (code : Z).
Arguments Throws {A}.
Arguments Exits {A}.

Module Patch.

Definition compilerOptions : text := lit "compilerOptions".
Definition baseUrl : text := lit "baseUrl".
Definition paths : text := lit "paths".

(** [{ '@/*': ['./src/*'] }] *)
Definition pathAlias : value :=
  VObj [(lit "@/*", VArr [VStr (lit "./src/*")] [])].

(** [JSON.parse] as the script sees it. *)
Definition parse (t : text) : outcome value :=
  match JSON_parse t with
  | POk v _ => Normal v
  | PSyntaxError | PFuel => Throws SyntaxError
  end.

(** [v.k], for the three keys above: none of them is an array index
    or [length], and no prototype has them. *)
Definition getProperty (v : value) (k : text) : outcome (option value) :=
  match v with
  | VNull => Throws TypeError
  | VBool _ | VNum _ | VStr _ => Normal None
  | VArr _ named => Normal (lookup k named)
  | VObj props => Normal (lookup k props)
  end.

(** [ToBoolean]; [None] is [undefined]. *)
Definition toBoolean (v : option value) : bool :=
  match v with
  | None | Some VNull => false
  | Some (VBool b) => b
  | Some (VNum x) => Number.truthy x
  | Some (VStr s) => match s with [] => false | _ :: _ => true end
  | Some (VArr _ _) | Some (VObj _) => true
  end.

(** [v.k = x] for the same keys.  The scripts are sloppy-mode code: an
    assignment to a property of a boolean, a number or a string does
    nothing and raises nothing. *)
Definition setProperty (v : value) (k : text) (x : value) : outcome value :=
  match v with
  | VNull => Throws TypeError
  | VBool _ | VNum _ | VStr _ => Normal v
  | VArr elems named => Normal (VArr elems (defineProperty k x named))
  | VObj props => Normal (VObj (defineProperty k x props))
  end.

(** [doc.k1.k2 = x].  [doc.k1] is read first; it is the object itself
    that the assignment changes, so the change shows in [doc]. *)
Definition assignNested (doc : value) (k1 k2 : text) (x : value)
  : outcome value :=
  match getProperty doc k1 with
  | Normal None => Throws TypeError
  | Normal (Some inner) =>
      match setProperty inner k2 x with
      | Normal inner' => setProperty doc k1 inner'
      | Throws e => Throws e
      | Exits c => Exits c
      end
  | Throws e => Throws e
  | Exits c => Exits c
  end.

(** Lines 149 to 151 of the Node script, 107 to 109 of the shell
    script. *)
Definition injectPathAlias (doc : value) : outcome value :=
  match getProperty doc compilerOptions with
  | Normal co =>
      match (if negb (toBoolean co)
             then setProperty doc compilerOptions (VObj [])
             else Normal doc) with
      | Normal doc1 =>
          match assignNested doc1 compilerOptions baseUrl (VStr (lit ".")) with
          | Normal doc2 => assignNested doc2 compilerOptions paths pathAlias
          | other => other
          end
      | other => other
      end
  | Throws e => Throws e
  | Exits c => Exits c
  end.

(** From the text read to the text written, with the trailing-comma
    pass of the entry point at hand. *)
Definition patchWith (stripTrailingCommas : text -> text) (content : text)
  : outcome text :=
  match parse (stripTrailingCommas (stripComments content)) with
  | Normal doc =>
      match injectPathAlias doc with
      | Normal doc' => Normal (JSON_stringify doc')
      | Throws e => Throws e
      | Exits c => Exits c
      end
  | Throws e => Throws e
  | Exits c => Exits c
  end.

(** The Node script, line 146: [replace(/,(s*[}\]])/g, '$1')]. *)
Definition stripTrailingCommas_node (t : text) : text :=
  replaceAll (trailingComma isLetterS) t.

(** The shell script, line 105, once the shell has read the double
    quoted program: [replace(/,(\s*[}\]])/g, '$1')]. *)
Definition stripTrailingCommas_sh (t : text) : text :=
  replaceAll (trailingComma isWhiteSpace) t.

Definition patch_node : text -> outcome text := patchWith stripTrailingCommas_node.
Definition patch_sh : text -> outcome text := patchWith stripTrailingCommas_sh.

End Patch.
Import Patch.

(** ** The scripts and their environment *)

(** What a script writes into a file: a literal of the script, named
    after the constant or the here-document that holds it, or a text it
    computes.  No property below depends on the wording of a literal. *)
Inductive content : Type :=
| Literal (name : string)
| Computed (t : text)
| IndexHtml (html projectName emoji : text)
| Readme (emoji projectName : text).

(** Everything a run does to, or learns from, the machine, in order.
    [Print line] is a line that [console.log] writes.  [Echo i a] is
    the builtin [echo] of the shell called with the argument [a], with
    the option [-e] when [i] holds: the shell then replaces the
    backslash escapes of [a] before it writes the line, so the event
    records what [echo] is given, not what reaches the terminal. *)
Inductive event : Type :=
| Print (line : text)
| Exec (command : text) (ok : bool)
| Chdir (dir : text) (ok : bool)
| Exists (path : text) (answer : bool)
| IsDirectory (path : text) (answer : bool)
| Read (path : text) (result : option text)
| Write (path : text) (c : content) (ok : bool)
| Mkdir (path : text) (ok : bool)
| Unlink (path : text) (ok : bool)
| Random (roll : nat)
| Platform (name : text)
| Echo (interpret : bool) (argument : text).

Definition trace := list event.

(** The machine: the arguments of the invocation and, given what has
    happened so far, the answer to each request.  A command or a file
    operation that fails answers [false] or [None].  [scriptPath] is
    the path the shell script was called by, its [$0]; [fileName] is
    the base name of the file that holds the Node script,
    [path.basename(__filename)]. *)
Record environment : Type := {
  args : list text;
  platform : text;
  execOk : trace -> text -> bool;
  chdirOk : trace -> text -> bool;
  existsNow : trace -> text -> bool;
  isDirectoryNow : trace -> text -> bool;
  readNow : trace -> text -> option text;
  writeOk : trace -> text -> content -> bool;
  mkdirOk : trace -> text -> bool;
  unlinkOk : trace -> text -> bool;
  randomNow : trace -> nat;
  wslDistroName : text;
  errorMessage : exn -> text;
  scriptPath : text;
  fileName : text
}.

(** A step of a script: from the trace so far to how it ends and the
    trace then. *)
Definition script (A : Type) : Type := environment -> trace -> outcome A * trace.

Module Run.

Definition ret {A} (a : A) : script A := fun _ h => (Normal a, h).

Definition bind {A B} (m : script A) (f : A -> script B) : script B :=
  fun E h =>
    match m E h with
    | (Normal a, h') => f a E h'
    | (Throws e, h') => (Throws e, h')
    | (Exits c, h') => (Exits c, h')
    end.

Definition throw {A} (e : exn) : script A := fun _ h => (Throws e, h).

(** [process.exit(code)], [exit code] *)
Definition exit {A} (code : Z) : script A := fun _ h => (Exits code, h).

(** [try { body } catch (error) { handler(error) }] *)
Definition tryCatch {A} (body : script A) (handler : exn -> script A)
  : script A :=
  fun E h =>
    match body E h with
    | (Throws e, h') => handler e E h'
    | other => other
    end.

Definition lift {A} (o : outcome A) : script A := fun _ h => (o, h).

Definition ask {A} (f : environment -> A) : script A :=
  fun E h => (Normal (f E), h).

Definition print (line : text) : script unit :=
  fun _ h => (Normal tt, h ++ [Print line]).

(** [echo argument] and [echo -e argument] of the shell. *)
Definition echo (interpret : bool) (argument : text) : script unit :=
  fun _ h => (Normal tt, h ++ [Echo interpret argument]).

(** A request that succeeds or throws. *)
Definition attempt (ok : environment -> trace -> bool) (e : bool -> event)
           (err : exn) : script unit :=
  fun E h =>
    if ok E h then (Normal tt, h ++ [e true])
    else (Throws err, h ++ [e false]).

Definition execSync (command : text) : script unit :=
  attempt (fun E h => execOk E h command) (Exec command)
          (CommandFailed command).

Definition chdir (dir : text) : script unit :=
  attempt (fun E h => chdirOk E h dir) (Chdir dir) (FsError dir).

Definition writeFileSync (path : text) (c : content) : script unit :=
  attempt (fun E h => writeOk E h path c) (Write path c) (FsError path).

Definition mkdirSync (path : text) : script unit :=
  attempt (fun E h => mkdirOk E h path) (Mkdir path) (FsError path).

Definition unlinkSync (path : text) : script unit :=
  attempt (fun E h => unlinkOk E h path) (Unlink path) (FsError path).

Definition existsSync (path : text) : script bool :=
  fun E h => let b := existsNow E h path in (Normal b, h ++ [Exists path b]).

Definition isDirectory (path : text) : script bool :=
  fun E h =>
    let b := isDirectoryNow E h path in (Normal b, h ++ [IsDirectory path b]).

Definition readFileSync (path : text) : script text :=
  fun E h =>
    match readNow E h path with
    | Some c => (Normal c, h ++ [Read path (Some c)])
    | None => (Throws (FsError path), h ++ [Read path None])
    end.

Definition random : script nat :=
  fun E h => let r := randomNow E h in (Normal r, h ++ [Random r]).

Definition osPlatform : script text :=
  fun E h => (Normal (platform E), h ++ [Platform (platform E)]).

End Run.
Import Run.

Declare Scope script_scope.
Delimit Scope script_scope with script.
Notation "x <- m ;; k" := (bind m (fun x => k))
  (at level 61, m at next level, right associativity) : script_scope.
Notation "m ;; k" := (bind m (fun _ => k))
  (at level 61, right associativity) : script_scope.
Local Open Scope script_scope.

(** The [when] of the scripts: [if (b) step]. *)
Definition when (b : bool) (step : script unit) : script unit :=
  if b then step else ret tt.

(** The emoji of the project.  Both scripts draw it from the same
    catalogue of eighty; only its place in the catalogue matters here,
    and [emojiAt i] stands for the entry at place [i]. *)
Definition catalogueSize : nat := 80.
Definition emojiAt (i : nat) : text := lit "emoji#" ++ Number.decimal (Z.of_nat i).

(** *** [setup-react.js] *)

Module Node.

Definition esc : N := 27.
Definition red : text := esc :: lit "[31m".
Definition green : text := esc :: lit "[32m".
Definition yellow : text := esc :: lit "[33m".
Definition blue : text := esc :: lit "[34m".
Definition reset : text := esc :: lit "[0m".

Definition printStatus (message : text) : script unit :=
  print (blue ++ lit "[INFO]" ++ reset ++ lit " " ++ message).
Definition printSuccess (message : text) : script unit :=
  print (green ++ lit "[SUCCESS]" ++ reset ++ lit " " ++ message).
Definition printWarning (message : text) : script unit :=
  print (yellow ++ lit "[WARNING]" ++ reset ++ lit " " ++ message).
Definition printError (message : text) : script unit :=
  print (red ++ lit "[ERROR]" ++ reset ++ lit " " ++ message).

(** [commandExists]: [which], then [where]. *)
Definition commandExists (command : text) : script bool :=
  tryCatch (execSync (lit "which " ++ command) ;; ret true)
    (fun _ => tryCatch (execSync (lit "where " ++ command) ;; ret true)
                       (fun _ => ret false)).

Definition quoted (t : text) : text := [dquote] ++ t ++ [dquote].

(** [copyToClipboard]: [Some command] is the command chosen, [None]
    an early [return false]. *)
Definition clipboardCommand (t : text) : script (option text) :=
  p <- osPlatform ;;
  if text_eqb p (lit "darwin")
  then ret (Some (lit "echo " ++ quoted t ++ lit " | pbcopy"))
  else if text_eqb p (lit "win32")
  then ret (Some (lit "echo " ++ t ++ lit " | clip"))
  else if text_eqb p (lit "linux")
  then
    xclip <- commandExists (lit "xclip") ;;
    if xclip
    then ret (Some (lit "echo " ++ quoted t ++ lit " | xclip -selection clipboard"))
    else
      xsel <- commandExists (lit "xsel") ;;
      if xsel
      then ret (Some (lit "echo " ++ quoted t ++ lit " | xsel --clipboard --input"))
      else ret None
  else ret None.

Definition copyToClipboard (t : text) : script bool :=
  tryCatch
    (c <- clipboardCommand t ;;
     match c with
     | Some command => execSync command ;; ret true
     | None => ret false
     end)
    (fun _ => ret false).

Definition stripTrailingCommas : text -> text := stripTrailingCommas_node.

(** [JSON.stringify(tsConfig, null, 2)] of line 140. *)
Definition tsConfig : value :=
  VObj [(lit "files", VArr [] []);
        (lit "references",
         VArr [VObj [(lit "path", VStr (lit "./tsconfig.app.json"))];
               VObj [(lit "path", VStr (lit "./tsconfig.node.json"))]] []);
        (lit "compilerOptions",
         VObj [(lit "baseUrl", VStr (lit "."));
               (lit "paths", pathAlias)])].

(** Lines 103 to 140: what comes before the patch. *)
Definition scaffold (projectName : text) : script unit :=
  printStatus (lit "Creating Vite project...") ;;
  execSync (lit "npm create vite@latest " ++ quoted projectName
            ++ lit " -- --template react-ts") ;;
  chdir projectName ;;
  printStatus (lit "Installing dependencies...") ;;
  execSync (lit "npm install tailwindcss @tailwindcss/vite") ;;
  execSync (lit "npm install -D @types/node") ;;
  execSync (lit "npm install lucide-react") ;;
  printStatus (lit "Setting up Tailwind CSS...") ;;
  writeFileSync (lit "src/index.css") (Literal "tailwindCSS") ;;
  printStatus (lit "Configuring TypeScript...") ;;
  writeFileSync (lit "tsconfig.json") (Computed (JSON_stringify tsConfig)).

(** Lines 143 to 152: the patch of [tsconfig.app.json]. *)
Definition updateAppConfig : script unit :=
  appConfigContent <- readFileSync (lit "tsconfig.app.json") ;;
  patched <- lift (patchWith stripTrailingCommas appConfigContent) ;;
  writeFileSync (lit "tsconfig.app.json") (Computed patched).

(** Lines 154 to 392: what comes after the patch. *)
Definition finish (projectName : text) : script text :=
  printStatus (lit "Configuring Vite...") ;;
  writeFileSync (lit "vite.config.ts") (Literal "viteConfig") ;;
  execSync (lit "npm install") ;;
  printStatus (lit "Setting up shadcn/ui...") ;;
  execSync (lit "npx shadcn@latest init --yes --base-color neutral") ;;
  printStatus (lit "Adding essential shadcn/ui components...") ;;
  execSync (lit "npx shadcn@latest add button card input label dropdown-menu --yes") ;;
  printStatus (lit "Adding dark mode support...") ;;
  components <- existsSync (lit "src/components") ;;
  when (negb components) (mkdirSync (lit "src/components")) ;;
  writeFileSync (lit "src/components/theme-provider.tsx") (Literal "themeProvider") ;;
  writeFileSync (lit "src/components/mode-toggle.tsx") (Literal "modeToggle") ;;
  roll <- random ;;
  let randomEmoji := emojiAt (roll mod catalogueSize) in
  printStatus (lit "Setting page title and favicon...") ;;
  htmlContent <- readFileSync (lit "index.html") ;;
  writeFileSync (lit "index.html") (IndexHtml htmlContent projectName randomEmoji) ;;
  printStatus (lit "Creating starter app...") ;;
  writeFileSync (lit "src/App.tsx") (Literal "appComponent") ;;
  appCss <- existsSync (lit "src/App.css") ;;
  when appCss (unlinkSync (lit "src/App.css")) ;;
  viteSvg <- existsSync (lit "public/vite.svg") ;;
  when viteSvg (unlinkSync (lit "public/vite.svg")) ;;
  reactSvg <- existsSync (lit "src/assets/react.svg") ;;
  when reactSvg (unlinkSync (lit "src/assets/react.svg")) ;;
  printStatus (lit "Writing README...") ;;
  writeFileSync (lit "README.md") (Readme randomEmoji projectName) ;;
  ret randomEmoji.

(** Lines 394 to 406. *)
Definition announce (projectName randomEmoji : text) : script unit :=
  printSuccess (lit "All done! " ++ randomEmoji) ;;
  printSuccess [] ;;
  let nextCommand := lit "cd " ++ projectName ++ lit " && npm run dev" in
  copied <- copyToClipboard nextCommand ;;
  (if copied
   then printSuccess (lit "Next command copied to clipboard! Just paste and run:") ;;
        printSuccess (lit "  " ++ nextCommand)
   else printSuccess (lit "Next steps:") ;;
        printSuccess (lit "  cd " ++ projectName) ;;
        printSuccess (lit "  npm run dev")) ;;
  printSuccess [].

(** Lines 103 to 392: everything before the last messages. *)
Definition build (projectName : text) : script text :=
  scaffold projectName ;;
  updateAppConfig ;;
  finish projectName.

(** The [try] block and its handler, lines 102 to 411. *)
Definition setup (projectName : text) : script unit :=
  tryCatch
    (randomEmoji <- build projectName ;;
     announce projectName randomEmoji)
    (fun error =>
       message <- ask (fun E => errorMessage E error) ;;
       printError (lit "Setup failed: " ++ message) ;;
       exit 1).

(** [setupReactProject].  [args] holds what follows the name of the
    script on the command line: [process.argv.length < 3] says that
    it is empty. *)
Definition setupReactProject : script unit :=
  argv <- ask args ;;
  match argv with
  | [] =>
      printError (lit "Need a project name") ;;
      name <- ask fileName ;;
      print (lit "Usage: node " ++ name ++ lit " <project-name>") ;;
      exit 1
  | projectName :: _ =>
      taken <- existsSync projectName ;;
      if taken
      then printError (lit "Directory '" ++ projectName ++ lit "' already exists") ;;
           exit 1
      else printStatus (lit "Setting up React TypeScript project: " ++ projectName) ;;
           setup projectName
  end.

(** The run of the script on a machine, and the status the process
    ends with: a script that comes to its end exits with zero; an
    exception never leaves [setupReactProject]. *)
Definition run (E : environment) : outcome unit * trace :=
  setupReactProject E [].

Definition exitStatus (o : outcome unit) : Z :=
  match o with
  | Normal _ => 0
  | Throws _ => 1
  | Exits code => code
  end.

End Node.

(** *** The shell script

    It runs under [set -e]: a command that fails outside a condition
    ends the script with the status of that command, which [Throws]
    records here. *)

Module Shell.

(** The colours, as the single quotes of lines 10 to 14 leave them:
    the backslash and the digits stay as they are written, and it is
    [echo -e] that makes the escape character of them. *)
Definition RED : text := lit "\033[0;31m".
Definition GREEN : text := lit "\033[0;32m".
Definition YELLOW : text := lit "\033[1;33m".
Definition BLUE : text := lit "\033[0;34m".
Definition NC : text := lit "\033[0m".

(** Lines 38 to 41: [echo -e] of the colours, the tag and [$1]. *)
Definition print_status (message : text) : script unit :=
  echo true (BLUE ++ lit "[INFO]" ++ NC ++ lit " " ++ message).
Definition print_success (message : text) : script unit :=
  echo true (GREEN ++ lit "[SUCCESS]" ++ NC ++ lit " " ++ message).
Definition print_warning (message : text) : script unit :=
  echo true (YELLOW ++ lit "[WARNING]" ++ NC ++ lit " " ++ message).
Definition print_error (message : text) : script unit :=
  echo true (RED ++ lit "[ERROR]" ++ NC ++ lit " " ++ message).

(** A command used as a condition: its failure is an answer. *)
Definition succeeds (command : text) : script bool :=
  tryCatch (execSync command ;; ret true) (fun _ => ret false).

Definition hasCommand (name : text) : script bool :=
  succeeds (lit "command -v " ++ name).

(** [copy_to_clipboard].  It is called as the condition of an [if],
    where [set -e] is off: a clipboard tool that fails is followed by
    [return 0] all the same. *)
Definition copy_to_clipboard (t : text) : script bool :=
  let pipe tool := (_ <- succeeds (lit "echo " ++ Node.quoted t ++ lit " | " ++ tool) ;;
                    ret true) in
  pbcopy <- hasCommand (lit "pbcopy") ;;
  if pbcopy then pipe (lit "pbcopy")
  else
    xclip <- hasCommand (lit "xclip") ;;
    if xclip then pipe (lit "xclip -selection clipboard")
    else
      xsel <- hasCommand (lit "xsel") ;;
      if xsel then pipe (lit "xsel --clipboard --input")
      else
        wsl <- ask wslDistroName ;;
        match wsl with
        | [] => ret false
        | _ :: _ =>
            clip <- hasCommand (lit "clip.exe") ;;
            if clip then pipe (lit "clip.exe") else ret false
        end.

Definition stripTrailingCommas : text -> text := stripTrailingCommas_sh.

(** Lines 101 to 111: [node -e].  An exception that nothing catches
    ends [node] with status 1. *)
Definition updateAppConfig : script unit :=
  tryCatch
    (content <- readFileSync (lit "tsconfig.app.json") ;;
     patched <- lift (patchWith stripTrailingCommas content) ;;
     writeFileSync (lit "tsconfig.app.json") (Computed patched))
    (fun _ => exit 1).

Definition hereDoc (path : text) (name : string) : script unit :=
  writeFileSync path (Literal name).

Definition rm (path : text) : script unit := unlinkSync path.

(** The words of the array [EMOJIS]: the commas that separate the
    entries in the script belong to the words, the last one apart. *)
Definition EMOJIS (i : nat) : text :=
  emojiAt i ++ (if (i <? 79)%nat then lit "," else []).

Definition setup (PROJECT_NAME : text) : script unit :=
  print_status (lit "Setting up React TypeScript project: " ++ PROJECT_NAME) ;;
  print_status (lit "Creating Vite project...") ;;
  execSync (lit "npm create vite@latest " ++ Node.quoted PROJECT_NAME
            ++ lit " -- --template react-ts") ;;
  chdir PROJECT_NAME ;;
  print_status (lit "Installing dependencies...") ;;
  execSync (lit "npm install tailwindcss @tailwindcss/vite") ;;
  execSync (lit "npm install -D @types/node") ;;
  execSync (lit "npm install lucide-react") ;;
  print_status (lit "Setting up Tailwind CSS...") ;;
  hereDoc (lit "src/index.css") "src/index.css" ;;
  print_status (lit "Configuring TypeScript...") ;;
  hereDoc (lit "tsconfig.json") "tsconfig.json" ;;
  updateAppConfig ;;
  print_status (lit "Configuring Vite...") ;;
  hereDoc (lit "vite.config.ts") "vite.config.ts" ;;
  execSync (lit "npm install") ;;
  print_status (lit "Setting up shadcn/ui...") ;;
  execSync (lit "npx shadcn@latest init --yes --base-color neutral") ;;
  print_status (lit "Adding essential shadcn/ui components...") ;;
  execSync (lit "npx shadcn@latest add button card input label dropdown-menu --yes") ;;
  print_status (lit "Adding dark mode support...") ;;
  mkdirSync (lit "src/components") ;;
  hereDoc (lit "src/components/theme-provider.tsx") "src/components/theme-provider.tsx" ;;
  hereDoc (lit "src/components/mode-toggle.tsx") "src/components/mode-toggle.tsx" ;;
  roll <- random ;;
  let RANDOM_EMOJI := EMOJIS (roll mod catalogueSize) in
  print_status (lit "Setting page title and favicon...") ;;
  execSync (lit "sed -i '' <title> index.html") ;;
  execSync (lit "sed -i '' <link rel=icon> index.html") ;;
  print_status (lit "Creating starter app...") ;;
  hereDoc (lit "src/App.tsx") "src/App.tsx" ;;
  rm (lit "src/App.css") ;;
  rm (lit "public/vite.svg") ;;
  rm (lit "src/assets/react.svg") ;;
  print_status (lit "Writing README...") ;;
  writeFileSync (lit "README.md") (Readme RANDOM_EMOJI PROJECT_NAME) ;;
  print_success (lit "All done! " ++ RANDOM_EMOJI) ;;
  print_success [] ;;
  let NEXT_COMMAND := lit "cd " ++ PROJECT_NAME ++ lit " && npm run dev" in
  copied <- copy_to_clipboard NEXT_COMMAND ;;
  (if copied
   then print_success (lit "Next command copied to clipboard! Just paste and run:") ;;
        print_success (lit "  " ++ NEXT_COMMAND)
   else print_success (lit "Next steps:") ;;
        print_success (lit "  cd " ++ PROJECT_NAME) ;;
        print_success (lit "  npm run dev")) ;;
  print_success [].

(** Lines 45 to 56, then the rest.  [args] holds the positional
    parameters, [scriptPath] is [$0]. *)
Definition main : script unit :=
  argv <- ask args ;;
  match argv with
  | [] =>
      print_error (lit "Need a project name") ;;
      name <- ask scriptPath ;;
      echo false (lit "Usage: " ++ name ++ lit " <project-name>") ;;
      exit 1
  | PROJECT_NAME :: _ =>
      taken <- isDirectory PROJECT_NAME ;;
      if taken
      then print_error (lit "Directory '" ++ PROJECT_NAME ++ lit "' already exists") ;;
           exit 1
      else setup PROJECT_NAME
  end.

Definition run (E : environment) : outcome unit * trace := main E [].

End Shell.


(** ** Notions the statements use *)

(** Concrete JSON texts of this development are written with an
    apostrophe where the file has a quotation mark. *)
Definition q (s : string) : text :=
  List.map (fun c => if c =? 39 then 34 else c) (lit s).

(** *** Key paths of a document *)

(** [v[k]]: a property of an object, an element or a named property of
    an array. *)
Definition member (v : value) (k : text) : option value :=
  match v with
  | VObj props => lookup k props
  | VArr elems named =>
      match arrayIndex k with
      | Some i => nth_error elems (N.to_nat i)
      | None => lookup k named
      end
  | _ => None
  end.

Fixpoint getPath (v : value) (path : list text) : option value :=
  match path with
  | [] => Some v
  | k :: rest =>
      match member v k with
      | Some x => getPath x rest
      | None => None
      end
  end.

(** What can hold a property. *)
Definition holdsProperties (v : value) : Prop :=
  match v with
  | VArr _ _ | VObj _ => True
  | _ => False
  end.

(** A value of [compilerOptions] that is truthy and no object: [true],
    a number other than zero, a string that is not empty. *)
Definition truthyPrimitive (co : option value) : bool :=
  match co with
  | Some (VBool _) | Some (VNum _) | Some (VStr _) => toBoolean co
  | _ => false
  end.

Definition isArray (v : option value) : bool :=
  match v with
  | Some (VArr _ _) => true
  | _ => false
  end.

(** The key paths the patch may change: the document, [compilerOptions],
    and [compilerOptions.baseUrl] and [compilerOptions.paths] with what
    lies below them. *)
Definition touched (path : list text) : bool :=
  match path with
  | [] => true
  | k1 :: rest =>
      text_eqb k1 compilerOptions &&
      match rest with
      | [] => true
      | k2 :: _ => text_eqb k2 baseUrl || text_eqb k2 paths
      end
  end.

(** *** Comments in a text *)

(** [cut isComment t out]: [out] is [t] with some segments left out,
    each of which is a comment. *)
Inductive cut (isComment : text -> Prop) : text -> text -> Prop :=
| cut_nil : cut isComment [] []
| cut_keep c t out : cut isComment t out -> cut isComment (c :: t) (c :: out)
| cut_drop seg t out :
    isComment seg -> cut isComment t out -> cut isComment (seg ++ t) out.

(** A block comment: from an opener to the first closer after it. *)
Definition isBlockComment (seg : text) : Prop :=
  exists body, seg = [slash; star] ++ body ++ [star; slash]
               /\ occurs [star; slash] (body ++ [star]) = false.

Definition notLineTerminator (c : N) : bool := negb (isLineTerminator c).

(** A line comment: two slashes and what follows on the line. *)
Definition isLineComment (seg : text) : Prop :=
  exists body, seg = [slash; slash] ++ body
               /\ forallb notLineTerminator body = true.

(** What ends a line comment: the end of the text or a line
    terminator. *)
Definition atLineEnd (rest : text) : Prop :=
  match rest with
  | [] => True
  | c :: _ => isLineTerminator c = true
  end.

(** A line comment where it stands: two slashes and everything up to
    the end of the line. *)
Definition lineCommentBefore (seg rest : text) : Prop :=
  isLineComment seg /\ atLineEnd rest.

(** [cutWhere isComment t out]: [out] is [t] with some segments left
    out, each of which is a comment before what follows it in [t]. *)
Inductive cutWhere (isComment : text -> text -> Prop) : text -> text -> Prop :=
| cutWhere_nil : cutWhere isComment [] []
| cutWhere_keep c t out :
    cutWhere isComment t out -> cutWhere isComment (c :: t) (c :: out)
| cutWhere_drop seg t out :
    isComment seg t -> cutWhere isComment t out ->
    cutWhere isComment (seg ++ t) out.






Fixpoint endsWith (c : N) (t : text) : bool :=
  match t with
  | [] => false
  | [d] => d =? c
  | _ :: r => endsWith c r
  end.






(** *** Runs of the scripts *)

(** The lines of [printError] and [printSuccess], of [print_error]. *)
Definition nodeError (message : text) : event :=
  Print (Node.red ++ lit "[ERROR]" ++ Node.reset ++ lit " " ++ message).
Definition nodeSuccess (message : text) : event :=
  Print (Node.green ++ lit "[SUCCESS]" ++ Node.reset ++ lit " " ++ message).
Definition shellError (message : text) : event :=
  Echo true (Shell.RED ++ lit "[ERROR]" ++ Shell.NC ++ lit " " ++ message).

(** The trace of the Node script once its two checks have passed. *)
Definition started (projectName : text) : trace :=
  [Exists projectName false;
   Print (Node.blue ++ lit "[INFO]" ++ Node.reset ++ lit " "
          ++ lit "Setting up React TypeScript project: " ++ projectName)].

(** A machine on which every command and every file operation
    succeeds; only [tsconfig.app.json] can be read, with the content
    given. *)
Definition machine (argv : list text) (os : text) (appConfig : text)
  : environment :=
  {| args := argv;
     platform := os;
     execOk := fun _ _ => true;
     chdirOk := fun _ _ => true;
     existsNow := fun _ _ => false;
     isDirectoryNow := fun _ _ => false;
     readNow := fun _ path =>
       if text_eqb path (lit "tsconfig.app.json") then Some appConfig
       else Some (lit "<html></html>");
     writeOk := fun _ _ _ => true;
     mkdirOk := fun _ _ => true;
     unlinkOk := fun _ _ => true;
     randomNow := fun _ => 7%nat;
     wslDistroName := [];
     errorMessage := fun e =>
       match e with
       | SyntaxError => lit "Unexpected end of JSON input"
       | TypeError => lit "Cannot set properties of undefined"
       | CommandFailed c => lit "Command failed: " ++ c
       | FsError p => lit "ENOENT: no such file or directory, open '" ++ p ++ lit "'"
       end;
     scriptPath := lit "./setup-react.sh";
     fileName := lit "setup-react.js" |}.

(** The same machine with something in the way: [entry] says that the
    project name exists, [directory] that it is a directory. *)
Definition machineWith (entry directory : bool) (argv : list text)
  : environment :=
  {| args := argv;
     platform := lit "linux";
     execOk := fun _ _ => true;
     chdirOk := fun _ _ => true;
     existsNow := fun _ _ => entry;
     isDirectoryNow := fun _ _ => directory;
     readNow := fun _ _ => None;
     writeOk := fun _ _ _ => true;
     mkdirOk := fun _ _ => true;
     unlinkOk := fun _ _ => true;
     randomNow := fun _ => 7%nat;
     wslDistroName := [];
     errorMessage := fun _ => lit "error";
     scriptPath := lit "./setup-react.sh";
     fileName := lit "setup-react.js" |}.

(** An event that changes the machine: a command, a change of
    directory, a write, a new directory, a removal. *)
Definition changesMachine (e : event) : bool :=
  match e with
  | Exec _ _ | Chdir _ _ | Write _ _ _ | Mkdir _ _ | Unlink _ _ => true
  | _ => false
  end.

(** *** The parser and its fuel *)

(** [settled p p']: [p'] is [p], unless [p] ran out of fuel. *)
Definition settled {A : Type} (p p' : parsed A) : Prop :=
  p = PFuel \/ p' = p.

(** A step that reads at least one code unit. *)
Definition shortens {A : Type} (g : text -> parsed A) : Prop :=
  forall l a rest, g l = POk a rest -> (List.length rest < List.length l)%nat.

(** *** What [JSON.stringify] writes and [JSON.parse] reads back *)

(** What follows a value in the text [JSON.stringify] writes: nothing,
    a comma or a line feed. *)
Definition separated (rest : text) : bool :=
  match rest with
  | [] => true
  | c :: _ => (c =? comma) || (c =? LF)
  end.

(** The first code unit of a JSON value. *)
Definition valueStart (c : N) : bool :=
  (c =? 123) || (c =? 91) || (c =? dquote) || (c =? 116) || (c =? 102)
  || (c =? 110) || (c =? 45) || isDigit c.

(** A number that [JSON.stringify] prints as a number, in digits that
    [JSON.parse] reads as the same number. *)
Definition readsBack (x : number) : bool :=
  isFinite x &&
  match parseNumber (toString x) with
  | Some (y, []) => sameValue x y
  | _ => false
  end.

(** The document that [JSON.stringify] shows: the named properties of
    arrays are left out. *)
Fixpoint shown (v : value) : value :=
  match v with
  | VArr elems _ => VArr (List.map shown elems) []
  | VObj props => VObj (List.map (fun kv => (fst kv, shown (snd kv))) props)
  | _ => v
  end.

(** Every number of the shown document reads back. *)
Fixpoint numbersReadBack (v : value) : bool :=
  match v with
  | VNum x => readsBack x
  | VArr elems _ => forallb numbersReadBack elems
  | VObj props => forallb (fun kv => numbersReadBack (snd kv)) props
  | _ => true
  end.

(** The number that is read back from what [JSON.stringify] writes
    for a number: an infinity is written as [null], and the sign of a
    zero is not written. *)
Definition writtenNumber (x : number) : value :=
  match x with
  | S754_zero _ => VNum (S754_zero false)
  | S754_finite _ _ _ => VNum x
  | _ => VNull
  end.

(** The document as [JSON.stringify] writes it: as it is shown, with
    the numbers as they are written. *)
Fixpoint written (v : value) : value :=
  match v with
  | VNum x => writtenNumber x
  | VArr elems _ => VArr (List.map written elems) []
  | VObj props => VObj (List.map (fun kv => (fst kv, written (snd kv))) props)
  | _ => v
  end.

(** Every number of the shown document is a binary64 value. *)
Fixpoint numbersValid (v : value) : bool :=
  match v with
  | VNum x => valid_binary prec emax x
  | VArr elems _ => forallb numbersValid elems
  | VObj props => forallb (fun kv => numbersValid (snd kv)) props
  | _ => true
  end.

(** A number that [JSON.stringify] writes as [null]: an infinity. *)
Definition unwritable (co : option value) : bool :=
  match co with
  | Some (VNum x) => negb (isFinite x)
  | _ => false
  end.

(** A text that starts with the first code unit of a value. *)
Definition startsValue (t : text) : Prop :=
  exists d r, t = d :: r /\ valueStart d = true.

(** The claim of the round trip for one value: the parser reads its text, at any
    indentation and before anything that a value can stand before, as
    the value shown. *)
Definition reads (v : value) : Prop :=
  forall indent rest,
    forallb isJsonWS indent = true -> separated rest = true ->
    exists f0, forall f, (f0 <= f)%nat ->
      parseValue f (serialize indent v ++ rest) = POk (shown v) rest.

(** The order of the keys of an object: array indices in ascending
    order, then the other keys, no key twice. *)
Definition keyBefore (a b : text) : Prop :=
  match arrayIndex a, arrayIndex b with
  | Some i, Some j => i < j
  | Some _, None => True
  | None, Some _ => False
  | None, None => a <> b
  end.

Definition ordered (props : list (text * value)) : Prop :=
  StronglySorted keyBefore (List.map fst props).

(** What a step of the parser yields has the property [P]. *)
Definition yields {A : Type} (P : A -> Prop) (g : text -> parsed A) : Prop :=
  forall l a rest, g l = POk a rest -> P a.

(** A document all of whose objects have their keys in order. *)
Unset Elimination Schemes.
Inductive wellKeyed : value -> Prop :=
| wk_null : wellKeyed VNull
| wk_bool b : wellKeyed (VBool b)
| wk_num x : wellKeyed (VNum x)
| wk_str s : wellKeyed (VStr s)
| wk_arr elems named :
    Forall wellKeyed elems -> wellKeyed (VArr elems named)
| wk_obj props :
    ordered props -> Forall (fun kv => wellKeyed (snd kv)) props ->
    wellKeyed (VObj props).
Set Elimination Schemes.


(** ** Further notions: the document, the passes, the runs *)

(** *** Keys of a document *)

(** The keys of an object once the key [k] has been assigned: where it
    was if it was there, at the end if it was not. *)
Definition withKey (k : text) (keys : list text) : list text :=
  if existsb (text_eqb k) keys then keys else keys ++ [k].

(** *** What a pass removes *)

(** The one segment the trailing-comma pass leaves out. *)
Definition isComma (seg : text) : Prop := seg = [comma].

Definition notComma (c : N) : bool := negb (c =? comma).

(** *** Watching a run

    A monitor reads the events of a run one after the other; it is in
    a state, and an event leads it to the next state or is refused.  A
    property of all runs of a script is shown by a monitor that refuses
    nothing the script does. *)

Section Watch.
Variable S : Type.
Variable next : S -> event -> option S.

Fixpoint observe (s : S) (h : trace) : option S :=
  match h with
  | [] => Some s
  | ev :: r =>
      match next s ev with
      | Some s' => observe s' r
      | None => None
      end
  end.

Variable start : S.
Variable E : environment.

(** [follows s m q r x]: when the monitor is in state [s] after the
    trace so far, it refuses nothing of what [m] adds, and the state it
    is left in satisfies [q], [r] or [x], as [m] returns, throws or
    exits. *)
Definition follows (A : Type) (s : S) (m : script A)
           (q : A -> S -> Prop) (r : exn -> S -> Prop) (x : Z -> S -> Prop)
  : Prop :=
  forall h, observe start h = Some s ->
    match m E h with
    | (Normal a, h') => exists s', observe start h' = Some s' /\ q a s'
    | (Throws e, h') => exists s', observe start h' = Some s' /\ r e s'
    | (Exits c, h') => exists s', observe start h' = Some s' /\ x c s'
    end.
End Watch.

Arguments observe {S} next s h.
Arguments follows {S} next start E {A} s m q r x.

(** *** Failures *)

(** A command that a script runs to learn something or to fill the
    clipboard: its failure is an answer and stops nothing. *)
Definition isProbe (command : text) : bool :=
  startsWith (lit "which ") command || startsWith (lit "where ") command
  || startsWith (lit "command -v ") command || startsWith (lit "echo ") command.

(** A step that has failed: a command that is no probe, a change of
    directory, a read, a write, a new directory, a removal. *)
Definition failure (ev : event) : bool :=
  match ev with
  | Exec c false => negb (isProbe c)
  | Chdir _ false | Read _ None | Write _ _ false
  | Mkdir _ false | Unlink _ false => true
  | _ => false
  end.

Definition noFailure (h : trace) : bool :=
  forallb (fun ev => negb (failure ev)) h.

(** The monitor of failures: after a failure, one line may be printed,
    and nothing else may happen. *)
Inductive progress : Type := Running | Failed | Reported.

Definition afterFailure (s : progress) (ev : event) : option progress :=
  match s with
  | Running => Some (if failure ev then Failed else Running)
  | Failed => match ev with Print _ => Some Reported | _ => None end
  | Reported => None
  end.

(** *** The working directory *)

(** A request about a file of its own: a read, a write, a new
    directory, a removal. *)
Definition touchesFiles (ev : event) : bool :=
  match ev with
  | Read _ _ | Write _ _ _ | Mkdir _ _ | Unlink _ _ => true
  | _ => false
  end.

(** The monitor of the working directory: [None] as long as the script
    is where it was started, [Some d] once it has entered [d].  It
    refuses a request about a file before the script has entered a
    directory, and a second change of directory. *)
Definition entering (s : option text) (ev : event) : option (option text) :=
  match ev with
  | Chdir d true =>
      match s with
      | None => Some (Some d)
      | Some _ => None
      end
  | _ =>
      if touchesFiles ev
      then match s with
           | Some _ => Some s
           | None => None
           end
      else Some s
  end.


(** *** Looking before removing *)

(** The monitor of removals and new directories: its state is the
    last event when that was the answer to [existsSync].  It refuses a
    removal that does not follow the answer that the file exists, and a
    new directory that does not follow the answer that it does not. *)
Definition guarded (s : option (text * bool)) (ev : event)
  : option (option (text * bool)) :=
  match ev with
  | Exists p b => Some (Some (p, b))
  | Unlink p _ =>
      match s with
      | Some (p', true) => if text_eqb p p' then Some None else None
      | _ => None
      end
  | Mkdir p _ =>
      match s with
      | Some (p', false) => if text_eqb p p' then Some None else None
      | _ => None
      end
  | _ => Some None
  end.

(** A machine like [machine], on which the files that [present]
    accepts exist. *)
Definition machineWithFiles (argv : list text) (os : text) (appConfig : text)
           (present : text -> bool) : environment :=
  {| args := argv;
     platform := os;
     execOk := fun _ _ => true;
     chdirOk := fun _ _ => true;
     existsNow := fun _ path => present path;
     isDirectoryNow := fun _ _ => false;
     readNow := fun _ path =>
       if text_eqb path (lit "tsconfig.app.json") then Some appConfig
       else Some (lit "<html></html>");
     writeOk := fun _ _ _ => true;
     mkdirOk := fun _ _ => true;
     unlinkOk := fun _ _ => true;
     randomNow := fun _ => 7%nat;
     wslDistroName := [];
     errorMessage := fun _ => lit "error";
     scriptPath := lit "./setup-react.sh";
     fileName := lit "setup-react.js" |}.

(** *** The configuration read and written *)

Definition appConfigPath : text := lit "tsconfig.app.json".

Definition isOutput (o : outcome text) (out : text) : bool :=
  match o with
  | Normal t => text_eqb t out
  | _ => false
  end.

(** The monitor of [tsconfig.app.json]: its state is the text just
    read from that file.  It refuses a write to the file that is not
    the patch of the text just read. *)
Definition patching (patch : text -> outcome text) (s : option text)
           (ev : event) : option (option text) :=
  match ev with
  | Read p (Some t) => Some (if text_eqb p appConfigPath then Some t else None)
  | Write p c _ =>
      if text_eqb p appConfigPath
      then match s, c with
           | Some t, Computed out =>
               if isOutput (patch t) out then Some None else None
           | _, _ => None
           end
      else Some None
  | _ => Some None
  end.

(** *** The clipboard *)

(** The command that the last messages offer, line 397. *)
Definition nextCommand (projectName : text) : text :=
  lit "cd " ++ projectName ++ lit " && npm run dev".

(** The commands that [copyToClipboard] builds for a text, one for
    macOS, one for Windows and two for Linux.  The one for Windows has
    the text without quotation marks. *)
Definition clipboardCommands (t : text) : list text :=
  [lit "echo " ++ Node.quoted t ++ lit " | pbcopy";
   lit "echo " ++ t ++ lit " | clip";
   lit "echo " ++ Node.quoted t ++ lit " | xclip -selection clipboard";
   lit "echo " ++ Node.quoted t ++ lit " | xsel --clipboard --input"].

Definition isClipboardCommand (t c : text) : bool :=
  existsb (text_eqb c) (clipboardCommands t).

(** The line that says that the next command is in the clipboard. *)
Definition copiedLine : text :=
  Node.green ++ lit "[SUCCESS]" ++ Node.reset ++ lit " "
  ++ lit "Next command copied to clipboard! Just paste and run:".

(** The monitor of that line: its state says that the last event was
    one of the clipboard commands for the text [t], and that it
    succeeded.  It refuses the line anywhere else. *)
Definition claiming (t : text) (s : bool) (ev : event) : option bool :=
  match ev with
  | Exec c ok => Some (ok && isClipboardCommand t c)
  | Print line =>
      if text_eqb line copiedLine
      then (if s then Some false else None)
      else Some false
  | _ => Some false
  end.

(** The trace of the Node script once everything before the clipboard
    has succeeded: [h] is the trace of [build]. *)
Definition announced (h : trace) (randomEmoji : text) : trace :=
  h ++ [nodeSuccess (lit "All done! " ++ randomEmoji); nodeSuccess []].

(** The last lines of the Node script when nothing was copied. *)
Definition nextSteps (projectName : text) : trace :=
  [nodeSuccess (lit "Next steps:");
   nodeSuccess (lit "  cd " ++ projectName);
   nodeSuccess (lit "  npm run dev");
   nodeSuccess []].

(** What [commandExists] leaves in the trace when the command is not
    there. *)
Definition notFound (command : text) : trace :=
  [Exec (lit "which " ++ command) false; Exec (lit "where " ++ command) false].

(** A machine like [machine], on which the commands that [fails]
    accepts fail. *)
Definition machineFailing (fails : text -> bool) (argv : list text) (os : text)
           (appConfig : text) : environment :=
  {| args := argv;
     platform := os;
     execOk := fun _ command => negb (fails command);
     chdirOk := fun _ _ => true;
     existsNow := fun _ _ => false;
     isDirectoryNow := fun _ _ => false;
     readNow := fun _ path =>
       if text_eqb path (lit "tsconfig.app.json") then Some appConfig
       else Some (lit "<html></html>");
     writeOk := fun _ _ _ => true;
     mkdirOk := fun _ _ => true;
     unlinkOk := fun _ _ => true;
     randomNow := fun _ => 7%nat;
     wslDistroName := [];
     errorMessage := fun _ => lit "error";
     scriptPath := lit "./setup-react.sh";
     fileName := lit "setup-react.js" |}.


(** ** The page: [index.html], lines 303 to 309 of [setup-react.js]

    [htmlContent.replace(pattern, replacement)] with a regular
    expression that has no [g] flag and no group, and whose source is a
    sequence of literal characters: the first occurrence of that
    sequence is replaced; in the replacement, a dollar sign with the
    character after it can stand for something else. *)

Definition dollar : N := 36.

(** [GetSubstitution] when there are no captures and no named groups:
    [$$] is a dollar sign, [$&] the match, [$`] what stands before it,
    [$'] what stands after it; any other dollar sign stays. *)
Fixpoint getSubstitution (matched before after template : text) : text :=
  match template with
  | [] => []
  | c :: r =>
      if c =? dollar
      then match r with
           | d :: r' =>
               if d =? dollar
               then dollar :: getSubstitution matched before after r'
               else if d =? 38
               then matched ++ getSubstitution matched before after r'
               else if d =? 96
               then before ++ getSubstitution matched before after r'
               else if d =? 39
               then after ++ getSubstitution matched before after r'
               else dollar :: getSubstitution matched before after r
           | [] => [dollar]
           end
      else c :: getSubstitution matched before after r
  end.

(** The first occurrence of [pattern]: what stands before it and what
    stands after it. *)
Fixpoint findFirst (pattern t : text) : option (text * text) :=
  if startsWith pattern t
  then Some ([], skipn (List.length pattern) t)
  else match t with
       | [] => None
       | c :: r =>
           match findFirst pattern r with
           | Some (before, after) => Some (c :: before, after)
           | None => None
           end
       end.

Definition replaceFirst (pattern template t : text) : text :=
  match findFirst pattern t with
  | Some (before, after) =>
      before ++ getSubstitution pattern before after template ++ after
  | None => t
  end.

(** [/<title>Vite \+ React \+ TS<\/title>/] and its replacement *)
Definition titlePattern : text := lit "<title>Vite + React + TS</title>".
Definition titleTemplate (projectName : text) : text :=
  lit "<title>" ++ projectName ++ lit "</title>".

(** [/<link rel="icon" type="image\/svg\+xml" href="\/vite\.svg" \/>/]
    and its replacement *)
Definition iconPattern : text :=
  q "<link rel='icon' type='image/svg+xml' href='/vite.svg' />".
Definition iconTemplate (emoji : text) : text :=
  q "<link rel='icon' href='data:image/svg+xml,<svg xmlns=%22http://www.w3.org/2000/svg%22 viewBox=%220 0 100 100%22><text y=%22.9em%22 font-size=%2290%22>"
  ++ emoji ++ q "</text></svg>'>".

(** The text that [IndexHtml html projectName emoji] stands for. *)
Definition indexHtml (html projectName emoji : text) : text :=
  replaceFirst iconPattern (iconTemplate emoji)
               (replaceFirst titlePattern (titleTemplate projectName) html).

Definition hasDollar (t : text) : bool := existsb (fun c => c =? dollar) t.

(** A pattern no end of which is a beginning of it: two occurrences of
    it cannot overlap. *)
Definition unbordered (p : text) : bool :=
  forallb (fun j => negb (startsWith (skipn j p) p))
          (seq 1 (List.length p - 1)).

(** ** The error line *)

(** What [printError] puts before its message. *)
Definition errorPrefix : text :=
  Node.red ++ lit "[ERROR]" ++ Node.reset ++ lit " ".

(** The monitor of error lines: its state says that one has been
    printed.  It refuses nothing. *)
Definition reporting (s : bool) (ev : event) : option bool :=
  match ev with
  | Print line => Some (startsWith errorPrefix line || s)
  | _ => Some s
  end.

(** ** The clipboard of the shell script *)

(** A clipboard tool has been found: [command -v] has succeeded. *)
Definition toolFound (added : trace) : bool :=
  existsb (fun ev =>
             match ev with
             | Exec c true => startsWith (lit "command -v ") c
             | _ => false
             end) added.

(** ** Creating and entering *)

(** The monitor of the change of directory: its state says that the
    last event was [npm create vite@latest] and that it succeeded.  It
    refuses a change of directory anywhere else. *)
Definition creating (s : bool) (ev : event) : option bool :=
  match ev with
  | Exec c ok => Some (ok && startsWith (lit "npm create vite@latest ") c)
  | Chdir _ _ => if s then Some false else None
  | _ => Some false
  end.


(** ** What a run has done *)

(** A command of the package manager. *)
Definition isPackageCommand (command : text) : bool :=
  startsWith (lit "npm ") command || startsWith (lit "npx ") command.

(** The commands of the package manager that have succeeded and the
    files that have been written, in the order of the run. *)
Definition commandsRun (h : trace) : list text :=
  flat_map (fun ev =>
              match ev with
              | Exec c true => if isPackageCommand c then [c] else []
              | _ => []
              end) h.

Definition filesWritten (h : trace) : list text :=
  flat_map (fun ev =>
              match ev with
              | Write p _ true => [p]
              | _ => []
              end) h.

(** The monitor that keeps both lists; it refuses nothing. *)
Definition recording (s : list text * list text) (ev : event)
  : option (list text * list text) :=
  match ev with
  | Exec c true =>
      Some (if isPackageCommand c then (fst s ++ [c], snd s) else s)
  | Write p _ true => Some (fst s, snd s ++ [p])
  | _ => Some s
  end.

(** The commands of a complete run, the same in both scripts. *)
Definition allCommands (projectName : text) : list text :=
  [lit "npm create vite@latest " ++ Node.quoted projectName
   ++ lit " -- --template react-ts";
   lit "npm install tailwindcss @tailwindcss/vite";
   lit "npm install -D @types/node";
   lit "npm install lucide-react";
   lit "npm install";
   lit "npx shadcn@latest init --yes --base-color neutral";
   lit "npx shadcn@latest add button card input label dropdown-menu --yes"].

(** The files a complete run of the Node script writes. *)
Definition nodeFiles : list text :=
  [lit "src/index.css"; lit "tsconfig.json"; lit "tsconfig.app.json";
   lit "vite.config.ts"; lit "src/components/theme-provider.tsx";
   lit "src/components/mode-toggle.tsx"; lit "index.html"; lit "src/App.tsx";
   lit "README.md"].

(** The files a complete run of the shell script writes; it changes
    [index.html] in place, with [sed]. *)
Definition shellFiles : list text :=
  [lit "src/index.css"; lit "tsconfig.json"; lit "tsconfig.app.json";
   lit "vite.config.ts"; lit "src/components/theme-provider.tsx";
   lit "src/components/mode-toggle.tsx"; lit "src/App.tsx"; lit "README.md"].


(** *** Numbers and their digits *)

Section NumberText.
Local Open Scope Z_scope.

(** The exponent that a binary64 value of a given magnitude has. *)
Definition fexp64 (e : Z) : Z := fexp prec emax e.

(** [xn / xd] lies between [10 ^ (n - 1)] and [10 ^ n]. *)
Definition betweenPowers (xn xd n : Z) : Prop :=
  if 0 <? n then xd * 10 ^ (n - 1) <= xn < xd * 10 ^ n
  else xd <= xn * 10 ^ (1 - n) /\ xn * 10 ^ (- n) < xd.

(** [xn / xd] scaled so that its first [k] digits stand before the
    point, as [pick] does it. *)
Definition scaled (xn xd n k : Z) : Z * Z :=
  if k <=? n then (xn, xd * 10 ^ (n - k)) else (xn * 10 ^ (k - n), xd).

(** The test of [pick]: the candidate reads back as [x]. *)
Definition readsAs (x : number) (k : Z) (c : Z * Z) : bool :=
  sameValue (ofDecimal false (fst c) (snd c - k)) x.

(** The two candidates of [pick]. *)
Definition lowerCandidate (xn xd n k : Z) : Z * Z :=
  let '(sn, sd) := scaled xn xd n k in (sn / sd, n).

Definition upperCandidate (xn xd n k : Z) : Z * Z :=
  let '(sn, sd) := scaled xn xd n k in
  if sn / sd + 1 <? 10 ^ k then (sn / sd + 1, n) else (10 ^ (k - 1), n + 1).

(** The number that a run of digits names. *)
Definition numeral (l : text) : Z := Z.of_N (digitsValue 0 l).

(** What a run of digits ends before: nothing, or a code unit that is
    no digit. *)
Definition noDigitNext (rest : text) : Prop :=
  match rest with
  | [] => True
  | c :: _ => isDigit c = false
  end.

(** The text of [Number::toString] for the digits [s], [k] of them,
    and the exponent [n], as [positiveToString] lays it out. *)
Definition layout (s n k : Z) : text :=
  let ds := digitsOf (Z.to_nat k) s in
  if (k <=? n) && (n <=? 21) then ds ++ zeros (n - k)
  else if (0 <? n) && (n <=? 21)
  then firstn (Z.to_nat n) ds ++ lit "." ++ skipn (Z.to_nat n) ds
  else if (-6 <? n) && (n <=? 0) then lit "0." ++ zeros (- n) ++ ds
  else
    let ex := lit "e" ++ (if 0 <=? n - 1 then lit "+" else lit "-")
              ++ decimal (Z.abs (n - 1)) in
    if k =? 1 then ds ++ ex
    else firstn 1 ds ++ lit "." ++ skipn 1 ds ++ ex.

End NumberText.

(** A document whose numbers are binary64 values. *)
Definition validNumbers (v : value) : Prop := numbersValid v = true.


(** * Properties *)

Unset Implicit Arguments.

(** ** Keys and properties *)

Lemma text_eqb_eq (a b : text) : text_eqb a b = true <-> a = b.
Proof.
  revert b; induction a as [|x a IH]; intros [|y b]; simpl; split;
    try easy.
  - rewrite andb_true_iff, N.eqb_eq, IH. now intros [-> ->].
  - intros [= -> ->]. rewrite N.eqb_refl. now apply IH.
Qed.

Lemma text_eqb_refl (a : text) : text_eqb a a = true.
Proof. now apply text_eqb_eq. Qed.

Lemma text_eqb_neq (a b : text) : a <> b -> text_eqb a b = false.
Proof.
  intros H. destruct (text_eqb a b) eqn:E; [|reflexivity].
  now apply text_eqb_eq in E.
Qed.

Lemma text_eqb_sym (a b : text) : text_eqb a b = text_eqb b a.
Proof.
  destruct (text_eqb a b) eqn:E.
  - apply text_eqb_eq in E. subst. now rewrite text_eqb_refl.
  - destruct (text_eqb b a) eqn:E'; [|reflexivity].
    apply text_eqb_eq in E'. subst. now rewrite text_eqb_refl in E.
Qed.

Section Properties.
Variables (k : text) (v : value).

Lemma lookup_replaceValue_same props :
  hasKey k props = true -> lookup k (replaceValue k v props) = Some v.
Proof.
  unfold hasKey. induction props as [|[k' v'] r IH]; simpl; [easy|].
  destruct (text_eqb k k') eqn:E; simpl; rewrite E; auto.
Qed.

Lemma lookup_replaceValue_other k' props :
  k' <> k -> lookup k' (replaceValue k v props) = lookup k' props.
Proof.
  intros Hne. induction props as [|[k2 v2] r IH]; simpl; [easy|].
  destruct (text_eqb k k2) eqn:E; simpl.
  - apply text_eqb_eq in E. subst k2. now rewrite (text_eqb_neq _ _ Hne).
  - now rewrite IH.
Qed.

Lemma lookup_insertIndex_same i props :
  hasKey k props = false -> lookup k (insertIndex i k v props) = Some v.
Proof.
  unfold hasKey. induction props as [|[k' v'] r IH]; simpl.
  - now rewrite text_eqb_refl.
  - destruct (text_eqb k k') eqn:E; [easy|]. intros H.
    destruct (arrayIndex k') as [j|]; [destruct (j <? i)|]; simpl;
      rewrite ?E, ?text_eqb_refl; auto.
Qed.

Lemma lookup_insertIndex_other i k' props :
  k' <> k -> lookup k' (insertIndex i k v props) = lookup k' props.
Proof.
  intros Hne. induction props as [|[k2 v2] r IH]; simpl.
  - now rewrite (text_eqb_neq _ _ Hne).
  - destruct (arrayIndex k2) as [j|]; [destruct (j <? i)|]; simpl;
      rewrite ?IH, ?(text_eqb_neq _ _ Hne); auto.
Qed.

Lemma lookup_app_same props :
  hasKey k props = false -> lookup k (props ++ [(k, v)]) = Some v.
Proof.
  unfold hasKey. induction props as [|[k' v'] r IH]; simpl.
  - now rewrite text_eqb_refl.
  - destruct (text_eqb k k'); [easy|auto].
Qed.

Lemma lookup_app_other k' props :
  k' <> k -> lookup k' (props ++ [(k, v)]) = lookup k' props.
Proof.
  intros Hne. induction props as [|[k2 v2] r IH]; simpl.
  - now rewrite (text_eqb_neq _ _ Hne).
  - now rewrite IH.
Qed.

(** A property that has been defined is there, with its value. *)
Lemma lookup_defineProperty_same props :
  lookup k (defineProperty k v props) = Some v.
Proof.
  unfold defineProperty. destruct (hasKey k props) eqn:H.
  - now apply lookup_replaceValue_same.
  - destruct (arrayIndex k).
    + now apply lookup_insertIndex_same.
    + now apply lookup_app_same.
Qed.

(** Defining a property leaves the others as they are. *)
Lemma lookup_defineProperty_other k' props :
  k' <> k -> lookup k' (defineProperty k v props) = lookup k' props.
Proof.
  intros Hne. unfold defineProperty. destruct (hasKey k props).
  - now apply lookup_replaceValue_other.
  - destruct (arrayIndex k).
    + now apply lookup_insertIndex_other.
    + now apply lookup_app_other.
Qed.
End Properties.

(** ** The injection of the path alias *)

Lemma getProperty_member D k o :
  arrayIndex k = None -> getProperty D k = Normal o -> o = member D k.
Proof.
  intros Hk. destruct D; simpl; try congruence; now rewrite ?Hk; intros [= <-].
Qed.

Lemma setProperty_same D k x D' :
  arrayIndex k = None -> holdsProperties D ->
  setProperty D k x = Normal D' -> member D' k = Some x.
Proof.
  intros Hk HD. destruct D; simpl in *; try easy; intros [= <-]; simpl;
    rewrite ?Hk; apply lookup_defineProperty_same.
Qed.

Lemma setProperty_other D k x D' k' :
  arrayIndex k = None -> k' <> k ->
  setProperty D k x = Normal D' -> member D' k' = member D k'.
Proof.
  intros Hk Hne. destruct D; simpl; try congruence; intros [= <-]; simpl;
    try reflexivity.
  - destruct (arrayIndex k'); [reflexivity|].
    now apply lookup_defineProperty_other.
  - now apply lookup_defineProperty_other.
Qed.

Lemma setProperty_holds D k x D' :
  setProperty D k x = Normal D' -> holdsProperties D -> holdsProperties D'.
Proof. destruct D; simpl; try easy; now intros [= <-]. Qed.

Lemma member_holds D k x : member D k = Some x -> holdsProperties D.
Proof. destruct D; simpl; easy. Qed.

(** [doc.k1.k2 = x]: what it needs and what it leaves. *)
Lemma assignNested_spec D k1 k2 x D' :
  arrayIndex k1 = None -> arrayIndex k2 = None ->
  assignNested D k1 k2 x = Normal D' ->
  exists inner inner',
    member D k1 = Some inner /\ setProperty inner k2 x = Normal inner' /\
    member D' k1 = Some inner' /\
    (forall k, k <> k1 -> member D' k = member D k).
Proof.
  intros H1 H2. unfold assignNested.
  destruct (getProperty D k1) as [[inner|]| |] eqn:G; try easy.
  apply (getProperty_member _ _ _ H1) in G.
  destruct (setProperty inner k2 x) as [inner'| |] eqn:S; try easy.
  intros HD'. exists inner, inner'. repeat split; auto.
  - apply (setProperty_same _ _ _ _ H1) in HD'; auto.
    symmetry in G. now apply member_holds in G.
  - intros k Hk. now apply (setProperty_other _ _ _ _ _ H1 Hk) in HD'.
Qed.

Lemma arrayIndex_compilerOptions : arrayIndex compilerOptions = None.
Proof. reflexivity. Qed.
Lemma arrayIndex_baseUrl : arrayIndex baseUrl = None.
Proof. reflexivity. Qed.
Lemma arrayIndex_paths : arrayIndex paths = None.
Proof. reflexivity. Qed.

Lemma baseUrl_neq_paths : baseUrl <> paths.
Proof. easy. Qed.

(** The three statements of the injection, read off a successful run:
    [c0] is what [compilerOptions] holds once line 149 is done. *)
Lemma injectPathAlias_spec D D' :
  injectPathAlias D = Normal D' ->
  exists c0 c1 c2,
    (c0 = (if toBoolean (member D compilerOptions)
           then match member D compilerOptions with Some c => c | None => VNull end
           else VObj [])) /\
    setProperty c0 baseUrl (VStr (lit ".")) = Normal c1 /\
    setProperty c1 paths pathAlias = Normal c2 /\
    member D' compilerOptions = Some c2 /\
    (forall k, k <> compilerOptions -> member D' k = member D k).
Proof.
  unfold injectPathAlias.
  destruct (getProperty D compilerOptions) as [co| |] eqn:G; try easy.
  apply (getProperty_member _ _ _ arrayIndex_compilerOptions) in G. subst co.
  destruct (if negb (toBoolean (member D compilerOptions)) then _ else _)
    as [doc1| |] eqn:S1; try easy.
  destruct (assignNested doc1 _ _ _) as [doc2| |] eqn:A1; try easy.
  intros A2.
  apply assignNested_spec in A1; [|reflexivity..].
  apply assignNested_spec in A2; [|reflexivity..].
  destruct A1 as (i1 & i1' & M1 & S1' & M1' & F1).
  destruct A2 as (i2 & i2' & M2 & S2' & M2' & F2).
  rewrite M1' in M2. injection M2 as <-.
  exists i1, i1', i2'. repeat split; auto.
  - destruct (toBoolean (member D compilerOptions)) eqn:T; simpl in S1.
    + injection S1 as <-. now rewrite M1.
    + assert (Hh : holdsProperties D).
      { destruct D; simpl in *; try easy; now injection S1 as <-. }
      apply (setProperty_same _ _ _ _ arrayIndex_compilerOptions Hh) in S1.
      congruence.
  - intros k Hk. rewrite (F2 k Hk), (F1 k Hk).
    destruct (toBoolean (member D compilerOptions)); simpl in S1.
    + now injection S1 as <-.
    + now apply (setProperty_other _ _ _ _ _ arrayIndex_compilerOptions Hk) in S1.
Qed.


(** ** The alias and the keys around it *)

Lemma holds_not_truthyPrimitive (D : value) (c0 : value) :
  truthyPrimitive (member D compilerOptions) = false ->
  c0 = (if toBoolean (member D compilerOptions)
        then match member D compilerOptions with Some c => c | None => VNull end
        else VObj []) ->
  holdsProperties c0.
Proof.
  intros Hp ->. destruct (member D compilerOptions) as [[]|]; simpl in *;
    try easy; rewrite Hp; easy.
Qed.

Lemma member_truthy (c : value) (k : text) (x : value) :
  member c k = Some x -> toBoolean (Some c) = true.
Proof. destruct c; simpl; easy. Qed.

(** C3, amended.  Every key path of the document other than
    [compilerOptions] itself, [compilerOptions.baseUrl] and
    [compilerOptions.paths] with what lies below them, leads to the same
    value after the patch. *)
Theorem unrelated_keys_kept (D D' : value) (K : list text) (V : value) :
  injectPathAlias D = Normal D' ->
  touched K = false ->
  getPath D K = Some V ->
  getPath D' K = Some V.
Proof.
  intros HI HK HV. apply injectPathAlias_spec in HI.
  destruct HI as (c0 & c1 & c2 & H0 & S1 & S2 & M & F).
  destruct K as [|k1 rest]; [easy|]. simpl in HK, HV |- *.
  destruct (text_eqb k1 compilerOptions) eqn:E1.
  - apply text_eqb_eq in E1. subst k1.
    destruct rest as [|k2 rest']; [easy|]. simpl in HK.
    apply orb_false_iff in HK as [E2 E3].
    assert (N2 : k2 <> baseUrl) by (intros ->; now rewrite text_eqb_refl in E2).
    assert (N3 : k2 <> paths) by (intros ->; now rewrite text_eqb_refl in E3).
    rewrite M. destruct (member D compilerOptions) as [c|] eqn:Mc; [|easy].
    simpl in HV |- *.
    destruct (member c k2) as [x|] eqn:Mx; [|easy].
    rewrite (member_truthy _ _ _ Mx) in H0. subst c0.
    rewrite (setProperty_other _ _ _ _ _ arrayIndex_paths N3 S2).
    rewrite (setProperty_other _ _ _ _ _ arrayIndex_baseUrl N2 S1).
    now rewrite Mx.
  - rewrite F; [exact HV|]. intros ->. now rewrite text_eqb_refl in E1.
Qed.

Lemma unrelated_keys_kept_witness :
  getPath (VObj [(lit "include", VArr [VStr (lit "src")] []);
                 (compilerOptions,
                  VObj [(lit "target", VStr (lit "ES2020"));
                        (baseUrl, VStr (lit "."));
                        (paths, pathAlias)])])
          [compilerOptions; lit "target"] = Some (VStr (lit "ES2020")).
Proof.
  apply (unrelated_keys_kept
           (VObj [(lit "include", VArr [VStr (lit "src")] []);
                  (compilerOptions,
                   VObj [(lit "target", VStr (lit "ES2020"))])]));
    reflexivity.
Defined.

(** C3 as stated fails on [{"compilerOptions": null}]: the key
    [compilerOptions] is neither of the two, it maps to [null] before
    the patch and to a mapping after it. *)
Lemma unrelated_keys_kept_counterexample :
  parse (q "{'compilerOptions': null}") = Normal (VObj [(compilerOptions, VNull)]) /\
  getPath (VObj [(compilerOptions, VNull)]) [compilerOptions] = Some VNull /\
  injectPathAlias (VObj [(compilerOptions, VNull)])
  = Normal (VObj [(compilerOptions,
                   VObj [(baseUrl, VStr (lit ".")); (paths, pathAlias)])]) /\
  getPath (VObj [(compilerOptions,
                  VObj [(baseUrl, VStr (lit ".")); (paths, pathAlias)])])
          [compilerOptions] <> Some VNull.
Proof. repeat split; try (vm_compute; reflexivity). easy. Qed.


(** ** The scan of a global replace *)

Arguments N.eqb : simpl never.
Arguments N.ltb : simpl never.
Arguments N.leb : simpl never.

Section ReplaceAll.
Variable m : matcher.

Lemma replaceFrom_skipn (k : nat) (l : text) :
  replaceFrom m k l = replaceFrom m 0 (skipn k l).
Proof.
  revert k; induction l as [|c r IH]; intros [|k]; simpl; try reflexivity.
  apply IH.
Qed.

Lemma replaceAll_nil : replaceAll m [] = [].
Proof. reflexivity. Qed.

(** One step of the scan: a match is replaced and skipped, any other
    code unit is kept. *)
Lemma replaceAll_cons (c : N) (r : text) :
  replaceAll m (c :: r) =
  match m (c :: r) with
  | Some (len, repl) => repl ++ replaceAll m (skipn (pred len) r)
  | None => c :: replaceAll m r
  end.
Proof.
  unfold replaceAll; simpl. destruct (m (c :: r)) as [[len repl]|];
    [|reflexivity].
  now rewrite replaceFrom_skipn.
Qed.

(** A matcher that needs the two code units [a], [b] to start leaves
    alone a prefix that has them nowhere. *)
Lemma replaceAll_prefix (a b : N) (p rest : text) :
  (forall l, startsWith [a; b] l = false -> m l = None) ->
  occurs [a; b] p = false ->
  endsWith a p = false \/ startsWith [b] rest = false ->
  replaceAll m (p ++ rest) = p ++ replaceAll m rest.
Proof.
  intros Hm. induction p as [|c p IH]; intros Ho He; [reflexivity|].
  simpl app. rewrite replaceAll_cons.
  simpl occurs in Ho. apply orb_false_iff in Ho as [Hs Ho].
  rewrite Hm.
  - f_equal. apply IH; [exact Ho|].
    destruct p as [|d p]; [now left|exact He].
  - destruct p as [|d p]; [|exact Hs].
    simpl. destruct He as [He|He].
    + simpl in He. rewrite N.eqb_sym, He. reflexivity.
    + simpl in He. destruct rest; simpl in *; [now rewrite andb_false_r|].
      rewrite andb_true_r in He. now rewrite He, andb_false_r.
Qed.
End ReplaceAll.

Lemma skipn_app_length {A} (a b : list A) : skipn (List.length a) (a ++ b) = b.
Proof. induction a; simpl; auto. Qed.

Lemma firstn_app_length {A} (a b : list A) : firstn (List.length a) (a ++ b) = a.
Proof. induction a; simpl; f_equal; auto. Qed.

(** ** Block comments *)

Lemma occurs_cons (p : text) (c : N) (r : text) :
  occurs p (c :: r) = startsWith p (c :: r) || occurs p r.
Proof. reflexivity. Qed.

Lemma findClose_cons (a : N) (r : text) :
  findClose (a :: r) =
  if (a =? star) && startsWith [slash] r then Some 2%nat
  else option_map S (findClose r).
Proof. reflexivity. Qed.

Lemma startsWith_two (a b c : N) (l : text) :
  startsWith [a; b] (c :: l) = (a =? c) && startsWith [b] l.
Proof. reflexivity. Qed.

Lemma startsWith_one_app (b : N) (l x y : text) :
  x <> [] -> y <> [] -> hd 0 x = hd 0 y ->
  startsWith [b] (l ++ x) = startsWith [b] (l ++ y).
Proof.
  destruct l; simpl; [|reflexivity].
  destruct x, y; simpl; try easy. now intros _ _ ->.
Qed.

Lemma findClose_first (body post : text) :
  occurs [star; slash] (body ++ [star]) = false ->
  findClose (body ++ star :: slash :: post) = Some (List.length body + 2)%nat.
Proof.
  induction body as [|a body IH]; intros Ho.
  - reflexivity.
  - simpl app in *. rewrite occurs_cons in Ho.
    apply orb_false_iff in Ho as [Hs Ho].
    rewrite findClose_cons, (IH Ho).
    rewrite startsWith_two in Hs.
    rewrite (startsWith_one_app slash body (star :: slash :: post) [star]),
      (N.eqb_sym a star), Hs; easy.
Qed.

Lemma findClose_split (l : text) (k : nat) :
  findClose l = Some k ->
  exists body post,
    l = body ++ star :: slash :: post /\ k = (List.length body + 2)%nat
    /\ occurs [star; slash] (body ++ [star]) = false.
Proof.
  revert k; induction l as [|a r IH]; intros k; [easy|].
  rewrite findClose_cons.
  destruct ((a =? star) && startsWith [slash] r) eqn:E.
  - intros [= <-]. apply andb_true_iff in E as [Ea Er].
    apply N.eqb_eq in Ea. subst a.
    destruct r as [|d r]; [easy|]. simpl in Er. rewrite andb_true_r in Er.
    apply N.eqb_eq in Er. subst d.
    exists [], r. repeat split.
  - destruct (findClose r) as [k'|]; [|easy]. intros [= <-].
    destruct (IH k' eq_refl) as (body & post & -> & -> & Ho).
    exists (a :: body), post. repeat split. simpl app.
    rewrite occurs_cons, Ho, orb_false_r, startsWith_two.
    rewrite (startsWith_one_app slash body [star] (star :: slash :: post)),
      (N.eqb_sym star a), E; easy.
Qed.

Lemma blockComment_needs (l : text) :
  startsWith [slash; star] l = false -> blockComment l = None.
Proof.
  destruct l as [|a [|b r]]; simpl; try reflexivity.
  rewrite andb_true_r, (N.eqb_sym slash a), (N.eqb_sym star b).
  now intros ->.
Qed.

(** The first pass takes a comment out whole and goes on behind it. *)
Lemma stripBlockComments_block (body post : text) :
  occurs [star; slash] (body ++ [star]) = false ->
  stripBlockComments ([slash; star] ++ body ++ [star; slash] ++ post)
  = stripBlockComments post.
Proof.
  intros Ho. unfold stripBlockComments.
  change ([slash; star] ++ body ++ [star; slash] ++ post)
    with (slash :: star :: body ++ star :: slash :: post).
  rewrite replaceAll_cons.
  unfold blockComment. rewrite !N.eqb_refl, (findClose_first body post Ho).
  cbn [andb option_map app pred Nat.add].
  change (star :: body ++ star :: slash :: post)
    with ((star :: body) ++ [star; slash] ++ post).
  rewrite app_assoc.
  replace (S (List.length body + 2))
    with (List.length ((star :: body) ++ [star; slash]))
    by (rewrite length_app; simpl; lia).
  now rewrite skipn_app_length.
Qed.

Lemma stripBlockComments_plain (p rest : text) :
  occurs [slash; star] p = false ->
  endsWith slash p = false \/ startsWith [star] rest = false ->
  stripBlockComments (p ++ rest) = p ++ stripBlockComments rest.
Proof. apply replaceAll_prefix. exact blockComment_needs. Qed.

(** What the first pass leaves out are block comments. *)
Lemma blockComment_split (l : text) (len : nat) (repl : text) :
  blockComment l = Some (len, repl) ->
  exists body post,
    l = [slash; star] ++ body ++ [star; slash] ++ post
    /\ occurs [star; slash] (body ++ [star]) = false.
Proof.
  destruct l as [|c [|d r]]; try easy. unfold blockComment.
  destruct ((c =? slash) && (d =? star)) eqn:E; [|easy].
  apply andb_true_iff in E as [Ec Ed].
  apply N.eqb_eq in Ec, Ed. subst c d.
  destruct (findClose r) as [k|] eqn:Hk; [|easy]. intros _.
  destruct (findClose_split r k Hk) as (body & post & -> & -> & Ho).
  now exists body, post.
Qed.

Lemma stripBlockComments_cut (t : text) :
  cut isBlockComment t (stripBlockComments t).
Proof.
  remember (List.length t) as n eqn:Hn. revert t Hn.
  induction n as [n IH] using lt_wf_ind. intros [|c r] Hn.
  - constructor.
  - destruct (blockComment (c :: r)) as [[len repl]|] eqn:Hm.
    + destruct (blockComment_split _ _ _ Hm) as (body & post & Hl & Ho).
      rewrite Hl, (stripBlockComments_block body post Ho).
      rewrite (app_assoc body), (app_assoc [slash; star]).
      apply cut_drop.
      * now exists body.
      * apply (IH (List.length post)); [|reflexivity].
        subst n. rewrite Hl, !length_app. simpl. lia.
    + unfold stripBlockComments. rewrite replaceAll_cons, Hm.
      apply cut_keep. apply (IH (List.length r)); [subst n; simpl; lia|reflexivity].
Qed.

(** ** Line comments *)

Lemma lineComment_needs (l : text) :
  startsWith [slash; slash] l = false -> lineComment l = None.
Proof.
  destruct l as [|a [|b r]]; simpl; try reflexivity.
  rewrite andb_true_r, (N.eqb_sym slash a), (N.eqb_sym slash b).
  now intros ->.
Qed.

Lemma spanLen_app (p : N -> bool) (body rest : text) :
  forallb p body = true ->
  match rest with [] => True | c :: _ => p c = false end ->
  spanLen p (body ++ rest) = List.length body.
Proof.
  intros Hb Hr. induction body as [|c body IH]; simpl in *.
  - destruct rest; simpl; [reflexivity|now rewrite Hr].
  - apply andb_true_iff in Hb as [-> Hb]. now rewrite IH.
Qed.

Lemma spanLen_split (p : N -> bool) (l : text) :
  exists body rest,
    l = body ++ rest /\ spanLen p l = List.length body /\
    forallb p body = true /\
    match rest with [] => True | c :: _ => p c = false end.
Proof.
  induction l as [|c l (body & rest & -> & Hs & Hb & Hr)]; simpl.
  - now exists [], [].
  - destruct (p c) eqn:E.
    + exists (c :: body), rest. simpl. now rewrite Hs, E, Hb.
    + now exists [], (c :: body ++ rest).
Qed.

Lemma atLineEnd_stops (rest : text) :
  atLineEnd rest ->
  match rest with [] => True | c :: _ => notLineTerminator c = false end.
Proof. destruct rest; simpl; [easy|]. unfold notLineTerminator. now intros ->. Qed.

(** The second pass takes a line comment out and goes on at the end of
    the line. *)
Lemma stripLineComments_line (body rest : text) :
  forallb notLineTerminator body = true -> atLineEnd rest ->
  stripLineComments ([slash; slash] ++ body ++ rest) = stripLineComments rest.
Proof.
  intros Hb Hr. unfold stripLineComments.
  change ([slash; slash] ++ body ++ rest) with (slash :: slash :: body ++ rest).
  rewrite replaceAll_cons. unfold lineComment. rewrite !N.eqb_refl.
  cbn [andb app pred Nat.add].
  change (fun c : N => negb (isLineTerminator c)) with notLineTerminator.
  rewrite (spanLen_app _ body rest Hb (atLineEnd_stops rest Hr)).
  change (slash :: body ++ rest) with ((slash :: body) ++ rest).
  change (S (List.length body)) with (List.length (slash :: body)).
  now rewrite skipn_app_length.
Qed.

Lemma stripLineComments_plain (p rest : text) :
  occurs [slash; slash] p = false ->
  endsWith slash p = false \/ startsWith [slash] rest = false ->
  stripLineComments (p ++ rest) = p ++ stripLineComments rest.
Proof. apply replaceAll_prefix. exact lineComment_needs. Qed.

Lemma lineComment_split (l : text) (len : nat) (repl : text) :
  lineComment l = Some (len, repl) ->
  exists body rest,
    l = [slash; slash] ++ body ++ rest
    /\ forallb notLineTerminator body = true /\ atLineEnd rest.
Proof.
  destruct l as [|c [|d r]]; try easy. unfold lineComment.
  destruct ((c =? slash) && (d =? slash)) eqn:E; [|easy].
  apply andb_true_iff in E as [Ec Ed].
  apply N.eqb_eq in Ec, Ed. subst c d. intros _.
  destruct (spanLen_split notLineTerminator r) as (body & rest & -> & _ & Hb & Hr).
  exists body, rest. repeat split; auto.
  destruct rest; simpl in *; [easy|].
  unfold notLineTerminator in Hr. now destruct (isLineTerminator n).
Qed.

Lemma slash_notLineTerminator : isLineTerminator slash = false.
Proof. reflexivity. Qed.

(** Facts about the second pass, by the scan. *)
Section LinePass.

Lemma linePass (u : text) :
  cut isLineComment u (stripLineComments u)
  /\ occurs [slash; slash] (stripLineComments u) = false
  /\ (startsWith [slash] (stripLineComments u) = true ->
      startsWith [slash] u = true)
  /\ filter isLineTerminator (stripLineComments u) = filter isLineTerminator u.
Proof.
  remember (List.length u) as n eqn:Hn. revert u Hn.
  induction n as [n IH] using lt_wf_ind. intros [|c r] Hn.
  - split; [constructor|easy].
  - destruct (lineComment (c :: r)) as [[len repl]|] eqn:Hm.
    + destruct (lineComment_split _ _ _ Hm) as (body & rest & Hl & Hb & Hr).
      assert (Hlen : (List.length rest < n)%nat).
      { subst n. rewrite Hl, !length_app. simpl. lia. }
      destruct (IH _ Hlen rest eq_refl) as (C & O & S & F).
      rewrite Hl, (stripLineComments_line body rest Hb Hr).
      split; [|split; [|split]].
      * rewrite (app_assoc [slash; slash]). apply cut_drop; [|exact C].
        now exists body.
      * exact O.
      * reflexivity.
      * rewrite F. rewrite (app_assoc [slash; slash]), filter_app.
        replace (filter isLineTerminator ([slash; slash] ++ body)) with (@nil N);
          [reflexivity|].
        simpl. clear -Hb. induction body as [|b body IHb]; [reflexivity|].
        simpl in *. apply andb_true_iff in Hb as [Hb1 Hb2].
        unfold notLineTerminator in Hb1.
        destruct (isLineTerminator b); [easy|auto].
    + assert (Hlen : (List.length r < n)%nat) by (subst n; simpl; lia).
      destruct (IH _ Hlen r eq_refl) as (C & O & S & F).
      unfold stripLineComments in *. rewrite replaceAll_cons, Hm.
      split; [|split; [|split]].
      * now apply cut_keep.
      * rewrite occurs_cons, O, orb_false_r, startsWith_two.
        destruct (slash =? c) eqn:Ec; [|reflexivity]. cbn [andb].
        destruct (startsWith [slash] (replaceAll lineComment r)) eqn:Es;
          [|reflexivity].
        specialize (S eq_refl). apply N.eqb_eq in Ec. subst c.
        destruct r as [|d r]; [easy|]. simpl in S. rewrite andb_true_r in S.
        apply N.eqb_eq in S. subst d. discriminate Hm.
      * simpl. now rewrite !andb_true_r.
      * simpl. now rewrite F.
Qed.

(** Each run that the second pass takes out goes to the end of its
    line. *)
Lemma linePass_ends (u : text) :
  cutWhere lineCommentBefore u (stripLineComments u).
Proof.
  remember (List.length u) as n eqn:Hn. revert u Hn.
  induction n as [n IH] using lt_wf_ind. intros [|c r] Hn.
  - constructor.
  - destruct (lineComment (c :: r)) as [[len repl]|] eqn:Hm.
    + destruct (lineComment_split _ _ _ Hm) as (body & rest & Hl & Hb & Hr).
      assert (Hlen : (List.length rest < n)%nat).
      { subst n. rewrite Hl, !length_app. simpl. lia. }
      rewrite Hl, (stripLineComments_line body rest Hb Hr).
      rewrite (app_assoc [slash; slash]).
      apply cutWhere_drop; [|exact (IH _ Hlen rest eq_refl)].
      split; [now exists body|exact Hr].
    + assert (Hlen : (List.length r < n)%nat) by (subst n; simpl; lia).
      unfold stripLineComments in *. rewrite replaceAll_cons, Hm.
      apply cutWhere_keep. exact (IH _ Hlen r eq_refl).
Qed.
End LinePass.

(** ** Trailing commas *)

Lemma isCloser_comma : isCloser comma = false.
Proof. reflexivity. Qed.

Section TrailingComma.
(** The class under the star: the white space of the shell script or
    the letter of the Node script.  Neither holds the comma or a
    closing bracket. *)
Variable cls : N -> bool.
Hypothesis cls_comma : cls comma = false.
Hypothesis cls_closer : forall c, isCloser c = true -> cls c = false.

Lemma starCloser_cons (c : N) (r : text) :
  starCloser cls (c :: r) =
  if cls c
  then match starCloser cls r with
       | Some k => Some (S k)
       | None => if isCloser c then Some 1%nat else None
       end
  else if isCloser c then Some 1%nat else None.
Proof. reflexivity. Qed.

(** The run of the class, then the bracket. *)
Lemma starCloser_run (run : text) (b : N) (post : text) :
  forallb cls run = true -> isCloser b = true ->
  starCloser cls (run ++ b :: post) = Some (S (List.length run)).
Proof.
  intros Hr Hb. induction run as [|c run IH]; simpl app.
  - rewrite starCloser_cons, (cls_closer b Hb), Hb. reflexivity.
  - simpl in Hr. apply andb_true_iff in Hr as [Hc Hr].
    now rewrite starCloser_cons, Hc, (IH Hr).
Qed.

Lemma starCloser_split (l : text) (k : nat) :
  starCloser cls l = Some k ->
  exists run b post,
    l = run ++ b :: post /\ k = S (List.length run)
    /\ forallb cls run = true /\ isCloser b = true.
Proof.
  revert k; induction l as [|c r IH]; intros k; [easy|].
  rewrite starCloser_cons. destruct (cls c) eqn:Ec.
  - destruct (starCloser cls r) as [k'|].
    + intros [= <-]. destruct (IH k' eq_refl) as (run & b & post & -> & -> & Hr & Hb).
      exists (c :: run), b, post. simpl. now rewrite Ec, Hr.
    + destruct (isCloser c) eqn:Eb; [|easy].
      now rewrite (cls_closer c Eb) in Ec.
  - destruct (isCloser c) eqn:Eb; [|easy]. intros [= <-].
    now exists [], c, r.
Qed.

Lemma starCloser_app_run (l rest : text) (k : nat) :
  starCloser cls l = Some k -> starCloser cls (l ++ rest) = Some k.
Proof.
  intros Hk. destruct (starCloser_split l k Hk) as (run & b & post & -> & -> & Hr & Hb).
  rewrite <- app_assoc. simpl app. now apply starCloser_run.
Qed.

(** No match runs into a comma. *)
Lemma starCloser_comma (l rest : text) :
  starCloser cls l = None -> starCloser cls (l ++ comma :: rest) = None.
Proof.
  induction l as [|c r IH]; simpl app.
  - intros _. now rewrite starCloser_cons, cls_comma, isCloser_comma.
  - rewrite !starCloser_cons. destruct (cls c).
    + destruct (starCloser cls r); [easy|]. rewrite (IH eq_refl).
      now destruct (isCloser c).
    + now destruct (isCloser c).
Qed.

Lemma trailingComma_needs (l : text) :
  startsWith [comma] l = false -> trailingComma cls l = None.
Proof.
  destruct l as [|a r]; [reflexivity|]. simpl.
  rewrite andb_true_r, N.eqb_sym. now intros ->.
Qed.

(** The comma before a bracket goes; what stood between them and the
    bracket stay, and the scan goes on behind the bracket. *)
Lemma replaceAll_trailingComma (run : text) (b : N) (post : text) :
  forallb cls run = true -> isCloser b = true ->
  replaceAll (trailingComma cls) (comma :: run ++ b :: post)
  = run ++ b :: replaceAll (trailingComma cls) post.
Proof.
  intros Hr Hb. rewrite replaceAll_cons. unfold trailingComma.
  rewrite N.eqb_refl, (starCloser_run run b post Hr Hb).
  cbn [option_map pred].
  change (run ++ b :: post) with (run ++ [b] ++ post).
  rewrite app_assoc.
  replace (S (List.length run)) with (List.length (run ++ [b]))
    by (rewrite length_app; simpl; lia).
  now rewrite firstn_app_length, skipn_app_length, <- app_assoc.
Qed.

(** The scan of what stands before a comma does not look past it. *)
Lemma replaceAll_before_comma (pre rest : text) :
  replaceAll (trailingComma cls) (pre ++ comma :: rest)
  = replaceAll (trailingComma cls) pre
    ++ replaceAll (trailingComma cls) (comma :: rest).
Proof.
  remember (List.length pre) as n eqn:Hn. revert pre Hn.
  induction n as [n IH] using lt_wf_ind. intros [|c r] Hn; [reflexivity|].
  simpl app. destruct (c =? comma) eqn:Ec.
  - apply N.eqb_eq in Ec. subst c.
    destruct (starCloser cls r) as [k|] eqn:Hk.
    + destruct (starCloser_split r k Hk) as (run & b & post & -> & -> & Hr & Hb).
      rewrite <- app_assoc. simpl app.
      rewrite !(replaceAll_trailingComma _ _ _ Hr Hb).
      rewrite (IH (List.length post)); [|subst n; simpl; rewrite !length_app; simpl; lia|reflexivity].
      now rewrite <- app_assoc.
    + rewrite (replaceAll_cons _ comma (r ++ comma :: rest)),
        (replaceAll_cons _ comma r).
      unfold trailingComma. rewrite N.eqb_refl, Hk, (starCloser_comma r rest Hk).
      simpl. f_equal.
      apply (IH (List.length r)); [subst n; simpl; lia|reflexivity].
  - rewrite (replaceAll_cons _ c (r ++ comma :: rest)), (replaceAll_cons _ c r).
    unfold trailingComma. rewrite Ec. simpl. f_equal.
    apply (IH (List.length r)); [subst n; simpl; lia|reflexivity].
Qed.
End TrailingComma.


(** ** The two trailing-comma passes *)

Lemma isWhiteSpace_comma : isWhiteSpace comma = false.
Proof. reflexivity. Qed.


Lemma isCloser_cases (c : N) : isCloser c = true -> c = 125 \/ c = 93.
Proof.
  unfold isCloser. intros H. apply orb_true_iff in H as [H|H];
    apply N.eqb_eq in H; auto.
Qed.

Lemma isWhiteSpace_closer (c : N) : isCloser c = true -> isWhiteSpace c = false.
Proof. intros H. destruct (isCloser_cases c H) as [-> | ->]; reflexivity. Qed.


(** The pass of the shell script does what C4 says: a comma, white
    space or none, a closing bracket; the comma goes and the rest
    stays, wherever this stands in the text. *)
Lemma stripTrailingCommas_sh_removes (pre ws : text) (b : N) (post : text) :
  forallb isWhiteSpace ws = true -> isCloser b = true ->
  stripTrailingCommas_sh (pre ++ comma :: ws ++ b :: post)
  = stripTrailingCommas_sh pre ++ ws ++ b :: stripTrailingCommas_sh post.
Proof.
  intros Hw Hb. unfold stripTrailingCommas_sh.
  rewrite (replaceAll_before_comma _ isWhiteSpace_comma isWhiteSpace_closer).
  now rewrite (replaceAll_trailingComma _ isWhiteSpace_closer _ _ _ Hw Hb).
Qed.


(** C4, the failing input.  A comma, a line feed and the closing brace:
    the Node script keeps the comma, the shell script removes it. *)
Theorem stripTrailingCommas_node_keeps_comma :
  stripTrailingCommas_node (q "{'a': 1," ++ [LF] ++ lit "}")
  = q "{'a': 1," ++ [LF] ++ lit "}"
  /\ stripTrailingCommas_sh (q "{'a': 1," ++ [LF] ++ lit "}")
     = q "{'a': 1" ++ [LF] ++ lit "}"
  /\ stripTrailingCommas_node (q "{'a': 'yes,sss}'}") = q "{'a': 'yessss}'}".
Proof. repeat split; vm_compute; reflexivity. Qed.

(** C8, the failing inputs.  On a configuration with a comma and a
    space before the closing brace the Node script raises the syntax
    error and the shell script writes the patched file; on a string
    that holds [,s}] both write a file, and the files differ. *)
Theorem entry_points_differ :
  patch_node (q "{'compilerOptions': {}, }") = Throws SyntaxError
  /\ patch_sh (q "{'compilerOptions': {}, }")
     = Normal (JSON_stringify
                 (VObj [(compilerOptions,
                         VObj [(baseUrl, VStr (lit ".")); (paths, pathAlias)])]))
  /\ patch_node (q "{'a': ',s}'}")
     = Normal (JSON_stringify
                 (VObj [(lit "a", VStr (lit "s}"));
                        (compilerOptions,
                         VObj [(baseUrl, VStr (lit ".")); (paths, pathAlias)])]))
  /\ patch_sh (q "{'a': ',s}'}")
     = Normal (JSON_stringify
                 (VObj [(lit "a", VStr (lit ",s}"));
                        (compilerOptions,
                         VObj [(baseUrl, VStr (lit ".")); (paths, pathAlias)])])).
Proof. repeat split; vm_compute; reflexivity. Qed.

(** The entry points differ in that pass only. *)
Lemma patch_agree (t : text) :
  stripTrailingCommas_node (stripComments t)
  = stripTrailingCommas_sh (stripComments t) ->
  patch_node t = patch_sh t.
Proof. unfold patch_node, patch_sh, patchWith. now intros ->. Qed.

(** ** The two comment passes *)


(** C6, amended.  The first pass leaves out block comments only, and
    the first block comment of a text goes whole.  The second pass
    works on what the first has left: it leaves out runs that start
    with two slashes and go to the end of their line, and nothing
    else; the first such run, from the first two slashes of the text,
    goes whole; no two slashes in a row are left, and no line
    terminator is lost. *)
Theorem stripComments_passes (t : text) :
  cut isBlockComment t (stripBlockComments t)
  /\ cutWhere lineCommentBefore (stripBlockComments t) (stripComments t)
  /\ occurs [slash; slash] (stripComments t) = false
  /\ filter isLineTerminator (stripComments t)
     = filter isLineTerminator (stripBlockComments t)
  /\ (forall pre body post,
        t = pre ++ [slash; star] ++ body ++ [star; slash] ++ post ->
        occurs [slash; star] pre = false ->
        occurs [star; slash] (body ++ [star]) = false ->
        stripBlockComments t = pre ++ stripBlockComments post)
  /\ (forall pre body rest,
        stripBlockComments t = pre ++ [slash; slash] ++ body ++ rest ->
        occurs [slash; slash] pre = false ->
        endsWith slash pre = false ->
        forallb notLineTerminator body = true ->
        atLineEnd rest ->
        stripComments t = pre ++ stripLineComments rest).
Proof.
  destruct (linePass (stripBlockComments t)) as (_ & O & _ & F).
  split; [apply stripBlockComments_cut|].
  split; [apply linePass_ends|]. split; [exact O|]. split; [exact F|].
  split.
  - intros pre body post -> Hp Hb.
    rewrite stripBlockComments_plain; [|exact Hp|now right].
    now rewrite stripBlockComments_block.
  - intros pre body rest Ht Hp He Hb Hr. unfold stripComments. rewrite Ht.
    rewrite stripLineComments_plain; [|exact Hp|now left].
    now rewrite stripLineComments_line.
Qed.

(** A text with a line comment and a block comment: the block comment
    goes in the first pass, the line comment, up to the line feed, in
    the second. *)
Lemma stripComments_passes_witness :
  let t := q "{'a': 1, // one" ++ [LF] ++ q "'b': 2 /* two */}" in
  stripBlockComments t
  = (q "{'a': 1, // one" ++ [LF] ++ q "'b': 2 ") ++ stripBlockComments (lit "}")
  /\ stripComments t
     = q "{'a': 1, " ++ stripLineComments ([LF] ++ q "'b': 2 }").
Proof.
  intros t. split.
  - apply (proj1 (proj2 (proj2 (proj2 (proj2 (stripComments_passes t))))))
      with (body := lit " two "); reflexivity.
  - apply (proj2 (proj2 (proj2 (proj2 (proj2 (stripComments_passes t))))))
      with (body := lit " one"); reflexivity.
Defined.

(** C6 as stated fails on [//* x */* y */]: the text is one line
    comment, from its two slashes to the end of the line, and what
    comes out is not empty; it is a block comment. *)
Lemma stripComments_counterexample :
  isLineComment (lit "//* x */* y */")
  /\ stripComments (lit "//* x */* y */") = lit "/* y */"
  /\ isBlockComment (lit "/* y */").
Proof.
  split; [|split].
  - now exists (lit "* x */* y */").
  - vm_compute. reflexivity.
  - now exists (lit " y ").
Qed.

(** ** Comments and a trailing comma around JSON *)











(** ** The runs of the scripts *)

(** C10, amended.  Without a project name both scripts print the error
    and the usage and exit with status 1.  With a name, the Node script
    exits with status 1 when anything of that name exists, the shell
    script when a directory of that name exists.  Nothing else has
    happened by then: no command, no write.  The usage line names the
    script as it was called: the Node script by the name of its file,
    the shell script by [$0].  For the shell script the trace holds
    what its [echo] commands are given. *)
Theorem prechecks_exit (E : environment) :
  match args E with
  | [] =>
      Node.run E
      = (Exits 1,
         [nodeError (lit "Need a project name");
          Print (lit "Usage: node " ++ fileName E ++ lit " <project-name>")])
      /\ Shell.run E
         = (Exits 1,
            [shellError (lit "Need a project name");
             Echo false (lit "Usage: " ++ scriptPath E ++ lit " <project-name>")])
  | projectName :: _ =>
      (existsNow E [] projectName = true ->
       Node.run E
       = (Exits 1,
          [Exists projectName true;
           nodeError (lit "Directory '" ++ projectName ++ lit "' already exists")]))
      /\ (isDirectoryNow E [] projectName = true ->
          Shell.run E
          = (Exits 1,
             [IsDirectory projectName true;
              shellError (lit "Directory '" ++ projectName
                          ++ lit "' already exists")]))
  end.
Proof.
  unfold Node.run, Shell.run, Node.setupReactProject, Shell.main, bind, ask.
  destruct (args E) as [|projectName rest].
  - split; reflexivity.
  - split; intros H; unfold existsSync, isDirectory; rewrite H; reflexivity.
Qed.

(** A machine on which the name is taken by a directory, and one on
    which the scripts are called without a name. *)
Lemma prechecks_exit_witness :
  (Node.run (machineWith true true [lit "demo"])
   = (Exits 1,
      [Exists (lit "demo") true;
       nodeError (lit "Directory '" ++ lit "demo" ++ lit "' already exists")])
   /\ Shell.run (machineWith true true [lit "demo"])
      = (Exits 1,
         [IsDirectory (lit "demo") true;
          shellError (lit "Directory '" ++ lit "demo" ++ lit "' already exists")]))
  /\ (Node.run (machineWith false false [])
      = (Exits 1,
         [nodeError (lit "Need a project name");
          Print (lit "Usage: node setup-react.js <project-name>")])
      /\ Shell.run (machineWith false false [])
         = (Exits 1,
            [shellError (lit "Need a project name");
             Echo false (lit "Usage: ./setup-react.sh <project-name>")])).
Proof.
  split; [split|].
  - apply (proj1 (prechecks_exit (machineWith true true [lit "demo"]))).
    reflexivity.
  - apply (proj2 (prechecks_exit (machineWith true true [lit "demo"]))).
    reflexivity.
  - exact (prechecks_exit (machineWith false false [])).
Defined.

(** C10 as stated fails for the shell script when the name is taken by
    a file that is no directory: the script goes on and runs the
    project generator. *)
Lemma prechecks_exit_counterexample :
  existsNow (machineWith true false [lit "demo"]) [] (lit "demo") = true
  /\ existsb changesMachine (snd (Shell.run (machineWith true false [lit "demo"])))
     = true
  /\ nth_error (snd (Shell.run (machineWith true false [lit "demo"]))) 3
     = Some (Exec (lit "npm create vite@latest " ++ Node.quoted (lit "demo")
                   ++ lit " -- --template react-ts") true).
Proof. repeat split; vm_compute; reflexivity. Qed.

(** Past its two checks, the Node script is its [try] block. *)
Lemma run_started (E : environment) (projectName : text) (rest : list text) :
  args E = projectName :: rest ->
  existsNow E [] projectName = false ->
  Node.run E = Node.setup projectName E (started projectName).
Proof.
  intros Ha He.
  unfold Node.run, Node.setupReactProject, bind, ask, existsSync.
  rewrite Ha, He. reflexivity.
Qed.

(** C5.  When the Node script has come to the patch and the text that
    the two passes leave is no JSON, [JSON.parse] raises its syntax
    error; the handler prints it and the process exits with status 1.
    After the read nothing follows but that message: no file is
    written, no later step runs. *)
Theorem malformed_config_aborts (E : environment) (projectName : text)
        (rest : list text) (h : trace) (content : text) :
  args E = projectName :: rest ->
  existsNow E [] projectName = false ->
  Node.scaffold projectName E (started projectName) = (Normal tt, h) ->
  readNow E h (lit "tsconfig.app.json") = Some content ->
  parse (Node.stripTrailingCommas (stripComments content)) = Throws SyntaxError ->
  Node.updateAppConfig E h
  = (Throws SyntaxError, h ++ [Read (lit "tsconfig.app.json") (Some content)])
  /\ Node.run E
     = (Exits 1,
        h ++ [Read (lit "tsconfig.app.json") (Some content);
              nodeError (lit "Setup failed: " ++ errorMessage E SyntaxError)]).
Proof.
  intros Ha He Hs Hr Hp.
  assert (Hu : Node.updateAppConfig E h
               = (Throws SyntaxError,
                  h ++ [Read (lit "tsconfig.app.json") (Some content)])).
  { unfold Node.updateAppConfig, bind, readFileSync, lift, patchWith.
    now rewrite Hr, Hp. }
  split; [exact Hu|].
  rewrite (run_started E projectName rest Ha He).
  unfold Node.setup, tryCatch, Node.build.
  unfold bind at 1 2. rewrite Hs.
  unfold bind at 1. rewrite Hu.
  unfold bind, ask, Node.printError, print, exit.
  now rewrite <- app_assoc.
Qed.

(** An unterminated string in the configuration. *)
Lemma malformed_config_aborts_witness :
  Node.run (machine [lit "demo"] (lit "linux") (q "{'extends': 'base}"))
  = (Exits 1,
     snd (Node.scaffold (lit "demo")
            (machine [lit "demo"] (lit "linux") (q "{'extends': 'base}"))
            (started (lit "demo")))
     ++ [Read (lit "tsconfig.app.json") (Some (q "{'extends': 'base}"));
         nodeError (lit "Setup failed: " ++ lit "Unexpected end of JSON input")]).
Proof.
  apply (proj2 (malformed_config_aborts
                  (machine [lit "demo"] (lit "linux") (q "{'extends': 'base}"))
                  (lit "demo") [] _ (q "{'extends': 'base}")
                  eq_refl eq_refl eq_refl eq_refl eq_refl)).
Defined.

(** [copyToClipboard] catches whatever its commands raise: it returns,
    with an answer. *)
Lemma commandExists_returns (command : text) (E : environment) (h : trace) :
  exists b h', Node.commandExists command E h = (Normal b, h').
Proof.
  unfold Node.commandExists, tryCatch, bind, execSync, attempt, ret.
  destruct (execOk E h _); [eauto|].
  destruct (execOk E _ _); eauto.
Qed.

Lemma copyToClipboard_returns (t : text) (E : environment) (h : trace) :
  exists b h', Node.copyToClipboard t E h = (Normal b, h').
Proof.
  unfold Node.copyToClipboard, Node.clipboardCommand, Node.commandExists,
    tryCatch, bind, osPlatform, execSync, attempt, ret.
  repeat match goal with
         | |- context [if ?b then _ else _] => destruct b
         end; eauto.
Qed.

Lemma commandExists_notFound (command : text) (E : environment) (h : trace) :
  execOk E h (lit "which " ++ command) = false ->
  execOk E (h ++ [Exec (lit "which " ++ command) false]) (lit "where " ++ command)
  = false ->
  Node.commandExists command E h = (Normal false, h ++ notFound command).
Proof.
  intros H1 H2.
  unfold Node.commandExists, tryCatch, bind, execSync, attempt, ret.
  rewrite H1, H2. unfold notFound. now rewrite <- app_assoc.
Qed.

(** C9.  Let everything before the last messages have succeeded.  Then
    the script comes to its end, with status 0, whatever becomes of the
    clipboard.  If [copyToClipboard] answers [false], the next steps
    are printed.  It does so in each of the three cases of the claim:
    on a platform other than macOS, Windows and Linux, where no command
    is run; on Linux when neither [which] nor [where] finds [xclip] or
    [xsel]; and, on any platform, when the command that was chosen
    fails. *)
Theorem clipboard_failure_is_not_fatal (E : environment) (projectName : text)
        (rest : list text) (h : trace) (randomEmoji : text) :
  args E = projectName :: rest ->
  existsNow E [] projectName = false ->
  Node.build projectName E (started projectName) = (Normal randomEmoji, h) ->
  (exists t, Node.run E = (Normal tt, t))
  /\ Node.exitStatus (fst (Node.run E)) = 0%Z
  /\ (forall h',
        Node.copyToClipboard (nextCommand projectName) E (announced h randomEmoji)
        = (Normal false, h') ->
        Node.run E = (Normal tt, h' ++ nextSteps projectName))
  /\ (text_eqb (platform E) (lit "darwin") = false ->
      text_eqb (platform E) (lit "win32") = false ->
      text_eqb (platform E) (lit "linux") = false ->
      Node.run E
      = (Normal tt,
         announced h randomEmoji ++ Platform (platform E) :: nextSteps projectName))
  /\ (let h0 := announced h randomEmoji ++ [Platform (lit "linux")] in
      platform E = lit "linux" ->
      execOk E h0 (lit "which xclip") = false ->
      execOk E (h0 ++ [Exec (lit "which xclip") false]) (lit "where xclip") = false ->
      execOk E (h0 ++ notFound (lit "xclip")) (lit "which xsel") = false ->
      execOk E (h0 ++ notFound (lit "xclip") ++ [Exec (lit "which xsel") false])
             (lit "where xsel") = false ->
      Node.run E
      = (Normal tt,
         h0 ++ notFound (lit "xclip") ++ notFound (lit "xsel")
         ++ nextSteps projectName))
  /\ (forall command h1,
        Node.clipboardCommand (nextCommand projectName) E (announced h randomEmoji)
        = (Normal (Some command), h1) ->
        execOk E h1 command = false ->
        Node.run E
        = (Normal tt, h1 ++ Exec command false :: nextSteps projectName)).
Proof.
  intros Ha He Hb.
  assert (Hrun : forall b h',
             Node.copyToClipboard (nextCommand projectName) E
               (announced h randomEmoji) = (Normal b, h') ->
             exists t, Node.run E = (Normal tt, t)
                       /\ (b = false -> t = h' ++ nextSteps projectName)).
  { intros b h' Hc.
    rewrite (run_started E projectName rest Ha He).
    unfold Node.setup, tryCatch.
    unfold bind at 1. rewrite Hb.
    unfold Node.announce.
    unfold bind at 1. unfold Node.printSuccess at 1, print at 1.
    unfold bind at 1. unfold Node.printSuccess at 1, print at 1.
    unfold bind at 1. rewrite <- app_assoc. cbn [app].
    fold (nodeSuccess (lit "All done! " ++ randomEmoji)). fold (nodeSuccess []).
    fold (announced h randomEmoji). fold (nextCommand projectName).
    rewrite Hc.
    destruct b; unfold bind, Node.printSuccess, print; eexists;
      (split; [reflexivity|]); [discriminate|].
    intros _. unfold nextSteps, nodeSuccess. now rewrite <- !app_assoc. }
  assert (Hfalse : forall h',
             Node.copyToClipboard (nextCommand projectName) E
               (announced h randomEmoji) = (Normal false, h') ->
             Node.run E = (Normal tt, h' ++ nextSteps projectName)).
  { intros h' Hc. destruct (Hrun false h' Hc) as (t & Ht & Et).
    now rewrite Ht, (Et eq_refl). }
  destruct (copyToClipboard_returns (nextCommand projectName) E
              (announced h randomEmoji)) as (b & h' & Hc).
  destruct (Hrun b h' Hc) as (t & Ht & _).
  split; [now exists t|]. split; [now rewrite Ht|]. split; [exact Hfalse|].
  split; [|split].
  - intros D W L.
    rewrite (Hfalse (announced h randomEmoji ++ [Platform (platform E)])).
    + now rewrite <- app_assoc.
    + unfold Node.copyToClipboard, Node.clipboardCommand, tryCatch, bind,
        osPlatform, ret. now rewrite D, W, L.
  - intros h0 L X1 X2 X3 X4.
    rewrite (Hfalse (h0 ++ notFound (lit "xclip") ++ notFound (lit "xsel"))).
    + now rewrite <- !app_assoc.
    + unfold Node.copyToClipboard, Node.clipboardCommand, tryCatch.
      unfold bind at 1 2. unfold osPlatform. rewrite L.
      change (text_eqb (lit "linux") (lit "darwin")) with false.
      change (text_eqb (lit "linux") (lit "win32")) with false.
      change (text_eqb (lit "linux") (lit "linux")) with true.
      cbv iota. fold h0.
      unfold bind at 1.
      rewrite (commandExists_notFound (lit "xclip") E h0 X1 X2).
      unfold bind at 1.
      rewrite (commandExists_notFound (lit "xsel") E _ X3).
      * unfold ret. now rewrite <- app_assoc.
      * rewrite <- app_assoc. exact X4.
  - intros command h1 Hk Hx.
    rewrite (Hfalse (h1 ++ [Exec command false])).
    + now rewrite <- app_assoc.
    + unfold Node.copyToClipboard, tryCatch. unfold bind at 1. rewrite Hk.
      unfold bind, execSync, attempt, ret. now rewrite Hx.
Qed.

(** The three cases on concrete machines: FreeBSD; Linux with neither
    [xclip] nor [xsel]; Linux with [xclip], which fails. *)
Lemma clipboard_failure_is_not_fatal_witness :
  let config := q "{'compilerOptions': {}}" in
  let M1 := machine [lit "demo"] (lit "freebsd") config in
  let M2 := machineFailing
              (fun c => startsWith (lit "which ") c || startsWith (lit "where ") c)
              [lit "demo"] (lit "linux") config in
  let M3 := machineFailing (startsWith (lit "echo "))
              [lit "demo"] (lit "linux") config in
  let before M := announced (snd (Node.build (lit "demo") M (started (lit "demo"))))
                            (emojiAt 7) in
  Node.run M1
  = (Normal tt, before M1 ++ Platform (lit "freebsd") :: nextSteps (lit "demo"))
  /\ Node.run M2
     = (Normal tt,
        (before M2 ++ [Platform (lit "linux")])
        ++ notFound (lit "xclip") ++ notFound (lit "xsel")
        ++ nextSteps (lit "demo"))
  /\ Node.run M3
     = (Normal tt,
        (before M3 ++ [Platform (lit "linux"); Exec (lit "which xclip") true])
        ++ Exec (lit "echo " ++ Node.quoted (nextCommand (lit "demo"))
                 ++ lit " | xclip -selection clipboard") false
        :: nextSteps (lit "demo")).
Proof.
  intros config M1 M2 M3 before. split; [|split].
  - exact (proj1 (proj2 (proj2 (proj2
             (clipboard_failure_is_not_fatal M1 (lit "demo") [] _ _
                eq_refl eq_refl eq_refl))))
             eq_refl eq_refl eq_refl).
  - exact (proj1 (proj2 (proj2 (proj2 (proj2
             (clipboard_failure_is_not_fatal M2 (lit "demo") [] _ _
                eq_refl eq_refl eq_refl)))))
             eq_refl eq_refl eq_refl eq_refl eq_refl).
  - exact (proj2 (proj2 (proj2 (proj2 (proj2
             (clipboard_failure_is_not_fatal M3 (lit "demo") [] _ _
                eq_refl eq_refl eq_refl)))))
             _ _ eq_refl eq_refl).
Defined.


(** ** The parser reads on, and its fuel lasts *)

Lemma skipWS_length (l : text) : (List.length (skipWS l) <= List.length l)%nat.
Proof.
  induction l as [|c r IH]; simpl; [lia|].
  destruct (isJsonWS c); simpl; lia.
Qed.

Lemma parseChars_length (l s rest : text) :
  parseChars l = Some (s, rest) -> (List.length rest < List.length l)%nat.
Proof.
  remember (List.length l) as n eqn:Hn. revert l s rest Hn.
  induction n as [n IH] using lt_wf_ind. intros [|c r] s rest Hn; [easy|].
  simpl in Hn. simpl parseChars.
  assert (step : forall (d : N) (r' : text),
             (List.length r' < n)%nat ->
             consChar d (parseChars r') = Some (s, rest) ->
             (List.length rest < List.length r')%nat).
  { intros d r' Hr. destruct (parseChars r') as [[s' rest']|] eqn:E; [|easy].
    simpl. intros [= <- <-]. exact (IH _ Hr r' s' rest' eq_refl E). }
  destruct (c =? dquote); [intros [= <- <-]; simpl; lia|].
  destruct (c =? backslash).
  - destruct r as [|e r1]; [easy|]. destruct (e =? 117).
    + destruct r1 as [|h1 [|h2 [|h3 [|h4 r2]]]]; try easy.
      destruct (hexValue h1), (hexValue h2), (hexValue h3), (hexValue h4);
        try easy.
      intros H. apply step in H; simpl in *; lia.
    + destruct (unescape e); [|easy].
      intros H. apply step in H; simpl in *; lia.
  - destruct (c <? 32); [easy|].
    intros H. apply step in H; simpl in *; lia.
Qed.

Lemma digitsRun_length (l : text) :
  (List.length (snd (digitsRun l)) <= List.length l)%nat.
Proof.
  induction l as [|c r IH]; simpl; [lia|].
  destruct (isDigit c); simpl; [|lia].
  destruct (digitsRun r); simpl in *. lia.
Qed.

Lemma digitsRun_eq_length (l ds rest : text) :
  digitsRun l = (ds, rest) -> (List.length rest <= List.length l)%nat.
Proof. intros H. pose proof (digitsRun_length l) as L. now rewrite H in L. Qed.

Lemma parseNumber_length (l : text) (x : number) (rest : text) :
  parseNumber l = Some (x, rest) -> (List.length rest < List.length l)%nat.
Proof.
  unfold parseNumber.
  destruct (parseSign l) as [neg l1] eqn:Es.
  assert (H1 : (List.length l1 <= List.length l)%nat).
  { unfold parseSign in Es. destruct l as [|c r]; [now injection Es as <- <-|].
    destruct (c =? 45); injection Es as <- <-; simpl; lia. }
  destruct (parseInt l1) as [[ints l2]|] eqn:Ei; [|easy].
  assert (H2 : (List.length l2 < List.length l1)%nat).
  { unfold parseInt in Ei. destruct l1 as [|c r]; [easy|].
    destruct (c =? 48); [injection Ei as <- <-; simpl; lia|].
    destruct (isDigit c) eqn:Ed; [|easy]. injection Ei as Ei.
    simpl in Ei. rewrite Ed in Ei. destruct (digitsRun r) as [ds rs] eqn:Er.
    injection Ei as <- <-. apply digitsRun_eq_length in Er. simpl. lia. }
  destruct (parseFrac l2) as [[fracs l3]|] eqn:Ef; [|easy].
  assert (H3 : (List.length l3 <= List.length l2)%nat).
  { unfold parseFrac in Ef. destruct l2 as [|c r]; [now injection Ef as <- <-|].
    destruct (c =? 46); [|injection Ef as <- <-; simpl; lia].
    destruct (digitsRun r) as [[|d ds] rs] eqn:Er; [easy|].
    injection Ef as <- <-. apply digitsRun_eq_length in Er. simpl. lia. }
  destruct (parseExp l3) as [[e l4]|] eqn:Ee; [|easy].
  assert (H4 : (List.length l4 <= List.length l3)%nat).
  { unfold parseExp in Ee. destruct l3 as [|c r]; [now injection Ee as <- <-|].
    destruct ((c =? 101) || (c =? 69)); [|injection Ee as <- <-; simpl; lia].
    destruct (match r with
              | [] => (false, r)
              | s :: r' => if s =? 45 then (true, r')
                           else if s =? 43 then (false, r') else (false, r)
              end) as [eneg r1] eqn:E1.
    assert (List.length r1 <= List.length r)%nat.
    { destruct r as [|s r']; [now injection E1 as <- <-|].
      destruct (s =? 45); [injection E1 as <- <-; simpl; lia|].
      destruct (s =? 43); injection E1 as <- <-; simpl; lia. }
    destruct (digitsRun r1) as [[|d ds] rs] eqn:Er; [easy|].
    injection Ee as <- <-. apply digitsRun_eq_length in Er. simpl. lia. }
  intros [= <- <-]. lia.
Qed.

Lemma startsWith_length (p l : text) :
  startsWith p l = true -> (List.length p <= List.length l)%nat.
Proof.
  revert l; induction p as [|a p IH]; intros [|b l]; simpl; try easy; try lia.
  intros H. apply andb_true_iff in H as [_ H]. apply IH in H. lia.
Qed.

Lemma literal_length (word : string) (v v' : value) (l rest : text) :
  lit word <> [] ->
  literal word v l = POk v' rest -> (List.length rest < List.length l)%nat.
Proof.
  intros Hw. unfold literal. destruct (startsWith (lit word) l) eqn:E; [|easy].
  intros [= <- <-]. apply startsWith_length in E. rewrite length_skipn.
  destruct (lit word); [easy|]. simpl in *. lia.
Qed.

Lemma literal_settled (word : string) (v : value) (l : text) :
  literal word v l <> PFuel.
Proof. unfold literal. now destruct (startsWith (lit word) l). Qed.

Section Descent.
Variable value_ value' : text -> parsed value.
Variable members_ members' : text -> parsed (list (text * value)).
Variable elements_ elements' : text -> parsed (list value).

(** Each function reads at least one code unit when those it calls
    do. *)
Lemma valueAt_shortens :
  shortens members_ -> shortens elements_ ->
  shortens (valueAt members_ elements_).
Proof.
  intros Hm He l v rest. unfold valueAt.
  pose proof (skipWS_length l) as L.
  destruct (skipWS l) as [|c r]; [easy|]. simpl in L.
  destruct (c =? 123); [|destruct (c =? 91); [|destruct (c =? dquote)]].
  - pose proof (skipWS_length r) as L'.
    destruct (skipWS r) as [|d r']; [easy|]. simpl in L'.
    destruct (d =? 125); [intros [= <- <-]; lia|].
    destruct (members_ (d :: r')) as [ms rest'| |] eqn:E; try easy.
    simpl. intros [= <- <-]. apply Hm in E. simpl in E. lia.
  - pose proof (skipWS_length r) as L'.
    destruct (skipWS r) as [|d r']; [easy|]. simpl in L'.
    destruct (d =? 93); [intros [= <- <-]; lia|].
    destruct (elements_ (d :: r')) as [vs rest'| |] eqn:E; try easy.
    simpl. intros [= <- <-]. apply He in E. simpl in E. lia.
  - destruct (parseChars r) as [[s rest']|] eqn:E; [|easy].
    intros [= <- <-]. apply parseChars_length in E. lia.
  - destruct (c =? 116); [|destruct (c =? 102); [|destruct (c =? 110)]];
      try (intros H; apply literal_length in H; [simpl in H; lia|easy]).
    destruct (parseNumber (c :: r)) as [[x rest']|] eqn:E; [|easy].
    intros [= <- <-]. apply parseNumber_length in E. simpl in E. lia.
Qed.

Lemma membersAt_shortens :
  shortens value_ -> shortens members_ ->
  shortens (membersAt value_ members_).
Proof.
  intros Hv Hm l ms rest. unfold membersAt.
  pose proof (skipWS_length l) as L.
  destruct (skipWS l) as [|c r]; [easy|]. simpl in L.
  destruct (c =? dquote); [|easy].
  destruct (parseChars r) as [[k r1]|] eqn:Ek; [|easy].
  apply parseChars_length in Ek.
  pose proof (skipWS_length r1) as L1.
  destruct (skipWS r1) as [|c1 r2]; [easy|]. simpl in L1.
  destruct (c1 =? 58); [|easy].
  destruct (value_ r2) as [v r3| |] eqn:Ev; try easy. simpl.
  apply Hv in Ev. pose proof (skipWS_length r3) as L3.
  destruct (skipWS r3) as [|c3 r4]; [easy|]. simpl in L3.
  destruct (c3 =? 44).
  - destruct (members_ r4) as [ms' rest'| |] eqn:Em; try easy.
    simpl. intros [= <- <-]. apply Hm in Em. lia.
  - destruct (c3 =? 125); [|easy]. intros [= <- <-]. lia.
Qed.

Lemma elementsAt_shortens :
  shortens value_ -> shortens elements_ ->
  shortens (elementsAt value_ elements_).
Proof.
  intros Hv He l vs rest. unfold elementsAt.
  destruct (value_ l) as [v r1| |] eqn:Ev; try easy. simpl.
  apply Hv in Ev. pose proof (skipWS_length r1) as L1.
  destruct (skipWS r1) as [|c r2]; [easy|]. simpl in L1.
  destruct (c =? 44).
  - destruct (elements_ r2) as [vs' rest'| |] eqn:Ee; try easy.
    simpl. intros [= <- <-]. apply He in Ee. lia.
  - destruct (c =? 93); [|easy]. intros [= <- <-]. lia.
Qed.

(** Each function comes to an answer on [l] when those it calls do on
    what is left of [l]. *)
Lemma valueAt_answers (l : text) :
  (forall l', (List.length l' < List.length l)%nat -> members_ l' <> PFuel) ->
  (forall l', (List.length l' < List.length l)%nat -> elements_ l' <> PFuel) ->
  valueAt members_ elements_ l <> PFuel.
Proof.
  intros Hm He. unfold valueAt.
  pose proof (skipWS_length l) as L.
  destruct (skipWS l) as [|c r]; [easy|]. simpl in L.
  destruct (c =? 123); [|destruct (c =? 91); [|destruct (c =? dquote)]].
  - pose proof (skipWS_length r) as L'.
    destruct (skipWS r) as [|d r']; [easy|]. simpl in L'.
    destruct (d =? 125); [easy|].
    specialize (Hm (d :: r')). destruct (members_ (d :: r')); try easy.
    exfalso. apply Hm; [simpl; lia|reflexivity].
  - pose proof (skipWS_length r) as L'.
    destruct (skipWS r) as [|d r']; [easy|]. simpl in L'.
    destruct (d =? 93); [easy|].
    specialize (He (d :: r')). destruct (elements_ (d :: r')); try easy.
    exfalso. apply He; [simpl; lia|reflexivity].
  - now destruct (parseChars r) as [[s rest']|].
  - destruct (c =? 116); [|destruct (c =? 102); [|destruct (c =? 110)]];
      try apply literal_settled.
    now destruct (parseNumber (c :: r)) as [[x rest']|].
Qed.

Lemma membersAt_answers (l : text) :
  shortens value_ ->
  (forall l', (List.length l' < List.length l)%nat -> value_ l' <> PFuel) ->
  (forall l', (List.length l' < List.length l)%nat -> members_ l' <> PFuel) ->
  membersAt value_ members_ l <> PFuel.
Proof.
  intros Hs Hv Hm. unfold membersAt.
  pose proof (skipWS_length l) as L.
  destruct (skipWS l) as [|c r]; [easy|]. simpl in L.
  destruct (c =? dquote); [|easy].
  destruct (parseChars r) as [[k r1]|] eqn:Ek; [|easy].
  apply parseChars_length in Ek.
  pose proof (skipWS_length r1) as L1.
  destruct (skipWS r1) as [|c1 r2]; [easy|]. simpl in L1.
  destruct (c1 =? 58); [|easy].
  specialize (Hv r2).
  destruct (value_ r2) as [v r3| |] eqn:Ev; try easy;
    [|exfalso; apply Hv; [lia|reflexivity]]. simpl.
  apply Hs in Ev. pose proof (skipWS_length r3) as L3.
  destruct (skipWS r3) as [|c3 r4]; [easy|]. simpl in L3.
  destruct (c3 =? 44); [|now destruct (c3 =? 125)].
  specialize (Hm r4). destruct (members_ r4); try easy.
  exfalso. apply Hm; [lia|reflexivity].
Qed.

Lemma elementsAt_answers (l : text) :
  shortens value_ ->
  value_ l <> PFuel ->
  (forall l', (List.length l' < List.length l)%nat -> elements_ l' <> PFuel) ->
  elementsAt value_ elements_ l <> PFuel.
Proof.
  intros Hs Hv He. unfold elementsAt.
  destruct (value_ l) as [v r1| |] eqn:Ev; try easy. simpl.
  apply Hs in Ev. pose proof (skipWS_length r1) as L1.
  destruct (skipWS r1) as [|c r2]; [easy|]. simpl in L1.
  destruct (c =? 44); [|now destruct (c =? 93)].
  specialize (He r2). destruct (elements_ r2); try easy.
  exfalso. apply He; [lia|reflexivity].
Qed.

(** An answer does not change when the functions called have more
    fuel. *)
Lemma andThen_settled {A B : Type} (p p' : parsed A)
      (k k' : A -> text -> parsed B) :
  settled p p' -> (forall a r, settled (k a r) (k' a r)) ->
  settled (andThen p k) (andThen p' k').
Proof.
  intros [-> | ->] Hk; [now left|].
  destruct p; simpl; [apply Hk|now right|now left].
Qed.

Lemma settled_refl {A : Type} (p : parsed A) : settled p p.
Proof. now right. Qed.

Hypothesis value_settled : forall l, settled (value_ l) (value' l).
Hypothesis members_settled : forall l, settled (members_ l) (members' l).
Hypothesis elements_settled : forall l, settled (elements_ l) (elements' l).

Lemma valueAt_settled (l : text) :
  settled (valueAt members_ elements_ l) (valueAt members' elements' l).
Proof.
  unfold valueAt. destruct (skipWS l) as [|c r]; [apply settled_refl|].
  destruct (c =? 123); [|destruct (c =? 91)]; try apply settled_refl.
  - destruct (skipWS r) as [|d r']; [apply settled_refl|].
    destruct (d =? 125); [apply settled_refl|].
    apply andThen_settled; [apply members_settled|]. intros; apply settled_refl.
  - destruct (skipWS r) as [|d r']; [apply settled_refl|].
    destruct (d =? 93); [apply settled_refl|].
    apply andThen_settled; [apply elements_settled|]. intros; apply settled_refl.
Qed.

Lemma membersAt_settled (l : text) :
  settled (membersAt value_ members_ l) (membersAt value' members' l).
Proof.
  unfold membersAt. destruct (skipWS l) as [|c r]; [apply settled_refl|].
  destruct (c =? dquote); [|apply settled_refl].
  destruct (parseChars r) as [[k r1]|]; [|apply settled_refl].
  destruct (skipWS r1) as [|c1 r2]; [apply settled_refl|].
  destruct (c1 =? 58); [|apply settled_refl].
  apply andThen_settled; [apply value_settled|]. intros v r3.
  destruct (skipWS r3) as [|c3 r4]; [apply settled_refl|].
  destruct (c3 =? 44); [|apply settled_refl].
  apply andThen_settled; [apply members_settled|]. intros; apply settled_refl.
Qed.

Lemma elementsAt_settled (l : text) :
  settled (elementsAt value_ elements_ l) (elementsAt value' elements' l).
Proof.
  unfold elementsAt. apply andThen_settled; [apply value_settled|].
  intros v r1. destruct (skipWS r1) as [|c r2]; [apply settled_refl|].
  destruct (c =? 44); [|apply settled_refl].
  apply andThen_settled; [apply elements_settled|]. intros; apply settled_refl.
Qed.
End Descent.

Lemma parse_shortens (f : nat) :
  shortens (parseValue f) /\ shortens (parseMembers f)
  /\ shortens (parseElements f).
Proof.
  induction f as [|f (IHv & IHm & IHe)].
  - repeat split; intros l a rest; discriminate.
  - split; [|split]; simpl.
    + now apply valueAt_shortens.
    + now apply membersAt_shortens.
    + now apply elementsAt_shortens.
Qed.

(** Twice the length of the text, and one more, is fuel enough. *)
Lemma parse_answers (f : nat) :
  (forall l, (2 * List.length l + 1 <= f)%nat -> parseValue f l <> PFuel)
  /\ (forall l, (2 * List.length l + 2 <= f)%nat -> parseMembers f l <> PFuel)
  /\ (forall l, (2 * List.length l + 2 <= f)%nat -> parseElements f l <> PFuel).
Proof.
  induction f as [|f (IHv & IHm & IHe)].
  - repeat split; intros l H; lia.
  - destruct (parse_shortens f) as (Sv & Sm & Se).
    split; [|split]; intros l H; simpl.
    + apply valueAt_answers; intros l' H'; [apply IHm|apply IHe]; lia.
    + apply membersAt_answers; [exact Sv| |];
        intros l' H'; [apply IHv|apply IHm]; lia.
    + apply elementsAt_answers; [exact Sv|apply IHv; lia|].
      intros l' H'. apply IHe. lia.
Qed.

(** [JSON.parse] never runs out of fuel: it answers with a value or
    with the syntax error. *)
Lemma JSON_parse_fuel (t : text) : JSON_parse t <> PFuel.
Proof.
  unfold JSON_parse.
  pose proof (proj1 (parse_answers (2 * List.length t + 1)) t (le_n _)) as H.
  destruct (parseValue (2 * List.length t + 1) t) as [v rest| |]; try easy.
  now destruct (skipWS rest).
Qed.

Lemma parse_settled_step (f : nat) :
  (forall l, settled (parseValue f l) (parseValue (S f) l))
  /\ (forall l, settled (parseMembers f l) (parseMembers (S f) l))
  /\ (forall l, settled (parseElements f l) (parseElements (S f) l)).
Proof.
  induction f as [|f (IHv & IHm & IHe)].
  - repeat split; intros l; now left.
  - split; [|split]; intros l.
    + now apply valueAt_settled.
    + now apply membersAt_settled.
    + now apply elementsAt_settled.
Qed.

(** More fuel does not change an answer. *)
Lemma parseValue_more_fuel (f f' : nat) (l : text) :
  (f <= f')%nat -> parseValue f l <> PFuel -> parseValue f' l = parseValue f l.
Proof.
  intros Hle Hf. induction Hle as [|f' Hle IH]; [reflexivity|].
  destruct (proj1 (parse_settled_step f') l) as [E|E]; congruence.
Qed.


(** ** Strings read back *)

Ltac n_cases :=
  repeat match goal with
         | |- context [?a =? ?b] => destruct (N.eqb_spec a b)
         | |- context [?a <? ?b] => destruct (N.ltb_spec a b)
         | |- context [?a <=? ?b] => destruct (N.leb_spec a b)
         | H : context [?a =? ?b] |- _ => destruct (N.eqb_spec a b)
         | H : context [?a <? ?b] |- _ => destruct (N.ltb_spec a b)
         | H : context [?a <=? ?b] |- _ => destruct (N.leb_spec a b)
         end.

Lemma hexValue_hexDigit (d : N) : d < 16 -> hexValue (hexDigit d) = Some d.
Proof.
  intros H. unfold hexValue, hexDigit.
  n_cases; cbn [andb]; try (exfalso; lia); f_equal; lia.
Qed.

Lemma parseChars_dquote (l : text) : parseChars (dquote :: l) = Some ([], l).
Proof. reflexivity. Qed.

Lemma parseChars_plain (c : N) (l : text) :
  c <> 34 -> c <> 92 -> 32 <= c ->
  parseChars (c :: l) = consChar c (parseChars l).
Proof.
  intros H1 H2 H3. cbn [parseChars]. unfold dquote, backslash.
  n_cases; cbn [andb]; try (exfalso; lia). reflexivity.
Qed.

Lemma parseChars_escape (e c : N) (l : text) :
  e <> 117 -> unescape e = Some c ->
  parseChars (backslash :: e :: l) = consChar c (parseChars l).
Proof.
  intros H1 H2. cbn [parseChars].
  change (backslash =? dquote) with false.
  change (backslash =? backslash) with true. cbv iota.
  destruct (N.eqb_spec e 117); [easy|]. now rewrite H2.
Qed.

Lemma parseChars_unicode (c : N) (l : text) :
  c < 65536 ->
  parseChars (unicodeEscape c ++ l) = consChar c (parseChars l).
Proof.
  intros H. unfold unicodeEscape. cbn [app parseChars].
  change (backslash =? dquote) with false.
  change (backslash =? backslash) with true.
  change (117 =? 117) with true. cbv iota.
  rewrite !hexValue_hexDigit by (apply N.mod_lt; easy).
  f_equal.
  pose proof (N.div_mod c 4096). pose proof (N.div_mod c 256).
  pose proof (N.div_mod c 16).
  pose proof (N.div_mod (c / 4096) 16). pose proof (N.div_mod (c / 256) 16).
  pose proof (N.div_mod (c / 16) 16).
  pose proof (N.mod_lt c 16). pose proof (N.mod_lt (c / 16) 16).
  pose proof (N.mod_lt (c / 256) 16). pose proof (N.mod_lt (c / 4096) 16).
  assert (c / 4096 < 16) by (apply N.Div0.div_lt_upper_bound; lia).
  rewrite (N.mod_small (c / 4096) 16) by assumption.
  assert (E1 : c / 256 / 16 = c / 4096) by (rewrite N.Div0.div_div; reflexivity).
  assert (E2 : c / 16 / 16 = c / 256) by (rewrite N.Div0.div_div; reflexivity).
  lia.
Qed.

Lemma quoteUnit_reads (c : N) (l : text) :
  isHighSurrogate c = false -> isLowSurrogate c = false ->
  parseChars (quoteUnit c ++ l) = consChar c (parseChars l).
Proof.
  intros _ _. unfold quoteUnit.
  destruct (N.eqb_spec c 8) as [->|]; [reflexivity|].
  destruct (N.eqb_spec c 9) as [->|]; [reflexivity|].
  destruct (N.eqb_spec c 10) as [->|]; [reflexivity|].
  destruct (N.eqb_spec c 12) as [->|]; [reflexivity|].
  destruct (N.eqb_spec c 13) as [->|]; [reflexivity|].
  destruct (N.eqb_spec c 34) as [->|]; [reflexivity|].
  destruct (N.eqb_spec c 92) as [->|]; [reflexivity|].
  destruct (N.ltb_spec c 32).
  - apply parseChars_unicode. lia.
  - now apply parseChars_plain.
Qed.

Lemma surrogate_reads (c : N) (l : text) :
  isHighSurrogate c = true \/ isLowSurrogate c = true ->
  parseChars (c :: l) = consChar c (parseChars l)
  /\ parseChars (unicodeEscape c ++ l) = consChar c (parseChars l).
Proof.
  unfold isHighSurrogate, isLowSurrogate. intros H. split.
  - apply parseChars_plain; destruct H as [H|H]; n_cases; simpl in H; try easy; lia.
  - apply parseChars_unicode; destruct H as [H|H]; n_cases; simpl in H; try easy; lia.
Qed.

(** What [QuoteJSONString] writes, [JSON.parse] reads as the same
    string. *)
Lemma parseChars_quoteChars (s rest : text) :
  parseChars (quoteChars s ++ dquote :: rest) = Some (s, rest).
Proof.
  remember (List.length s) as n eqn:Hn. revert s Hn.
  induction n as [n IH] using lt_wf_ind. intros [|c r] Hn.
  - reflexivity.
  - simpl in Hn. cbn [quoteChars].
    destruct (isHighSurrogate c) eqn:Eh.
    + destruct (surrogate_reads c (quoteChars r ++ dquote :: rest) (or_introl Eh))
        as [_ Hu].
      destruct r as [|d r'].
      * rewrite (proj2 (surrogate_reads c _ (or_introl Eh))).
        reflexivity.
      * destruct (isLowSurrogate d) eqn:El.
        -- cbn [app].
           rewrite (proj1 (surrogate_reads c _ (or_introl Eh))).
           rewrite (proj1 (surrogate_reads d _ (or_intror El))).
           rewrite (IH (List.length r')); [reflexivity|simpl in Hn; lia|reflexivity].
        -- rewrite <- app_assoc, Hu.
           rewrite (IH (List.length (d :: r'))); [reflexivity|lia|reflexivity].
    + destruct (isLowSurrogate c) eqn:El.
      * rewrite <- app_assoc, (proj2 (surrogate_reads c _ (or_intror El))).
        rewrite (IH (List.length r)); [reflexivity|lia|reflexivity].
      * rewrite <- app_assoc, (quoteUnit_reads c _ Eh El).
        rewrite (IH (List.length r)); [reflexivity|lia|reflexivity].
Qed.

Lemma parseChars_quote (s rest : text) :
  exists body, quote s = dquote :: body
               /\ parseChars (body ++ rest) = Some (s, rest).
Proof.
  exists (quoteChars s ++ [dquote]). split; [reflexivity|].
  rewrite <- app_assoc. apply parseChars_quoteChars.
Qed.


(** ** Numbers read on to their end *)

Lemma separated_cases (rest : text) :
  separated rest = true ->
  rest = [] \/ exists c r, rest = c :: r /\ (c = comma \/ c = LF).
Proof.
  destruct rest as [|c r]; [now left|]. simpl. intros H. right.
  exists c, r. split; [reflexivity|].
  apply orb_true_iff in H as [H|H]; apply N.eqb_eq in H; auto.
Qed.

Lemma digitsRun_app (a rest : text) :
  separated rest = true ->
  digitsRun (a ++ rest) = (fst (digitsRun a), snd (digitsRun a) ++ rest).
Proof.
  intros Hs. induction a as [|c a IH].
  - simpl. destruct (separated_cases rest Hs) as [->|(c & r & -> & [->| ->])];
      reflexivity.
  - simpl. destruct (isDigit c); [|reflexivity].
    rewrite IH. now destruct (digitsRun a).
Qed.

Lemma digitsRun_app_eq (a rest ds r : text) :
  separated rest = true -> digitsRun a = (ds, r) ->
  digitsRun (a ++ rest) = (ds, r ++ rest).
Proof. intros Hs H. rewrite (digitsRun_app a rest Hs), H. reflexivity. Qed.

Lemma parseInt_app (l rest ints l2 : text) :
  separated rest = true -> parseInt l = Some (ints, l2) ->
  parseInt (l ++ rest) = Some (ints, l2 ++ rest).
Proof.
  intros Hs H. destruct l as [|c r]; [easy|].
  change ((c :: r) ++ rest) with (c :: (r ++ rest)).
  unfold parseInt in *.
  destruct (c =? 48) eqn:E; rewrite ?E; [now injection H as <- <-|].
  destruct (isDigit c) eqn:Ed; rewrite ?Ed; [|easy]. injection H as H.
  change (digitsRun (c :: r) = (ints, l2)) in H.
  change (c :: r ++ rest) with ((c :: r) ++ rest).
  now rewrite (digitsRun_app_eq _ rest _ _ Hs H).
Qed.

Lemma parseFrac_app (l rest fs l3 : text) :
  separated rest = true -> parseFrac l = Some (fs, l3) ->
  parseFrac (l ++ rest) = Some (fs, l3 ++ rest).
Proof.
  intros Hs H. destruct l as [|c r].
  - injection H as <- <-. simpl.
    destruct (separated_cases rest Hs) as [->|(c & r & -> & [->| ->])];
      reflexivity.
  - change ((c :: r) ++ rest) with (c :: (r ++ rest)).
    unfold parseFrac in *.
    destruct (c =? 46) eqn:E; rewrite ?E; [|now injection H as <- <-].
    destruct (digitsRun r) as [[|d ds] rs] eqn:Er; [easy|]. injection H as <- <-.
    now rewrite (digitsRun_app_eq _ rest _ _ Hs Er).
Qed.

Lemma parseExp_app (l rest : text) (e : Z) (l4 : text) :
  separated rest = true -> parseExp l = Some (e, l4) ->
  parseExp (l ++ rest) = Some (e, l4 ++ rest).
Proof.
  intros Hs H. destruct l as [|c r].
  - injection H as <- <-. simpl.
    destruct (separated_cases rest Hs) as [->|(c & r & -> & [->| ->])];
      reflexivity.
  - change ((c :: r) ++ rest) with (c :: (r ++ rest)).
    unfold parseExp in *.
    destruct ((c =? 101) || (c =? 69)) eqn:E; rewrite ?E;
      [|now injection H as <- <-].
    destruct r as [|s r']; [easy|].
    change ((s :: r') ++ rest) with (s :: (r' ++ rest)).
    destruct (s =? 45) eqn:E1; rewrite ?E1; [|destruct (s =? 43) eqn:E2; rewrite ?E2].
    + destruct (digitsRun r') as [[|d ds] rs] eqn:Er; [easy|]. injection H as <- <-.
      now rewrite (digitsRun_app_eq _ rest _ _ Hs Er).
    + destruct (digitsRun r') as [[|d ds] rs] eqn:Er; [easy|]. injection H as <- <-.
      now rewrite (digitsRun_app_eq _ rest _ _ Hs Er).
    + destruct (digitsRun (s :: r')) as [[|d ds] rs] eqn:Er; [easy|].
      injection H as <- <-. change (s :: r' ++ rest) with ((s :: r') ++ rest).
      now rewrite (digitsRun_app_eq _ rest _ _ Hs Er).
Qed.

(** A number is read the same when a comma or a line feed follows. *)
Lemma parseNumber_app (t rest : text) (x : number) (r : text) :
  separated rest = true -> parseNumber t = Some (x, r) ->
  parseNumber (t ++ rest) = Some (x, r ++ rest).
Proof.
  intros Hs. unfold parseNumber.
  destruct (parseSign t) as [neg l1] eqn:Es.
  destruct (parseInt l1) as [[ints l2]|] eqn:Ei; [|easy].
  destruct (parseFrac l2) as [[fracs l3]|] eqn:Ef; [|easy].
  destruct (parseExp l3) as [[e l4]|] eqn:Ee; [|easy].
  intros [= <- <-].
  assert (Es' : parseSign (t ++ rest) = (neg, l1 ++ rest)).
  { destruct t as [|c t']; [injection Es as <- <-; discriminate Ei|].
    change ((c :: t') ++ rest) with (c :: (t' ++ rest)).
    unfold parseSign in *.
    destruct (c =? 45) eqn:E; rewrite ?E; now injection Es as <- <-. }
  rewrite Es', (parseInt_app _ rest _ _ Hs Ei), (parseFrac_app _ rest _ _ Hs Ef),
    (parseExp_app _ rest _ _ Hs Ee).
  reflexivity.
Qed.

Lemma parseNumber_head (c : N) (r : text) (x : number) (rest : text) :
  parseNumber (c :: r) = Some (x, rest) -> c = 45 \/ isDigit c = true.
Proof.
  unfold parseNumber, parseSign. destruct (N.eqb_spec c 45) as [->|Hc]; [now left|].
  unfold parseInt. destruct (N.eqb_spec c 48) as [->|]; [now right|].
  destruct (isDigit c); [now right|easy].
Qed.

Lemma sameValue_eq (x y : number) : sameValue x y = true -> x = y.
Proof.
  destruct x, y; simpl; try easy.
  - now intros ->%Bool.eqb_prop.
  - now intros ->%Bool.eqb_prop.
  - intros H. apply andb_true_iff in H as [H He].
    apply andb_true_iff in H as [Hs Hm].
    apply Bool.eqb_prop in Hs. apply Pos.eqb_eq in Hm. apply Z.eqb_eq in He.
    now subst.
Qed.

(** A number that reads back: where it stands in the text, the parser
    reads it as a number, as the same number, and stops behind it. *)
Lemma readsBack_spec (x : number) (rest : text) :
  readsBack x = true -> separated rest = true ->
  isFinite x = true
  /\ parseNumber (toString x ++ rest) = Some (x, rest)
  /\ exists c r, toString x = c :: r /\ (c = 45 \/ isDigit c = true).
Proof.
  unfold readsBack. intros H Hs. apply andb_true_iff in H as [Hf H].
  destruct (parseNumber (toString x)) as [[y [|? ?]]|] eqn:E; try easy.
  apply sameValue_eq in H. subst y. split; [exact Hf|]. split.
  - now rewrite (parseNumber_app _ rest _ _ Hs E).
  - destruct (toString x) as [|c r] eqn:Et; [easy|].
    exists c, r. split; [reflexivity|]. exact (parseNumber_head _ _ _ _ E).
Qed.


(** ** The keys of an object *)

(** *** An array index has one spelling *)

Lemma isDigit_range (c : N) : isDigit c = true -> 48 <= c <= 57.
Proof.
  unfold isDigit. intros H. apply andb_true_iff in H as [H1 H2].
  apply N.leb_le in H1, H2. lia.
Qed.

Lemma digitsValue_split (l : text) (acc : N) :
  forallb isDigit l = true ->
  digitsValue acc l = acc * 10 ^ N.of_nat (List.length l) + digitsValue 0 l
  /\ digitsValue 0 l < 10 ^ N.of_nat (List.length l).
Proof.
  revert acc; induction l as [|c r IH]; intros acc Hd.
  - simpl. split; lia.
  - simpl in Hd. apply andb_true_iff in Hd as [Hc Hr].
    apply isDigit_range in Hc.
    cbn [digitsValue List.length].
    rewrite Nat2N.inj_succ, N.pow_succ_r'.
    destruct (IH (10 * acc + (c - 48)) Hr) as [E1 B].
    destruct (IH (10 * 0 + (c - 48)) Hr) as [E2 _].
    rewrite E1, E2. set (P := 10 ^ N.of_nat (List.length r)) in *.
    split; nia.
Qed.

Lemma digitsValue_lower (c : N) (r : text) :
  forallb isDigit (c :: r) = true -> c <> 48 ->
  10 ^ N.of_nat (List.length r) <= digitsValue 0 (c :: r).
Proof.
  intros Hd Hc. simpl in Hd. apply andb_true_iff in Hd as [Hc' Hr].
  apply isDigit_range in Hc'. cbn [digitsValue].
  destruct (digitsValue_split r (10 * 0 + (c - 48)) Hr) as [E _].
  rewrite E. set (P := 10 ^ N.of_nat (List.length r)) in *. nia.
Qed.

Lemma digits_same_length (k k' : text) :
  List.length k = List.length k' ->
  forallb isDigit k = true -> forallb isDigit k' = true ->
  digitsValue 0 k = digitsValue 0 k' -> k = k'.
Proof.
  revert k'; induction k as [|c r IH]; intros [|c' r'] Hl Hk Hk' Hv;
    try easy.
  simpl in Hl, Hk, Hk'. injection Hl as Hl.
  apply andb_true_iff in Hk as [Hc Hr]. apply andb_true_iff in Hk' as [Hc' Hr'].
  apply isDigit_range in Hc, Hc'. cbn [digitsValue] in Hv.
  destruct (digitsValue_split r (10 * 0 + (c - 48)) Hr) as [E B].
  destruct (digitsValue_split r' (10 * 0 + (c' - 48)) Hr') as [E' B'].
  rewrite E, E' in Hv. rewrite <- Hl in *.
  set (P := 10 ^ N.of_nat (List.length r)) in *.
  assert (c = c') by nia. subst c'.
  f_equal. apply IH; auto. nia.
Qed.

(** What [arrayIndex] asks of a key. *)
Lemma arrayIndex_spec (k : text) (i : N) :
  arrayIndex k = Some i ->
  forallb isDigit k = true /\ digitsValue 0 k = i
  /\ exists c r, k = c :: r /\ (c <> 48 \/ r = []).
Proof.
  destruct k as [|c r]; [easy|]. unfold arrayIndex.
  destruct (forallb isDigit (c :: r)) eqn:Hd; [|easy].
  destruct (negb (c =? 48) || text_eqb r []) eqn:Hz; [|easy].
  destruct (List.length (c :: r) <=? 10)%nat; [|easy].
  destruct (digitsValue 0 (c :: r) <? 4294967295); [|easy].
  cbn [andb]. intros [= <-]. repeat split. exists c, r. split; [reflexivity|].
  apply orb_true_iff in Hz as [Hz|Hz].
  - left. apply negb_true_iff, N.eqb_neq in Hz. exact Hz.
  - right. now apply text_eqb_eq in Hz.
Qed.

Lemma pow10_mono (a b : nat) :
  (a <= b)%nat -> 10 ^ N.of_nat a <= 10 ^ N.of_nat b.
Proof. intros H. apply N.pow_le_mono_r; lia. Qed.

Lemma index_length_le (k k' : text) (i : N) :
  arrayIndex k = Some i -> arrayIndex k' = Some i ->
  (List.length k' <= List.length k)%nat.
Proof.
  intros H H'.
  destruct (arrayIndex_spec k i H) as (Hd & Hv & c & r & -> & Hz).
  destruct (arrayIndex_spec k' i H') as (Hd' & Hv' & c' & r' & -> & Hz').
  destruct (Nat.le_gt_cases (List.length (c' :: r')) (List.length (c :: r)))
    as [L|L]; [exact L|exfalso].
  destruct (digitsValue_split (c :: r) 0 Hd) as [_ B].
  destruct Hz' as [Hz' | ->]; [|simpl in L; lia].
  pose proof (digitsValue_lower c' r' Hd' Hz') as Lo.
  pose proof (pow10_mono (List.length (c :: r)) (List.length r')) as M.
  simpl in L. specialize (M ltac:(simpl; lia)). lia.
Qed.

Lemma arrayIndex_inj (k k' : text) (i : N) :
  arrayIndex k = Some i -> arrayIndex k' = Some i -> k = k'.
Proof.
  intros H H'.
  pose proof (index_length_le k k' i H H').
  pose proof (index_length_le k' k i H' H).
  destruct (arrayIndex_spec k i H) as (Hd & Hv & _).
  destruct (arrayIndex_spec k' i H') as (Hd' & Hv' & _).
  apply digits_same_length; auto; lia.
Qed.

(** *** The order is kept *)

Lemma keyBefore_irrefl (k : text) : ~ keyBefore k k.
Proof. unfold keyBefore. destruct (arrayIndex k); [lia|easy]. Qed.

Lemma keyBefore_neq (a b : text) : keyBefore a b -> a <> b.
Proof. intros H ->. exact (keyBefore_irrefl b H). Qed.

Lemma keyBefore_trans (a b c : text) (i : N) :
  arrayIndex a = Some i ->
  keyBefore a b -> keyBefore b c -> keyBefore a c.
Proof.
  unfold keyBefore. intros ->.
  destruct (arrayIndex b), (arrayIndex c); try easy; lia.
Qed.

Lemma hasKey_false_iff (k : text) (props : list (text * value)) :
  hasKey k props = false <-> ~ In k (List.map fst props).
Proof.
  unfold hasKey. induction props as [|[k' v'] r IH]; simpl; [easy|].
  destruct (text_eqb k k') eqn:E.
  - apply text_eqb_eq in E. subst. split; [easy|]. intros H. exfalso. auto.
  - rewrite IH. split; [|tauto]. intros H [->|H']; [|auto].
    now rewrite text_eqb_refl in E.
Qed.

Lemma keys_replaceValue (k : text) (v : value) (props : list (text * value)) :
  List.map fst (replaceValue k v props) = List.map fst props.
Proof.
  induction props as [|[k' v'] r IH]; simpl; [reflexivity|].
  destruct (text_eqb k k'); simpl; [reflexivity|now rewrite IH].
Qed.

Lemma keys_insertIndex (P : text -> Prop) (i : N) (k : text) (v : value)
      (props : list (text * value)) :
  P k -> Forall P (List.map fst props) ->
  Forall P (List.map fst (insertIndex i k v props)).
Proof.
  intros Hk. induction props as [|[k' v'] r IH]; simpl; intros H.
  - now constructor.
  - inversion H as [|? ? H1 H2]; subst.
    destruct (arrayIndex k') as [j|]; [destruct (j <? i)|]; simpl;
      repeat constructor; auto.
Qed.

Lemma ordered_insertIndex (i : N) (k : text) (v : value)
      (props : list (text * value)) :
  arrayIndex k = Some i -> hasKey k props = false ->
  ordered props -> ordered (insertIndex i k v props).
Proof.
  intros Hi. unfold ordered.
  induction props as [|[k' v'] r IH]; simpl; intros Hk Ho.
  - repeat constructor.
  - apply StronglySorted_inv in Ho as [Ho Hall].
    apply hasKey_false_iff in Hk. simpl in Hk.
    assert (Hne : k <> k') by (intros ->; apply Hk; now left).
    assert (Hk' : hasKey k r = false) by (apply hasKey_false_iff; tauto).
    destruct (arrayIndex k') as [j|] eqn:Ej.
    + destruct (N.ltb_spec j i).
      * simpl. constructor; [now apply IH|].
        apply keys_insertIndex; [|exact Hall].
        unfold keyBefore. now rewrite Ej, Hi.
      * assert (i <> j).
        { intros ->. apply Hne. exact (arrayIndex_inj _ _ _ Hi Ej). }
        assert (B : keyBefore k k') by (unfold keyBefore; rewrite Hi, Ej; lia).
        simpl. constructor; [now constructor|].
        constructor; [exact B|].
        eapply Forall_impl; [|exact Hall]. intros x. now apply (keyBefore_trans k k' x i).
    + assert (B : keyBefore k k') by (unfold keyBefore; now rewrite Hi, Ej).
      simpl. constructor; [now constructor|].
      constructor; [exact B|].
      eapply Forall_impl; [|exact Hall]. intros x. now apply (keyBefore_trans k k' x i).
Qed.

Lemma StronglySorted_snoc {A : Type} (R : A -> A -> Prop) (l : list A) (x : A) :
  StronglySorted R l -> Forall (fun y => R y x) l ->
  StronglySorted R (l ++ [x]).
Proof.
  induction l as [|a l IH]; simpl; intros Hs Hf.
  - repeat constructor.
  - apply StronglySorted_inv in Hs as [Hs Ha].
    inversion Hf as [|? ? H1 H2]; subst.
    constructor; [now apply IH|].
    apply Forall_app. split; [exact Ha|now repeat constructor].
Qed.

Lemma ordered_append (k : text) (v : value) (props : list (text * value)) :
  arrayIndex k = None -> hasKey k props = false ->
  ordered props -> ordered (props ++ [(k, v)]).
Proof.
  intros Hi Hk Ho. unfold ordered in *. rewrite map_app. simpl.
  apply StronglySorted_snoc; [exact Ho|].
  apply hasKey_false_iff in Hk. apply Forall_forall. intros x Hx.
  unfold keyBefore. rewrite Hi. destruct (arrayIndex x); [easy|].
  intros ->. now apply Hk.
Qed.

(** Defining a property keeps the keys in order. *)
Lemma ordered_defineProperty (k : text) (v : value)
      (props : list (text * value)) :
  ordered props -> ordered (defineProperty k v props).
Proof.
  intros Ho. unfold defineProperty. destruct (hasKey k props) eqn:Hk.
  - unfold ordered. now rewrite keys_replaceValue.
  - destruct (arrayIndex k) as [i|] eqn:Hi.
    + now apply ordered_insertIndex.
    + now apply ordered_append.
Qed.

Lemma ordered_makeObject (members : list (text * value)) :
  ordered (makeObject members).
Proof.
  unfold makeObject.
  assert (G : forall acc, ordered acc ->
                ordered (fold_left (fun props kv =>
                                      defineProperty (fst kv) (snd kv) props)
                                   members acc)).
  { induction members as [|[k v] ms IH]; intros acc Ha; [exact Ha|].
    simpl. apply IH. now apply ordered_defineProperty. }
  apply G. constructor.
Qed.

Lemma insertIndex_last (i : N) (k : text) (v : value)
      (props : list (text * value)) :
  arrayIndex k = Some i ->
  Forall (fun x => keyBefore x k) (List.map fst props) ->
  insertIndex i k v props = props ++ [(k, v)].
Proof.
  intros Hi. induction props as [|[k' v'] r IH]; simpl; intros H;
    [reflexivity|].
  inversion H as [|? ? H1 H2]; subst. unfold keyBefore in H1. rewrite Hi in H1.
  destruct (arrayIndex k') as [j|]; [|easy].
  destruct (N.ltb_spec j i); [|lia]. now rewrite IH.
Qed.

Lemma defineProperty_last (k : text) (v : value)
      (props : list (text * value)) :
  Forall (fun x => keyBefore x k) (List.map fst props) ->
  defineProperty k v props = props ++ [(k, v)].
Proof.
  intros H. unfold defineProperty.
  assert (Hk : hasKey k props = false).
  { apply hasKey_false_iff. intros Hin.
    rewrite Forall_forall in H. exact (keyBefore_irrefl k (H k Hin)). }
  rewrite Hk. destruct (arrayIndex k) as [i|] eqn:Hi; [|reflexivity].
  now apply insertIndex_last.
Qed.

Lemma StronglySorted_app_inv {A : Type} (R : A -> A -> Prop) (l : list A)
      (x : A) (m : list A) :
  StronglySorted R (l ++ x :: m) -> Forall (fun y => R y x) l.
Proof.
  induction l as [|a l IH]; simpl; intros H; [constructor|].
  apply StronglySorted_inv in H as [Hs Ha].
  constructor; [|now apply IH].
  apply Forall_app in Ha as [_ Ha]. now inversion Ha.
Qed.

(** Members whose keys are in order make the object they spell. *)
Lemma makeObject_ordered (props : list (text * value)) :
  ordered props -> makeObject props = props.
Proof.
  unfold makeObject, ordered.
  assert (G : forall ms acc,
             StronglySorted keyBefore (List.map fst (acc ++ ms)) ->
             fold_left (fun props kv => defineProperty (fst kv) (snd kv) props)
                       ms acc = acc ++ ms).
  { induction ms as [|[k v] ms IH]; intros acc H; simpl.
    - now rewrite app_nil_r.
    - rewrite defineProperty_last.
      + rewrite IH; rewrite <- app_assoc; [reflexivity|exact H].
      + rewrite map_app in H. simpl in H.
        exact (StronglySorted_app_inv _ _ _ _ H). }
  intros H. exact (G props [] H).
Qed.

Lemma ordered_map_values (g : value -> value) (props : list (text * value)) :
  ordered props -> ordered (List.map (fun kv => (fst kv, g (snd kv))) props).
Proof.
  intros H. unfold ordered in *. rewrite map_map. exact H.
Qed.


(** ** Documents *)

(** Induction on a value, with the elements and the properties at
    hand. *)
Lemma value_induction (P : value -> Prop) :
  P VNull -> (forall b, P (VBool b)) -> (forall x, P (VNum x)) ->
  (forall s, P (VStr s)) ->
  (forall elems named,
      Forall P elems -> Forall (fun kv => P (snd kv)) named ->
      P (VArr elems named)) ->
  (forall props, Forall (fun kv => P (snd kv)) props -> P (VObj props)) ->
  forall v, P v.
Proof.
  intros Hnull Hbool Hnum Hstr Harr Hobj.
  refine (fix IH (v : value) : P v :=
            match v with
            | VNull => Hnull
            | VBool b => Hbool b
            | VNum x => Hnum x
            | VStr s => Hstr s
            | VArr elems named =>
                Harr elems named
                     ((fix all (l : list value) : Forall P l :=
                         match l with
                         | [] => Forall_nil _
                         | e :: r => Forall_cons _ (IH e) (all r)
                         end) elems)
                     ((fix all (l : list (text * value))
                         : Forall (fun kv => P (snd kv)) l :=
                         match l with
                         | [] => Forall_nil _
                         | kv :: r => Forall_cons _ (IH (snd kv)) (all r)
                         end) named)
            | VObj props =>
                Hobj props
                     ((fix all (l : list (text * value))
                         : Forall (fun kv => P (snd kv)) l :=
                         match l with
                         | [] => Forall_nil _
                         | kv :: r => Forall_cons _ (IH (snd kv)) (all r)
                         end) props)
            end).
Qed.

(** *** What the parser builds is well keyed *)

Lemma values_replaceValue (P : value -> Prop) (k : text) (v : value)
      (props : list (text * value)) :
  P v -> Forall (fun kv => P (snd kv)) props ->
  Forall (fun kv => P (snd kv)) (replaceValue k v props).
Proof.
  intros Hv. induction props as [|[k' v'] r IH]; simpl; intros H; [constructor|].
  inversion H; subst. destruct (text_eqb k k'); constructor; auto.
Qed.

Lemma values_insertIndex (P : value -> Prop) (i : N) (k : text) (v : value)
      (props : list (text * value)) :
  P v -> Forall (fun kv => P (snd kv)) props ->
  Forall (fun kv => P (snd kv)) (insertIndex i k v props).
Proof.
  intros Hv. induction props as [|[k' v'] r IH]; simpl; intros H.
  - now repeat constructor.
  - inversion H; subst.
    destruct (arrayIndex k') as [j|]; [destruct (j <? i)|];
      repeat constructor; auto.
Qed.

Lemma values_defineProperty (P : value -> Prop) (k : text) (v : value)
      (props : list (text * value)) :
  P v -> Forall (fun kv => P (snd kv)) props ->
  Forall (fun kv => P (snd kv)) (defineProperty k v props).
Proof.
  intros Hv H. unfold defineProperty. destruct (hasKey k props).
  - now apply values_replaceValue.
  - destruct (arrayIndex k).
    + now apply values_insertIndex.
    + apply Forall_app. split; [exact H|now repeat constructor].
Qed.

Lemma values_makeObject (P : value -> Prop) (members : list (text * value)) :
  Forall (fun kv => P (snd kv)) members ->
  Forall (fun kv => P (snd kv)) (makeObject members).
Proof.
  unfold makeObject.
  assert (G : forall acc,
             Forall (fun kv => P (snd kv)) acc ->
             Forall (fun kv => P (snd kv)) members ->
             Forall (fun kv => P (snd kv))
                    (fold_left (fun props kv =>
                                  defineProperty (fst kv) (snd kv) props)
                               members acc)).
  { induction members as [|[k v] ms IH]; intros acc Ha Hm; [exact Ha|].
    inversion Hm; subst. simpl. apply IH; [|assumption].
    now apply values_defineProperty. }
  intros H. apply G; [constructor|exact H].
Qed.

Lemma literal_yields (P : value -> Prop) (word : string) (v : value) :
  P v -> yields P (literal word v).
Proof.
  intros Hv l a rest. unfold literal.
  destruct (startsWith (lit word) l); [|easy]. now intros [= <- _].
Qed.

Section Descent.
Variable value_ : text -> parsed value.
Variable members_ : text -> parsed (list (text * value)).
Variable elements_ : text -> parsed (list value).

Lemma valueAt_wellKeyed :
  yields (Forall (fun kv => wellKeyed (snd kv))) members_ ->
  yields (Forall wellKeyed) elements_ ->
  yields wellKeyed (valueAt members_ elements_).
Proof.
  intros Hm He l v rest. unfold valueAt.
  destruct (skipWS l) as [|c r]; [easy|].
  destruct (c =? 123); [|destruct (c =? 91); [|destruct (c =? dquote)]].
  - destruct (skipWS r) as [|d r']; [easy|].
    destruct (d =? 125).
    + intros [= <- _]. constructor; constructor.
    + destruct (members_ (d :: r')) as [ms rest'| |] eqn:E; try easy.
      simpl. intros [= <- _]. apply Hm in E.
      constructor; [apply ordered_makeObject|now apply values_makeObject].
  - destruct (skipWS r) as [|d r']; [easy|].
    destruct (d =? 93).
    + intros [= <- _]. constructor; constructor.
    + destruct (elements_ (d :: r')) as [vs rest'| |] eqn:E; try easy.
      simpl. intros [= <- _]. apply He in E. now constructor.
  - destruct (parseChars r) as [[s rest']|]; [|easy].
    intros [= <- _]. constructor.
  - destruct (c =? 116); [|destruct (c =? 102); [|destruct (c =? 110)]];
      try (apply literal_yields; constructor).
    destruct (parseNumber (c :: r)) as [[x rest']|]; [|easy].
    intros [= <- _]. constructor.
Qed.

Lemma membersAt_wellKeyed :
  yields wellKeyed value_ ->
  yields (Forall (fun kv => wellKeyed (snd kv))) members_ ->
  yields (Forall (fun kv => wellKeyed (snd kv))) (membersAt value_ members_).
Proof.
  intros Hv Hm l ms rest. unfold membersAt.
  destruct (skipWS l) as [|c r]; [easy|].
  destruct (c =? dquote); [|easy].
  destruct (parseChars r) as [[k r1]|]; [|easy].
  destruct (skipWS r1) as [|c1 r2]; [easy|].
  destruct (c1 =? 58); [|easy].
  destruct (value_ r2) as [v r3| |] eqn:Ev; try easy. simpl.
  apply Hv in Ev.
  destruct (skipWS r3) as [|c3 r4]; [easy|].
  destruct (c3 =? 44).
  - destruct (members_ r4) as [ms' rest'| |] eqn:Em; try easy.
    simpl. intros [= <- _]. apply Hm in Em. now constructor.
  - destruct (c3 =? 125); [|easy]. intros [= <- _]. now repeat constructor.
Qed.

Lemma elementsAt_wellKeyed :
  yields wellKeyed value_ ->
  yields (Forall wellKeyed) elements_ ->
  yields (Forall wellKeyed) (elementsAt value_ elements_).
Proof.
  intros Hv He l vs rest. unfold elementsAt.
  destruct (value_ l) as [v r1| |] eqn:Ev; try easy. simpl.
  apply Hv in Ev.
  destruct (skipWS r1) as [|c r2]; [easy|].
  destruct (c =? 44).
  - destruct (elements_ r2) as [vs' rest'| |] eqn:Ee; try easy.
    simpl. intros [= <- _]. apply He in Ee. now constructor.
  - destruct (c =? 93); [|easy]. intros [= <- _]. now repeat constructor.
Qed.
End Descent.

Lemma parse_wellKeyed (f : nat) :
  yields wellKeyed (parseValue f)
  /\ yields (Forall (fun kv => wellKeyed (snd kv))) (parseMembers f)
  /\ yields (Forall wellKeyed) (parseElements f).
Proof.
  induction f as [|f (IHv & IHm & IHe)].
  - repeat split; intros l a rest; discriminate.
  - split; [|split]; simpl.
    + now apply valueAt_wellKeyed.
    + now apply membersAt_wellKeyed.
    + now apply elementsAt_wellKeyed.
Qed.

(** The objects [JSON.parse] builds have their keys in order. *)
Lemma JSON_parse_wellKeyed (t : text) (v : value) (rest : text) :
  JSON_parse t = POk v rest -> wellKeyed v.
Proof.
  unfold JSON_parse.
  destruct (parseValue _ t) as [v' rest'| |] eqn:E; try easy.
  destruct (skipWS rest'); [|easy]. intros [= <- _].
  exact (proj1 (parse_wellKeyed _) _ _ _ E).
Qed.


(** ** What [JSON.stringify] writes, [JSON.parse] reads *)

Lemma skipWS_app (ws t : text) :
  forallb isJsonWS ws = true -> skipWS (ws ++ t) = skipWS t.
Proof.
  induction ws as [|c ws IH]; simpl; [reflexivity|].
  intros H. apply andb_true_iff in H as [-> H]. now apply IH.
Qed.

Lemma skipWS_start (c : N) (t : text) :
  isJsonWS c = false -> skipWS (c :: t) = c :: t.
Proof. simpl. now intros ->. Qed.

Lemma valueStart_facts (d : N) :
  valueStart d = true ->
  isJsonWS d = false /\ (d =? 93) = false /\ (d =? 125) = false.
Proof.
  unfold valueStart, isJsonWS, isDigit, dquote. intros H.
  repeat apply orb_true_iff in H as [H|H];
    try (apply N.eqb_eq in H; subst d; repeat split; reflexivity).
  apply andb_true_iff in H as [H1 H2]. apply N.leb_le in H1, H2.
  repeat split; repeat (apply orb_false_iff; split); apply N.eqb_neq; lia.
Qed.

Lemma skipWS_value (ws t : text) :
  forallb isJsonWS ws = true -> startsValue t -> skipWS (ws ++ t) = t.
Proof.
  intros Hw (d & r & -> & Hd). rewrite (skipWS_app _ _ Hw).
  apply skipWS_start. now apply valueStart_facts.
Qed.

Section Descent.
Variable value_ : text -> parsed value.
Variable members_ : text -> parsed (list (text * value)).
Variable elements_ : text -> parsed (list value).

Lemma valueAt_ws (ws t : text) :
  forallb isJsonWS ws = true ->
  valueAt members_ elements_ (ws ++ t) = valueAt members_ elements_ t.
Proof. intros H. unfold valueAt. now rewrite (skipWS_app _ _ H). Qed.

Lemma membersAt_ws (ws t : text) :
  forallb isJsonWS ws = true ->
  membersAt value_ members_ (ws ++ t) = membersAt value_ members_ t.
Proof. intros H. unfold membersAt. now rewrite (skipWS_app _ _ H). Qed.

(** The opening bracket, then the elements. *)
Lemma valueAt_array (ws t : text) :
  forallb isJsonWS ws = true -> startsValue t ->
  valueAt members_ elements_ (91 :: ws ++ t)
  = andThen (elements_ t) (fun vs rest => POk (VArr vs []) rest).
Proof.
  intros Hw Ht. unfold valueAt.
  rewrite (skipWS_start 91) by reflexivity.
  change (91 =? 123) with false. change (91 =? 91) with true. cbv iota.
  rewrite (skipWS_value _ _ Hw Ht).
  destruct Ht as (d & r & -> & Hd).
  destruct (valueStart_facts d Hd) as (_ & -> & _). reflexivity.
Qed.

(** The opening brace, then the members. *)
Lemma valueAt_object (ws t : text) :
  forallb isJsonWS ws = true ->
  valueAt members_ elements_ (123 :: ws ++ dquote :: t)
  = andThen (members_ (dquote :: t))
            (fun ms rest => POk (VObj (makeObject ms)) rest).
Proof.
  intros Hw. unfold valueAt.
  rewrite (skipWS_start 123) by reflexivity.
  change (123 =? 123) with true. cbv iota.
  rewrite (skipWS_app _ _ Hw), (skipWS_start dquote) by reflexivity.
  reflexivity.
Qed.

(** An element, then a comma and the other elements, or the closing
    bracket. *)
Lemma elementsAt_more (l : text) (v : value) (ws r2 : text) :
  value_ l = POk v (comma :: r2) ->
  elementsAt value_ elements_ l
  = andThen (elements_ r2) (fun vs rest => POk (v :: vs) rest).
Proof.
  intros Hv. unfold elementsAt. rewrite Hv. cbn [andThen].
  rewrite (skipWS_start comma) by reflexivity. reflexivity.
Qed.

Lemma elementsAt_last (l : text) (v : value) (ws r2 : text) :
  forallb isJsonWS ws = true ->
  value_ l = POk v (ws ++ 93 :: r2) ->
  elementsAt value_ elements_ l = POk [v] r2.
Proof.
  intros Hw Hv. unfold elementsAt. rewrite Hv. cbn [andThen].
  rewrite (skipWS_app _ _ Hw), (skipWS_start 93) by reflexivity. reflexivity.
Qed.

(** A key, the colon, a value, then a comma and the other members, or
    the closing brace. *)
Lemma membersAt_more (k t : text) (v : value) (r4 : text) :
  value_ t = POk v (comma :: r4) ->
  membersAt value_ members_ (quote k ++ 58 :: t)
  = andThen (members_ r4) (fun ms rest => POk ((k, v) :: ms) rest).
Proof.
  intros Hv. unfold membersAt, quote. simpl app.
  rewrite (skipWS_start dquote) by reflexivity.
  change (dquote =? dquote) with true. cbv iota.
  rewrite <- app_assoc. simpl app. rewrite parseChars_quoteChars.
  rewrite (skipWS_start 58) by reflexivity.
  change (58 =? 58) with true. cbv iota.
  rewrite Hv. cbn [andThen].
  rewrite (skipWS_start comma) by reflexivity. reflexivity.
Qed.

Lemma membersAt_last (k t : text) (v : value) (ws r4 : text) :
  forallb isJsonWS ws = true ->
  value_ t = POk v (ws ++ 125 :: r4) ->
  membersAt value_ members_ (quote k ++ 58 :: t) = POk [(k, v)] r4.
Proof.
  intros Hw Hv. unfold membersAt, quote. simpl app.
  rewrite (skipWS_start dquote) by reflexivity.
  change (dquote =? dquote) with true. cbv iota.
  rewrite <- app_assoc. simpl app. rewrite parseChars_quoteChars.
  rewrite (skipWS_start 58) by reflexivity.
  change (58 =? 58) with true. cbv iota.
  rewrite Hv. cbn [andThen].
  rewrite (skipWS_app _ _ Hw), (skipWS_start 125) by reflexivity. reflexivity.
Qed.
End Descent.

Lemma parseValue_S (f : nat) (l : text) :
  parseValue (S f) l = valueAt (parseMembers f) (parseElements f) l.
Proof. reflexivity. Qed.

Lemma parseMembers_S (f : nat) (l : text) :
  parseMembers (S f) l = membersAt (parseValue f) (parseMembers f) l.
Proof. reflexivity. Qed.

Lemma parseElements_S (f : nat) (l : text) :
  parseElements (S f) l = elementsAt (parseValue f) (parseElements f) l.
Proof. reflexivity. Qed.

Lemma parseValue_ws (f : nat) (ws t : text) :
  forallb isJsonWS ws = true -> parseValue f (ws ++ t) = parseValue f t.
Proof. intros H. destruct f; [reflexivity|]. simpl. now apply valueAt_ws. Qed.

Lemma parseMembers_ws (f : nat) (ws t : text) :
  forallb isJsonWS ws = true -> parseMembers f (ws ++ t) = parseMembers f t.
Proof. intros H. destruct f; [reflexivity|]. simpl. now apply membersAt_ws. Qed.

Lemma parseElements_ws (f : nat) (ws t : text) :
  forallb isJsonWS ws = true -> parseElements f (ws ++ t) = parseElements f t.
Proof.
  intros H. destruct f; [reflexivity|]. simpl. unfold elementsAt.
  now rewrite (parseValue_ws f _ _ H).
Qed.

(** *** The text of a value *)

Lemma serialize_starts (indent : text) (v : value) (rest : text) :
  numbersReadBack v = true -> startsValue (serialize indent v ++ rest).
Proof.
  destruct v as [| [|] | x | s | [|e es] named | [|p ps]]; intros H;
    try (eexists _, _; split; [reflexivity|reflexivity]).
  simpl in H. destruct (readsBack_spec x [] H eq_refl) as (Hf & _ & c & r & Et & Hc).
  simpl. rewrite Hf, Et. exists c, (r ++ rest). split; [reflexivity|].
  unfold valueStart. destruct Hc as [-> | ->]; [reflexivity|].
  now rewrite !orb_true_r.
Qed.

Lemma join_cons (sep p : text) (q : text) (ps : list text) :
  join sep (p :: q :: ps) = p ++ sep ++ join sep (q :: ps).
Proof. reflexivity. Qed.

Lemma serialize_array (indent : text) (e : value) (es : list value)
      (named : list (text * value)) (rest : text) :
  serialize indent (VArr (e :: es) named) ++ rest
  = 91 :: (LF :: indent ++ gap)
       ++ (join ([comma; LF] ++ (indent ++ gap))
                (List.map (serialize (indent ++ gap)) (e :: es))
           ++ (LF :: indent) ++ 93 :: rest).
Proof.
  change (serialize indent (VArr (e :: es) named))
    with ([91] ++ [LF] ++ (indent ++ gap)
          ++ join ([comma; LF] ++ (indent ++ gap))
                  (List.map (serialize (indent ++ gap)) (e :: es))
          ++ [LF] ++ indent ++ [93]).
  generalize (join ([comma; LF] ++ (indent ++ gap))
                   (List.map (serialize (indent ++ gap)) (e :: es))).
  intros J. cbn [app]. rewrite <- !app_assoc. cbn [app].
  rewrite <- ?app_assoc. reflexivity.
Qed.

Lemma serialize_object (indent : text) (p : text * value)
      (ps : list (text * value)) (rest : text) :
  serialize indent (VObj (p :: ps)) ++ rest
  = 123 :: (LF :: indent ++ gap)
        ++ (join ([comma; LF] ++ (indent ++ gap))
                 (List.map (fun kv => quote (fst kv) ++ lit ": "
                                      ++ serialize (indent ++ gap) (snd kv))
                           (p :: ps))
            ++ (LF :: indent) ++ 125 :: rest).
Proof.
  change (serialize indent (VObj (p :: ps)))
    with ([123] ++ [LF] ++ (indent ++ gap)
          ++ join ([comma; LF] ++ (indent ++ gap))
                  (List.map (fun kv => quote (fst kv) ++ lit ": "
                                       ++ serialize (indent ++ gap) (snd kv))
                            (p :: ps))
          ++ [LF] ++ indent ++ [125]).
  generalize (join ([comma; LF] ++ (indent ++ gap))
                   (List.map (fun kv => quote (fst kv) ++ lit ": "
                                        ++ serialize (indent ++ gap) (snd kv))
                             (p :: ps))).
  intros J. cbn [app]. rewrite <- !app_assoc. cbn [app].
  rewrite <- ?app_assoc. reflexivity.
Qed.

Lemma ws_indent (indent : text) :
  forallb isJsonWS indent = true ->
  forallb isJsonWS (indent ++ gap) = true
  /\ forallb isJsonWS (LF :: indent) = true
  /\ forallb isJsonWS (LF :: indent ++ gap) = true.
Proof.
  intros H. repeat split; simpl; rewrite ?forallb_app, ?H; reflexivity.
Qed.

Lemma reads_elements (ind indent rest : text) (es : list value) :
  forallb isJsonWS ind = true -> forallb isJsonWS indent = true ->
  es <> [] -> Forall reads es -> forallb numbersReadBack es = true ->
  exists f0, forall f, (f0 <= f)%nat ->
    parseElements f (join ([comma; LF] ++ ind) (List.map (serialize ind) es)
                     ++ (LF :: indent) ++ 93 :: rest)
    = POk (List.map shown es) rest.
Proof.
  intros Hi Hd Hne Hr Hn. induction es as [|e es IH]; [easy|]. clear Hne.
  inversion Hr as [|? ? Re Res]; subst.
  simpl in Hn. apply andb_true_iff in Hn as [Hne Hnes].
  destruct es as [|e2 es'].
  - destruct (Re ind ((LF :: indent) ++ 93 :: rest) Hi eq_refl) as [f0 Hf].
    exists (S f0). intros [|f] Hle; [lia|]. rewrite parseElements_S.
    cbn [List.map join].
    apply (elementsAt_last _ _ _ _ (LF :: indent)).
    + simpl. now rewrite Hd.
    + apply Hf. lia.
  - destruct (IH ltac:(easy) Res Hnes) as [f1 Hf1].
    destruct (Re ind (([comma; LF] ++ ind)
                      ++ join ([comma; LF] ++ ind)
                              (List.map (serialize ind) (e2 :: es'))
                      ++ (LF :: indent) ++ 93 :: rest) Hi eq_refl) as [f0 Hf0].
    exists (S (Nat.max f0 f1)). intros [|f] Hle; [lia|]. rewrite parseElements_S.
    cbn [List.map]. rewrite join_cons, <- !app_assoc.
    rewrite (elementsAt_more _ _ _ (shown e) []
               (LF :: ind ++ join ([comma; LF] ++ ind)
                                  (List.map (serialize ind) (e2 :: es'))
                   ++ (LF :: indent) ++ 93 :: rest)).
    + change (LF :: ind ++ ?x) with ((LF :: ind) ++ x).
      rewrite parseElements_ws by (simpl; now rewrite Hi).
      cbn [List.map] in Hf1. rewrite Hf1 by lia. reflexivity.
    + rewrite <- !app_assoc in Hf0. apply Hf0. lia.
Qed.

Lemma reads_members (ind indent rest : text) (ps : list (text * value)) :
  forallb isJsonWS ind = true -> forallb isJsonWS indent = true ->
  ps <> [] -> Forall (fun kv => reads (snd kv)) ps ->
  exists f0, forall f, (f0 <= f)%nat ->
    parseMembers f (join ([comma; LF] ++ ind)
                         (List.map (fun kv => quote (fst kv) ++ lit ": "
                                              ++ serialize ind (snd kv)) ps)
                    ++ (LF :: indent) ++ 125 :: rest)
    = POk (List.map (fun kv => (fst kv, shown (snd kv))) ps) rest.
Proof.
  intros Hi Hd Hne Hr. induction ps as [|[k v] ps IH]; [easy|]. clear Hne.
  inversion Hr as [|? ? Rv Rps]; subst. simpl in Rv.
  destruct ps as [|p2 ps'].
  - destruct (Rv ind ((LF :: indent) ++ 125 :: rest) Hi eq_refl) as [f0 Hf].
    exists (S f0). intros [|f] Hle; [lia|]. rewrite parseMembers_S.
    cbn [List.map join fst snd]. change (lit ": ") with [58; 32].
    rewrite <- !app_assoc. cbn [app].
    apply (membersAt_last _ _ _ _ _ (LF :: indent)).
    + simpl. now rewrite Hd.
    + change (32 :: ?x) with ([32] ++ x). rewrite parseValue_ws by reflexivity.
      apply Hf. lia.
  - destruct (IH ltac:(easy) Rps) as [f1 Hf1].
    destruct (Rv ind (([comma; LF] ++ ind)
                      ++ join ([comma; LF] ++ ind)
                              (List.map (fun kv => quote (fst kv) ++ lit ": "
                                                   ++ serialize ind (snd kv))
                                        (p2 :: ps'))
                      ++ (LF :: indent) ++ 125 :: rest) Hi eq_refl) as [f0 Hf0].
    exists (S (Nat.max f0 f1)). intros [|f] Hle; [lia|]. rewrite parseMembers_S.
    cbn [List.map]. rewrite join_cons. cbn [fst snd].
    change (lit ": ") with [58; 32]. rewrite <- !app_assoc. cbn [app].
    rewrite (membersAt_more _ _ k _ (shown v)
               (LF :: ind ++ join ([comma; LF] ++ ind)
                                  (List.map (fun kv => quote (fst kv) ++ [58; 32]
                                                       ++ serialize ind (snd kv))
                                            (p2 :: ps'))
                   ++ (LF :: indent) ++ 125 :: rest)).
    + change (LF :: ind ++ ?x) with ((LF :: ind) ++ x).
      rewrite parseMembers_ws by (simpl; now rewrite Hi).
      cbn [List.map] in Hf1. change (lit ": ") with [58; 32] in Hf1.
      rewrite Hf1 by lia. reflexivity.
    + change (32 :: ?x) with ([32] ++ x). rewrite parseValue_ws by reflexivity.
      rewrite <- !app_assoc in Hf0. apply Hf0. lia.
Qed.

Lemma join_starts (sep p : text) (ps : list text) (tail : text) :
  exists x, join sep (p :: ps) ++ tail = p ++ x.
Proof.
  destruct ps as [|p2 ps].
  - now exists tail.
  - exists (sep ++ join sep (p2 :: ps) ++ tail).
    now rewrite join_cons, <- !app_assoc.
Qed.

Lemma numbersReadBack_elems (elems : list value) (P : value -> Prop) :
  Forall (fun v => wellKeyed v -> numbersReadBack v = true -> P v) elems ->
  Forall wellKeyed elems -> forallb numbersReadBack elems = true ->
  Forall P elems.
Proof.
  induction 1 as [|e es He Hes IH]; intros Hw Hn; constructor;
    inversion Hw; subst; simpl in Hn; apply andb_true_iff in Hn as [Hn1 Hn2];
    auto.
Qed.

Lemma numbersReadBack_props (props : list (text * value)) (P : value -> Prop) :
  Forall (fun kv => wellKeyed (snd kv) -> numbersReadBack (snd kv) = true
                    -> P (snd kv)) props ->
  Forall (fun kv => wellKeyed (snd kv)) props ->
  forallb (fun kv => numbersReadBack (snd kv)) props = true ->
  Forall (fun kv => P (snd kv)) props.
Proof.
  induction 1 as [|e es He Hes IH]; intros Hw Hn; constructor;
    inversion Hw; subst; simpl in Hn; apply andb_true_iff in Hn as [Hn1 Hn2];
    auto.
Qed.

(** Every value whose objects are well keyed and whose numbers read
    back is read as it is shown. *)
Lemma reads_value (v : value) :
  wellKeyed v -> numbersReadBack v = true -> reads v.
Proof.
  induction v as [ | b | x | s | elems named IHe _ | props IHp]
    using value_induction; intros Hw Hn indent rest Hi Hs.
  - exists 1%nat. intros [|f] H; [lia|]. reflexivity.
  - exists 1%nat. intros [|f] H; [lia|]. now destruct b.
  - simpl in Hn.
    destruct (readsBack_spec x rest Hn Hs) as (Hf & Hp & c & r & Et & Hc).
    exists 1%nat. intros [|f] H; [lia|]. rewrite parseValue_S.
    cbn [serialize shown]. rewrite Hf. unfold valueAt.
    rewrite Et in *. cbn [app] in *.
    assert (Hv : valueStart c = true).
    { unfold valueStart. destruct Hc as [-> | ->]; [reflexivity|].
      now rewrite !orb_true_r. }
    destruct (valueStart_facts c Hv) as (Hws & _ & _).
    rewrite (skipWS_start c _ Hws), Hp.
    assert (T : (c =? 123) = false /\ (c =? 91) = false /\ (c =? dquote) = false
                /\ (c =? 116) = false /\ (c =? 102) = false
                /\ (c =? 110) = false).
    { destruct Hc as [-> | Hd]; [repeat split; reflexivity|].
      apply isDigit_range in Hd. unfold dquote.
      repeat split; apply N.eqb_neq; lia. }
    destruct T as (-> & -> & -> & -> & -> & ->). reflexivity.
  - exists 1%nat. intros [|f] H; [lia|]. rewrite parseValue_S.
    cbn [serialize shown]. unfold valueAt, quote. cbn [app].
    rewrite (skipWS_start dquote) by reflexivity.
    change (dquote =? 123) with false. change (dquote =? 91) with false.
    change (dquote =? dquote) with true. cbv iota.
    rewrite <- app_assoc. cbn [app]. now rewrite parseChars_quoteChars.
  - inversion Hw as [ | | | | ? ? Hwe | ]; subst. simpl in Hn.
    pose proof (numbersReadBack_elems elems reads IHe Hwe Hn) as Hr.
    destruct elems as [|e es].
    + exists 1%nat. intros [|f] H; [lia|]. reflexivity.
    + destruct (ws_indent indent Hi) as (Hi1 & Hi2 & Hi3).
      destruct (reads_elements (indent ++ gap) indent rest (e :: es)
                               Hi1 Hi ltac:(easy) Hr Hn) as [f1 Hf1].
      exists (S f1). intros [|f] H; [lia|].
      rewrite serialize_array, parseValue_S, valueAt_array.
      * rewrite Hf1 by lia. reflexivity.
      * exact Hi3.
      * destruct (join_starts ([comma; LF] ++ indent ++ gap)
                              (serialize (indent ++ gap) e)
                              (List.map (serialize (indent ++ gap)) es)
                              ((LF :: indent) ++ 93 :: rest)) as [x Hx].
        cbn [List.map]. rewrite Hx. apply serialize_starts.
        simpl in Hn. now apply andb_true_iff in Hn as [-> _].
  - inversion Hw as [ | | | | | ? Ho Hwp]; subst. simpl in Hn.
    pose proof (numbersReadBack_props props reads IHp Hwp Hn) as Hr.
    destruct props as [|[k v] ps].
    + exists 1%nat. intros [|f] H; [lia|]. reflexivity.
    + destruct (ws_indent indent Hi) as (Hi1 & Hi2 & Hi3).
      destruct (reads_members (indent ++ gap) indent rest ((k, v) :: ps)
                              Hi1 Hi ltac:(easy) Hr) as [f1 Hf1].
      exists (S f1). intros [|f] H; [lia|].
      rewrite serialize_object, parseValue_S.
      set (ws := LF :: indent ++ gap) in *.
      destruct (join_starts ([comma; LF] ++ indent ++ gap)
                  (quote k ++ lit ": " ++ serialize (indent ++ gap) v)
                  (List.map (fun kv => quote (fst kv) ++ lit ": "
                                       ++ serialize (indent ++ gap) (snd kv)) ps)
                  ((LF :: indent) ++ 125 :: rest)) as [x Hx].
      specialize (Hf1 f ltac:(lia)).
      cbn [List.map fst snd] in Hf1 |- *. unfold text in *.
      rewrite Hx in Hf1 |- *.
      unfold quote in Hf1 |- *. rewrite <- !app_assoc in Hf1 |- *.
      cbn [app] in Hf1 |- *.
      rewrite valueAt_object by exact Hi3.
      rewrite Hf1. cbn [andThen shown List.map fst snd].
      rewrite makeObject_ordered; [reflexivity|].
      exact (ordered_map_values shown ((k, v) :: ps) Ho).
Qed.

(** [JSON.parse(JSON.stringify(v))] is [v] as shown. *)
Theorem JSON_parse_stringify (v : value) :
  wellKeyed v -> numbersReadBack v = true ->
  JSON_parse (JSON_stringify v) = POk (shown v) [].
Proof.
  intros Hw Hn. destruct (reads_value v Hw Hn [] [] eq_refl eq_refl) as [f0 Hf].
  rewrite app_nil_r in Hf. unfold JSON_parse, JSON_stringify in *.
  set (t := serialize [] v) in *.
  pose proof (proj1 (parse_answers (2 * List.length t + 1)) t (le_n _)) as Ha.
  pose proof (parseValue_more_fuel (2 * List.length t + 1)
                (Nat.max f0 (2 * List.length t + 1)) t ltac:(lia) Ha) as Hm.
  rewrite Hf in Hm by lia. rewrite <- Hm. reflexivity.
Qed.


(** ** The patch, run again *)

(** *** What is shown of a document *)

Lemma serialize_shown (v : value) :
  forall indent, serialize indent (shown v) = serialize indent v.
Proof.
  induction v as [ | b | x | s | elems named IHe _ | props IHp]
    using value_induction; intros indent; try reflexivity.
  - destruct elems as [|e es]; [reflexivity|].
    cbn [shown]. cbn [serialize List.map].
    inversion IHe as [|? ? He Hes]; subst. rewrite He.
    replace (List.map (serialize (indent ++ gap)) (List.map shown es))
      with (List.map (serialize (indent ++ gap)) es); [reflexivity|].
    rewrite map_map. apply map_ext_Forall.
    eapply Forall_impl; [|exact Hes]. intros a Ha. now rewrite Ha.
  - destruct props as [|[k v] ps]; [reflexivity|].
    cbn [shown]. cbn [serialize List.map fst snd].
    inversion IHp as [|? ? Hv Hps]; subst. simpl in Hv. rewrite Hv.
    replace (List.map (fun kv => quote (fst kv) ++ lit ": "
                                 ++ serialize (indent ++ gap) (snd kv))
                      (List.map (fun kv => (fst kv, shown (snd kv))) ps))
      with (List.map (fun kv => quote (fst kv) ++ lit ": "
                                ++ serialize (indent ++ gap) (snd kv)) ps);
      [reflexivity|].
    rewrite map_map. apply map_ext_Forall.
    eapply Forall_impl; [|exact Hps]. intros a Ha. simpl. now rewrite Ha.
Qed.

Lemma shown_shown (v : value) : shown (shown v) = shown v.
Proof.
  induction v as [ | b | x | s | elems named IHe _ | props IHp]
    using value_induction; try reflexivity; cbn [shown]; f_equal.
  - rewrite map_map. apply map_ext_Forall. exact IHe.
  - rewrite map_map. apply map_ext_Forall.
    eapply Forall_impl; [|exact IHp]. intros a Ha. simpl. now rewrite Ha.
Qed.

Lemma toBoolean_shown (v : value) :
  toBoolean (Some (shown v)) = toBoolean (Some v).
Proof. now destruct v. Qed.

Lemma lookup_shown (k : text) (props : list (text * value)) :
  lookup k (List.map (fun kv => (fst kv, shown (snd kv))) props)
  = option_map shown (lookup k props).
Proof.
  induction props as [|[k' v'] r IH]; simpl; [reflexivity|].
  now destruct (text_eqb k k').
Qed.

Lemma replaceValue_shown (k : text) (x : value) (props : list (text * value)) :
  List.map (fun kv => (fst kv, shown (snd kv))) (replaceValue k x props)
  = replaceValue k (shown x)
                 (List.map (fun kv => (fst kv, shown (snd kv))) props).
Proof.
  induction props as [|[k' v'] r IH]; simpl; [reflexivity|].
  destruct (text_eqb k k'); simpl; [reflexivity|now rewrite IH].
Qed.

Lemma replaceValue_same (k : text) (x : value) (props : list (text * value)) :
  lookup k props = Some x -> replaceValue k x props = props.
Proof.
  induction props as [|[k' v'] r IH]; simpl; [reflexivity|].
  destruct (text_eqb k k'); [now intros [= ->]|]. intros H. now rewrite IH.
Qed.

(** An assignment that changes nothing in what is shown: the property
    is there, with a value that shows the same. *)
Lemma setProperty_shown (W : value) (k : text) (x W' : value) :
  setProperty W k x = Normal W' ->
  (forall props, W = VObj props ->
                 exists y, lookup k props = Some y /\ shown y = shown x) ->
  shown W' = shown W.
Proof.
  destruct W as [ | b | n | s | elems named | props]; simpl; try easy;
    intros [= <-] H; try reflexivity.
  destruct (H props eq_refl) as (y & Hy & Hs).
  unfold defineProperty, hasKey. rewrite Hy. cbn [shown]. f_equal.
  rewrite replaceValue_shown, <- Hs. apply replaceValue_same.
  now rewrite lookup_shown, Hy.
Qed.

(** *** The steps of the injection *)

Lemma injectPathAlias_steps (X X'' : value) :
  injectPathAlias X = Normal X'' ->
  exists X0 c0 c1 X1 c2,
    (if negb (toBoolean (member X compilerOptions))
     then setProperty X compilerOptions (VObj [])
     else Normal X) = Normal X0
    /\ member X0 compilerOptions = Some c0
    /\ setProperty c0 baseUrl (VStr (lit ".")) = Normal c1
    /\ setProperty X0 compilerOptions c1 = Normal X1
    /\ member X1 compilerOptions = Some c1
    /\ setProperty c1 paths pathAlias = Normal c2
    /\ setProperty X1 compilerOptions c2 = Normal X''.
Proof.
  unfold injectPathAlias.
  destruct (getProperty X compilerOptions) as [co| |] eqn:G; try easy.
  apply (getProperty_member _ _ _ arrayIndex_compilerOptions) in G. subst co.
  destruct (if negb (toBoolean (member X compilerOptions)) then _ else _)
    as [X0| |] eqn:S0; try easy.
  unfold assignNested.
  destruct (getProperty X0 compilerOptions) as [[c0|]| |] eqn:G0; try easy.
  apply (getProperty_member _ _ _ arrayIndex_compilerOptions) in G0.
  destruct (setProperty c0 baseUrl _) as [c1| |] eqn:S1; try easy.
  destruct (setProperty X0 compilerOptions c1) as [X1| |] eqn:S2; try easy.
  destruct (getProperty X1 compilerOptions) as [[c1'|]| |] eqn:G1; try easy.
  apply (getProperty_member _ _ _ arrayIndex_compilerOptions) in G1.
  assert (Hh : holdsProperties X0) by (symmetry in G0; exact (member_holds _ _ _ G0)).
  pose proof (setProperty_same _ _ _ _ arrayIndex_compilerOptions Hh S2) as M1.
  rewrite M1 in G1. injection G1 as E. subst c1'.
  destruct (setProperty c1 paths pathAlias) as [c2| |] eqn:S3; try easy.
  intros S4. exists X0, c0, c1, X1, c2. repeat split; auto.
Qed.

(** The injection goes through on every object and array. *)
Lemma injectPathAlias_succeeds (X : value) :
  holdsProperties X -> exists X'', injectPathAlias X = Normal X''.
Proof.
  intros Hh. unfold injectPathAlias.
  assert (G : getProperty X compilerOptions = Normal (member X compilerOptions)).
  { destruct X; simpl in *; try easy. }
  rewrite G.
  assert (S0 : exists X0 c0,
             (if negb (toBoolean (member X compilerOptions))
              then setProperty X compilerOptions (VObj [])
              else Normal X) = Normal X0
             /\ holdsProperties X0
             /\ member X0 compilerOptions = Some c0 /\ c0 <> VNull).
  { destruct (toBoolean (member X compilerOptions)) eqn:T; cbn [negb].
    - destruct (member X compilerOptions) as [c|] eqn:M; [|easy].
      exists X, c. repeat split; auto. intros ->. discriminate T.
    - destruct (setProperty X compilerOptions (VObj [])) as [X0| |] eqn:S;
        try (destruct X; simpl in *; easy).
      exists X0, (VObj []). repeat split; try easy.
      + exact (setProperty_holds _ _ _ _ S Hh).
      + exact (setProperty_same _ _ _ _ arrayIndex_compilerOptions Hh S). }
  destruct S0 as (X0 & c0 & -> & Hh0 & M0 & N0).
  assert (step : forall Y c k x,
             holdsProperties Y -> member Y compilerOptions = Some c ->
             c <> VNull ->
             exists Y' c', assignNested Y compilerOptions k x = Normal Y'
                           /\ holdsProperties Y'
                           /\ member Y' compilerOptions = Some c'
                           /\ c' <> VNull).
  { intros Y c k x HY MY NY. unfold assignNested.
    assert (GY : getProperty Y compilerOptions = Normal (Some c)).
    { destruct Y; simpl in *; try easy; now rewrite MY. }
    rewrite GY.
    destruct (setProperty c k x) as [c'| |] eqn:Sc;
      try (destruct c; simpl in *; easy).
    destruct (setProperty Y compilerOptions c') as [Y'| |] eqn:SY;
      try (destruct Y; simpl in *; easy).
    exists Y', c'. repeat split.
    - exact (setProperty_holds _ _ _ _ SY HY).
    - exact (setProperty_same _ _ _ _ arrayIndex_compilerOptions HY SY).
    - destruct c; simpl in Sc; try easy; injection Sc as <-; easy. }
  destruct (step X0 c0 baseUrl (VStr (lit ".")) Hh0 M0 N0)
    as (X1 & c1 & -> & Hh1 & M1 & N1).
  destruct (step X1 c1 paths pathAlias Hh1 M1 N1) as (X2 & c2 & -> & _).
  now exists X2.
Qed.

(** *** The two properties the round trip asks for are kept *)

Section Kept.
(** A property of values that asks something of the properties of an
    object, nothing of the named properties of an array, and that the
    values the patch writes have. *)
Variable P : value -> Prop.
Hypothesis P_obj_values :
  forall props, P (VObj props) -> Forall (fun kv => P (snd kv)) props.
Hypothesis P_define :
  forall k x props, P (VObj props) -> P x -> P (VObj (defineProperty k x props)).
Hypothesis P_arr :
  forall elems named named', P (VArr elems named) -> P (VArr elems named').
Hypothesis P_empty : P (VObj []).
Hypothesis P_dot : P (VStr (lit ".")).
Hypothesis P_alias : P pathAlias.

Lemma lookup_Forall (k : text) (props : list (text * value)) (x : value) :
  Forall (fun kv => P (snd kv)) props -> lookup k props = Some x -> P x.
Proof.
  induction 1 as [|[k' v'] r Hv Hr IH]; simpl; [easy|].
  destruct (text_eqb k k'); [now intros [= <-]|exact IH].
Qed.

Lemma setProperty_kept (W : value) (k : text) (x W' : value) :
  setProperty W k x = Normal W' -> P W ->
  (forall props, W = VObj props -> P x) -> P W'.
Proof.
  destruct W as [ | b | n | s | elems named | props]; simpl; try easy;
    intros [= <-] HW Hx; auto.
  - eapply P_arr; exact HW.
  - apply P_define; [exact HW|]. now apply (Hx props).
Qed.

Lemma member_kept (W : value) (c : value) :
  P W -> member W compilerOptions = Some c ->
  forall props, W = VObj props -> P c.
Proof.
  intros HW M props ->. simpl in M.
  exact (lookup_Forall _ _ _ (P_obj_values _ HW) M).
Qed.

Lemma injectPathAlias_kept (X X'' : value) :
  injectPathAlias X = Normal X'' -> P X -> P X''.
Proof.
  intros HI HX. apply injectPathAlias_steps in HI.
  destruct HI as (X0 & c0 & c1 & X1 & c2 & S0 & M0 & S1 & S2 & M1 & S3 & S4).
  assert (H0 : P X0).
  { destruct (negb (toBoolean (member X compilerOptions))).
    - exact (setProperty_kept _ _ _ _ S0 HX (fun _ _ => P_empty)).
    - now injection S0 as <-. }
  assert (H1 : P X1).
  { apply (setProperty_kept _ _ _ _ S2 H0). intros props E.
    apply (setProperty_kept _ _ _ _ S1).
    - exact (member_kept _ _ H0 M0 props E).
    - intros; exact P_dot. }
  apply (setProperty_kept _ _ _ _ S4 H1). intros props E.
  apply (setProperty_kept _ _ _ _ S3).
  - exact (member_kept _ _ H1 M1 props E).
  - intros; exact P_alias.
Qed.
End Kept.

Lemma wellKeyed_pathAlias : wellKeyed pathAlias.
Proof.
  repeat constructor.
Qed.

Lemma injectPathAlias_wellKeyed (X X'' : value) :
  injectPathAlias X = Normal X'' -> wellKeyed X -> wellKeyed X''.
Proof.
  apply injectPathAlias_kept.
  - intros props H. now inversion H.
  - intros k x props H Hx. inversion H; subst. constructor.
    + now apply ordered_defineProperty.
    + now apply values_defineProperty.
  - intros elems named named' H. inversion H; subst. now constructor.
  - repeat constructor.
  - constructor.
  - exact wellKeyed_pathAlias.
Qed.

Lemma forallb_Forall_values (props : list (text * value)) :
  forallb (fun kv => numbersReadBack (snd kv)) props = true
  <-> Forall (fun kv => numbersReadBack (snd kv) = true) props.
Proof. rewrite forallb_forall, Forall_forall. reflexivity. Qed.

Lemma injectPathAlias_numbers (X X'' : value) :
  injectPathAlias X = Normal X'' ->
  numbersReadBack X = true -> numbersReadBack X'' = true.
Proof.
  apply (injectPathAlias_kept (fun v => numbersReadBack v = true)).
  - intros props H. now apply forallb_Forall_values.
  - intros k x props H Hx. simpl in *. apply forallb_Forall_values.
    apply (values_defineProperty (fun v => numbersReadBack v = true)); auto.
    now apply forallb_Forall_values.
  - intros elems named named' H. exact H.
  - reflexivity.
  - reflexivity.
  - reflexivity.
Qed.

(** *** A second injection changes nothing that is shown *)

Lemma setProperty_object (W : value) (k : text) (x W' : value)
      (q' : list (text * value)) :
  setProperty W k x = Normal W' -> W' = VObj q' ->
  exists q, W = VObj q /\ q' = defineProperty k x q.
Proof.
  destruct W; simpl; try easy; intros [= <-]; try easy.
  intros [= <-]. eauto.
Qed.

Lemma setProperty_toBoolean (W : value) (k : text) (x W' : value) :
  setProperty W k x = Normal W' ->
  toBoolean (Some W') = toBoolean (Some W).
Proof. destruct W; simpl; try easy; now intros [= <-]. Qed.

(** The injection on a document that has the alias already. *)
Lemma injectPathAlias_again (Y Y'' : value) :
  injectPathAlias Y = Normal Y'' ->
  (forall props, Y = VObj props ->
     exists c, lookup compilerOptions props = Some c
               /\ toBoolean (Some c) = true
               /\ forall q, c = VObj q ->
                    (exists y, lookup baseUrl q = Some y
                               /\ shown y = shown (VStr (lit ".")))
                    /\ (exists y, lookup paths q = Some y
                                  /\ shown y = shown pathAlias)) ->
  shown Y'' = shown Y.
Proof.
  intros HI HY. apply injectPathAlias_steps in HI.
  destruct HI as (X0 & c0 & c1 & X1 & c2 & S0 & M0 & S1 & S2 & M1 & S3 & S4).
  destruct Y as [ | b | n | s | elems named | props].
  - simpl in S0. discriminate S0.
  - simpl in S0. injection S0 as <-. discriminate M0.
  - simpl in S0. injection S0 as <-. discriminate M0.
  - simpl in S0. injection S0 as <-. discriminate M0.
  - assert (E0 : exists n0, X0 = VArr elems n0).
    { destruct (negb _); simpl in S0; injection S0 as <-; eauto. }
    destruct E0 as (n0 & ->). simpl in S2. injection S2 as <-.
    simpl in S4. injection S4 as <-. reflexivity.
  - destruct (HY props eq_refl) as (c & Hc & Tc & Hq).
    simpl in S0. rewrite Hc, Tc in S0. simpl in S0. injection S0 as <-.
    simpl in M0. rewrite Hc in M0. injection M0 as <-.
    assert (E1 : shown c1 = shown c).
    { apply (setProperty_shown _ _ _ _ S1). intros q E.
      exact (proj1 (Hq q E)). }
    assert (E2 : shown c2 = shown c1).
    { apply (setProperty_shown _ _ _ _ S3). intros q1 E.
      destruct (setProperty_object _ _ _ _ _ S1 E) as (q & Eq & ->).
      destruct (proj2 (Hq q Eq)) as (y & Hy & Sy). exists y. split; [|exact Sy].
      rewrite lookup_defineProperty_other; [exact Hy|].
      intros H. symmetry in H. exact (baseUrl_neq_paths H). }
    transitivity (shown X1).
    + apply (setProperty_shown _ _ _ _ S4). intros p1 E. subst X1.
      exists c1. split; [exact M1|]. now symmetry.
    + apply (setProperty_shown _ _ _ _ S2). intros p E. injection E as <-.
      exists c. split; [exact Hc|]. now symmetry.
Qed.

Lemma shown_object (v : value) (props : list (text * value)) :
  shown v = VObj props ->
  exists props0, v = VObj props0
                 /\ props = List.map (fun kv => (fst kv, shown (snd kv))) props0.
Proof. destruct v; simpl; try easy. intros [= <-]. eauto. Qed.

(** What the injection leaves is a document that has the alias. *)
Lemma injectPathAlias_twice (X X' : value) :
  injectPathAlias X = Normal X' ->
  exists X'', injectPathAlias (shown X') = Normal X''
              /\ shown X'' = shown X'.
Proof.
  intros HI.
  destruct (injectPathAlias_spec _ _ HI) as (c0 & c1 & c2 & E0 & S1 & S3 & M & _).
  assert (Hh : holdsProperties (shown X')).
  { pose proof (member_holds _ _ _ M) as H. destruct X'; simpl in *; easy. }
  destruct (injectPathAlias_succeeds _ Hh) as (X'' & HI2).
  exists X''. split; [exact HI2|].
  rewrite <- (shown_shown X').
  apply (injectPathAlias_again _ _ HI2). intros props E.
  destruct (shown_object _ _ E) as (props0 & -> & ->).
  simpl in M. exists (shown c2). rewrite lookup_shown, M. split; [reflexivity|].
  assert (T0 : toBoolean (Some c0) = true).
  { subst c0. destruct (toBoolean (member X compilerOptions)) eqn:T; [|reflexivity].
    destruct (member X compilerOptions); [exact T|discriminate T]. }
  split.
  { rewrite toBoolean_shown, (setProperty_toBoolean _ _ _ _ S3),
      (setProperty_toBoolean _ _ _ _ S1). exact T0. }
  intros q Eq. destruct (shown_object _ _ Eq) as (q2 & -> & ->).
  destruct (setProperty_object _ _ _ _ _ S3 eq_refl) as (q1 & -> & ->).
  destruct (setProperty_object _ _ _ _ _ S1 eq_refl) as (q0 & _ & ->).
  rewrite !lookup_shown. split.
  - exists (shown (VStr (lit "."))).
    rewrite lookup_defineProperty_other by exact baseUrl_neq_paths.
    rewrite lookup_defineProperty_same. split; reflexivity.
  - exists (shown pathAlias). rewrite lookup_defineProperty_same.
    split; [reflexivity|apply shown_shown].
Qed.


(** ** Binary64 values *)

Module Rounding.
Local Open Scope Z_scope.

(** *** The number of binary digits *)

Lemma digits2_size (p : positive) : digits2_pos p = Pos.size p.
Proof. induction p as [p IH|p IH|]; simpl; now rewrite ?IH. Qed.

Lemma Zdigits2_log2 (z : Z) : 0 < z -> Zdigits2 z = Z.log2 z + 1.
Proof.
  destruct z as [|p|p]; try easy. intros _. simpl.
  rewrite digits2_size. destruct p as [p|p|]; simpl; try reflexivity;
    now rewrite Pos2Z.inj_succ.
Qed.

Lemma Zdigits2_nonneg (z : Z) : 0 <= Zdigits2 z.
Proof. destruct z; simpl; lia. Qed.

Lemma Zdigits2_pos (z : Z) : 0 < z -> 0 < Zdigits2 z.
Proof. destruct z; simpl; lia. Qed.

Lemma Zdigits2_bounds (z : Z) :
  0 < z -> 2 ^ (Zdigits2 z - 1) <= z < 2 ^ Zdigits2 z.
Proof.
  intros H. rewrite (Zdigits2_log2 z H).
  replace (Z.log2 z + 1 - 1) with (Z.log2 z) by lia.
  exact (Z.log2_spec z H).
Qed.

Lemma Zdigits2_le (a b : Z) : 0 <= a <= b -> Zdigits2 a <= Zdigits2 b.
Proof.
  intros [Ha Hab]. destruct (Z.eq_dec a 0) as [->|Hn].
  - apply Zdigits2_nonneg.
  - rewrite !Zdigits2_log2 by lia.
    pose proof (Z.log2_le_mono a b Hab). lia.
Qed.

(** The digits of a number that is at least a power of two. *)
Lemma Zdigits2_ge (z k : Z) : 0 <= k -> 2 ^ k <= z -> k + 1 <= Zdigits2 z.
Proof.
  intros Hk H. assert (Hz : 0 < z) by (pose proof (Z.pow_pos_nonneg 2 k); lia).
  rewrite (Zdigits2_log2 z Hz).
  pose proof (Z.log2_le_mono _ _ H) as L. rewrite Z.log2_pow2 in L by lia. lia.
Qed.

Lemma Zdigits2_lt (z k : Z) : 0 <= k -> 0 <= z < 2 ^ k -> Zdigits2 z <= k.
Proof.
  intros Hk [H0 H]. destruct (Z.eq_dec z 0) as [->|Hn]; [simpl; lia|].
  rewrite (Zdigits2_log2 z) by lia.
  assert (L : Z.log2 z < k) by (apply Z.log2_lt_pow2; lia). lia.
Qed.

Lemma Zdigits2_mul_pow2 (z t : Z) :
  0 < z -> 0 <= t -> Zdigits2 (z * 2 ^ t) = Zdigits2 z + t.
Proof.
  intros Hz Ht.
  assert (Hp : 0 < 2 ^ t) by (apply Z.pow_pos_nonneg; lia).
  rewrite !Zdigits2_log2 by nia.
  rewrite <- Z.shiftl_mul_pow2 by lia. rewrite Z.log2_shiftl by lia. lia.
Qed.

Lemma Zdigits2_div_pow2 (z t : Z) :
  0 <= t -> 0 < z / 2 ^ t -> Zdigits2 (z / 2 ^ t) = Zdigits2 z - t.
Proof.
  intros Ht Hq.
  assert (Hp : 0 < 2 ^ t) by (apply Z.pow_pos_nonneg; lia).
  assert (Hz : 0 < z).
  { destruct (Z.le_gt_cases z 0) as [H|H]; [|exact H].
    pose proof (Z.div_le_upper_bound z (2 ^ t) 0 Hp). lia. }
  rewrite !Zdigits2_log2 by lia.
  rewrite <- Z.shiftr_div_pow2 by lia. rewrite Z.log2_shiftr by lia.
  assert (L : t <= Z.log2 z).
  { apply Z.log2_le_pow2; [lia|].
    pose proof (Z.mul_div_le z (2 ^ t) Hp). nia. }
  lia.
Qed.

(** *** Shifts to the right *)

Lemma iter_pos_nat {A : Type} (f : A -> A) (p : positive) (x : A) :
  iter_pos f p x = Nat.iter (Pos.to_nat p) f x.
Proof.
  revert x. induction p as [p IH|p IH|]; intros x; cbn [iter_pos].
  - rewrite !IH, Pos2Nat.inj_xI.
    replace (S (2 * Pos.to_nat p)) with (Pos.to_nat p + (Pos.to_nat p + 1))%nat
      by lia.
    rewrite !Nat.iter_add. reflexivity.
  - rewrite !IH, Pos2Nat.inj_xO.
    replace (2 * Pos.to_nat p)%nat with (Pos.to_nat p + Pos.to_nat p)%nat by lia.
    now rewrite Nat.iter_add.
  - reflexivity.
Qed.

Lemma shr_1_m (mrs : shr_record) :
  0 <= shr_m mrs -> shr_m (shr_1 mrs) = shr_m mrs / 2.
Proof.
  destruct mrs as [m r s]. simpl. intros H.
  destruct m as [|[p|p|]|p]; try easy; simpl.
  - rewrite Pos2Z.inj_xI. apply (Z.div_unique _ 2 _ 1); lia.
  - rewrite Pos2Z.inj_xO. apply (Z.div_unique _ 2 _ 0); lia.
Qed.

Lemma iter_shr_1_m (n : nat) (mrs : shr_record) :
  0 <= shr_m mrs ->
  shr_m (Nat.iter n shr_1 mrs) = shr_m mrs / 2 ^ Z.of_nat n.
Proof.
  intros H. induction n as [|n IH].
  - simpl. now rewrite Z.div_1_r.
  - rewrite Nat.iter_succ, shr_1_m.
    + rewrite IH, Nat2Z.inj_succ, Z.pow_succ_r by lia.
      rewrite Z.div_div by (try apply Z.pow_pos_nonneg; lia).
      f_equal. lia.
    + rewrite IH. apply Z.div_pos; [exact H|apply Z.pow_pos_nonneg; lia].
Qed.

(** Shifting zeros out of an exact mantissa leaves it exact. *)
Lemma shr_1_double (z : Z) :
  0 <= z ->
  shr_1 (Build_shr_record (2 * z) false false) = Build_shr_record z false false.
Proof. destruct z; try easy. Qed.

Lemma iter_shr_1_exact (n : nat) (z : Z) :
  0 <= z ->
  Nat.iter n shr_1 (Build_shr_record (z * 2 ^ Z.of_nat n) false false)
  = Build_shr_record z false false.
Proof.
  intros H. revert z H. induction n as [|n IH]; intros z H.
  - simpl. now rewrite Z.mul_1_r.
  - rewrite Nat.iter_succ_r.
    replace (z * 2 ^ Z.of_nat (S n)) with (2 * (z * 2 ^ Z.of_nat n)).
    + rewrite shr_1_double; [now apply IH|].
      apply Z.mul_nonneg_nonneg; [exact H|apply Z.pow_nonneg; lia].
    + rewrite Nat2Z.inj_succ, Z.pow_succ_r by lia. ring.
Qed.

Lemma fexp64_eq (e : Z) : fexp64 e = Z.max (e - 53) (-1074).
Proof. reflexivity. Qed.

Lemma fexp64_mono (a b : Z) : a <= b -> fexp64 a <= fexp64 b.
Proof. rewrite !fexp64_eq. lia. Qed.

(** [shr_fexp] on a mantissa whose exponent is not above the one it
    should have: the mantissa is shifted to that exponent, and is
    canonical there unless nothing is left of it. *)
Lemma shr_fexp_m (m e : Z) (l : location) :
  0 <= m -> e <= fexp64 (Zdigits2 m + e) ->
  let '(mrs, e') := shr_fexp prec emax m e l in
  e' = fexp64 (Zdigits2 m + e)
  /\ shr_m mrs = m / 2 ^ (e' - e)
  /\ (0 < shr_m mrs -> fexp64 (Zdigits2 (shr_m mrs) + e') = e').
Proof.
  intros Hm He. unfold shr_fexp, shr. fold (fexp64 (Zdigits2 m + e)).
  assert (Hr : shr_m (shr_record_of_loc m l) = m) by now destruct l as [|[]].
  destruct (fexp64 (Zdigits2 m + e) - e) as [|p|p] eqn:Ed; try lia.
  - assert (E : fexp64 (Zdigits2 m + e) = e) by lia.
    split; [now rewrite E|]. rewrite Hr.
    replace (e - e) with 0 by lia. rewrite Z.div_1_r.
    split; [reflexivity|]. intros _. exact E.
  - split; [lia|]. rewrite iter_pos_nat, iter_shr_1_m by (rewrite Hr; exact Hm).
    rewrite Hr, positive_nat_Z.
    replace (e + Z.pos p - e) with (Z.pos p) by lia.
    split; [reflexivity|]. intros Hq.
    rewrite Zdigits2_div_pow2 by (try exact Hq; lia).
    replace (Zdigits2 m - Z.pos p + (e + Z.pos p)) with (Zdigits2 m + e) by lia.
    lia.
Qed.

(** *** Rounding gives binary64 values *)

Lemma round_nearest_even_cases (m : Z) (l : location) :
  round_nearest_even m l = m \/ round_nearest_even m l = m + 1.
Proof. destruct l as [|[]]; simpl; auto. destruct (Z.even m); auto. Qed.

Lemma binary_round_aux_valid (sx : bool) (mz ez : Z) (lz : location) :
  0 <= mz -> ez <= fexp64 (Zdigits2 mz + ez) ->
  valid_binary prec emax (binary_round_aux prec emax sx mz ez lz) = true.
Proof.
  intros Hm He. unfold binary_round_aux.
  pose proof (shr_fexp_m mz ez lz Hm He) as H1.
  destruct (shr_fexp prec emax mz ez lz) as [mrs' e'].
  destruct H1 as (E1 & M1 & C1).
  set (M := round_nearest_even (shr_m mrs') (loc_of_shr_record mrs')).
  assert (Hp : 0 < 2 ^ (e' - ez)) by (apply Z.pow_pos_nonneg; lia).
  assert (H0 : 0 <= shr_m mrs') by (rewrite M1; now apply Z.div_pos).
  assert (HM : shr_m mrs' <= M <= shr_m mrs' + 1).
  { unfold M.
    destruct (round_nearest_even_cases (shr_m mrs') (loc_of_shr_record mrs'))
      as [-> | ->]; lia. }
  assert (He' : e' <= fexp64 (Zdigits2 M + e')).
  { destruct (Z.eq_dec (shr_m mrs') 0) as [Z0|Z0].
    - assert (L : mz < 2 ^ (e' - ez)).
      { rewrite Z0 in M1. symmetry in M1.
        apply Z.div_small_iff in M1; lia. }
      pose proof (Zdigits2_lt mz (e' - ez) ltac:(lia) ltac:(lia)) as D.
      rewrite fexp64_eq in *. lia.
    - rewrite <- (C1 ltac:(lia)) at 1. apply fexp64_mono.
      pose proof (Zdigits2_le (shr_m mrs') M ltac:(lia)). lia. }
  pose proof (shr_fexp_m M e' loc_Exact ltac:(lia) He') as H2.
  destruct (shr_fexp prec emax M e' loc_Exact) as [mrs'' e''].
  destruct H2 as (E2 & M2 & C2).
  destruct (shr_m mrs'') as [|m|m] eqn:Em; try reflexivity.
  destruct (e'' <=? emax - prec) eqn:Le; [|reflexivity].
  simpl. unfold bounded, canonical_mantissa. rewrite Le, andb_true_r.
  apply Z.eqb_eq. exact (C2 ltac:(lia)).
Qed.

(** The quotient that the division hands to the rounding. *)
Lemma SFdiv_core_binary_spec (a b : Z) :
  0 < a -> 0 < b ->
  let '(q, e, l) := SFdiv_core_binary prec emax a 0 b 0 in
  e = Z.min (fexp64 (Zdigits2 a - Zdigits2 b)) 0
  /\ q = a * 2 ^ (- e) / b
  /\ l = new_location b (a * 2 ^ (- e) mod b).
Proof.
  intros Ha Hb. unfold SFdiv_core_binary.
  rewrite !Z.add_0_r, Z.sub_0_r. fold (fexp64 (Zdigits2 a - Zdigits2 b)).
  set (e := Z.min (fexp64 (Zdigits2 a - Zdigits2 b)) 0).
  replace (0 - e) with (- e) by lia.
  assert (E : match - e with
              | Zpos _ => Z.shiftl a (- e)
              | 0 => a
              | Zneg _ => 0
              end = a * 2 ^ (- e)).
  { destruct (- e) as [|p|p] eqn:Ee; try lia.
    now rewrite Z.shiftl_mul_pow2 by lia. }
  rewrite E.
  destruct (Z.div_eucl (a * 2 ^ (- e)) b) as [q r] eqn:Ed.
  unfold Z.div, Z.modulo. rewrite Ed. auto.
Qed.

Lemma div_pow2_digits (a b s : Z) :
  0 < a -> 0 < b -> 0 <= s ->
  0 < a * 2 ^ s / b ->
  Zdigits2 a - Zdigits2 b + s <= Zdigits2 (a * 2 ^ s / b).
Proof.
  intros Ha Hb Hs Hq.
  destruct (Z.le_gt_cases (Zdigits2 a + s - Zdigits2 b) 0) as [L|L].
  - pose proof (Zdigits2_pos _ Hq). lia.
  - pose proof (Zdigits2_bounds a Ha) as [A1 A2].
    pose proof (Zdigits2_bounds b Hb) as [B1 B2].
    set (k := Zdigits2 a + s - Zdigits2 b - 1).
    assert (Hk : 0 <= k) by (unfold k; lia).
    assert (T : 2 ^ k <= a * 2 ^ s / b).
    { apply Z.div_le_lower_bound; [exact Hb|].
      apply Z.le_trans with (2 ^ Zdigits2 b * 2 ^ k).
      - apply Z.mul_le_mono_nonneg_r; [apply Z.pow_nonneg|]; lia.
      - rewrite <- Z.pow_add_r by (try apply Zdigits2_nonneg; lia).
        replace (Zdigits2 b + k) with ((Zdigits2 a - 1) + s) by (unfold k; lia).
        rewrite Z.pow_add_r by (pose proof (Zdigits2_pos a Ha); lia).
        apply Z.mul_le_mono_nonneg_r; [apply Z.pow_nonneg; lia|exact A1]. }
    pose proof (Zdigits2_ge _ k Hk T). unfold k in *. lia.
Qed.

Lemma ofRatio_valid (neg : bool) (a b : Z) :
  0 < a -> 0 < b -> valid_binary prec emax (ofRatio neg a b) = true.
Proof.
  intros Ha Hb. unfold ofRatio.
  pose proof (SFdiv_core_binary_spec a b Ha Hb) as H.
  destruct (SFdiv_core_binary prec emax a 0 b 0) as [[q e] l].
  destruct H as (He & Hq & _).
  assert (Hs : 0 <= - e) by lia.
  assert (Hp : 0 < 2 ^ (- e)) by (apply Z.pow_pos_nonneg; lia).
  assert (H0 : 0 <= q) by (rewrite Hq; apply Z.div_pos; nia).
  apply binary_round_aux_valid; [exact H0|].
  destruct (Z.eq_dec q 0) as [Z0|Z0].
  - rewrite Z0. simpl Zdigits2. rewrite Z.add_0_l.
    assert (L : a * 2 ^ (- e) < b).
    { rewrite Z0 in Hq. symmetry in Hq. apply Z.div_small_iff in Hq; lia. }
    pose proof (Zdigits2_bounds a Ha) as [A1 A2].
    pose proof (Zdigits2_bounds b Hb) as [B1 B2].
    assert (D : Zdigits2 a - 1 + - e < Zdigits2 b).
    { apply (Z.pow_lt_mono_r_iff 2); [lia|apply Zdigits2_nonneg|].
      rewrite Z.pow_add_r by (pose proof (Zdigits2_pos a Ha); lia). nia. }
    rewrite fexp64_eq in *. lia.
  - pose proof (div_pow2_digits a b (- e) Ha Hb Hs ltac:(lia)) as D.
    rewrite <- Hq in D.
    apply Z.le_trans with (fexp64 (Zdigits2 a - Zdigits2 b)); [lia|].
    apply fexp64_mono. lia.
Qed.

Lemma ofDecimal_valid (neg : bool) (m e10 : Z) :
  0 <= m -> valid_binary prec emax (ofDecimal neg m e10) = true.
Proof.
  intros Hm. unfold ofDecimal.
  destruct (Z.eqb_spec m 0) as [|Hn]; [reflexivity|].
  destruct (Z.leb_spec 0 e10).
  - apply ofRatio_valid; [|lia].
    apply Z.mul_pos_pos; [lia|apply Z.pow_pos_nonneg; lia].
  - apply ofRatio_valid; [lia|apply Z.pow_pos_nonneg; lia].
Qed.

(** *** A binary64 value is the rounding of itself *)

Lemma ofRatio_exact (neg : bool) (m : positive) (e a b : Z) :
  bounded prec emax m e = true ->
  0 < a -> 0 < b ->
  a * 2 ^ Z.max 0 (- e) = Z.pos m * 2 ^ Z.max 0 e * b ->
  ofRatio neg a b = S754_finite neg m e.
Proof.
  intros Hb Ha Hb0 Hx. unfold bounded, canonical_mantissa in Hb.
  apply andb_true_iff in Hb as [Hc Hle]. apply Z.eqb_eq in Hc.
  change (Z.pos (digits2_pos m)) with (Zdigits2 (Z.pos m)) in Hc.
  fold (fexp64 (Zdigits2 (Z.pos m) + e)) in Hc.
  unfold ofRatio.
  pose proof (SFdiv_core_binary_spec a b Ha Hb0) as H.
  destruct (SFdiv_core_binary prec emax a 0 b 0) as [[q ez] l].
  destruct H as (He & Hq & Hl).
  (* the digits of the quotient *)
  assert (Hu : 0 < 2 ^ Z.max 0 (- e)) by (apply Z.pow_pos_nonneg; lia).
  assert (Hv : 0 < 2 ^ Z.max 0 e) by (apply Z.pow_pos_nonneg; lia).
  assert (D : Zdigits2 a - Zdigits2 b <= Zdigits2 (Z.pos m) + e).
  { pose proof (Zdigits2_mul_pow2 a (Z.max 0 (- e)) Ha ltac:(lia)) as D1.
    rewrite Hx in D1.
    pose proof (Zdigits2_bounds (Z.pos m) ltac:(lia)) as [M1 M2].
    pose proof (Zdigits2_bounds b Hb0) as [B1 B2].
    pose proof (Zdigits2_nonneg (Z.pos m)) as N1.
    pose proof (Zdigits2_nonneg b) as N2.
    assert (U : Z.pos m * 2 ^ Z.max 0 e * b
                < 2 ^ (Zdigits2 (Z.pos m) + Z.max 0 e + Zdigits2 b)).
    { rewrite (Z.pow_add_r 2 (Zdigits2 (Z.pos m) + Z.max 0 e)) by lia.
      rewrite (Z.pow_add_r 2 (Zdigits2 (Z.pos m))) by lia.
      apply Z.mul_lt_mono_nonneg;
        [apply Z.mul_nonneg_nonneg; lia| |lia|exact B2].
      apply Z.mul_lt_mono_pos_r; [exact Hv|exact M2]. }
    assert (P0 : 0 <= Z.pos m * 2 ^ Z.max 0 e * b).
    { apply Z.mul_nonneg_nonneg; [apply Z.mul_nonneg_nonneg|]; lia. }
    pose proof (Zdigits2_lt _ (Zdigits2 (Z.pos m) + Z.max 0 e + Zdigits2 b)
                  ltac:(lia) (conj P0 U)) as D2.
    lia. }
  assert (Le : ez <= e).
  { pose proof (fexp64_mono _ _ D). lia. }
  set (t := e - ez).
  assert (Ht : 0 <= t) by (unfold t; lia).
  assert (Hs : 0 <= - ez) by lia.
  assert (Eq : a * 2 ^ (- ez) = Z.pos m * 2 ^ t * b).
  { destruct (Z.le_gt_cases 0 e) as [P|P].
    - rewrite (Z.max_l 0 (- e)), (Z.max_r 0 e), Z.mul_1_r in Hx by lia.
      rewrite Hx. unfold t. replace (e - ez) with (e + - ez) by lia.
      rewrite Z.pow_add_r by lia. ring.
    - rewrite (Z.max_r 0 (- e)), (Z.max_l 0 e), Z.mul_1_r in Hx by lia.
      replace (- ez) with (- e + t) by (unfold t; lia).
      rewrite Z.pow_add_r by lia. rewrite Z.mul_assoc, Hx. ring. }
  assert (Eq' : a * 2 ^ (- ez) = Z.pos m * 2 ^ t * b) by exact Eq.
  rewrite Eq in Hq, Hl. rewrite Z.div_mul in Hq by lia.
  rewrite Z.mod_mul in Hl by lia.
  assert (Hloc : new_location b 0 = loc_Exact).
  { unfold new_location, new_location_even, new_location_odd.
    now destruct (Z.even b). }
  subst q l. rewrite Hloc.
  (* the rounding *)
  unfold binary_round_aux.
  assert (S1 : shr_fexp prec emax (Z.pos m * 2 ^ t) ez loc_Exact
               = (Build_shr_record (Z.pos m) false false, e)).
  { unfold shr_fexp. fold (fexp64 (Zdigits2 (Z.pos m * 2 ^ t) + ez)).
    rewrite Zdigits2_mul_pow2 by lia.
    replace (Zdigits2 (Z.pos m) + t + ez) with (Zdigits2 (Z.pos m) + e)
      by (unfold t; lia).
    rewrite Hc. fold t. unfold shr, shr_record_of_loc.
    destruct t as [|p|p] eqn:Et; try lia.
    - rewrite Z.mul_1_r. f_equal. lia.
    - rewrite iter_pos_nat. rewrite <- (positive_nat_Z p) at 1.
      rewrite iter_shr_1_exact by lia. f_equal. lia. }
  rewrite S1. cbn [shr_m loc_of_shr_record round_nearest_even].
  assert (S2 : shr_fexp prec emax (Z.pos m) e loc_Exact
               = (Build_shr_record (Z.pos m) false false, e)).
  { unfold shr_fexp. fold (fexp64 (Zdigits2 (Z.pos m) + e)).
    rewrite Hc, Z.sub_diag. reflexivity. }
  rewrite S2. cbn [shr_m]. now rewrite Hle.
Qed.

End Rounding.


(** ** The digits of a number *)

Module Digits.
Import Rounding.
Local Open Scope Z_scope.

(** *** The decimal exponent *)

Lemma pow10_pos (k : Z) : 0 <= k -> 0 < 10 ^ k.
Proof. intros H. apply Z.pow_pos_nonneg; lia. Qed.

Lemma digits10_spec (fuel : nat) (z : Z) :
  1 <= z -> Z.log2 z <= Z.of_nat fuel ->
  10 ^ (Z.of_nat (digits10 fuel z) - 1) <= z < 10 ^ Z.of_nat (digits10 fuel z).
Proof.
  revert z. induction fuel as [|f IH]; intros z Hz Hl.
  - assert (z = 1).
    { destruct (Z.eq_dec z 1) as [|N]; [assumption|].
      assert (L : 1 <= Z.log2 z).
      { change 1 with (Z.log2 2). apply Z.log2_le_mono. lia. }
      simpl in Hl. lia. }
    subst z. simpl. lia.
  - cbn [digits10]. destruct (Z.ltb_spec z 10) as [L|L].
    + simpl. lia.
    + assert (Hq : 1 <= z / 10) by (apply Z.div_le_lower_bound; lia).
      assert (Hl' : Z.log2 (z / 10) <= Z.of_nat f).
      { apply Z.le_trans with (Z.log2 (Z.shiftr z 1)).
        - apply Z.log2_le_mono. rewrite Z.shiftr_div_pow2 by lia.
          apply Z.div_le_compat_l; lia.
        - rewrite Z.log2_shiftr by lia.
          assert (1 <= Z.log2 z).
          { change 1 with (Z.log2 2). apply Z.log2_le_mono. lia. }
          lia. }
      destruct (IH (z / 10) Hq Hl') as [A B].
      rewrite Nat2Z.inj_succ.
      replace (Z.succ (Z.of_nat (digits10 f (z / 10))) - 1)
        with (Z.succ (Z.of_nat (digits10 f (z / 10)) - 1)) by lia.
      assert (P : 1 <= Z.of_nat (digits10 f (z / 10))).
      { destruct f; simpl; [lia|]. destruct (z / 10 <? 10); lia. }
      rewrite !Z.pow_succ_r by lia.
      pose proof (Z.mul_div_le z 10 ltac:(lia)).
      pose proof (Z.mul_succ_div_gt z 10 ltac:(lia)).
      lia.
Qed.

Lemma digits10_pos (fuel : nat) (z : Z) : (1 <= digits10 fuel z)%nat.
Proof. destruct fuel; simpl; [lia|]. destruct (z <? 10); lia. Qed.

Lemma leadingZeros_spec (xd : Z) (fuel : nat) :
  forall y j,
    0 < y < xd -> xd <= y * 10 ^ Z.of_nat fuel ->
    let r := leadingZeros fuel y xd j in
    j <= r /\ xd <= y * 10 ^ (r - j + 1) /\ y * 10 ^ (r - j) < xd.
Proof.
  induction fuel as [|f IH]; intros y j Hy Hf.
  - simpl in Hf. lia.
  - cbn [leadingZeros]. destruct (Z.leb_spec xd (y * 10)) as [L|L].
    + cbv zeta. replace (j - j + 1) with 1 by lia.
      replace (j - j) with 0 by lia. simpl. lia.
    + assert (Hf' : xd <= y * 10 * 10 ^ Z.of_nat f).
      { rewrite Nat2Z.inj_succ, Z.pow_succ_r in Hf by lia. lia. }
      destruct (IH (y * 10) (j + 1) ltac:(lia) Hf') as (A & B & C).
      cbv zeta. split; [lia|].
      set (r := leadingZeros f (y * 10) xd (j + 1)) in *.
      replace (r - j + 1) with (Z.succ (r - (j + 1) + 1)) by lia.
      replace (r - j) with (Z.succ (r - (j + 1))) by lia.
      rewrite !Z.pow_succ_r by lia. lia.
Qed.

Lemma pow2_pow10 (L : Z) : 1 <= L -> 2 ^ (L + 1) <= 10 ^ L.
Proof.
  intros H. replace (L + 1) with (Z.succ (Z.succ (L - 1))) by lia.
  replace L with (Z.succ (L - 1)) at 2 by lia.
  rewrite !Z.pow_succ_r by lia.
  pose proof (Z.pow_le_mono_l 2 10 (L - 1) ltac:(lia)).
  pose proof (Z.pow_pos_nonneg 2 (L - 1) ltac:(lia) ltac:(lia)). lia.
Qed.

Lemma decimalExponent_spec (xn xd : Z) :
  0 < xn -> 0 < xd -> betweenPowers xn xd (decimalExponent xn xd).
Proof.
  intros Hn Hd. unfold decimalExponent, betweenPowers.
  destruct (Z.leb_spec xd xn) as [L|L].
  - assert (Hq : 1 <= xn / xd) by (apply Z.div_le_lower_bound; lia).
    pose proof (digits10_spec (Z.to_nat (Z.log2 (xn / xd))) (xn / xd) Hq
                  ltac:(rewrite Z2Nat.id; [lia|apply Z.log2_nonneg])) as [A B].
    pose proof (digits10_pos (Z.to_nat (Z.log2 (xn / xd))) (xn / xd)) as P.
    set (d := Z.of_nat (digits10 (Z.to_nat (Z.log2 (xn / xd))) (xn / xd))) in *.
    assert (Pd : 1 <= d) by (unfold d; lia).
    destruct (Z.ltb_spec 0 d); [|lia].
    pose proof (Z.mul_div_le xn xd Hd).
    pose proof (Z.mul_succ_div_gt xn xd Hd).
    split; [nia|]. nia.
  - assert (H2 : 2 <= xd) by lia.
    assert (L1 : 1 <= Z.log2 xd).
    { change 1 with (Z.log2 2). now apply Z.log2_le_mono. }
    pose proof (Z.log2_spec xd ltac:(lia)) as [_ U].
    pose proof (pow2_pow10 (Z.log2 xd) L1) as T.
    replace (Z.succ (Z.log2 xd)) with (Z.log2 xd + 1) in U by lia.
    assert (Hf : xd <= xn * 10 ^ Z.of_nat (Z.to_nat (Z.log2 xd))).
    { rewrite Z2Nat.id by lia.
      pose proof (pow10_pos (Z.log2 xd) ltac:(lia)). nia. }
    destruct (leadingZeros_spec xd (Z.to_nat (Z.log2 xd)) xn 1 ltac:(lia) Hf)
      as (A & B & C).
    set (r := leadingZeros (Z.to_nat (Z.log2 xd)) xn xd 1) in *.
    destruct (Z.ltb_spec 0 (1 - r)); [lia|].
    replace (1 - (1 - r)) with (r - 1 + 1) by lia.
    replace (- (1 - r)) with (r - 1) by lia. auto.
Qed.

(** *** The candidates *)

Lemma scaled_between (xn xd n k : Z) :
  0 < xn -> 0 < xd -> 1 <= k -> betweenPowers xn xd n ->
  let '(sn, sd) := scaled xn xd n k in
  0 < sd /\ 10 ^ (k - 1) * sd <= sn < 10 ^ k * sd.
Proof.
  intros Hn Hd Hk. unfold betweenPowers, scaled.
  destruct (Z.leb_spec k n) as [L|L].
  - destruct (Z.ltb_spec 0 n); [|lia]. intros [A B].
    pose proof (pow10_pos (n - k) ltac:(lia)) as P.
    split; [nia|].
    replace (10 ^ (k - 1) * (xd * 10 ^ (n - k))) with (xd * 10 ^ (n - 1)).
    + replace (10 ^ k * (xd * 10 ^ (n - k))) with (xd * 10 ^ n); [lia|].
      replace n with (k + (n - k)) at 1 by lia.
      rewrite Z.pow_add_r by lia. ring.
    + replace (n - 1) with ((k - 1) + (n - k)) by lia.
      rewrite Z.pow_add_r by lia. ring.
  - destruct (Z.ltb_spec 0 n) as [Pn|Pn]; intros [A B]; (split; [exact Hd|]).
    + assert (E1 : 10 ^ (k - 1) = 10 ^ (k - n) * 10 ^ (n - 1)).
      { rewrite <- Z.pow_add_r by lia. f_equal; lia. }
      assert (E2 : 10 ^ k = 10 ^ (k - n) * 10 ^ n).
      { rewrite <- Z.pow_add_r by lia. f_equal; lia. }
      rewrite E1, E2.
      pose proof (pow10_pos (k - n) ltac:(lia)) as P.
      set (p := 10 ^ (k - n)) in *. split.
      * replace (p * 10 ^ (n - 1) * xd) with (p * (xd * 10 ^ (n - 1))) by ring.
        rewrite (Z.mul_comm xn p). apply Z.mul_le_mono_nonneg_l; lia.
      * replace (p * 10 ^ n * xd) with (p * (xd * 10 ^ n)) by ring.
        rewrite (Z.mul_comm xn p). apply Z.mul_lt_mono_pos_l; lia.
    + assert (E1 : 10 ^ (k - n) = 10 ^ (k - 1) * 10 ^ (1 - n)).
      { rewrite <- Z.pow_add_r by lia. f_equal; lia. }
      assert (E2 : 10 ^ (k - n) = 10 ^ k * 10 ^ (- n)).
      { rewrite <- Z.pow_add_r by lia. f_equal; lia. }
      pose proof (pow10_pos (k - 1) ltac:(lia)) as P1.
      pose proof (pow10_pos k ltac:(lia)) as P2.
      split.
      * rewrite E1. set (p := 10 ^ (k - 1)) in *.
        replace (xn * (p * 10 ^ (1 - n))) with (p * (xn * 10 ^ (1 - n))) by ring.
        apply Z.mul_le_mono_nonneg_l; lia.
      * rewrite E2. set (p := 10 ^ k) in *.
        replace (xn * (p * 10 ^ (- n))) with (p * (xn * 10 ^ (- n))) by ring.
        apply Z.mul_lt_mono_pos_l; lia.
Qed.

Lemma pick_eq (x : number) (xn xd n k : Z) :
  pick x xn xd n k
  = let '(sn, sd) := scaled xn xd n k in
    match readsAs x k (lowerCandidate xn xd n k), readsAs x k (upperCandidate xn xd n k) with
    | true, true =>
        match 2 * (sn mod sd) ?= sd with
        | Lt => Some (lowerCandidate xn xd n k)
        | Gt => Some (upperCandidate xn xd n k)
        | Eq => if Z.even (sn / sd) then Some (lowerCandidate xn xd n k)
                else Some (upperCandidate xn xd n k)
        end
    | true, false => Some (lowerCandidate xn xd n k)
    | false, true => Some (upperCandidate xn xd n k)
    | false, false => None
    end.
Proof.
  unfold pick, lowerCandidate, upperCandidate, readsAs, scaled.
  destruct (k <=? n); reflexivity.
Qed.

(** What [pick] returns is a candidate that reads back. *)
Lemma pick_Some (x : number) (xn xd n k s n' : Z) :
  pick x xn xd n k = Some (s, n') ->
  readsAs x k (s, n') = true
  /\ ((s, n') = lowerCandidate xn xd n k \/ (s, n') = upperCandidate xn xd n k).
Proof.
  rewrite pick_eq. destruct (scaled xn xd n k) as [sn sd].
  destruct (readsAs x k (lowerCandidate xn xd n k)) eqn:Rl;
    destruct (readsAs x k (upperCandidate xn xd n k)) eqn:Ru; try easy.
  - destruct (2 * (sn mod sd) ?= sd); [destruct (Z.even (sn / sd))| |];
      intros [= E]; rewrite <- E; auto.
  - intros [= E]. rewrite <- E. auto.
  - intros [= E]. rewrite <- E. auto.
Qed.

Lemma pick_lower (x : number) (xn xd n k : Z) :
  readsAs x k (lowerCandidate xn xd n k) = true -> pick x xn xd n k <> None.
Proof.
  intros H. rewrite pick_eq, H. destruct (scaled xn xd n k) as [sn sd].
  destruct (readsAs x k (upperCandidate xn xd n k)); [|easy].
  destruct (2 * (sn mod sd) ?= sd); [destruct (Z.even (sn / sd))| |]; easy.
Qed.

(** The candidates have [k] digits. *)
Lemma candidates_range (xn xd n k : Z) :
  0 < xn -> 0 < xd -> 1 <= k -> betweenPowers xn xd n ->
  10 ^ (k - 1) <= fst (lowerCandidate xn xd n k) < 10 ^ k
  /\ 10 ^ (k - 1) <= fst (upperCandidate xn xd n k) < 10 ^ k.
Proof.
  intros Hn Hd Hk Hb. pose proof (scaled_between xn xd n k Hn Hd Hk Hb) as H.
  unfold lowerCandidate, upperCandidate. destruct (scaled xn xd n k) as [sn sd].
  destruct H as (Ps & A & B).
  assert (L : 10 ^ (k - 1) <= sn / sd) by (apply Z.div_le_lower_bound; lia).
  assert (U : sn / sd < 10 ^ k) by (apply Z.div_lt_upper_bound; lia).
  split; [simpl; lia|].
  destruct (Z.ltb_spec (sn / sd + 1) (10 ^ k)); simpl; [lia|].
  split; [lia|]. apply Z.pow_lt_mono_r; lia.
Qed.

(** *** The search *)

Lemma shortest_finds (x : number) (xn xd n : Z) (fuel : nat) :
  forall k k0,
    k <= k0 < k + Z.of_nat fuel ->
    pick x xn xd n k0 <> None ->
    exists s n' k',
      shortest fuel x xn xd n k = (s, n', k')
      /\ k <= k' <= k0
      /\ pick x xn xd n k' = Some (s, n').
Proof.
  induction fuel as [|f IH]; intros k k0 Hk Hp; [lia|].
  cbn [shortest]. destruct (pick x xn xd n k) as [[s n']|] eqn:E.
  - exists s, n', k. repeat split; auto; lia.
  - assert (k <> k0) by (intros ->; congruence).
    destruct (IH (k + 1) k0 ltac:(lia) Hp) as (s & n' & k' & A & B & C).
    exists s, n', k'. repeat split; auto; lia.
Qed.

Lemma sameValue_refl (x : number) : x <> S754_nan -> sameValue x x = true.
Proof.
  destruct x as [s|s| |s m e]; simpl; try easy; intros _;
    rewrite ?Bool.eqb_reflx, ?Pos.eqb_refl, ?Z.eqb_refl; try reflexivity.
  all: now destruct s.
Qed.

(** With as many digits as its decimal expansion has, a binary64 value
    is its own lower candidate. *)
Lemma expansion_reads (m : positive) (e : Z) :
  bounded prec emax m e = true ->
  let xn := if 0 <=? e then Zpos m * 2 ^ e else Zpos m in
  let xd := if 0 <=? e then 1 else 2 ^ (- e) in
  let n := decimalExponent xn xd in
  0 < xn /\ 0 < xd /\ betweenPowers xn xd n
  /\ 1 <= n + Z.max 0 (- e)
  /\ readsAs (S754_finite false m e) (n + Z.max 0 (- e))
           (lowerCandidate xn xd n (n + Z.max 0 (- e))) = true.
Proof.
  intros Hb xn xd n.
  assert (Hn : 0 < xn).
  { unfold xn. destruct (Z.leb_spec 0 e); [|lia].
    apply Z.mul_pos_pos; [lia|apply Z.pow_pos_nonneg; lia]. }
  assert (Hd : 0 < xd).
  { unfold xd. destruct (Z.leb_spec 0 e); [lia|apply Z.pow_pos_nonneg; lia]. }
  pose proof (decimalExponent_spec xn xd Hn Hd) as B. fold n in B.
  split; [exact Hn|]. split; [exact Hd|]. split; [exact B|].
  unfold readsAs, lowerCandidate, scaled.
  destruct (Z.leb_spec 0 e) as [P|P].
  - (* an integer *)
    rewrite (Z.max_l 0 (- e)), Z.add_0_r by lia. rewrite Z.leb_refl.
    replace (n - n) with 0 by lia.
    assert (N1 : 1 <= n).
    { unfold betweenPowers in B. destruct (Z.ltb_spec 0 n) as [|N0]; [lia|].
      destruct B as [_ B]. unfold xd in *.
      pose proof (pow10_pos (- n) ltac:(lia)). nia. }
    split; [exact N1|].
    unfold xd. rewrite Z.pow_0_r, Z.mul_1_r, Z.div_1_r. cbn [fst snd].
    unfold ofDecimal. destruct (Z.eqb_spec xn 0) as [|_]; [lia|].
    replace (n - n) with 0 by lia.
    change (0 <=? 0) with true. cbv iota.
    assert (Ex : xn * 10 ^ 0 * 2 ^ Z.max 0 (- e)
                 = Z.pos m * 2 ^ Z.max 0 e * 1).
    { rewrite (Z.max_l 0 (- e)), (Z.max_r 0 e) by lia.
      unfold xn. rewrite !Z.pow_0_r. ring. }
    rewrite (ofRatio_exact false m e (xn * 10 ^ 0) 1 Hb
               ltac:(rewrite Z.pow_0_r; lia) ltac:(lia) Ex).
    now apply sameValue_refl.
  - (* a fraction *)
    rewrite (Z.max_r 0 (- e)) by lia.
    assert (T : 0 < - e) by lia.
    assert (E10 : 10 ^ (- e) = 2 ^ (- e) * 5 ^ (- e)).
    { now rewrite <- Z.pow_mul_l. }
    assert (P2 : 0 < 2 ^ (- e)) by (apply Z.pow_pos_nonneg; lia).
    assert (P5 : 0 < 5 ^ (- e)) by (apply Z.pow_pos_nonneg; lia).
    assert (N1 : 1 <= n + - e).
    { unfold betweenPowers in B. destruct (Z.ltb_spec 0 n) as [|N0]; [lia|].
      destruct B as [_ B]. unfold xn, xd in B.
      destruct (Z.le_gt_cases (- e) (- n)) as [Q|Q]; [|lia]. exfalso.
      assert (2 ^ (- e) <= 10 ^ (- n)).
      { apply Z.le_trans with (10 ^ (- e)).
        - apply Z.pow_le_mono_l. lia.
        - apply Z.pow_le_mono_r; lia. }
      nia. }
    split; [exact N1|].
    destruct (Z.leb_spec (n + - e) n); [lia|].
    replace (n + - e - n) with (- e) by lia.
    unfold xn, xd. cbn [fst snd].
    assert (Q : Z.pos m * 10 ^ (- e) / 2 ^ (- e) = Z.pos m * 5 ^ (- e)).
    { rewrite E10.
      replace (Z.pos m * (2 ^ (- e) * 5 ^ (- e)))
        with (Z.pos m * 5 ^ (- e) * 2 ^ (- e)) by ring.
      apply Z.div_mul. lia. }
    rewrite Q. replace (n - (n + - e)) with e by lia.
    unfold ofDecimal.
    destruct (Z.eqb_spec (Z.pos m * 5 ^ (- e)) 0) as [Z0|_]; [nia|].
    destruct (Z.leb_spec 0 e); [lia|].
    assert (Ex : Z.pos m * 5 ^ (- e) * 2 ^ Z.max 0 (- e)
                 = Z.pos m * 2 ^ Z.max 0 e * 10 ^ (- e)).
    { rewrite (Z.max_r 0 (- e)), (Z.max_l 0 e) by lia.
      rewrite E10, Z.pow_0_r. ring. }
    rewrite (ofRatio_exact false m e (Z.pos m * 5 ^ (- e)) (10 ^ (- e)) Hb
               ltac:(nia) (pow10_pos (- e) ltac:(lia)) Ex).
    now apply sameValue_refl.
Qed.

(** The digits that [Number::toString] finds for a binary64 value:
    there are [k] of them, the first is no zero, and they read back as
    the value. *)
Lemma shortest_spec (m : positive) (e : Z) :
  bounded prec emax m e = true ->
  let xn := if 0 <=? e then Zpos m * 2 ^ e else Zpos m in
  let xd := if 0 <=? e then 1 else 2 ^ (- e) in
  let n0 := decimalExponent xn xd in
  exists s n k,
    shortest (Z.to_nat (n0 + Z.max 0 (- e))) (S754_finite false m e)
             xn xd n0 1 = (s, n, k)
    /\ 1 <= k
    /\ 10 ^ (k - 1) <= s < 10 ^ k
    /\ ofDecimal false s (n - k) = S754_finite false m e.
Proof.
  intros Hb xn xd n0.
  destruct (expansion_reads m e Hb) as (Hn & Hd & B & K & R).
  fold xn xd n0 in Hn, Hd, B, K, R.
  destruct (shortest_finds (S754_finite false m e) xn xd n0
              (Z.to_nat (n0 + Z.max 0 (- e))) 1 (n0 + Z.max 0 (- e))
              ltac:(rewrite Z2Nat.id; lia) (pick_lower _ _ _ _ _ R))
    as (s & n & k & A & Hk & P).
  exists s, n, k. split; [exact A|]. split; [lia|].
  destruct (pick_Some _ _ _ _ _ _ _ P) as (Rs & C).
  destruct (candidates_range xn xd n0 k Hn Hd ltac:(lia) B) as (Rl & Ru).
  split.
  - destruct C as [C|C]; rewrite <- C in *; assumption.
  - unfold readsAs in Rs. cbn [fst snd] in Rs. now apply sameValue_eq in Rs.
Qed.

(** *** The digits as text *)

Lemma digitsValue_acc (l : text) (acc : N) :
  Z.of_N (digitsValue acc l)
  = Z.of_N acc * 10 ^ Z.of_nat (List.length l) + numeral l.
Proof.
  unfold numeral. revert acc. induction l as [|c r IH]; intros acc.
  - simpl. lia.
  - cbn [digitsValue List.length]. rewrite IH, (IH (10 * 0 + (c - 48))%N).
    rewrite Nat2Z.inj_succ, Z.pow_succ_r by lia. lia.
Qed.

Lemma digitsValue_app (a b : text) (acc : N) :
  digitsValue acc (a ++ b) = digitsValue (digitsValue acc a) b.
Proof.
  revert acc. induction a as [|c r IH]; intros acc; [reflexivity|].
  cbn [app digitsValue]. apply IH.
Qed.

Lemma val_app (a b : text) :
  numeral (a ++ b) = numeral a * 10 ^ Z.of_nat (List.length b) + numeral b.
Proof.
  unfold numeral at 1. rewrite digitsValue_app, digitsValue_acc. reflexivity.
Qed.

Lemma digit_Z (d : Z) : 0 <= d -> Z.of_N (digit d) = 48 + d.
Proof. intros H. unfold digit. apply Z2N.id. lia. Qed.

Lemma digit_isDigit (d : Z) : 0 <= d < 10 -> isDigit (digit d) = true.
Proof.
  intros H. pose proof (digit_Z d ltac:(lia)) as E. unfold isDigit.
  apply andb_true_iff. split; apply N.leb_le; lia.
Qed.

Lemma val_digit (d : Z) : 0 <= d < 10 -> numeral [digit d] = d.
Proof.
  intros H. pose proof (digit_Z d ltac:(lia)) as E.
  unfold numeral. cbn [digitsValue]. lia.
Qed.

Lemma digitsOf_length (k : nat) (z : Z) : List.length (digitsOf k z) = k.
Proof.
  revert z. induction k as [|k IH]; intros z; [reflexivity|].
  cbn [digitsOf]. rewrite length_app, IH. simpl. lia.
Qed.

Lemma digitsOf_digits (k : nat) (z : Z) :
  forallb isDigit (digitsOf k z) = true.
Proof.
  revert z. induction k as [|k IH]; intros z; [reflexivity|].
  cbn [digitsOf]. rewrite forallb_app, IH. cbn [forallb andb].
  rewrite digit_isDigit; [reflexivity|].
  apply Z.mod_pos_bound. lia.
Qed.

Lemma val_digitsOf (k : nat) (z : Z) :
  numeral (digitsOf k z) = z mod 10 ^ Z.of_nat k.
Proof.
  revert z. induction k as [|k IH]; intros z.
  - simpl. now rewrite Z.mod_1_r.
  - cbn [digitsOf]. rewrite val_app, IH.
    rewrite val_digit by (apply Z.mod_pos_bound; lia).
    change (Z.of_nat (List.length [digit (z mod 10)])) with 1.
    rewrite Z.pow_1_r.
    rewrite (Nat2Z.inj_succ k), Z.pow_succ_r by lia.
    rewrite Z.rem_mul_r by (try apply Z.pow_pos_nonneg; lia).
    ring.
Qed.

Lemma digitsOf_cons (k : nat) (z : Z) :
  digitsOf (S k) z = digit (z / 10 ^ Z.of_nat k mod 10) :: digitsOf k z.
Proof.
  revert z. induction k as [|k IH]; intros z.
  - simpl. now rewrite Z.div_1_r.
  - change (digitsOf (S (S k)) z)
      with (digitsOf (S k) (z / 10) ++ [digit (z mod 10)]).
    rewrite IH. cbn [app digitsOf]. f_equal. f_equal.
    rewrite Nat2Z.inj_succ, Z.pow_succ_r by lia.
    rewrite Z.div_div by (try apply Z.pow_pos_nonneg; lia). reflexivity.
Qed.

(** The digits of a number with exactly [k] digits. *)
Lemma digitsOf_exact (k : Z) (s : Z) :
  1 <= k -> 10 ^ (k - 1) <= s < 10 ^ k ->
  exists d ds,
    digitsOf (Z.to_nat k) s = d :: ds
    /\ isDigit d = true /\ d <> 48%N
    /\ forallb isDigit ds = true
    /\ List.length ds = Z.to_nat (k - 1)
    /\ numeral (d :: ds) = s.
Proof.
  intros Hk [L U].
  replace (Z.to_nat k) with (S (Z.to_nat (k - 1))) by lia.
  pose proof (digitsOf_digits (S (Z.to_nat (k - 1))) s) as Hd.
  pose proof (val_digitsOf (S (Z.to_nat (k - 1))) s) as Hv.
  pose proof (digitsOf_length (S (Z.to_nat (k - 1))) s) as Hl.
  rewrite digitsOf_cons in *. rewrite Z2Nat.id in * by lia.
  set (q := s / 10 ^ (k - 1)) in *.
  pose proof (pow10_pos (k - 1) ltac:(lia)) as P.
  assert (Q1 : 1 <= q) by (apply Z.div_le_lower_bound; lia).
  assert (Q2 : q < 10).
  { apply Z.div_lt_upper_bound; [lia|].
    replace k with (Z.succ (k - 1)) in U by lia.
    rewrite Z.pow_succ_r in U by lia. lia. }
  rewrite Z.mod_small in * by lia.
  exists (digit q), (digitsOf (Z.to_nat (k - 1)) s).
  cbn [forallb] in Hd. apply andb_true_iff in Hd as [D1 D2].
  split; [reflexivity|]. split; [exact D1|]. split.
  - pose proof (digit_Z q ltac:(lia)). lia.
  - split; [exact D2|]. split; [simpl in Hl; lia|].
    rewrite Hv. rewrite Nat2Z.inj_succ, Z2Nat.id by lia.
    replace (Z.succ (k - 1)) with k by lia. apply Z.mod_small. lia.
Qed.

Lemma zeros_digits (n : Z) : forallb isDigit (zeros n) = true.
Proof. unfold zeros. induction (Z.to_nat n); simpl; auto. Qed.

Lemma zeros_length (n : Z) : List.length (zeros n) = Z.to_nat n.
Proof. apply repeat_length. Qed.

Lemma val_zeros (n : Z) : numeral (zeros n) = 0.
Proof.
  unfold zeros. induction (Z.to_nat n) as [|k IH]; [reflexivity|].
  change (repeat 48%N (S k)) with ([48%N] ++ repeat 48%N k).
  rewrite val_app, IH. reflexivity.
Qed.

(** The digits of a number that is not negative. *)
Lemma decimal_spec (z : Z) :
  0 <= z ->
  exists d ds, decimal z = d :: ds
               /\ forallb isDigit (d :: ds) = true /\ numeral (d :: ds) = z.
Proof.
  intros Hz. unfold decimal.
  set (f := Z.to_nat (Z.log2 z)).
  pose proof (digits10_pos f z) as P.
  pose proof (digitsOf_digits (digits10 f z) z) as D.
  pose proof (val_digitsOf (digits10 f z) z) as V.
  pose proof (digitsOf_length (digits10 f z) z) as Ln.
  destruct (digitsOf (digits10 f z) z) as [|d ds] eqn:E; [simpl in Ln; lia|].
  exists d, ds. split; [reflexivity|]. split; [exact D|].
  rewrite V. apply Z.mod_small. split; [exact Hz|].
  destruct (Z.eq_dec z 0) as [->|N0].
  - apply Z.pow_pos_nonneg; lia.
  - apply (digits10_spec f z); [lia|]. unfold f. rewrite Z2Nat.id; [lia|].
    apply Z.log2_nonneg.
Qed.

(** *** Reading the digits *)

Lemma digitsRun_digits (ds rest : text) :
  forallb isDigit ds = true -> noDigitNext rest ->
  digitsRun (ds ++ rest) = (ds, rest).
Proof.
  intros Hd Hs. induction ds as [|c r IH].
  - destruct rest as [|c r]; [reflexivity|]. simpl in *. now rewrite Hs.
  - simpl in *. apply andb_true_iff in Hd as [-> Hd]. now rewrite IH.
Qed.

Lemma parseInt_digits (d : N) (ds rest : text) :
  isDigit d = true -> d <> 48%N -> forallb isDigit ds = true -> noDigitNext rest ->
  parseInt (d :: ds ++ rest) = Some (d :: ds, rest).
Proof.
  intros Hd Hn Hds Hs. unfold parseInt.
  destruct (N.eqb_spec d 48) as [|_]; [easy|]. rewrite Hd.
  change (d :: ds ++ rest) with ((d :: ds) ++ rest).
  rewrite digitsRun_digits; auto. simpl. now rewrite Hd.
Qed.

Lemma parseFrac_point (fs rest : text) :
  fs <> [] -> forallb isDigit fs = true -> noDigitNext rest ->
  parseFrac (46%N :: fs ++ rest) = Some (fs, rest).
Proof.
  intros Hn Hd Hs. unfold parseFrac. change (46 =? 46)%N with true. cbv iota.
  rewrite digitsRun_digits by assumption. now destruct fs.
Qed.

Lemma parseInt_digits_end (d : N) (ds : text) :
  isDigit d = true -> d <> 48%N -> forallb isDigit ds = true ->
  parseInt (d :: ds) = Some (d :: ds, []).
Proof.
  intros Hd Hn Hds. pose proof (parseInt_digits d ds [] Hd Hn Hds I) as H.
  now rewrite app_nil_r in H.
Qed.

Lemma parseFrac_point_end (fs : text) :
  fs <> [] -> forallb isDigit fs = true ->
  parseFrac (46%N :: fs) = Some (fs, []).
Proof.
  intros Hn Hd. pose proof (parseFrac_point fs [] Hn Hd I) as H.
  now rewrite app_nil_r in H.
Qed.

Lemma parseExp_written (n : Z) :
  parseExp (lit "e" ++ (if 0 <=? n then lit "+" else lit "-")
            ++ decimal (Z.abs n))
  = Some (n, []).
Proof.
  destruct (decimal_spec (Z.abs n) ltac:(lia)) as (d & ds & E & D & V).
  rewrite E. pose proof (digitsRun_digits (d :: ds) [] D I) as R.
  rewrite app_nil_r in R. unfold numeral in V.
  destruct (Z.leb_spec 0 n) as [P|P].
  - change (lit "e" ++ lit "+" ++ d :: ds) with (101%N :: 43%N :: d :: ds).
    unfold parseExp. change ((101 =? 101) || (101 =? 69))%N with true.
    change (43 =? 45)%N with false. change (43 =? 43)%N with true. cbv iota.
    rewrite R. f_equal. f_equal. lia.
  - change (lit "e" ++ lit "-" ++ d :: ds) with (101%N :: 45%N :: d :: ds).
    unfold parseExp. change ((101 =? 101) || (101 =? 69))%N with true.
    change (45 =? 45)%N with true. cbv iota.
    rewrite R. f_equal. f_equal. lia.
Qed.

Lemma isDigit_point : isDigit 46 = false.
Proof. reflexivity. Qed.

Lemma isDigit_e : isDigit 101 = false.
Proof. reflexivity. Qed.

Lemma ofDecimal_shift (neg : bool) (s j : Z) :
  0 < s -> 0 <= j -> ofDecimal neg (s * 10 ^ j) 0 = ofDecimal neg s j.
Proof.
  intros Hs Hj. unfold ofDecimal. pose proof (pow10_pos j Hj).
  destruct (Z.eqb_spec (s * 10 ^ j) 0); [nia|].
  destruct (Z.eqb_spec s 0); [lia|].
  change (0 <=? 0) with true. cbv iota.
  destruct (Z.leb_spec 0 j); [|lia].
  now rewrite Z.pow_0_r, Z.mul_1_r.
Qed.

Lemma positiveToString_layout (m : positive) (e : Z) :
  positiveToString m e
  = let xn := if 0 <=? e then Zpos m * 2 ^ e else Zpos m in
    let xd := if 0 <=? e then 1 else 2 ^ (- e) in
    let n0 := decimalExponent xn xd in
    let '(s, n, k) :=
      shortest (Z.to_nat (n0 + Z.max 0 (- e))) (S754_finite false m e)
               xn xd n0 1 in
    layout s n k.
Proof.
  unfold positiveToString, layout. cbv zeta.
  destruct (shortest _ _ _ _ _ _) as [[s n] k]. reflexivity.
Qed.

(** After the sign, the layout is read as the number that the digits
    and the exponent name. *)
Lemma layout_reads (neg : bool) (s n k : Z) :
  1 <= k -> 10 ^ (k - 1) <= s < 10 ^ k ->
  exists d r,
    layout s n k = d :: r /\ isDigit d = true
    /\ match parseInt (layout s n k) with
       | Some (ints, l2) =>
           match parseFrac l2 with
           | Some (fracs, l3) =>
               match parseExp l3 with
               | Some (e, l4) =>
                   l4 = []
                   /\ ofDecimal neg (Z.of_N (digitsValue 0 (ints ++ fracs)))
                                (e - Z.of_nat (List.length fracs))
                      = ofDecimal neg s (n - k)
               | None => False
               end
           | None => False
           end
       | None => False
       end.
Proof.
  intros Hk Hs.
  destruct (digitsOf_exact k s Hk Hs) as (d & ds & E & Hd & Hn & Hds & Hl & Hv).
  assert (S0 : 0 < s) by (pose proof (pow10_pos (k - 1) ltac:(lia)); lia).
  unfold layout. cbv zeta. rewrite E.
  destruct ((k <=? n) && (n <=? 21)) eqn:C1.
  { (* digits and zeros *)
    apply andb_true_iff in C1 as [C1 _]. apply Z.leb_le in C1.
    exists d, (ds ++ zeros (n - k)). split; [reflexivity|]. split; [exact Hd|].
    change ((d :: ds) ++ zeros (n - k)) with (d :: ds ++ zeros (n - k)).
    rewrite parseInt_digits_end; auto;
      [|rewrite forallb_app, Hds, zeros_digits; reflexivity].
    cbn [parseFrac parseExp]. split; [reflexivity|].
    rewrite app_nil_r. cbn [List.length Z.of_nat]. rewrite Z.sub_0_r.
    change (d :: ds ++ zeros (n - k)) with ((d :: ds) ++ zeros (n - k)).
    fold (numeral ((d :: ds) ++ zeros (n - k))).
    rewrite val_app, Hv, val_zeros, zeros_length, Z2Nat.id, Z.add_0_r by lia.
    apply ofDecimal_shift; lia. }
  destruct ((0 <? n) && (n <=? 21)) eqn:C2.
  { (* a point inside the digits *)
    apply andb_true_iff in C2 as [C2 C2']. apply Z.ltb_lt in C2.
    assert (Kn : n < k).
    { apply andb_false_iff in C1 as [C1|C1]; [apply Z.leb_gt in C1; lia|].
      rewrite C2' in C1. discriminate C1. }
    replace (Z.to_nat n) with (S (Z.to_nat (n - 1))) by lia.
    cbn [firstn skipn].
    set (a := firstn (Z.to_nat (n - 1)) ds).
    set (b := skipn (Z.to_nat (n - 1)) ds).
    assert (Eab : ds = a ++ b) by (unfold a, b; now rewrite firstn_skipn).
    assert (Hab : forallb isDigit a = true /\ forallb isDigit b = true).
    { rewrite Eab, forallb_app in Hds. now apply andb_true_iff in Hds. }
    destruct Hab as [Ha Hb].
    assert (Lb : List.length b = Z.to_nat (k - n)).
    { unfold b. rewrite length_skipn, Hl. lia. }
    assert (Nb : b <> []) by (intros Z0; rewrite Z0 in Lb; simpl in Lb; lia).
    exists d, (a ++ lit "." ++ b). split; [reflexivity|]. split; [exact Hd|].
    change ((d :: a) ++ lit "." ++ b) with (d :: a ++ (46%N :: b)).
    rewrite parseInt_digits; auto; [|exact isDigit_point].
    rewrite parseFrac_point_end; auto.
    cbn [parseExp]. split; [reflexivity|].
    change ((d :: a) ++ b) with (d :: (a ++ b)). rewrite <- Eab.
    fold (numeral (d :: ds)). rewrite Hv, Lb. f_equal. lia. }
  destruct ((-6 <? n) && (n <=? 0)) eqn:C3.
  { (* zeros after the point *)
    apply andb_true_iff in C3 as [_ C3]. apply Z.leb_le in C3.
    exists 48%N, (46%N :: zeros (- n) ++ d :: ds).
    split; [reflexivity|]. split; [reflexivity|].
    change (lit "0." ++ zeros (- n) ++ d :: ds)
      with (48%N :: 46%N :: zeros (- n) ++ d :: ds).
    cbn [parseInt]. change (48 =? 48)%N with true. cbv iota.
    rewrite parseFrac_point_end;
      [|now destruct (zeros (- n))
       |rewrite forallb_app, zeros_digits; cbn [forallb]; now rewrite Hd, Hds].
    cbn [parseExp]. split; [reflexivity|].
    change ([48%N] ++ zeros (- n) ++ d :: ds)
      with (([48%N] ++ zeros (- n)) ++ d :: ds).
    rewrite <- app_assoc.
    change ([48%N] ++ zeros (- n) ++ d :: ds)
      with (zeros (Z.succ 0) ++ zeros (- n) ++ d :: ds).
    fold (numeral (zeros (Z.succ 0) ++ zeros (- n) ++ d :: ds)).
    rewrite !val_app, !val_zeros, Hv. cbn [Z.mul Z.add].
    rewrite length_app, zeros_length. cbn [List.length]. rewrite Hl.
    f_equal. lia. }
  (* an exponent *)
  destruct (Z.eqb_spec k 1) as [K1|K1].
  - assert (ds = []) by (destruct ds; [reflexivity|simpl in Hl; lia]).
    subst ds.
    exists d, (lit "e" ++ (if 0 <=? n - 1 then lit "+" else lit "-")
               ++ decimal (Z.abs (n - 1))).
    split; [reflexivity|]. split; [exact Hd|].
    change ([d] ++ lit "e" ++ (if 0 <=? n - 1 then lit "+" else lit "-")
            ++ decimal (Z.abs (n - 1)))
      with (d :: [] ++ (101%N :: (if 0 <=? n - 1 then lit "+" else lit "-")
                            ++ decimal (Z.abs (n - 1)))).
    rewrite parseInt_digits; auto; [|exact isDigit_e].
    cbn [parseFrac]. change (101 =? 46)%N with false. cbv iota.
    change (101%N :: (if 0 <=? n - 1 then lit "+" else lit "-")
            ++ decimal (Z.abs (n - 1)))
      with (lit "e" ++ (if 0 <=? n - 1 then lit "+" else lit "-")
            ++ decimal (Z.abs (n - 1))).
    rewrite parseExp_written. split; [reflexivity|].
    rewrite app_nil_r. fold (numeral [d]). rewrite Hv. cbn [List.length Z.of_nat].
    f_equal. lia.
  - destruct ds as [|d2 ds2]; [simpl in Hl; lia|].
    cbn [firstn skipn].
    exists d, (lit "." ++ (d2 :: ds2)
               ++ lit "e" ++ (if 0 <=? n - 1 then lit "+" else lit "-")
               ++ decimal (Z.abs (n - 1))).
    split; [reflexivity|]. split; [exact Hd|].
    change ([d] ++ lit "." ++ (d2 :: ds2)
            ++ lit "e" ++ (if 0 <=? n - 1 then lit "+" else lit "-")
            ++ decimal (Z.abs (n - 1)))
      with (d :: [] ++ (46%N :: (d2 :: ds2)
                        ++ (lit "e" ++ (if 0 <=? n - 1 then lit "+" else lit "-")
                            ++ decimal (Z.abs (n - 1))))).
    rewrite parseInt_digits; auto; [|exact isDigit_point].
    rewrite parseFrac_point; auto; [|easy|exact isDigit_e].
    rewrite parseExp_written. split; [reflexivity|].
    change ([d] ++ d2 :: ds2) with (d :: d2 :: ds2).
    fold (numeral (d :: d2 :: ds2)). rewrite Hv, Hl. f_equal. lia.
Qed.

End Digits.


(** ** Numbers read back *)

Lemma ofRatio_sign (a b : Z) (m : positive) (e : Z) :
  ofRatio false a b = S754_finite false m e ->
  ofRatio true a b = S754_finite true m e.
Proof.
  unfold ofRatio. destruct (SFdiv_core_binary prec emax a 0 b 0) as [[mz ez] lz].
  unfold binary_round_aux.
  destruct (shr_fexp prec emax mz ez lz) as [mrs' e'].
  destruct (shr_fexp prec emax _ e' loc_Exact) as [mrs'' e''].
  destruct (shr_m mrs''); try easy.
  destruct (Z.leb e'' (emax - prec)); [|easy]. now intros [= -> ->].
Qed.

Lemma ofDecimal_sign (neg : bool) (s j : Z) (m : positive) (e : Z) :
  ofDecimal false s j = S754_finite false m e ->
  ofDecimal neg s j = S754_finite neg m e.
Proof.
  destruct neg; [|easy]. unfold ofDecimal.
  destruct (Z.eqb s 0); [easy|].
  destruct (Z.leb 0 j); apply ofRatio_sign.
Qed.

(** [JSON.parse] reads what [Number::toString] writes for a binary64
    value other than zero as that value. *)
Lemma toString_reads (neg : bool) (m : positive) (e : Z) :
  bounded prec emax m e = true ->
  parseNumber (toString (S754_finite neg m e))
  = Some (S754_finite neg m e, []).
Proof.
  intros Hb. cbn [toString]. rewrite Digits.positiveToString_layout.
  destruct (Digits.shortest_spec m e Hb) as (s & n & k & Es & Hk & Hs & Hr).
  cbv zeta. rewrite Es.
  destruct (Digits.layout_reads neg s n k Hk Hs) as (d & r & El & Hd & Hp).
  assert (Sg : parseSign ((if neg then lit "-" else []) ++ layout s n k)
               = (neg, layout s n k)).
  { destruct neg; [reflexivity|]. rewrite El. cbn [app parseSign].
    destruct (N.eqb_spec d 45) as [->|]; [discriminate Hd|reflexivity]. }
  unfold parseNumber. rewrite Sg.
  destruct (parseInt (layout s n k)) as [[ints l2]|]; [|easy].
  destruct (parseFrac l2) as [[fracs l3]|]; [|easy].
  destruct (parseExp l3) as [[ex l4]|]; [|easy].
  destruct Hp as (-> & Hv). rewrite Hv.
  now rewrite (ofDecimal_sign neg s (n - k) m e Hr).
Qed.

Lemma readsBack_valid (x : number) :
  valid_binary prec emax x = true ->
  match writtenNumber x with
  | VNum y => readsBack y = true
  | _ => True
  end.
Proof.
  destruct x as [s|s| |s m e]; intros H; try exact I.
  - reflexivity.
  - cbn [writtenNumber]. unfold readsBack. cbn [isFinite andb].
    rewrite (toString_reads s m e H). apply Digits.sameValue_refl. easy.
Qed.

(** ** The document as it is written *)

Lemma serialize_written (v : value) :
  forall indent, serialize indent (written v) = serialize indent v.
Proof.
  induction v as [ | b | x | s | elems named IHe _ | props IHp]
    using value_induction; intros indent; try reflexivity.
  - now destruct x as [[]|[]| |].
  - destruct elems as [|e es]; [reflexivity|].
    cbn [written]. cbn [serialize List.map].
    inversion IHe as [|? ? He Hes]; subst. rewrite He.
    replace (List.map (serialize (indent ++ gap)) (List.map written es))
      with (List.map (serialize (indent ++ gap)) es); [reflexivity|].
    rewrite map_map. apply map_ext_Forall.
    eapply Forall_impl; [|exact Hes]. intros a Ha. now rewrite Ha.
  - destruct props as [|[k v] ps]; [reflexivity|].
    cbn [written]. cbn [serialize List.map fst snd].
    inversion IHp as [|? ? Hv Hps]; subst. simpl in Hv. rewrite Hv.
    replace (List.map (fun kv => quote (fst kv) ++ lit ": "
                                 ++ serialize (indent ++ gap) (snd kv))
                      (List.map (fun kv => (fst kv, written (snd kv))) ps))
      with (List.map (fun kv => quote (fst kv) ++ lit ": "
                                ++ serialize (indent ++ gap) (snd kv)) ps);
      [reflexivity|].
    rewrite map_map. apply map_ext_Forall.
    eapply Forall_impl; [|exact Hps]. intros a Ha. simpl. now rewrite Ha.
Qed.

Lemma shown_written (v : value) : shown (written v) = written v.
Proof.
  induction v as [ | b | x | s | elems named IHe _ | props IHp]
    using value_induction; try reflexivity.
  - now destruct x.
  - cbn [written shown]. f_equal.
    rewrite map_map. apply map_ext_Forall. exact IHe.
  - cbn [written shown]. f_equal.
    rewrite map_map. apply map_ext_Forall.
    eapply Forall_impl; [|exact IHp]. intros a Ha. simpl. now rewrite Ha.
Qed.

Lemma numbersReadBack_written (v : value) :
  numbersValid v = true -> numbersReadBack (written v) = true.
Proof.
  induction v as [ | b | x | s | elems named IHe _ | props IHp]
    using value_induction; intros H; try reflexivity.
  - pose proof (readsBack_valid x H) as R. cbn [written].
    destruct x; try reflexivity; exact R.
  - cbn [written numbersReadBack]. simpl in H.
    rewrite forallb_forall in *. intros w Hw.
    apply in_map_iff in Hw as (u & <- & Hu).
    rewrite Forall_forall in IHe. apply (IHe u Hu). now apply H.
  - cbn [written numbersReadBack]. simpl in H.
    rewrite forallb_forall in *. intros w Hw.
    apply in_map_iff in Hw as (u & <- & Hu). cbn [snd].
    rewrite Forall_forall in IHp. apply (IHp u Hu). now apply (H u).
Qed.

Lemma wellKeyed_written (v : value) : wellKeyed v -> wellKeyed (written v).
Proof.
  induction v as [ | b | x | s | elems named IHe _ | props IHp]
    using value_induction; intros H; try exact H.
  - destruct x; constructor.
  - inversion H as [ | | | | ? ? He | ]; subst. cbn [written]. constructor.
    rewrite Forall_forall in *. intros w Hw.
    apply in_map_iff in Hw as (u & <- & Hu). auto.
  - inversion H as [ | | | | | ? Ho Hp]; subst. cbn [written]. constructor.
    + unfold ordered in *. rewrite map_map. cbn [fst]. exact Ho.
    + rewrite Forall_forall in *. intros w Hw.
      apply in_map_iff in Hw as (u & <- & Hu). cbn [snd]. auto.
Qed.

(** [JSON.parse(JSON.stringify(v))] is [v] as it is written, for
    every document whose numbers are binary64 values. *)
Lemma JSON_parse_written (v : value) :
  wellKeyed v -> numbersValid v = true ->
  JSON_parse (JSON_stringify v) = POk (written v) [].
Proof.
  intros Hw Hn.
  pose proof (JSON_parse_stringify (written v) (wellKeyed_written v Hw)
                (numbersReadBack_written v Hn)) as R.
  unfold JSON_stringify in *. now rewrite serialize_written, shown_written in R.
Qed.

(** *** The numbers that [JSON.parse] builds are binary64 values *)

Lemma valid_props (props : list (text * value)) :
  validNumbers (VObj props) <-> Forall (fun kv => validNumbers (snd kv)) props.
Proof. unfold validNumbers. simpl. now rewrite forallb_forall, Forall_forall. Qed.

Lemma valid_elems (elems : list value) (named : list (text * value)) :
  validNumbers (VArr elems named) <-> Forall validNumbers elems.
Proof. unfold validNumbers. simpl. now rewrite forallb_forall, Forall_forall. Qed.

Lemma parseNumber_valid (l : text) (x : number) (rest : text) :
  parseNumber l = Some (x, rest) -> validNumbers (VNum x).
Proof.
  unfold parseNumber. destruct (parseSign l) as [neg l1].
  destruct (parseInt l1) as [[ints l2]|]; [|easy].
  destruct (parseFrac l2) as [[fracs l3]|]; [|easy].
  destruct (parseExp l3) as [[e l4]|]; [|easy].
  intros [= <- _]. apply Rounding.ofDecimal_valid. apply N2Z.is_nonneg.
Qed.

Section Descent.
Variable value_ : text -> parsed value.
Variable members_ : text -> parsed (list (text * value)).
Variable elements_ : text -> parsed (list value).

Lemma valueAt_valid :
  yields (Forall (fun kv => validNumbers (snd kv))) members_ ->
  yields (Forall validNumbers) elements_ ->
  yields validNumbers (valueAt members_ elements_).
Proof.
  intros Hm He l v rest. unfold valueAt.
  destruct (skipWS l) as [|c r]; [easy|].
  destruct (c =? 123); [|destruct (c =? 91); [|destruct (c =? dquote)]].
  - destruct (skipWS r) as [|d r']; [easy|].
    destruct (d =? 125).
    + now intros [= <- _].
    + destruct (members_ (d :: r')) as [ms rest'| |] eqn:E; try easy.
      simpl. intros [= <- _]. apply Hm in E.
      apply valid_props. now apply values_makeObject.
  - destruct (skipWS r) as [|d r']; [easy|].
    destruct (d =? 93).
    + now intros [= <- _].
    + destruct (elements_ (d :: r')) as [vs rest'| |] eqn:E; try easy.
      simpl. intros [= <- _]. apply He in E. now apply valid_elems.
  - destruct (parseChars r) as [[s rest']|]; [|easy].
    now intros [= <- _].
  - destruct (c =? 116); [|destruct (c =? 102); [|destruct (c =? 110)]];
      try (apply literal_yields; reflexivity).
    destruct (parseNumber (c :: r)) as [[x rest']|] eqn:E; [|easy].
    intros [= <- _]. exact (parseNumber_valid _ _ _ E).
Qed.

Lemma membersAt_valid :
  yields validNumbers value_ ->
  yields (Forall (fun kv => validNumbers (snd kv))) members_ ->
  yields (Forall (fun kv => validNumbers (snd kv))) (membersAt value_ members_).
Proof.
  intros Hv Hm l ms rest. unfold membersAt.
  destruct (skipWS l) as [|c r]; [easy|].
  destruct (c =? dquote); [|easy].
  destruct (parseChars r) as [[k r1]|]; [|easy].
  destruct (skipWS r1) as [|c1 r2]; [easy|].
  destruct (c1 =? 58); [|easy].
  destruct (value_ r2) as [v r3| |] eqn:Ev; try easy. simpl.
  apply Hv in Ev.
  destruct (skipWS r3) as [|c3 r4]; [easy|].
  destruct (c3 =? 44).
  - destruct (members_ r4) as [ms' rest'| |] eqn:Em; try easy.
    simpl. intros [= <- _]. apply Hm in Em. now constructor.
  - destruct (c3 =? 125); [|easy]. intros [= <- _]. now repeat constructor.
Qed.

Lemma elementsAt_valid :
  yields validNumbers value_ ->
  yields (Forall validNumbers) elements_ ->
  yields (Forall validNumbers) (elementsAt value_ elements_).
Proof.
  intros Hv He l vs rest. unfold elementsAt.
  destruct (value_ l) as [v r1| |] eqn:Ev; try easy. simpl.
  apply Hv in Ev.
  destruct (skipWS r1) as [|c r2]; [easy|].
  destruct (c =? 44).
  - destruct (elements_ r2) as [vs' rest'| |] eqn:Ee; try easy.
    simpl. intros [= <- _]. apply He in Ee. now constructor.
  - destruct (c =? 93); [|easy]. intros [= <- _]. now repeat constructor.
Qed.
End Descent.

Lemma parse_valid (f : nat) :
  yields validNumbers (parseValue f)
  /\ yields (Forall (fun kv => validNumbers (snd kv))) (parseMembers f)
  /\ yields (Forall validNumbers) (parseElements f).
Proof.
  induction f as [|f (IHv & IHm & IHe)].
  - repeat split; intros l a rest; discriminate.
  - split; [|split]; simpl.
    + now apply valueAt_valid.
    + now apply membersAt_valid.
    + now apply elementsAt_valid.
Qed.

Lemma JSON_parse_valid (t : text) (v : value) (rest : text) :
  JSON_parse t = POk v rest -> numbersValid v = true.
Proof.
  unfold JSON_parse.
  destruct (parseValue _ t) as [v' rest'| |] eqn:E; try easy.
  destruct (skipWS rest'); [|easy]. intros [= <- _].
  exact (proj1 (parse_valid _) _ _ _ E).
Qed.

Lemma injectPathAlias_valid (X X'' : value) :
  injectPathAlias X = Normal X'' ->
  numbersValid X = true -> numbersValid X'' = true.
Proof.
  apply (injectPathAlias_kept validNumbers).
  - intros props H. now apply valid_props.
  - intros k x props H Hx. apply valid_props.
    apply (values_defineProperty validNumbers); auto. now apply valid_props.
  - intros elems named named' H. exact H.
  - reflexivity.
  - reflexivity.
  - reflexivity.
Qed.

(** ** The patch, run again *)

Lemma lookup_written (k : text) (props : list (text * value)) :
  lookup k (List.map (fun kv => (fst kv, written (snd kv))) props)
  = option_map written (lookup k props).
Proof.
  induction props as [|[k' v'] r IH]; simpl; [reflexivity|].
  now destruct (text_eqb k k').
Qed.

Lemma written_object (v : value) (props : list (text * value)) :
  written v = VObj props ->
  exists props0, v = VObj props0
                 /\ props = List.map (fun kv => (fst kv, written (snd kv))) props0.
Proof.
  destruct v as [ | | x | | | ]; simpl; try easy.
  - now destruct x.
  - intros [= <-]. eauto.
Qed.

Lemma setProperty_primitive (c : value) (k : text) (x c' : value) :
  setProperty c k x = Normal c' -> ~ holdsProperties c -> c' = c.
Proof. destruct c; simpl; try easy; now intros [= <-]. Qed.

(** The injection on what was read back from the file that a first
    injection led to. *)
Lemma injectPathAlias_written (X X' : value) :
  injectPathAlias X = Normal X' ->
  unwritable (member X compilerOptions) = false ->
  exists X'', injectPathAlias (written X') = Normal X''
              /\ shown X'' = written X'.
Proof.
  intros HI HU.
  destruct (injectPathAlias_spec _ _ HI) as (c0 & c1 & c2 & E0 & S1 & S3 & M & _).
  assert (Hh : holdsProperties (written X')).
  { pose proof (member_holds _ _ _ M) as H. destruct X'; simpl in *; easy. }
  destruct (injectPathAlias_succeeds _ Hh) as (X'' & HI2).
  exists X''. split; [exact HI2|].
  rewrite <- (shown_written X').
  apply (injectPathAlias_again _ _ HI2). intros props E.
  destruct (written_object _ _ E) as (props0 & -> & ->).
  simpl in M. exists (written c2). rewrite lookup_written, M.
  split; [reflexivity|].
  assert (T0 : toBoolean (Some c0) = true).
  { subst c0. destruct (toBoolean (member X compilerOptions)) eqn:T; [|reflexivity].
    destruct (member X compilerOptions); [exact T|discriminate T]. }
  assert (T2 : toBoolean (Some c2) = true).
  { now rewrite (setProperty_toBoolean _ _ _ _ S3),
      (setProperty_toBoolean _ _ _ _ S1). }
  split.
  { destruct c2 as [ | b | x | s | elems named | q]; try exact T2;
      try reflexivity.
    (* a number: it is the one the document had *)
    assert (E2 : VNum x = c0).
    { assert (E1 : c1 = VNum x).
      { destruct c1; simpl in S3; try discriminate S3; congruence. }
      subst c1.
      destruct c0; simpl in S1; try discriminate S1; congruence. }
    rewrite E0 in E2.
    destruct (toBoolean (member X compilerOptions)); [|discriminate E2].
    destruct (member X compilerOptions) as [c|]; [|discriminate E2].
    subst c. rewrite <- E2 in HU. simpl in HU, T2.
    now destruct x. }
  intros q Eq. destruct (written_object _ _ Eq) as (q2 & -> & ->).
  destruct (setProperty_object _ _ _ _ _ S3 eq_refl) as (q1 & -> & ->).
  destruct (setProperty_object _ _ _ _ _ S1 eq_refl) as (q0 & _ & ->).
  rewrite !lookup_written. split.
  - exists (written (VStr (lit "."))).
    rewrite lookup_defineProperty_other by exact baseUrl_neq_paths.
    rewrite lookup_defineProperty_same. split; reflexivity.
  - exists (written pathAlias). rewrite lookup_defineProperty_same.
    split; reflexivity.
Qed.

(** *** The claim *)

(** C1, amended.  Let a first run of the patch on the text [T] read the
    document [D] and write the text [out].  If the two textual passes
    find nothing to remove in [out], and if [compilerOptions] in [D] is
    no number so large that it is written as [null], then a second run,
    on [out], writes [out] again: the file is the same, unit for unit,
    and so is the document in it.  This holds for the trailing-comma
    pass of either entry point, and for any other. *)
Theorem patch_idempotent (strip : text -> text) (T out : text) (D : value) :
  parse (strip (stripComments T)) = Normal D ->
  patchWith strip T = Normal out ->
  strip (stripComments out) = out ->
  unwritable (member D compilerOptions) = false ->
  patchWith strip out = Normal out.
Proof.
  intros HP H1 Hout HU. unfold patchWith in H1. rewrite HP in H1.
  destruct (injectPathAlias D) as [D'| |] eqn:HI; try discriminate H1.
  injection H1 as H1.
  assert (WV : wellKeyed D /\ numbersValid D = true).
  { unfold parse in HP. destruct (JSON_parse _) as [v rest| |] eqn:E;
      try discriminate HP.
    injection HP as ->.
    split; [exact (JSON_parse_wellKeyed _ _ _ E)|exact (JSON_parse_valid _ _ _ E)]. }
  destruct WV as [WD VD].
  pose proof (injectPathAlias_wellKeyed _ _ HI WD) as WD'.
  pose proof (injectPathAlias_valid _ _ HI VD) as VD'.
  pose proof (JSON_parse_written D' WD' VD') as R. rewrite H1 in R.
  destruct (injectPathAlias_written _ _ HI HU) as (D'' & HI2 & ES).
  unfold patchWith. rewrite Hout. unfold parse. rewrite R, HI2.
  f_equal. rewrite <- H1. unfold JSON_stringify.
  rewrite <- (serialize_shown D''), ES. apply serialize_written.
Qed.

(** A configuration with numbers in it, among them a negative zero and
    one too large for a binary64 value, through the Node script. *)
Lemma patch_idempotent_witness :
  let T := q "{'compilerOptions': {'target': 'ES2020', 'x': 1.5}, 'a': -0, 'b': 1e999}" in
  let D := VObj [(lit "compilerOptions",
                  VObj [(lit "target", VStr (lit "ES2020"));
                        (lit "x", VNum (ofDecimal false 15 (-1)))]);
                 (lit "a", VNum (S754_zero true));
                 (lit "b", VNum (S754_infinity false))] in
  exists out,
    parse (stripTrailingCommas_node (stripComments T)) = Normal D
    /\ patch_node T = Normal out
    /\ stripTrailingCommas_node (stripComments out) = out
    /\ patch_node out = Normal out.
Proof.
  intros T D.
  let o := eval vm_compute in
             (match patch_node T with Normal o => o | _ => [] end) in
  exists o;
  assert (HP : parse (stripTrailingCommas_node (stripComments T)) = Normal D)
    by (vm_compute; reflexivity);
  assert (H1 : patch_node T = Normal o) by (vm_compute; reflexivity);
  assert (HO : stripTrailingCommas_node (stripComments o) = o)
    by (vm_compute; reflexivity);
  split; [exact HP|split; [exact H1|split; [exact HO|]]];
  exact (patch_idempotent stripTrailingCommas_node T o D HP H1 HO eq_refl).
Defined.

(** C1 as the specification has it fails, in both scripts.  The first
    configuration below parses as it stands, and each script patches
    it.  In the text written, the alias [@/*] that the patch has put
    there opens a block comment for the first pass of the next run, and
    the [*/] of the file pattern closes it: the second run ends in a
    [SyntaxError], with no document at all.  In the second
    configuration [compilerOptions] is a number too large for a
    binary64 value.  The first run reads an infinity, leaves it as it
    is and writes [null]; the second run reads [null] and puts the
    alias in its place. *)
Lemma patch_idempotent_counterexample :
  let T := q "{'compilerOptions': {}, 'files': ['a*/b']}" in
  let U := q "{'compilerOptions': 1e999}" in
  ((exists D, parse (stripTrailingCommas_node (stripComments T)) = Normal D)
   /\ (exists out, patch_node T = Normal out
                   /\ patch_node out = Throws SyntaxError)
   /\ (exists D, parse (stripTrailingCommas_sh (stripComments T)) = Normal D)
   /\ (exists out, patch_sh T = Normal out
                   /\ patch_sh out = Throws SyntaxError))
  /\ (parse (stripTrailingCommas_node (stripComments U))
      = Normal (VObj [(compilerOptions, VNum (S754_infinity false))])
      /\ patch_node U = Normal (JSON_stringify (VObj [(compilerOptions, VNull)]))
      /\ stripTrailingCommas_node
           (stripComments (JSON_stringify (VObj [(compilerOptions, VNull)])))
         = JSON_stringify (VObj [(compilerOptions, VNull)])
      /\ patch_node (JSON_stringify (VObj [(compilerOptions, VNull)]))
         = Normal (JSON_stringify
                     (VObj [(compilerOptions,
                             VObj [(baseUrl, VStr (lit "."));
                                   (paths, pathAlias)])]))
      /\ text_eqb (JSON_stringify
                     (VObj [(compilerOptions,
                             VObj [(baseUrl, VStr (lit "."));
                                   (paths, pathAlias)])]))
                  (JSON_stringify (VObj [(compilerOptions, VNull)]))
         = false).
Proof.
  intros T U. split; [split; [|split; [|split]]|].
  - vm_compute. eexists. reflexivity.
  - let o := eval vm_compute in
               (match patch_node T with Normal o => o | _ => [] end) in
    exists o; split; vm_compute; reflexivity.
  - vm_compute. eexists. reflexivity.
  - let o := eval vm_compute in
               (match patch_sh T with Normal o => o | _ => [] end) in
    exists o; split; vm_compute; reflexivity.
  - repeat split; vm_compute; reflexivity.
Qed.


(** ** More on the injection of the alias *)

Lemma getProperty_holds (W : value) (k : text) :
  arrayIndex k = None -> holdsProperties W ->
  getProperty W k = Normal (member W k).
Proof. intros Hk. destruct W; simpl; try easy; now rewrite Hk. Qed.

Lemma defineProperty_same_value (k : text) (x : value)
      (props : list (text * value)) :
  lookup k props = Some x -> defineProperty k x props = props.
Proof.
  intros H. unfold defineProperty, hasKey. rewrite H.
  now apply replaceValue_same.
Qed.

(** An assignment of the value that is there already, or to a boolean,
    a number or a string, leaves the value as it is. *)
Lemma setProperty_nothing (W : value) (k : text) (x : value) :
  arrayIndex k = None -> W <> VNull ->
  (holdsProperties W -> member W k = Some x) ->
  setProperty W k x = Normal W.
Proof.
  intros Hk Hn H. destruct W as [ | b | n | s | elems named | props];
    simpl in *; try easy.
  - rewrite Hk in H. now rewrite defineProperty_same_value by auto.
  - now rewrite defineProperty_same_value by auto.
Qed.

Lemma setProperty_not_null (W : value) (k : text) (x W' : value) :
  setProperty W k x = Normal W' -> W' <> VNull.
Proof. destruct W; simpl; try easy; now intros [= <-]. Qed.

Lemma setProperty_holds_back (W : value) (k : text) (x W' : value) :
  setProperty W k x = Normal W' -> holdsProperties W' -> holdsProperties W.
Proof. destruct W; simpl; try easy; now intros [= <-]. Qed.

(** X1.  The injection is idempotent on documents: what it returns,
    it returns again when it is given its own result. *)
Theorem injectPathAlias_idempotent (D D' : value) :
  injectPathAlias D = Normal D' -> injectPathAlias D' = Normal D'.
Proof.
  intros HI.
  destruct (injectPathAlias_spec _ _ HI) as (c0 & c1 & c2 & E0 & S1 & S3 & M & _).
  pose proof (member_holds _ _ _ M) as Hh.
  assert (T0 : toBoolean (Some c0) = true).
  { subst c0. destruct (toBoolean (member D compilerOptions)) eqn:T; [|reflexivity].
    destruct (member D compilerOptions); [exact T|discriminate T]. }
  assert (T2 : toBoolean (Some c2) = true).
  { now rewrite (setProperty_toBoolean _ _ _ _ S3),
      (setProperty_toBoolean _ _ _ _ S1). }
  assert (B : setProperty c2 baseUrl (VStr (lit ".")) = Normal c2).
  { apply setProperty_nothing;
      [exact arrayIndex_baseUrl|exact (setProperty_not_null _ _ _ _ S3)|].
    intros H2.
    pose proof (setProperty_holds_back _ _ _ _ S3 H2) as H1.
    pose proof (setProperty_holds_back _ _ _ _ S1 H1) as H0.
    rewrite (setProperty_other _ _ _ _ baseUrl arrayIndex_paths baseUrl_neq_paths S3).
    exact (setProperty_same _ _ _ _ arrayIndex_baseUrl H0 S1). }
  assert (P : setProperty c2 paths pathAlias = Normal c2).
  { apply setProperty_nothing;
      [exact arrayIndex_paths|exact (setProperty_not_null _ _ _ _ S3)|].
    intros H2.
    pose proof (setProperty_holds_back _ _ _ _ S3 H2) as H1.
    exact (setProperty_same _ _ _ _ arrayIndex_paths H1 S3). }
  assert (C : setProperty D' compilerOptions c2 = Normal D').
  { apply setProperty_nothing; [exact arrayIndex_compilerOptions| |auto].
    intros ->. exact Hh. }
  unfold injectPathAlias, assignNested.
  rewrite (getProperty_holds _ _ arrayIndex_compilerOptions Hh), M, T2.
  cbn [negb]. rewrite (getProperty_holds _ _ arrayIndex_compilerOptions Hh), M.
  rewrite B, C, (getProperty_holds _ _ arrayIndex_compilerOptions Hh), M, P.
  exact C.
Qed.

Lemma injectPathAlias_idempotent_witness :
  injectPathAlias
    (VObj [(lit "include", VArr [VStr (lit "src")] []);
           (compilerOptions,
            VObj [(baseUrl, VStr (lit ".")); (paths, pathAlias)])])
  = Normal
      (VObj [(lit "include", VArr [VStr (lit "src")] []);
             (compilerOptions,
              VObj [(baseUrl, VStr (lit ".")); (paths, pathAlias)])]).
Proof.
  apply (injectPathAlias_idempotent
           (VObj [(lit "include", VArr [VStr (lit "src")] [])])).
  reflexivity.
Defined.

(** X2.  The injection goes through on every object and every array;
    on [null], a boolean, a number or a string it raises a
    [TypeError]: there is no third way. *)
Theorem injectPathAlias_total (D : value) :
  match D with
  | VArr _ _ | VObj _ => exists D', injectPathAlias D = Normal D'
  | _ => injectPathAlias D = Throws TypeError
  end.
Proof.
  destruct D as [ | b | n | s | elems named | props]; try reflexivity;
    now apply injectPathAlias_succeeds.
Qed.

(** *** The order of the keys *)

Lemma existsb_hasKey (k : text) (props : list (text * value)) :
  existsb (text_eqb k) (List.map fst props) = hasKey k props.
Proof.
  unfold hasKey. induction props as [|[k' v'] r IH]; simpl; [reflexivity|].
  destruct (text_eqb k k'); [reflexivity|exact IH].
Qed.

Lemma keys_defineProperty (k : text) (x : value) (props : list (text * value)) :
  arrayIndex k = None ->
  List.map fst (defineProperty k x props) = withKey k (List.map fst props).
Proof.
  intros Hk. unfold defineProperty, withKey. rewrite existsb_hasKey, Hk.
  destruct (hasKey k props).
  - apply keys_replaceValue.
  - now rewrite map_app.
Qed.

Lemma setProperty_keys (k : text) (x W' : value) (props : list (text * value)) :
  arrayIndex k = None ->
  setProperty (VObj props) k x = Normal W' ->
  exists props', W' = VObj props'
                 /\ List.map fst props' = withKey k (List.map fst props).
Proof.
  intros Hk [= <-]. eexists. split; [reflexivity|].
  now apply keys_defineProperty.
Qed.

Lemma withKey_idem (k : text) (keys : list text) :
  withKey k (withKey k keys) = withKey k keys.
Proof.
  unfold withKey at 2. destruct (existsb (text_eqb k) keys) eqn:E.
  - unfold withKey. now rewrite E.
  - unfold withKey. rewrite existsb_app. cbn [existsb].
    rewrite text_eqb_refl. cbn [orb]. now rewrite orb_true_r, E.
Qed.

(** X3.  The patch keeps the keys of the document in their order.  At
    the top, [compilerOptions] stays where it is, or comes last when it
    was not there.  In the object below it, [baseUrl] and [paths] stay
    where they are, or come last, in this order; when [compilerOptions]
    was not there, or held a falsy value, they are its only keys. *)
Theorem patch_keeps_key_order (props : list (text * value)) (D' : value) :
  injectPathAlias (VObj props) = Normal D' ->
  exists props' inner,
    D' = VObj props'
    /\ List.map fst props' = withKey compilerOptions (List.map fst props)
    /\ lookup compilerOptions props' = Some inner
    /\ (forall keep,
          lookup compilerOptions props = Some (VObj keep) ->
          exists inner', inner = VObj inner'
            /\ List.map fst inner'
               = withKey paths (withKey baseUrl (List.map fst keep)))
    /\ (toBoolean (lookup compilerOptions props) = false ->
        exists inner', inner = VObj inner'
                       /\ List.map fst inner' = [baseUrl; paths]).
Proof.
  intros HI.
  destruct (injectPathAlias_spec _ _ HI) as (c0 & c1 & c2 & E0 & S1 & S3 & M & _).
  apply injectPathAlias_steps in HI.
  destruct HI as (X0 & d0 & d1 & X1 & d2 & T0 & M0 & U1 & U2 & M1 & U3 & U4).
  assert (K0 : exists p0, X0 = VObj p0
                          /\ List.map fst p0
                             = withKey compilerOptions (List.map fst props)).
  { destruct (negb (toBoolean (member (VObj props) compilerOptions))) eqn:N.
    - exact (setProperty_keys _ _ _ _ arrayIndex_compilerOptions T0).
    - injection T0 as <-. exists props. split; [reflexivity|].
      unfold withKey. rewrite existsb_hasKey. unfold hasKey. simpl in N.
      destruct (lookup compilerOptions props); [reflexivity|discriminate N]. }
  destruct K0 as (p0 & -> & K0).
  destruct (setProperty_keys _ _ _ _ arrayIndex_compilerOptions U2)
    as (p1 & -> & K1).
  destruct (setProperty_keys _ _ _ _ arrayIndex_compilerOptions U4)
    as (p2 & -> & K2).
  rewrite K1, K0, !withKey_idem in K2.
  exists p2, c2. split; [reflexivity|]. split; [exact K2|].
  split; [exact M|]. simpl in E0. split.
  - intros keep L. rewrite L in E0. simpl in E0. subst c0.
    destruct (setProperty_keys _ _ _ _ arrayIndex_baseUrl S1) as (q1 & -> & Q1).
    destruct (setProperty_keys _ _ _ _ arrayIndex_paths S3) as (q2 & -> & Q2).
    exists q2. split; [reflexivity|]. now rewrite Q2, Q1.
  - intros F. rewrite F in E0. subst c0.
    destruct (setProperty_keys _ _ _ _ arrayIndex_baseUrl S1) as (q1 & -> & Q1).
    destruct (setProperty_keys _ _ _ _ arrayIndex_paths S3) as (q2 & -> & Q2).
    exists q2. split; [reflexivity|]. rewrite Q2, Q1. reflexivity.
Qed.

Lemma patch_keeps_key_order_witness :
  exists props' inner,
    VObj [(lit "extends", VStr (lit "./base.json"));
          (compilerOptions,
           VObj [(paths, pathAlias); (lit "strict", VBool true);
                 (baseUrl, VStr (lit "."))]);
          (lit "include", VArr [VStr (lit "src")] [])]
    = VObj props'
    /\ List.map fst props'
       = withKey compilerOptions [lit "extends"; compilerOptions; lit "include"]
    /\ lookup compilerOptions props' = Some inner
    /\ (forall keep,
          lookup compilerOptions
                 [(lit "extends", VStr (lit "./base.json"));
                  (compilerOptions,
                   VObj [(paths, VNull); (lit "strict", VBool true)]);
                  (lit "include", VArr [VStr (lit "src")] [])]
          = Some (VObj keep) ->
          exists inner', inner = VObj inner'
            /\ List.map fst inner'
               = withKey paths (withKey baseUrl (List.map fst keep)))
    /\ (toBoolean (lookup compilerOptions
                     [(lit "extends", VStr (lit "./base.json"));
                      (compilerOptions,
                       VObj [(paths, VNull); (lit "strict", VBool true)]);
                      (lit "include", VArr [VStr (lit "src")] [])]) = false ->
        exists inner', inner = VObj inner'
                       /\ List.map fst inner' = [baseUrl; paths]).
Proof.
  apply (patch_keeps_key_order
           [(lit "extends", VStr (lit "./base.json"));
            (compilerOptions,
             VObj [(paths, VNull); (lit "strict", VBool true)]);
            (lit "include", VArr [VStr (lit "src")] [])]).
  reflexivity.
Defined.

(** *** Arrays *)

Lemma serialize_array_named (elems : list value) (named named' : list (text * value)) :
  forall indent,
    serialize indent (VArr elems named') = serialize indent (VArr elems named).
Proof.
  intros indent. rewrite <- (serialize_shown (VArr elems named')).
  rewrite <- (serialize_shown (VArr elems named)). reflexivity.
Qed.

Lemma setProperty_array (elems : list value) (named : list (text * value))
      (k : text) (x W' : value) :
  setProperty (VArr elems named) k x = Normal W' ->
  exists named', W' = VArr elems named'.
Proof. intros [= <-]. eauto. Qed.

(** X4.  On an array the alias is assigned and never written.  When
    the document is an array, or [compilerOptions] holds one, the two
    keys become properties of that array, which [JSON.stringify] leaves
    out: the text written is the text of the document as it was read. *)
Theorem alias_lost_on_arrays (D D' : value) :
  (exists elems named, D = VArr elems named)
  \/ (exists props elems named,
         D = VObj props
         /\ lookup compilerOptions props = Some (VArr elems named)) ->
  injectPathAlias D = Normal D' ->
  JSON_stringify D' = JSON_stringify D.
Proof.
  intros HD HI. unfold JSON_stringify.
  rewrite <- (serialize_shown D'), <- (serialize_shown D). f_equal.
  destruct HD as [(elems & named & ->) | (props & elems & named & -> & L)].
  - apply injectPathAlias_steps in HI.
    destruct HI as (X0 & d0 & d1 & X1 & d2 & T0 & M0 & U1 & U2 & M1 & U3 & U4).
    assert (E0 : exists n0, X0 = VArr elems n0).
    { destruct (negb _); [exact (setProperty_array _ _ _ _ _ T0)|].
      injection T0 as <-. eauto. }
    destruct E0 as (n0 & ->).
    destruct (setProperty_array _ _ _ _ _ U2) as (n1 & ->).
    destruct (setProperty_array _ _ _ _ _ U4) as (n2 & ->). reflexivity.
  - apply (injectPathAlias_again _ _ HI). intros p [= <-].
    exists (VArr elems named). split; [exact L|]. split; [reflexivity|].
    intros q' Hq. discriminate Hq.
Qed.

Lemma alias_lost_on_arrays_witness :
  JSON_stringify
    (VObj [(compilerOptions,
            VArr [VStr (lit "strict")]
                 [(baseUrl, VStr (lit ".")); (paths, pathAlias)])])
  = JSON_stringify (VObj [(compilerOptions, VArr [VStr (lit "strict")] [])]).
Proof.
  apply alias_lost_on_arrays; [right|reflexivity].
  exists [(compilerOptions, VArr [VStr (lit "strict")] [])],
         [VStr (lit "strict")], [].
  split; reflexivity.
Defined.

(** *** The file written *)

(** X5.  What the patch writes is JSON, and [JSON.parse] reads from it
    what [JSON.stringify] has shown of the patched document, provided
    every number of the document read is written in digits that read
    back as that number. *)
Theorem patch_output_reads_back (strip : text -> text) (T out : text) (D : value) :
  parse (strip (stripComments T)) = Normal D ->
  numbersReadBack D = true ->
  patchWith strip T = Normal out ->
  exists D', injectPathAlias D = Normal D'
             /\ out = JSON_stringify D'
             /\ parse out = Normal (shown D').
Proof.
  intros HP HN H1. unfold patchWith in H1. rewrite HP in H1.
  destruct (injectPathAlias D) as [D'| |] eqn:HI; try discriminate H1.
  injection H1 as <-. exists D'. split; [reflexivity|]. split; [reflexivity|].
  assert (WD : wellKeyed D).
  { unfold parse in HP. destruct (JSON_parse _) as [v rest| |] eqn:E;
      try discriminate HP.
    injection HP as ->. exact (JSON_parse_wellKeyed _ _ _ E). }
  unfold parse.
  now rewrite (JSON_parse_stringify D' (injectPathAlias_wellKeyed _ _ HI WD)
                 (injectPathAlias_numbers _ _ HI HN)).
Qed.

(** A configuration with a comment, two numbers and a trailing comma,
    through the shell script. *)
Lemma patch_output_reads_back_witness :
  let T := q "{/* base */ 'extends': './base.json', 'n': [0.5, 2e3,]}" in
  let D := VObj [(lit "extends", VStr (lit "./base.json"));
                 (lit "n", VArr [VNum (ofDecimal false 5 (-1));
                                 VNum (ofDecimal false 2 3)] [])] in
  exists out,
    parse (stripTrailingCommas_sh (stripComments T)) = Normal D
    /\ numbersReadBack D = true
    /\ patch_sh T = Normal out
    /\ exists D', injectPathAlias D = Normal D'
                  /\ out = JSON_stringify D'
                  /\ parse out = Normal (shown D').
Proof.
  intros T D.
  let o := eval vm_compute in
             (match patch_sh T with Normal o => o | _ => [] end) in
  exists o;
  assert (HP : parse (stripTrailingCommas_sh (stripComments T)) = Normal D)
    by (vm_compute; reflexivity);
  assert (HN : numbersReadBack D = true) by (vm_compute; reflexivity);
  assert (H1 : patch_sh T = Normal o) by (vm_compute; reflexivity);
  split; [exact HP|split; [exact HN|split; [exact H1|]]];
  exact (patch_output_reads_back stripTrailingCommas_sh T o D HP HN H1).
Defined.


(** ** More on the three passes *)

Section Scan.
Variable m : matcher.

(** A pattern that matches nowhere in a text leaves it as it is. *)
Lemma replaceAll_none (t : text) :
  (forall pre s, t = pre ++ s -> m s = None) -> replaceAll m t = t.
Proof.
  induction t as [|c r IH]; intros H; [apply replaceAll_nil|].
  rewrite replaceAll_cons, (H [] (c :: r) eq_refl). f_equal.
  apply IH. intros pre s ->. exact (H (c :: pre) s eq_refl).
Qed.
End Scan.

Lemma startsWith_app (p rest : text) : startsWith p (p ++ rest) = true.
Proof.
  induction p as [|a p IH]; simpl; [reflexivity|].
  now rewrite N.eqb_refl, IH.
Qed.

Lemma occurs_here (p l : text) : startsWith p l = true -> occurs p l = true.
Proof. intros H. destruct l; simpl in *; now rewrite H. Qed.

Lemma occurs_app_intro (p pre rest : text) : occurs p (pre ++ p ++ rest) = true.
Proof.
  induction pre as [|c pre IH].
  - cbn [app]. apply occurs_here, startsWith_app.
  - cbn [app]. rewrite occurs_cons, IH. apply orb_true_r.
Qed.

Lemma occurs_suffix (p pre s : text) :
  occurs p (pre ++ s) = false -> occurs p s = false.
Proof.
  induction pre as [|c pre IH]; [easy|].
  cbn [app]. rewrite occurs_cons. intros H.
  apply orb_false_iff in H as [_ H]. now apply IH.
Qed.

Lemma occurs_startsWith (p l : text) :
  occurs p l = false -> startsWith p l = false.
Proof.
  destruct l as [|c r].
  - simpl. now rewrite orb_false_r.
  - rewrite occurs_cons. intros H. now apply orb_false_iff in H as [H _].
Qed.

Lemma stripLineComments_clean (t : text) :
  occurs [slash; slash] t = false -> stripLineComments t = t.
Proof.
  intros H. rewrite <- (app_nil_r t) at 1.
  rewrite (stripLineComments_plain t [] H (or_intror eq_refl)).
  apply app_nil_r.
Qed.

(** X6.  The line pass leaves a text as it is exactly when the text
    holds no two slashes in a row; and a second line pass changes
    nothing of what the first has left. *)
Theorem stripLineComments_unchanged_iff (t : text) :
  (stripLineComments t = t <-> occurs [slash; slash] t = false)
  /\ stripLineComments (stripLineComments t) = stripLineComments t.
Proof.
  pose proof (proj1 (proj2 (linePass t))) as Hno. split; [split|].
  - intros H. now rewrite <- H.
  - apply stripLineComments_clean.
  - now apply stripLineComments_clean.
Qed.

(** X7.  The block pass leaves a text as it is when the text holds no
    opener, and also when it holds no closer: a block comment that is
    never closed stays, whatever follows it. *)
Theorem stripBlockComments_unchanged (t : text) :
  occurs [slash; star] t = false \/ occurs [star; slash] t = false ->
  stripBlockComments t = t.
Proof.
  intros [H | H]; unfold stripBlockComments; apply replaceAll_none;
    intros pre s ->; apply occurs_suffix in H.
  - apply blockComment_needs. now apply occurs_startsWith.
  - destruct (blockComment s) as [[len repl]|] eqn:Hm; [|reflexivity].
    destruct (blockComment_split _ _ _ Hm) as (body & post & -> & _).
    rewrite (app_assoc [slash; star]), occurs_app_intro in H. discriminate H.
Qed.

Lemma stripBlockComments_unchanged_witness :
  stripBlockComments (q "{'a': 1} /* to do: the rest")
  = q "{'a': 1} /* to do: the rest"
  /\ stripBlockComments (q "{'glob': 'src*/x'}") = q "{'glob': 'src*/x'}".
Proof.
  split.
  - apply stripBlockComments_unchanged. right. reflexivity.
  - apply stripBlockComments_unchanged. left. reflexivity.
Defined.

(** *** What the trailing-comma pass removes *)

Section Cut.
Variable isSegment : text -> Prop.

Lemma cut_app_keep (a t out : text) :
  cut isSegment t out -> cut isSegment (a ++ t) (a ++ out).
Proof. intros H. induction a as [|c a IH]; [exact H|]. now apply cut_keep. Qed.
End Cut.

Lemma cut_comma_filter (t out : text) :
  cut isComma t out -> filter notComma out = filter notComma t.
Proof.
  induction 1 as [|c t out _ IH|seg t out Hs _ IH].
  - reflexivity.
  - simpl. now rewrite IH.
  - rewrite Hs. simpl. exact IH.
Qed.

Section OneClass.
Variable cls : N -> bool.

Lemma starCloser_length (l : text) (k : nat) :
  starCloser cls l = Some k -> (k <= List.length l)%nat.
Proof.
  revert k. induction l as [|c r IH]; intros k; [easy|].
  cbn [starCloser List.length].
  assert (Stop : (if isCloser c then Some 1%nat else None) = Some k ->
                 (k <= S (List.length r))%nat).
  { destruct (isCloser c); [|easy]. intros [= <-]. lia. }
  destruct (cls c); [|exact Stop].
  destruct (starCloser cls r) as [j|]; [|exact Stop].
  intros [= <-]. specialize (IH j eq_refl). lia.
Qed.

Lemma trailingComma_cut (t : text) :
  cut isComma t (replaceAll (trailingComma cls) t).
Proof.
  remember (List.length t) as n eqn:Hn. revert t Hn.
  induction n as [n IH] using lt_wf_ind. intros [|c r] Hn.
  - constructor.
  - rewrite replaceAll_cons. unfold trailingComma at 1.
    destruct (c =? comma) eqn:Ec.
    + destruct (starCloser cls r) as [k|] eqn:Hk; cbn [option_map].
      * apply N.eqb_eq in Ec. subst c. cbn [pred].
        change (comma :: r) with ([comma] ++ r).
        apply cut_drop; [reflexivity|].
        rewrite <- (firstn_skipn k r) at 1. apply cut_app_keep.
        apply (IH (List.length (skipn k r))); [|reflexivity].
        subst n. rewrite length_skipn. simpl. lia.
      * apply cut_keep.
        apply (IH (List.length r)); [subst n; simpl; lia|reflexivity].
    + apply cut_keep.
      apply (IH (List.length r)); [subst n; simpl; lia|reflexivity].
Qed.
End OneClass.

(** X8.  The trailing-comma pass of either script removes commas and
    nothing else: its result is the text with some commas left out, and
    every other code unit is there, in its place among the others. *)
Theorem trailing_commas_only (t : text) :
  cut isComma t (stripTrailingCommas_node t)
  /\ cut isComma t (stripTrailingCommas_sh t)
  /\ filter notComma (stripTrailingCommas_node t) = filter notComma t
  /\ filter notComma (stripTrailingCommas_sh t) = filter notComma t.
Proof.
  pose proof (trailingComma_cut isLetterS t) as Hn.
  pose proof (trailingComma_cut isWhiteSpace t) as Hs.
  split; [exact Hn|]. split; [exact Hs|].
  split; now apply cut_comma_filter.
Qed.


(** ** The alias, in the document and in the file *)

Lemma injectPathAlias_object (props : list (text * value)) (D' : value) :
  injectPathAlias (VObj props) = Normal D' -> exists props', D' = VObj props'.
Proof.
  intros HI. apply injectPathAlias_steps in HI.
  destruct HI as (X0 & c0 & c1 & X1 & c2 & S0 & M0 & S1 & S2 & M1 & S3 & S4).
  assert (E0 : exists p0, X0 = VObj p0).
  { destruct (negb _); simpl in S0; injection S0 as <-; eauto. }
  destruct E0 as (p0 & ->). simpl in S2. injection S2 as <-.
  simpl in S4. injection S4 as <-. eauto.
Qed.

(** On a document that is an array, or whose [compilerOptions] is one,
    the injection changes nothing of what is shown. *)
Lemma injectPathAlias_array_shown (D D' : value) :
  isArray (Some D) || isArray (member D compilerOptions) = true ->
  injectPathAlias D = Normal D' -> shown D' = shown D.
Proof.
  intros HD HI.
  destruct D as [ | b | n | s | elems named | props]; try discriminate HI.
  - apply injectPathAlias_steps in HI.
    destruct HI as (X0 & d0 & d1 & X1 & d2 & T0 & M0 & U1 & U2 & M1 & U3 & U4).
    assert (E0 : exists n0, X0 = VArr elems n0).
    { destruct (negb _); [exact (setProperty_array _ _ _ _ _ T0)|].
      injection T0 as <-. eauto. }
    destruct E0 as (n0 & ->).
    destruct (setProperty_array _ _ _ _ _ U2) as (n1 & ->).
    destruct (setProperty_array _ _ _ _ _ U4) as (n2 & ->). reflexivity.
  - cbn [isArray orb] in HD. simpl in HD.
    destruct (lookup compilerOptions props) as [[ | | | | elems named | ]|] eqn:L;
      try discriminate HD.
    apply (injectPathAlias_again _ _ HI). intros p [= <-].
    exists (VArr elems named). split; [exact L|]. split; [reflexivity|].
    intros q' Hq. discriminate Hq.
Qed.

(** C2, amended.  Let the patch turn the document [D] into [D'].
    When [compilerOptions] is absent, falsy or an object (an array
    included), [D'] has [compilerOptions.baseUrl] equal to ["."] and
    [compilerOptions.paths] equal to exactly the alias mapping,
    whatever [paths] held before.  Unless [D] or its [compilerOptions]
    is an array, the document that [JSON.stringify] shows has them as
    well; if one of them is an array, it has neither.  When
    [compilerOptions] is [true], a number other than zero or a string
    that is not empty, the two assignments are lost: [D'] is [D]. *)
Theorem alias_overwrite (D D' : value) :
  injectPathAlias D = Normal D' ->
  (truthyPrimitive (member D compilerOptions) = false ->
   getPath D' [compilerOptions; baseUrl] = Some (VStr (lit "."))
   /\ getPath D' [compilerOptions; paths] = Some pathAlias)
  /\ (truthyPrimitive (member D compilerOptions) = false ->
      isArray (Some D) = false ->
      isArray (member D compilerOptions) = false ->
      getPath (shown D') [compilerOptions; baseUrl] = Some (VStr (lit "."))
      /\ getPath (shown D') [compilerOptions; paths] = Some pathAlias)
  /\ (isArray (Some D) || isArray (member D compilerOptions) = true ->
      getPath (shown D') [compilerOptions; baseUrl] = None
      /\ getPath (shown D') [compilerOptions; paths] = None)
  /\ (truthyPrimitive (member D compilerOptions) = true -> D' = D).
Proof.
  intros HI.
  assert (A : truthyPrimitive (member D compilerOptions) = false ->
              getPath D' [compilerOptions; baseUrl] = Some (VStr (lit "."))
              /\ getPath D' [compilerOptions; paths] = Some pathAlias).
  { intros Hp. destruct (injectPathAlias_spec _ _ HI)
      as (c0 & c1 & c2 & H0 & S1 & S2 & M & _).
    pose proof (holds_not_truthyPrimitive D c0 Hp H0) as Hh.
    pose proof (setProperty_holds _ _ _ _ S1 Hh) as Hh1.
    simpl. rewrite M. split.
    - rewrite (setProperty_other _ _ _ _ _ arrayIndex_paths baseUrl_neq_paths S2).
      now rewrite (setProperty_same _ _ _ _ arrayIndex_baseUrl Hh S1).
    - now rewrite (setProperty_same _ _ _ _ arrayIndex_paths Hh1 S2). }
  split; [exact A|]. split; [|split].
  - intros Hp HD Hc. destruct (A Hp) as (A1 & A2).
    destruct D as [ | b | n | s | elems named | props]; try discriminate HI;
      [discriminate HD|].
    destruct (injectPathAlias_object _ _ HI) as (props' & ->).
    destruct (injectPathAlias_spec _ _ HI) as (c0 & c1 & c2 & H0 & S1 & S2 & M & _).
    assert (E0 : exists q0, c0 = VObj q0).
    { subst c0. simpl in Hp, Hc |- *.
      destruct (lookup compilerOptions props) as [[ | | | | | q0]|]; simpl in *;
        try rewrite Hp; eauto; discriminate Hc. }
    destruct E0 as (q0 & ->). simpl in S1. injection S1 as <-.
    simpl in S2. injection S2 as <-.
    cbn [member] in M.
    cbn [shown getPath member]. rewrite lookup_shown, M.
    cbn [option_map shown member]. rewrite !lookup_shown.
    rewrite lookup_defineProperty_same.
    rewrite lookup_defineProperty_other by exact baseUrl_neq_paths.
    rewrite lookup_defineProperty_same.
    split; reflexivity.
  - intros HD. rewrite (injectPathAlias_array_shown D D' HD HI).
    destruct D as [ | b | n | s | elems named | props]; try discriminate HI.
    + split; reflexivity.
    + simpl in HD. simpl. rewrite lookup_shown.
      destruct (lookup compilerOptions props) as [[ | | | | elems named | ]|];
        try discriminate HD.
      split; reflexivity.
  - intros Hp. apply injectPathAlias_steps in HI.
    destruct HI as (X0 & c0 & c1 & X1 & c2 & S0 & M0 & S1 & S2 & M1 & S3 & S4).
    assert (T : toBoolean (member D compilerOptions) = true).
    { destruct (member D compilerOptions) as [[]|]; simpl in *; easy. }
    rewrite T in S0. cbn [negb] in S0. injection S0 as <-.
    rewrite M0 in Hp.
    assert (E1 : c1 = c0).
    { destruct c0; simpl in *; try easy; now injection S1 as <-. }
    subst c1.
    assert (HN : D <> VNull) by (intros ->; discriminate M0).
    rewrite (setProperty_nothing D compilerOptions c0 arrayIndex_compilerOptions
               HN (fun _ => M0)) in S2.
    injection S2 as <-.
    assert (E2 : c2 = c0).
    { destruct c0; simpl in *; try easy; now injection S3 as <-. }
    subst c2.
    rewrite (setProperty_nothing D compilerOptions c0 arrayIndex_compilerOptions
               HN (fun _ => M0)) in S4.
    now injection S4 as <-.
Qed.

(** The four cases: an empty document, one whose [paths] holds another
    alias, one whose [compilerOptions] is an array, one whose
    [compilerOptions] is a string. *)
Lemma alias_overwrite_witness :
  let alias := VObj [(baseUrl, VStr (lit ".")); (paths, pathAlias)] in
  (getPath (shown (VObj [(compilerOptions, alias)])) [compilerOptions; baseUrl]
   = Some (VStr (lit "."))
   /\ getPath (shown (VObj [(compilerOptions, alias)])) [compilerOptions; paths]
      = Some pathAlias)
  /\ (getPath (VObj [(compilerOptions,
                      VObj [(paths, pathAlias); (baseUrl, VStr (lit "."))])])
              [compilerOptions; baseUrl] = Some (VStr (lit "."))
      /\ getPath (VObj [(compilerOptions,
                         VObj [(paths, pathAlias); (baseUrl, VStr (lit "."))])])
                 [compilerOptions; paths] = Some pathAlias)
  /\ (getPath (shown (VObj [(compilerOptions,
                             VArr [VStr (lit "strict")]
                                  [(baseUrl, VStr (lit ".")); (paths, pathAlias)])]))
              [compilerOptions; baseUrl] = None
      /\ getPath (shown (VObj [(compilerOptions,
                                VArr [VStr (lit "strict")]
                                     [(baseUrl, VStr (lit ".")); (paths, pathAlias)])]))
                 [compilerOptions; paths] = None)
  /\ VObj [(compilerOptions, VStr (lit "strict"))]
     = VObj [(compilerOptions, VStr (lit "strict"))].
Proof.
  intros alias. split; [|split; [|split]].
  - exact (proj1 (proj2 (alias_overwrite (VObj []) _ eq_refl))
             eq_refl eq_refl eq_refl).
  - exact (proj1 (alias_overwrite
                    (VObj [(compilerOptions,
                            VObj [(paths,
                                   VObj [(lit "~/*",
                                          VArr [VStr (lit "./lib/*")] [])])])])
                    _ eq_refl) eq_refl).
  - exact (proj1 (proj2 (proj2
             (alias_overwrite
                (VObj [(compilerOptions, VArr [VStr (lit "strict")] [])])
                _ eq_refl))) eq_refl).
  - exact (proj2 (proj2 (proj2
             (alias_overwrite (VObj [(compilerOptions, VStr (lit "strict"))])
                              (VObj [(compilerOptions, VStr (lit "strict"))])
                              eq_refl))) eq_refl).
Defined.

(** C2 as stated fails on [{"compilerOptions": true}]: the two
    assignments go to a boolean and are lost, and the patched document
    has no [compilerOptions.baseUrl]. *)
Lemma alias_overwrite_counterexample :
  parse (q "{'compilerOptions': true}") = Normal (VObj [(compilerOptions, VBool true)]) /\
  injectPathAlias (VObj [(compilerOptions, VBool true)])
  = Normal (VObj [(compilerOptions, VBool true)]) /\
  getPath (VObj [(compilerOptions, VBool true)]) [compilerOptions; baseUrl] = None /\
  getPath (VObj [(compilerOptions, VBool true)]) [compilerOptions; paths] = None.
Proof. repeat split; vm_compute; reflexivity. Qed.


(** ** Runs under a monitor *)

Section Observe.
Context {S : Type}.
Variable next : S -> event -> option S.

Lemma observe_app (s : S) (h h' : trace) :
  observe next s (h ++ h') =
  match observe next s h with
  | Some s' => observe next s' h'
  | None => None
  end.
Proof.
  revert s. induction h as [|ev h IH]; intros s; [reflexivity|].
  cbn [app observe]. destruct (next s ev); [apply IH|reflexivity].
Qed.

Lemma observe_snoc (s s' s'' : S) (h : trace) (ev : event) :
  observe next s h = Some s' -> next s' ev = Some s'' ->
  observe next s (h ++ [ev]) = Some s''.
Proof. intros H N. rewrite observe_app, H. cbn [observe]. now rewrite N. Qed.

Lemma observe_snoc_inv (s s'' : S) (h : trace) (ev : event) :
  observe next s (h ++ [ev]) = Some s'' ->
  exists s', observe next s h = Some s' /\ next s' ev = Some s''.
Proof.
  rewrite observe_app. destruct (observe next s h) as [s'|]; [|easy].
  cbn [observe]. destruct (next s' ev) as [t|] eqn:N; [|easy].
  intros [= <-]. eauto.
Qed.

Lemma observe_prefix (s s'' : S) (h h' : trace) :
  observe next s (h ++ h') = Some s'' ->
  exists s', observe next s h = Some s' /\ observe next s' h' = Some s''.
Proof.
  rewrite observe_app. destruct (observe next s h) as [s'|]; [|easy]. eauto.
Qed.
End Observe.

(** *** The rules *)

Section Rules.
Context {S : Type}.
Variable next : S -> event -> option S.
Variable start : S.
Variable E : environment.

Lemma follows_weaken {A} (s : S) (m : script A)
      (q q' : A -> S -> Prop) (r r' : exn -> S -> Prop) (x x' : Z -> S -> Prop) :
  follows next start E s m q r x ->
  (forall a t, q a t -> q' a t) -> (forall e t, r e t -> r' e t) ->
  (forall c t, x c t -> x' c t) ->
  follows next start E s m q' r' x'.
Proof.
  intros H Hq Hr Hx h Hh. specialize (H h Hh).
  destruct (m E h) as [[a|e|c] h']; destruct H as (t & Ht & H); eauto.
Qed.

Lemma follows_post {A} (s : S) (m : script A) (q q' : A -> S -> Prop) r x :
  follows next start E s m q r x ->
  (forall a t, q a t -> q' a t) ->
  follows next start E s m q' r x.
Proof. intros H Hq. apply (follows_weaken s m q q' r r x x H); auto. Qed.

Lemma follows_ret {A} (s : S) (a : A) q r x :
  q a s -> follows next start E s (ret a) q r x.
Proof. intros H h Hh. cbn. eauto. Qed.

Lemma follows_bind {A B} (s : S) (m : script A) (f : A -> script B)
      (q : A -> S -> Prop) (q' : B -> S -> Prop) r x :
  follows next start E s m q r x ->
  (forall a t, q a t -> follows next start E t (f a) q' r x) ->
  follows next start E s (bind m f) q' r x.
Proof.
  intros Hm Hf h Hh. specialize (Hm h Hh). unfold bind.
  destruct (m E h) as [[a|e|c] h']; destruct Hm as (t & Ht & H).
  - exact (Hf a t H h' Ht).
  - eauto.
  - eauto.
Qed.

Lemma follows_tryCatch {A} (s : S) (body : script A) (handler : exn -> script A)
      q (r' r : exn -> S -> Prop) x :
  follows next start E s body q r' x ->
  (forall e t, r' e t -> follows next start E t (handler e) q r x) ->
  follows next start E s (tryCatch body handler) q r x.
Proof.
  intros Hb Hc h Hh. specialize (Hb h Hh). unfold tryCatch.
  destruct (body E h) as [[a|e|c] h']; destruct Hb as (t & Ht & H).
  - eauto.
  - exact (Hc e t H h' Ht).
  - eauto.
Qed.

Lemma follows_exit {A} (s : S) (c : Z) (q : A -> S -> Prop) r (x : Z -> S -> Prop) :
  x c s -> follows next start E s (exit c) q r x.
Proof. intros H h Hh. cbn. eauto. Qed.

Lemma follows_lift {A} (s : S) (o : outcome A) (q : A -> S -> Prop) r x :
  match o with
  | Normal a => q a s
  | Throws e => r e s
  | Exits c => x c s
  end ->
  follows next start E s (lift o) q r x.
Proof. intros H h Hh. unfold lift. destruct o; eauto. Qed.

Lemma follows_ask {A} (s : S) (f : environment -> A) (q : A -> S -> Prop) r x :
  q (f E) s -> follows next start E s (ask f) q r x.
Proof. intros H h Hh. cbn. eauto. Qed.

Lemma follows_when (s : S) (b : bool) (step : script unit) q r x :
  (b = true -> follows next start E s step q r x) -> (b = false -> q tt s) ->
  follows next start E s (when b step) q r x.
Proof.
  intros Ht Hf. destruct b; [now apply Ht|]. apply follows_ret. now apply Hf.
Qed.

Lemma follows_bind_ret {A B} (s : S) (a : A) (f : A -> script B) q r x :
  follows next start E s (f a) q r x ->
  follows next start E s (bind (ret a) f) q r x.
Proof. intros H h Hh. exact (H h Hh). Qed.

Lemma follows_bind_ask {A B} (s : S) (f : environment -> A) (k : A -> script B)
      q r x :
  follows next start E s (k (f E)) q r x ->
  follows next start E s (bind (ask f) k) q r x.
Proof. intros H h Hh. exact (H h Hh). Qed.

Lemma follows_bind_assoc {A B C} (s : S) (m : script A) (f : A -> script B)
      (g : B -> script C) q r x :
  follows next start E s (bind m (fun a => bind (f a) g)) q r x ->
  follows next start E s (bind (bind m f) g) q r x.
Proof.
  intros H h Hh. specialize (H h Hh). unfold bind in *.
  destruct (m E h) as [[a|e|c] h']; exact H.
Qed.

Lemma follows_bind_lift {A B} (s : S) (o : outcome A) (f : A -> script B)
      q (r : exn -> S -> Prop) (x : Z -> S -> Prop) :
  (forall a, o = Normal a -> follows next start E s (f a) q r x) ->
  (forall e, o = Throws e -> r e s) ->
  (forall c, o = Exits c -> x c s) ->
  follows next start E s (bind (lift o) f) q r x.
Proof.
  intros Ha He Hc h Hh. unfold bind, lift. destruct o as [a|e|c].
  - exact (Ha a eq_refl h Hh).
  - eauto.
  - eauto.
Qed.

(** The requests: each adds one event. *)

Lemma follows_print (s : S) (line : text) r x :
  next s (Print line) <> None ->
  follows next start E s (print line) (fun _ t => next s (Print line) = Some t) r x.
Proof.
  intros H h Hh. unfold print.
  destruct (next s (Print line)) as [t|] eqn:N; [|easy].
  exists t. split; [exact (observe_snoc next _ _ _ _ _ Hh N)|reflexivity].
Qed.

Lemma follows_echo (s : S) (i : bool) (a : text) r x :
  next s (Echo i a) <> None ->
  follows next start E s (echo i a) (fun _ t => next s (Echo i a) = Some t) r x.
Proof.
  intros H h Hh. unfold echo.
  destruct (next s (Echo i a)) as [t|] eqn:N; [|easy].
  exists t. split; [exact (observe_snoc next _ _ _ _ _ Hh N)|reflexivity].
Qed.

Lemma follows_attempt (s : S) ok (ev : bool -> event) (err : exn)
      (r : exn -> S -> Prop) x :
  next s (ev true) <> None ->
  (exists t, next s (ev false) = Some t /\ r err t) ->
  follows next start E s (attempt ok ev err) (fun _ t => next s (ev true) = Some t) r x.
Proof.
  intros Ht (u & Hu & Hr) h Hh. unfold attempt. destruct (ok E h).
  - destruct (next s (ev true)) as [t|] eqn:N; [|easy].
    exists t. split; [exact (observe_snoc next _ _ _ _ _ Hh N)|reflexivity].
  - exists u. split; [exact (observe_snoc next _ _ _ _ _ Hh Hu)|exact Hr].
Qed.

Lemma follows_answer {A} (s : S) (answer : environment -> trace -> A)
      (ev : A -> event) r x :
  (forall a, next s (ev a) <> None) ->
  follows next start E s (fun E h => let a := answer E h in (Normal a, h ++ [ev a]))
          (fun a t => next s (ev a) = Some t) r x.
Proof.
  intros H h Hh. cbn.
  destruct (next s (ev (answer E h))) as [t|] eqn:N; [|now apply H in N].
  exists t. split; [exact (observe_snoc next _ _ _ _ _ Hh N)|reflexivity].
Qed.

Lemma follows_existsSync (s : S) (path : text) r x :
  (forall b, next s (Exists path b) <> None) ->
  follows next start E s (existsSync path) (fun b t => next s (Exists path b) = Some t) r x.
Proof. intros H. exact (follows_answer s _ (Exists path) r x H). Qed.

Lemma follows_isDirectory (s : S) (path : text) r x :
  (forall b, next s (IsDirectory path b) <> None) ->
  follows next start E s (isDirectory path) (fun b t => next s (IsDirectory path b) = Some t) r x.
Proof. intros H. exact (follows_answer s _ (IsDirectory path) r x H). Qed.

Lemma follows_random (s : S) r x :
  (forall n, next s (Random n) <> None) ->
  follows next start E s random (fun n t => next s (Random n) = Some t) r x.
Proof. intros H. exact (follows_answer s _ Random r x H). Qed.

Lemma follows_osPlatform (s : S) r x :
  (forall p, next s (Platform p) <> None) ->
  follows next start E s osPlatform (fun p t => next s (Platform p) = Some t) r x.
Proof. intros H. exact (follows_answer s (fun E _ => platform E) Platform r x H). Qed.

Lemma follows_readFileSync (s : S) (path : text) (r : exn -> S -> Prop) x :
  (forall c, next s (Read path (Some c)) <> None) ->
  (exists t, next s (Read path None) = Some t /\ r (FsError path) t) ->
  follows next start E s (readFileSync path)
          (fun c t => next s (Read path (Some c)) = Some t) r x.
Proof.
  intros Hc (u & Hu & Hr) h Hh. unfold readFileSync.
  destruct (readNow E h path) as [c|].
  - destruct (next s (Read path (Some c))) as [t|] eqn:N; [|now apply Hc in N].
    exists t. split; [exact (observe_snoc next _ _ _ _ _ Hh N)|reflexivity].
  - exists u. split; [exact (observe_snoc next _ _ _ _ _ Hh Hu)|exact Hr].
Qed.

(** What a run under a monitor gives at the end. *)
Lemma follows_run {A} (m : script A) q r x :
  follows next start E start m q r x ->
  match m E [] with
  | (Normal a, h) => exists t, observe next start h = Some t /\ q a t
  | (Throws e, h) => exists t, observe next start h = Some t /\ r e t
  | (Exits c, h) => exists t, observe next start h = Some t /\ x c t
  end.
Proof. intros H. exact (H [] eq_refl). Qed.
End Rules.


(** ** The runs of the two scripts *)

(** *** Going through a script *)

(** The state after a step, from the equation the rule gives. *)
Ltac settle H :=
  cbv beta in H;
  lazymatch type of H with
  | Some _ = Some _ => injection H as <-
  | _ _ _ = Some _ => lazy in H; injection H as <-
  | _ => subst
  end.

(** A request: the rule, and the states the monitor goes to. *)
Ltac accepted := lazy; discriminate.
Ltac refusal := eexists; split; [lazy; reflexivity | hnf; auto].

Ltac request :=
  first
    [ eapply follows_print; [accepted]
    | eapply follows_echo; [accepted]
    | eapply follows_attempt; [accepted | refusal]
    | eapply follows_existsSync; [intros []; accepted]
    | eapply follows_isDirectory; [intros []; accepted]
    | eapply follows_random; [intros ?; accepted]
    | eapply follows_osPlatform; [intros ?; accepted]
    | eapply follows_readFileSync; [intros ?; accepted | refusal] ].

(** A chain of requests. *)
Ltac chain :=
  repeat (eapply follows_bind; [request | intros ? ? ?H; settle H]).

(** The patch returns or throws. *)
Lemma injectPathAlias_no_exit (D : value) (c : Z) : injectPathAlias D <> Exits c.
Proof.
  destruct D as [ | b | n | s | elems named | props]; try easy.
  - destruct (injectPathAlias_succeeds (VArr elems named) I) as (D' & ->). easy.
  - destruct (injectPathAlias_succeeds (VObj props) I) as (D' & ->). easy.
Qed.

Lemma patchWith_no_exit (strip : text -> text) (t : text) (c : Z) :
  patchWith strip t = Exits c -> False.
Proof.
  unfold patchWith, parse. destruct (JSON_parse _) as [D rest| |]; try easy.
  destruct (injectPathAlias D) as [D'|e|c'] eqn:HI; try easy.
  now apply injectPathAlias_no_exit in HI.
Qed.

Ltac aside :=
  first [ solve [hnf; auto]
        | exfalso; eapply patchWith_no_exit; eassumption ].

(** A script, step by step; [special] is tried on what is no request. *)
Ltac walk special :=
  repeat (cbv beta zeta;
          match goal with
          | |- follows _ _ _ _ (bind (when (negb ?b) _) _) _ _ _ =>
              destruct b; unfold when; cbn [negb]
          | |- follows _ _ _ _ (bind (when ?b _) _) _ _ _ =>
              destruct b; unfold when
          | |- follows _ _ _ _ (bind (ret _) _) _ _ _ =>
              apply follows_bind_ret
          | |- follows _ _ _ _ (bind (ask _) _) _ _ _ =>
              apply follows_bind_ask
          | |- follows _ _ _ _ (bind (bind _ _) _) _ _ _ =>
              apply follows_bind_assoc
          | |- follows _ _ _ _ (bind (if ?b then _ else _) _) _ _ _ =>
              destruct b
          | |- follows _ _ _ _ (if ?b then _ else _) _ _ _ =>
              destruct b
          | |- follows _ _ _ _ (bind (lift _) _) _ _ _ =>
              apply follows_bind_lift;
              [intros ? ?Hlift | intros ? ?Hlift; aside | intros ? ?Hlift; aside]
          | |- follows _ _ _ _ (bind _ _) _ _ _ =>
              eapply follows_bind;
              [first [request | special] | intros ? ? ?H; settle H]
          | |- follows _ _ _ _ (ret _) _ _ _ =>
              apply follows_ret; aside
          | |- follows _ _ _ _ (exit _) _ _ _ =>
              apply follows_exit; aside
          | |- follows _ _ _ _ _ _ _ _ =>
              eapply follows_post;
              [request | cbv beta; intros ? ? ?H; settle H; aside]
          end).

Section Failures.
Variable E : environment.

Let stopped : exn -> progress -> Prop := fun _ t => t = Running \/ t = Failed.
Let left : Z -> progress -> Prop :=
  fun c t => c = 1%Z /\ (t = Running \/ t = Reported).

Lemma commandExists_quiet (command : text) r x :
  follows afterFailure Running E Running (Node.commandExists command)
          (fun _ t => t = Running) r x.
Proof.
  unfold Node.commandExists, execSync.
  eapply follows_tryCatch with (r' := fun _ t => t = Running).
  - chain. now apply follows_ret.
  - intros e t ->. eapply follows_tryCatch with (r' := fun _ t => t = Running).
    + chain. now apply follows_ret.
    + intros e' t ->. now apply follows_ret.
Qed.

Lemma isProbe_echo (command : text) :
  startsWith (lit "echo ") command = true -> isProbe command = true.
Proof. intros H. unfold isProbe. rewrite H. now rewrite !orb_true_r. Qed.

Lemma probe_quiet (command : text) x :
  isProbe command = true ->
  follows afterFailure Running E Running (execSync command)
          (fun _ s => s = Running) (fun _ s => s = Running) x.
Proof.
  intros H h Hh. unfold execSync, attempt. destruct (execOk E h command).
  - exists Running. split; [|reflexivity].
    now apply (observe_snoc afterFailure _ Running _ _ _ Hh).
  - exists Running. split; [|reflexivity].
    apply (observe_snoc afterFailure _ Running _ _ _ Hh). cbn. now rewrite H.
Qed.

Lemma clipboardCommand_quiet (t : text) r x :
  follows afterFailure Running E Running (Node.clipboardCommand t)
          (fun c s => s = Running
                      /\ match c with
                         | Some command => isProbe command = true
                         | None => True
                         end) r x.
Proof.
  unfold Node.clipboardCommand. chain.
  repeat match goal with
         | |- follows _ _ _ _ (if ?b then _ else _) _ _ _ => destruct b
         | |- follows _ _ _ _ (ret _) _ _ _ =>
             apply follows_ret; split; [reflexivity|];
             try (apply isProbe_echo; reflexivity); exact I
         | |- follows _ _ _ _ (bind (Node.commandExists _) _) _ _ _ =>
             eapply follows_bind;
             [apply commandExists_quiet | intros ? ? ?H; settle H]
         end.
Qed.

Lemma copyToClipboard_quiet (t : text) r x :
  follows afterFailure Running E Running (Node.copyToClipboard t)
          (fun _ s => s = Running) r x.
Proof.
  unfold Node.copyToClipboard.
  eapply follows_tryCatch with (r' := fun _ s => s = Running).
  - eapply follows_bind; [apply clipboardCommand_quiet|].
    intros [command|] s [-> H]; [|now apply follows_ret].
    eapply follows_bind; [now apply probe_quiet|].
    intros _ s ->. now apply follows_ret.
  - intros e s ->. now apply follows_ret.
Qed.

Lemma node_failures :
  follows afterFailure Running E Running Node.setupReactProject
          (fun _ t => t = Running) (fun _ _ => False) left.
Proof.
  unfold Node.setupReactProject, Node.setup, Node.build, Node.scaffold,
    Node.updateAppConfig, Node.finish, Node.announce, Node.printStatus,
    Node.printSuccess, Node.printError,
    execSync, chdir, writeFileSync, mkdirSync, unlinkSync.
  apply follows_bind_ask. destruct (args E) as [|projectName rest]; walk fail.
  eapply follows_tryCatch with (r' := stopped).
  - walk ltac:(apply copyToClipboard_quiet).
  - intros e t [-> | ->]; walk fail.
Qed.
End Failures.

(** *** What the monitor of failures has seen *)

Lemma noFailure_snoc (h : trace) (ev : event) :
  noFailure (h ++ [ev]) = noFailure h && negb (failure ev).
Proof. unfold noFailure. rewrite forallb_app. cbn. now rewrite andb_true_r. Qed.

Lemma afterFailure_seen (h : trace) (s : progress) :
  observe afterFailure Running h = Some s ->
  match s with
  | Running => noFailure h = true
  | Failed =>
      exists h0 f, h = h0 ++ [f] /\ noFailure h0 = true /\ failure f = true
  | Reported =>
      exists h0 f line,
        h = h0 ++ [f; Print line] /\ noFailure h0 = true /\ failure f = true
  end.
Proof.
  revert s. induction h as [|ev h IH] using rev_ind; intros s.
  - now intros [= <-].
  - intros H. apply observe_snoc_inv in H as (s' & Hs' & N).
    specialize (IH s' Hs'). destruct s'; cbn in N.
    + destruct (failure ev) eqn:F; injection N as <-.
      * now exists h, ev.
      * now rewrite noFailure_snoc, IH, F.
    + destruct ev; try discriminate N. injection N as <-.
      destruct IH as (h0 & f & -> & H0 & F). exists h0, f, line.
      split; [|auto]. now rewrite <- app_assoc.
    + discriminate N.
Qed.

(** X9.  The Node script never ends in an exception of its own.  It
    comes to its end only when no step has failed, and every other run
    ends in an exit with status 1. *)
Theorem node_exit_status (E : environment) :
  (fst (Node.run E) = Normal tt /\ noFailure (snd (Node.run E)) = true)
  \/ fst (Node.run E) = Exits 1.
Proof.
  pose proof (follows_run _ _ _ _ _ _ _ (node_failures E)) as H.
  unfold Node.run. destruct (Node.setupReactProject E []) as [[[]|e|c] h];
    destruct H as (t & Ht & H); cbn [fst snd].
  - left. split; [reflexivity|]. subst t. exact (afterFailure_seen _ _ Ht).
  - destruct H.
  - right. destruct H as [-> _]. reflexivity.
Qed.

(** X10.  The Node script stops at the first step that fails: a
    command that is no probe, the change of directory, a read, a write,
    a new directory or a removal.  After it the script prints one line
    and exits with status 1; it asks nothing more of the machine. *)
Theorem node_stops_at_first_failure (E : environment) :
  noFailure (snd (Node.run E)) = true
  \/ exists h0 f line,
       snd (Node.run E) = h0 ++ [f; Print line]
       /\ noFailure h0 = true /\ failure f = true
       /\ fst (Node.run E) = Exits 1.
Proof.
  pose proof (follows_run _ _ _ _ _ _ _ (node_failures E)) as H.
  unfold Node.run. destruct (Node.setupReactProject E []) as [[[]|e|c] h];
    destruct H as (t & Ht & H); cbn [fst snd].
  - left. subst t. exact (afterFailure_seen _ _ Ht).
  - destruct H.
  - destruct H as [-> [-> | ->]].
    + left. exact (afterFailure_seen _ _ Ht).
    + right. destruct (afterFailure_seen _ _ Ht) as (h0 & f & line & -> & H0 & F).
      now exists h0, f, line.
Qed.


(** *** The shell script and its failures *)

Section ShellFailures.
Variable E : environment.

Lemma succeeds_quiet (command : text) r x :
  isProbe command = true ->
  follows afterFailure Running E Running (Shell.succeeds command)
          (fun _ s => s = Running) r x.
Proof.
  intros H. unfold Shell.succeeds.
  eapply follows_tryCatch with (r' := fun _ s => s = Running).
  - eapply follows_bind; [now apply probe_quiet|].
    intros _ s ->. now apply follows_ret.
  - intros e s ->. now apply follows_ret.
Qed.

Lemma copy_to_clipboard_quiet (t : text) r x :
  follows afterFailure Running E Running (Shell.copy_to_clipboard t)
          (fun _ s => s = Running) r x.
Proof.
  unfold Shell.copy_to_clipboard, Shell.hasCommand.
  repeat (cbv beta zeta;
          match goal with
          | |- follows _ _ _ _ (bind (Shell.succeeds _) _) _ _ _ =>
              eapply follows_bind;
              [apply succeeds_quiet; reflexivity | intros ? ? ->]
          | |- follows _ _ _ _ (bind (ask _) _) _ _ _ =>
              apply follows_bind_ask
          | |- follows _ _ _ _ (if ?b then _ else _) _ _ _ => destruct b
          | |- follows _ _ _ _ (match ?l with [] => _ | _ :: _ => _ end) _ _ _ =>
              destruct l
          | |- follows _ _ _ _ (ret _) _ _ _ => now apply follows_ret
          end).
Qed.

Lemma shell_updateAppConfig :
  follows afterFailure Running E Running Shell.updateAppConfig
          (fun _ t => t = Running) (fun _ t => t = Failed)
          (fun c t => c = 1%Z /\ (t = Running \/ t = Failed)).
Proof.
  unfold Shell.updateAppConfig, writeFileSync.
  eapply follows_tryCatch with (r' := fun _ t => t = Running \/ t = Failed).
  - walk fail.
  - intros e t [-> | ->]; walk fail.
Qed.

Lemma shell_failures :
  follows afterFailure Running E Running Shell.main
          (fun _ t => t = Running) (fun _ t => t = Failed)
          (fun c t => c = 1%Z /\ (t = Running \/ t = Failed)).
Proof.
  unfold Shell.main, Shell.setup, Shell.hereDoc, Shell.rm,
    Shell.print_status, Shell.print_success, Shell.print_error,
    execSync, chdir, writeFileSync, mkdirSync, unlinkSync.
  apply follows_bind_ask. destruct (args E) as [|PROJECT_NAME rest];
    walk ltac:(first [apply shell_updateAppConfig | apply copy_to_clipboard_quiet]).
Qed.
End ShellFailures.

(** X11.  The shell script, under [set -e], stops at the first step
    that fails: the failed step is the last thing it asks of the
    machine, and the run does not come to its end.  A run that comes to
    its end has seen no step fail. *)
Theorem shell_stops_at_first_failure (E : environment) :
  (fst (Shell.run E) = Normal tt -> noFailure (snd (Shell.run E)) = true)
  /\ (noFailure (snd (Shell.run E)) = true
      \/ exists h0 f,
           snd (Shell.run E) = h0 ++ [f]
           /\ noFailure h0 = true /\ failure f = true
           /\ fst (Shell.run E) <> Normal tt).
Proof.
  pose proof (follows_run _ _ _ _ _ _ _ (shell_failures E)) as H.
  unfold Shell.run. destruct (Shell.main E []) as [[[]|e|c] h];
    destruct H as (t & Ht & H); cbn [fst snd].
  - subst t. pose proof (afterFailure_seen _ _ Ht) as Hn. auto.
  - subst t. destruct (afterFailure_seen _ _ Ht) as (h0 & f & -> & H0 & F).
    split; [easy|]. right. exists h0, f. now repeat split.
  - destruct H as [-> [-> | ->]].
    + pose proof (afterFailure_seen _ _ Ht) as Hn. split; [easy|]. now left.
    + destruct (afterFailure_seen _ _ Ht) as (h0 & f & -> & H0 & F).
      split; [easy|]. right. exists h0, f. now repeat split.
Qed.


(** *** The working directory *)

Section Entering.
Variable E : environment.

Lemma commandExists_stays (command : text) (s : option text) r x :
  follows entering None E s (Node.commandExists command)
          (fun _ t => t = s) r x.
Proof.
  unfold Node.commandExists, execSync.
  eapply follows_tryCatch with (r' := fun _ t => t = s).
  - walk fail.
  - intros e t ->. eapply follows_tryCatch with (r' := fun _ t => t = s).
    + walk fail.
    + intros e' t ->. walk fail.
Qed.

Lemma copyToClipboard_stays (t : text) (s : option text) r x :
  follows entering None E s (Node.copyToClipboard t) (fun _ u => u = s) r x.
Proof.
  unfold Node.copyToClipboard, Node.clipboardCommand, execSync.
  eapply follows_tryCatch with (r' := fun _ u => u = s).
  - walk ltac:(apply commandExists_stays).
  - intros e u ->. walk fail.
Qed.

Lemma node_entering :
  follows entering None E None Node.setupReactProject
          (fun _ t => t = None \/ t = hd_error (args E))
          (fun _ _ => False)
          (fun _ t => t = None \/ t = hd_error (args E)).
Proof.
  unfold Node.setupReactProject, Node.setup, Node.build, Node.scaffold,
    Node.updateAppConfig, Node.finish, Node.announce, Node.printStatus,
    Node.printSuccess, Node.printError,
    execSync, chdir, writeFileSync, mkdirSync, unlinkSync.
  apply follows_bind_ask. destruct (args E) as [|projectName rest]; walk fail.
  eapply follows_tryCatch
    with (r' := fun _ t => t = None \/ t = Some projectName).
  - walk ltac:(apply copyToClipboard_stays).
  - intros e t [-> | ->]; walk fail.
Qed.

Lemma shell_succeeds_stays (command : text) (s : option text) r x :
  follows entering None E s (Shell.succeeds command) (fun _ t => t = s) r x.
Proof.
  unfold Shell.succeeds, execSync.
  eapply follows_tryCatch with (r' := fun _ t => t = s); [walk fail|].
  intros e t ->. walk fail.
Qed.

Lemma copy_to_clipboard_stays (t : text) (s : option text) r x :
  follows entering None E s (Shell.copy_to_clipboard t) (fun _ u => u = s) r x.
Proof.
  unfold Shell.copy_to_clipboard, Shell.hasCommand.
  walk ltac:(apply shell_succeeds_stays).
Qed.

Lemma shell_updateAppConfig_entered (d : text) r (x : Z -> option text -> Prop) :
  x 1%Z (Some d) ->
  follows entering None E (Some d) Shell.updateAppConfig
          (fun _ t => t = Some d) r x.
Proof.
  intros Hx. unfold Shell.updateAppConfig, writeFileSync.
  eapply follows_tryCatch with (r' := fun _ t => t = Some d).
  - walk fail.
  - intros e t ->. walk fail.
Qed.

Lemma shell_entering :
  follows entering None E None Shell.main
          (fun _ t => t = None \/ t = hd_error (args E))
          (fun _ t => t = None \/ t = hd_error (args E))
          (fun _ t => t = None \/ t = hd_error (args E)).
Proof.
  unfold Shell.main, Shell.setup, Shell.hereDoc, Shell.rm,
    Shell.print_status, Shell.print_success, Shell.print_error,
    execSync, chdir, writeFileSync, mkdirSync, unlinkSync.
  apply follows_bind_ask. destruct (args E) as [|PROJECT_NAME rest];
    walk ltac:(first [ apply shell_updateAppConfig_entered; hnf; auto
                     | apply copy_to_clipboard_stays ]).
Qed.
End Entering.

Lemma entering_seen (h : trace) (s : option text) :
  observe entering None h = Some s ->
  match s with
  | None => forall ev, In ev h -> touchesFiles ev = false
  | Some d =>
      exists pre post,
        h = pre ++ Chdir d true :: post
        /\ forall ev, In ev pre -> touchesFiles ev = false
  end.
Proof.
  revert s. induction h as [|ev h IH] using rev_ind; intros s.
  - intros [= <-]. easy.
  - intros H. apply observe_snoc_inv in H as (s' & Hs' & N).
    specialize (IH s' Hs'). destruct s' as [d|].
    + destruct IH as (pre & post & -> & Hpre).
      assert (s = Some d) as ->.
      { destruct ev as [ | | ? [] | | | | | | | | | ]; cbn in N; congruence. }
      exists pre, (post ++ [ev]). split; [|exact Hpre].
      now rewrite <- app_assoc.
    + destruct s as [d|].
      * assert (ev = Chdir d true) as ->.
        { destruct ev as [ | | ? [] | | | | | | | | | ]; cbn in N; congruence. }
        exists h, []. split; [reflexivity|exact IH].
      * intros ev' Hin. apply in_app_or in Hin as [Hin | [<- | []]]; [auto|].
        destruct ev as [ | | ? [] | | | | | | | | | ]; cbn in N; try easy.
Qed.

Lemma touched_inside (h h1 h2 : trace) (ev : event) (s : option text) :
  observe entering None h = Some s ->
  h = h1 ++ ev :: h2 -> touchesFiles ev = true ->
  exists d, s = Some d /\ In (Chdir d true) h1.
Proof.
  intros H Hh Hev. pose proof (entering_seen _ _ H) as Hs.
  destruct s as [d|].
  - exists d. split; [reflexivity|].
    destruct Hs as (pre & post & Hp & Hpre). rewrite Hh in Hp.
    apply app_eq_app in Hp as (l & [[-> Hl] | [-> Hl]]).
    + apply in_or_app. right. destruct l as [|c l].
      * cbn in Hl. injection Hl as <- _. discriminate Hev.
      * cbn in Hl. injection Hl as <- _. now left.
    + exfalso. destruct l as [|c l].
      * cbn in Hl. injection Hl as -> _. discriminate Hev.
      * cbn in Hl. injection Hl as <- _.
        rewrite (Hpre ev) in Hev; [discriminate Hev|].
        apply in_or_app. right. now left.
  - rewrite (Hs ev) in Hev; [discriminate Hev|].
    rewrite Hh. apply in_or_app. right. now left.
Qed.

(** X12.  The Node script reads, writes, creates and removes files
    only after it has entered the directory of the project, the one
    named on the command line. *)
Theorem node_files_inside_project (E : environment) (h1 h2 : trace) (ev : event) :
  snd (Node.run E) = h1 ++ ev :: h2 ->
  touchesFiles ev = true ->
  exists projectName,
    hd_error (args E) = Some projectName /\ In (Chdir projectName true) h1.
Proof.
  intros Hh Hev.
  pose proof (follows_run _ _ _ _ _ _ _ (node_entering E)) as H.
  unfold Node.run in Hh.
  assert (Hs : exists s, observe entering None (snd (Node.setupReactProject E []))
                         = Some s
                         /\ (s = None \/ s = hd_error (args E))).
  { destruct (Node.setupReactProject E []) as [[[]|e|c] h];
      destruct H as (t & Ht & H); cbn [snd]; eauto. destruct H. }
  destruct Hs as (s & Hs & Hd).
  destruct (touched_inside _ _ _ _ _ Hs Hh Hev) as (d & -> & Hin).
  exists d. split; [|exact Hin]. destruct Hd as [Hd | Hd]; [discriminate Hd|].
  now symmetry.
Qed.

(** X13.  The shell script too touches files only after it has
    entered the directory of the project. *)
Theorem shell_files_inside_project (E : environment) (h1 h2 : trace) (ev : event) :
  snd (Shell.run E) = h1 ++ ev :: h2 ->
  touchesFiles ev = true ->
  exists PROJECT_NAME,
    hd_error (args E) = Some PROJECT_NAME /\ In (Chdir PROJECT_NAME true) h1.
Proof.
  intros Hh Hev.
  pose proof (follows_run _ _ _ _ _ _ _ (shell_entering E)) as H.
  unfold Shell.run in Hh.
  assert (Hs : exists s, observe entering None (snd (Shell.main E [])) = Some s
                         /\ (s = None \/ s = hd_error (args E))).
  { destruct (Shell.main E []) as [[[]|e|c] h];
      destruct H as (t & Ht & H); cbn [snd]; eauto. }
  destruct Hs as (s & Hs & Hd).
  destruct (touched_inside _ _ _ _ _ Hs Hh Hev) as (d & -> & Hin).
  exists d. split; [|exact Hin]. destruct Hd as [Hd | Hd]; [discriminate Hd|].
  now symmetry.
Qed.

Lemma node_files_inside_project_witness :
  let M := machine [lit "demo"] (lit "linux") (q "{}") in
  exists projectName,
    hd_error (args M) = Some projectName
    /\ In (Chdir projectName true) (firstn 10 (snd (Node.run M))).
Proof.
  intros M.
  apply (node_files_inside_project M
           (firstn 10 (snd (Node.run M))) (skipn 11 (snd (Node.run M)))
           (Write (lit "src/index.css") (Literal "tailwindCSS") true)).
  - vm_compute. reflexivity.
  - reflexivity.
Defined.

Lemma shell_files_inside_project_witness :
  let M := machine [lit "demo"] (lit "linux") (q "{}") in
  exists PROJECT_NAME,
    hd_error (args M) = Some PROJECT_NAME
    /\ In (Chdir PROJECT_NAME true) (firstn 10 (snd (Shell.run M))).
Proof.
  intros M.
  apply (shell_files_inside_project M
           (firstn 10 (snd (Shell.run M))) (skipn 11 (snd (Shell.run M)))
           (Write (lit "src/index.css") (Literal "src/index.css") true)).
  - vm_compute. reflexivity.
  - reflexivity.
Defined.


(** *** Looking before removing *)

Section Guarded.
Variable E : environment.

Lemma commandExists_unguarded (command : text) s r x :
  follows guarded None E s (Node.commandExists command)
          (fun _ t => t = None) r x.
Proof.
  unfold Node.commandExists, execSync.
  eapply follows_tryCatch with (r' := fun _ t => t = None).
  - walk fail.
  - intros e t ->. eapply follows_tryCatch with (r' := fun _ t => t = None).
    + walk fail.
    + intros e' t ->. walk fail.
Qed.

Lemma copyToClipboard_unguarded (t : text) s r x :
  follows guarded None E s (Node.copyToClipboard t) (fun _ u => u = None) r x.
Proof.
  unfold Node.copyToClipboard, Node.clipboardCommand, execSync.
  eapply follows_tryCatch with (r' := fun _ u => u = None).
  - walk ltac:(apply commandExists_unguarded).
  - intros e u ->. walk fail.
Qed.

Lemma node_guarded :
  follows guarded None E None Node.setupReactProject
          (fun _ _ => True) (fun _ _ => False) (fun _ _ => True).
Proof.
  unfold Node.setupReactProject, Node.setup, Node.build, Node.scaffold,
    Node.updateAppConfig, Node.finish, Node.announce, Node.printStatus,
    Node.printSuccess, Node.printError,
    execSync, chdir, writeFileSync, mkdirSync, unlinkSync.
  apply follows_bind_ask. destruct (args E) as [|projectName rest]; walk fail.
  eapply follows_tryCatch with (r' := fun _ _ => True).
  - walk ltac:(apply copyToClipboard_unguarded).
  - intros e t _.
    apply follows_bind_ask.
    eapply follows_bind;
      [apply follows_print; destruct t as [[? []]|]; accepted|].
    intros _ u _. now apply follows_exit.
Qed.
End Guarded.

Lemma snoc_split {A} (l h1 h2 : list A) (a x : A) :
  l ++ [a] = h1 ++ x :: h2 ->
  (h2 = [] /\ l = h1 /\ a = x)
  \/ exists h2', h2 = h2' ++ [a] /\ l = h1 ++ x :: h2'.
Proof.
  induction h2 as [|b h2' _] using rev_ind; intros H.
  - left. apply app_inj_tail in H as [-> ->]. auto.
  - right. change (x :: h2' ++ [b]) with ((x :: h2') ++ [b]) in H.
    rewrite app_assoc in H. apply app_inj_tail in H as [-> ->]. eauto.
Qed.

Lemma guarded_seen (h : trace) (s : option (text * bool)) :
  observe guarded None h = Some s ->
  (forall p b, s = Some (p, b) -> exists h0, h = h0 ++ [Exists p b])
  /\ (forall h1 p ok h2, h = h1 ++ Unlink p ok :: h2 ->
        exists h0, h1 = h0 ++ [Exists p true])
  /\ (forall h1 p ok h2, h = h1 ++ Mkdir p ok :: h2 ->
        exists h0, h1 = h0 ++ [Exists p false]).
Proof.
  revert s. induction h as [|ev h IH] using rev_ind; intros s.
  - intros [= <-]. split; [easy|].
    split; intros [|? ?] ? ? ? H; discriminate H.
  - intros H. apply observe_snoc_inv in H as (s' & Hs' & N).
    destruct (IH s' Hs') as (L & U & M). split; [|split].
    + intros p b ->. exists h. f_equal.
      destruct ev; cbn in N; try discriminate N;
        try (injection N as -> ->; reflexivity);
        destruct s' as [[p' []]|]; try discriminate N;
        destruct (text_eqb _ _); discriminate N.
    + intros h1 p ok h2 Hd.
      apply snoc_split in Hd as [(-> & -> & ->) | (h2' & -> & ->)].
      * cbn in N. destruct s' as [[p' []]|]; try discriminate N.
        destruct (text_eqb p p') eqn:Ep; [|discriminate N].
        apply text_eqb_eq in Ep. subst p'. exact (L p true eq_refl).
      * exact (U _ _ _ _ eq_refl).
    + intros h1 p ok h2 Hd.
      apply snoc_split in Hd as [(-> & -> & ->) | (h2' & -> & ->)].
      * cbn in N. destruct s' as [[p' []]|]; try discriminate N.
        destruct (text_eqb p p') eqn:Ep; [|discriminate N].
        apply text_eqb_eq in Ep. subst p'. exact (L p false eq_refl).
      * exact (M _ _ _ _ eq_refl).
Qed.

(** X14.  The Node script looks before it removes or creates: a
    removal comes directly after [existsSync] has said that the file is
    there, a new directory directly after it has said that the
    directory is not. *)
Theorem node_looks_first (E : environment) (h1 h2 : trace) (ev : event)
        (p : text) (ok : bool) :
  snd (Node.run E) = h1 ++ ev :: h2 ->
  (ev = Unlink p ok -> exists h0, h1 = h0 ++ [Exists p true])
  /\ (ev = Mkdir p ok -> exists h0, h1 = h0 ++ [Exists p false]).
Proof.
  intros Hh.
  pose proof (follows_run _ _ _ _ _ _ _ (node_guarded E)) as H.
  unfold Node.run in Hh.
  assert (Hs : exists s, observe guarded None (snd (Node.setupReactProject E []))
                         = Some s).
  { destruct (Node.setupReactProject E []) as [[[]|e|c] h];
      destruct H as (t & Ht & H); cbn [snd]; eauto. }
  destruct Hs as (s & Hs). destruct (guarded_seen _ _ Hs) as (_ & U & M).
  split; intros ->; [exact (U _ _ _ _ Hh)|exact (M _ _ _ _ Hh)].
Qed.

Lemma node_looks_first_witness :
  let M := machineWithFiles [lit "demo"] (lit "darwin") (q "{}")
                            (text_eqb (lit "src/App.css")) in
  (Unlink (lit "src/App.css") true = Unlink (lit "src/App.css") true ->
   exists h0, firstn 34 (snd (Node.run M))
              = h0 ++ [Exists (lit "src/App.css") true])
  /\ (Unlink (lit "src/App.css") true = Mkdir (lit "src/App.css") true ->
      exists h0, firstn 34 (snd (Node.run M))
                 = h0 ++ [Exists (lit "src/App.css") false]).
Proof.
  intros M.
  apply (node_looks_first M (firstn 34 (snd (Node.run M)))
           (skipn 35 (snd (Node.run M)))).
  vm_compute. reflexivity.
Defined.


(** *** The configuration read and written *)

Section Patching.
Variable E : environment.
Variable patch : text -> outcome text.
Hypothesis Hx : forall t c, patch t <> Exits c.

Lemma patching_write (t out : text) (ok : bool) :
  patch t = Normal out ->
  patching patch (Some t) (Write appConfigPath (Computed out) ok) = Some None.
Proof.
  intros H. unfold patching.
  change (text_eqb appConfigPath appConfigPath) with true. cbv iota.
  rewrite H. cbn [isOutput]. now rewrite text_eqb_refl.
Qed.

(** Read, patch, write: the three steps of both scripts. *)
Lemma update_patching (s : option text) (r : exn -> option text -> Prop) x :
  (forall e t, r e t) ->
  follows (patching patch) None E s
          (bind (readFileSync (lit "tsconfig.app.json"))
                (fun content =>
                   bind (lift (patch content))
                        (fun patched =>
                           writeFileSync (lit "tsconfig.app.json")
                                         (Computed patched))))
          (fun _ t => t = None) r x.
Proof.
  intros Hr.
  eapply follows_bind.
  - apply follows_readFileSync; [intros c; accepted|].
    eexists. split; [reflexivity|apply Hr].
  - intros content t H. lazy in H. injection H as <-.
    apply follows_bind_lift.
    + intros patched Hp. unfold writeFileSync.
      eapply follows_post.
      * apply follows_attempt.
        -- intros Hn.
           discriminate (eq_trans (eq_sym (patching_write content patched true Hp)) Hn).
        -- exists None. split; [exact (patching_write content patched false Hp)|].
           apply Hr.
      * cbv beta. intros _ t Ht.
        pose proof (eq_trans (eq_sym (patching_write content patched true Hp)) Ht)
          as Heq.
        now injection Heq as <-.
    + intros e _. apply Hr.
    + intros c Hc. exfalso. exact (Hx _ _ Hc).
Qed.
End Patching.

Section PatchingRuns.
Variable E : environment.

Lemma patch_node_no_exit (t : text) (c : Z) : patch_node t <> Exits c.
Proof. intros H. exact (patchWith_no_exit _ _ _ H). Qed.

Lemma patch_sh_no_exit (t : text) (c : Z) : patch_sh t <> Exits c.
Proof. intros H. exact (patchWith_no_exit _ _ _ H). Qed.

Section AnyPatch.
Variable patch : text -> outcome text.

Lemma commandExists_patching (command : text) s r x :
  follows (patching patch) None E s (Node.commandExists command)
          (fun _ t => t = None) r x.
Proof.
  unfold Node.commandExists, execSync.
  eapply follows_tryCatch with (r' := fun _ t => t = None).
  - walk fail.
  - intros e t ->. eapply follows_tryCatch with (r' := fun _ t => t = None).
    + walk fail.
    + intros e' t ->. walk fail.
Qed.

Lemma copyToClipboard_patching (t : text) s r x :
  follows (patching patch) None E s (Node.copyToClipboard t)
          (fun _ u => u = None) r x.
Proof.
  unfold Node.copyToClipboard, Node.clipboardCommand, execSync.
  eapply follows_tryCatch with (r' := fun _ u => u = None).
  - walk ltac:(apply commandExists_patching).
  - intros e u ->. walk fail.
Qed.

Lemma succeeds_patching (command : text) s r x :
  follows (patching patch) None E s (Shell.succeeds command)
          (fun _ t => t = None) r x.
Proof.
  unfold Shell.succeeds, execSync.
  eapply follows_tryCatch with (r' := fun _ t => t = None); [walk fail|].
  intros e t ->. walk fail.
Qed.

Lemma copy_to_clipboard_patching (t : text) r x :
  follows (patching patch) None E None (Shell.copy_to_clipboard t)
          (fun _ u => u = None) r x.
Proof.
  unfold Shell.copy_to_clipboard, Shell.hasCommand.
  walk ltac:(apply succeeds_patching).
Qed.
End AnyPatch.

Lemma node_update_patching s (r : exn -> option text -> Prop) x :
  (forall e t, r e t) ->
  follows (patching patch_node) None E s Node.updateAppConfig
          (fun _ t => t = None) r x.
Proof. exact (update_patching E patch_node patch_node_no_exit s r x). Qed.

Lemma node_patching :
  follows (patching patch_node) None E None Node.setupReactProject
          (fun _ _ => True) (fun _ _ => False) (fun _ _ => True).
Proof.
  unfold Node.setupReactProject, Node.setup, Node.build, Node.scaffold,
    Node.finish, Node.announce, Node.printStatus,
    Node.printSuccess, Node.printError,
    execSync, chdir, writeFileSync, mkdirSync, unlinkSync.
  apply follows_bind_ask. destruct (args E) as [|projectName rest]; walk fail.
  eapply follows_tryCatch with (r' := fun _ _ => True).
  - walk ltac:(first [ apply node_update_patching; easy
                     | apply copyToClipboard_patching ]).
  - intros e t _. apply follows_bind_ask.
    eapply follows_bind; [apply follows_print; accepted|].
    intros _ u _. now apply follows_exit.
Qed.

Lemma shell_update_patching s r (x : Z -> option text -> Prop) :
  (forall c t, x c t) ->
  follows (patching patch_sh) None E s Shell.updateAppConfig
          (fun _ t => t = None) r x.
Proof.
  intros Hx. unfold Shell.updateAppConfig.
  eapply follows_tryCatch with (r' := fun _ _ => True).
  - apply (update_patching E patch_sh patch_sh_no_exit). easy.
  - intros e t _. apply follows_exit. apply Hx.
Qed.

Lemma shell_patching :
  follows (patching patch_sh) None E None Shell.main
          (fun _ _ => True) (fun _ _ => True) (fun _ _ => True).
Proof.
  unfold Shell.main, Shell.setup, Shell.hereDoc, Shell.rm,
    Shell.print_status, Shell.print_success, Shell.print_error,
    execSync, chdir, writeFileSync, mkdirSync, unlinkSync.
  apply follows_bind_ask. destruct (args E) as [|PROJECT_NAME rest];
    walk ltac:(first [ apply shell_update_patching; easy
                     | apply copy_to_clipboard_patching ]).
Qed.
End PatchingRuns.

Lemma patching_seen (patch : text -> outcome text) (h : trace) (s : option text) :
  observe (patching patch) None h = Some s ->
  (forall t, s = Some t -> exists h0, h = h0 ++ [Read appConfigPath (Some t)])
  /\ (forall h1 c ok h2, h = h1 ++ Write appConfigPath c ok :: h2 ->
        exists h0 t out,
          h1 = h0 ++ [Read appConfigPath (Some t)]
          /\ c = Computed out /\ patch t = Normal out).
Proof.
  revert s. induction h as [|ev h IH] using rev_ind; intros s.
  - intros [= <-]. split; [easy|]. intros [|? ?] ? ? ? H; discriminate H.
  - intros H. apply observe_snoc_inv in H as (s' & Hs' & N).
    destruct (IH s' Hs') as (L & W). split.
    + intros t ->. exists h. f_equal.
      destruct ev as [ | | | | | p [t'|] | p c ok | | | | | ];
        unfold patching in N; try discriminate N.
      * destruct (text_eqb p appConfigPath) eqn:Ep; [|discriminate N].
        apply text_eqb_eq in Ep. now injection N as ->; subst p.
      * destruct (text_eqb p appConfigPath); [|discriminate N].
        destruct s' as [t'|]; [|discriminate N].
        destruct c; try discriminate N.
        destruct (isOutput _ _); discriminate N.
    + intros h1 c ok h2 Hd.
      apply snoc_split in Hd as [(-> & -> & ->) | (h2' & -> & ->)].
      * unfold patching in N.
        change (text_eqb appConfigPath appConfigPath) with true in N.
        cbv iota in N. destruct s' as [t|]; [|discriminate N].
        destruct c as [ | out | | ]; try discriminate N.
        destruct (isOutput (patch t) out) eqn:Ho; [|discriminate N].
        destruct (L t eq_refl) as (h0 & ->). exists h0, t, out.
        split; [reflexivity|]. split; [reflexivity|].
        unfold isOutput in Ho. destruct (patch t) as [t'| |]; try discriminate Ho.
        apply text_eqb_eq in Ho. now subst.
      * exact (W _ _ _ _ eq_refl).
Qed.

(** X15.  The Node script writes [tsconfig.app.json] only as the patch
    of what it has just read from that file: the write comes directly
    after the read, and its content is what the patch makes of the
    text read. *)
Theorem node_writes_the_patch (E : environment) (h1 h2 : trace) (c : content)
        (ok : bool) :
  snd (Node.run E) = h1 ++ Write appConfigPath c ok :: h2 ->
  exists h0 t out,
    h1 = h0 ++ [Read appConfigPath (Some t)]
    /\ c = Computed out /\ patch_node t = Normal out.
Proof.
  intros Hh.
  pose proof (follows_run _ _ _ _ _ _ _ (node_patching E)) as H.
  unfold Node.run in Hh.
  assert (Hs : exists s, observe (patching patch_node) None
                                 (snd (Node.setupReactProject E [])) = Some s).
  { destruct (Node.setupReactProject E []) as [[[]|e|c'] h];
      destruct H as (t & Ht & H); cbn [snd]; eauto. }
  destruct Hs as (s & Hs).
  exact (proj2 (patching_seen _ _ _ Hs) _ _ _ _ Hh).
Qed.

Lemma node_writes_the_patch_witness :
  let M := machine [lit "demo"] (lit "linux") (q "{'files': []}") in
  exists h0 t out,
    firstn 14 (snd (Node.run M)) = h0 ++ [Read appConfigPath (Some t)]
    /\ Computed
         (JSON_stringify
            (VObj [(lit "files", VArr [] []);
                   (compilerOptions,
                    VObj [(baseUrl, VStr (lit ".")); (paths, pathAlias)])]))
       = Computed out
    /\ patch_node t = Normal out.
Proof.
  intros M.
  apply (node_writes_the_patch M (firstn 14 (snd (Node.run M)))
           (skipn 15 (snd (Node.run M))) _ true).
  vm_compute. reflexivity.
Defined.

(** X16.  The shell script writes [tsconfig.app.json] only as the
    patch, with its own trailing-comma pass, of what it has just read
    from that file. *)
Theorem shell_writes_the_patch (E : environment) (h1 h2 : trace) (c : content)
        (ok : bool) :
  snd (Shell.run E) = h1 ++ Write appConfigPath c ok :: h2 ->
  exists h0 t out,
    h1 = h0 ++ [Read appConfigPath (Some t)]
    /\ c = Computed out /\ patch_sh t = Normal out.
Proof.
  intros Hh.
  pose proof (follows_run _ _ _ _ _ _ _ (shell_patching E)) as H.
  unfold Shell.run in Hh.
  assert (Hs : exists s, observe (patching patch_sh) None
                                 (snd (Shell.main E [])) = Some s).
  { destruct (Shell.main E []) as [[[]|e|c'] h];
      destruct H as (t & Ht & H); cbn [snd]; eauto. }
  destruct Hs as (s & Hs).
  exact (proj2 (patching_seen _ _ _ Hs) _ _ _ _ Hh).
Qed.

Lemma shell_writes_the_patch_witness :
  let M := machine [lit "demo"] (lit "linux") (q "{'files': [], }") in
  exists h0 t out,
    firstn 14 (snd (Shell.run M)) = h0 ++ [Read appConfigPath (Some t)]
    /\ Computed
         (JSON_stringify
            (VObj [(lit "files", VArr [] []);
                   (compilerOptions,
                    VObj [(baseUrl, VStr (lit ".")); (paths, pathAlias)])]))
       = Computed out
    /\ patch_sh t = Normal out.
Proof.
  intros M.
  apply (shell_writes_the_patch M (firstn 14 (snd (Shell.run M)))
           (skipn 15 (snd (Shell.run M))) _ true).
  vm_compute. reflexivity.
Defined.


(** *** The clipboard *)

Lemma isClipboardCommand_In (t c : text) :
  isClipboardCommand t c = true <-> In c (clipboardCommands t).
Proof.
  unfold isClipboardCommand. rewrite existsb_exists. split.
  - intros (c' & Hin & He). apply text_eqb_eq in He. now subst c'.
  - intros Hin. exists c. split; [exact Hin|apply text_eqb_refl].
Qed.

Section Claiming.
Variable E : environment.
Variable t : text.

Lemma commandExists_claiming (command : text) s r x :
  follows (claiming t) false E s (Node.commandExists command)
          (fun _ u => u = false) r x.
Proof.
  unfold Node.commandExists, execSync.
  eapply follows_tryCatch with (r' := fun _ u => u = false).
  - walk fail.
  - intros e u ->. eapply follows_tryCatch with (r' := fun _ u => u = false).
    + walk fail.
    + intros e' u ->. walk fail.
Qed.

Lemma clipboardCommand_claiming s r x :
  follows (claiming t) false E s (Node.clipboardCommand t)
          (fun c u => match c with
                      | Some command => In command (clipboardCommands t)
                      | None => u = false
                      end) r x.
Proof.
  unfold Node.clipboardCommand.
  walk ltac:(apply commandExists_claiming);
    apply follows_ret; cbv beta iota; unfold clipboardCommands;
    cbn [In]; auto 6.
Qed.

Lemma copyToClipboard_claiming s r x :
  follows (claiming t) false E s (Node.copyToClipboard t) (fun b u => u = b) r x.
Proof.
  unfold Node.copyToClipboard.
  eapply follows_tryCatch with (r' := fun _ u => u = false).
  - eapply follows_bind; [apply clipboardCommand_claiming|].
    intros [command|] u H; cbv beta iota in H.
    + apply isClipboardCommand_In in H.
      intros h Hh. unfold bind, execSync, attempt, ret.
      destruct (execOk E h command).
      * exists true. split; [|reflexivity].
        apply (observe_snoc (claiming t) _ u _ _ _ Hh). unfold claiming.
        now rewrite H.
      * exists false. split; [|reflexivity].
        now apply (observe_snoc (claiming t) _ u _ _ _ Hh).
    + subst u. now apply follows_ret.
  - intros e u ->. now apply follows_ret.
Qed.
End Claiming.

Lemma node_claiming (E : environment) :
  follows (claiming (nextCommand (hd [] (args E)))) false E false
          Node.setupReactProject
          (fun _ _ => True) (fun _ _ => False) (fun _ _ => True).
Proof.
  unfold Node.setupReactProject, Node.setup, Node.build, Node.scaffold,
    Node.updateAppConfig, Node.finish, Node.announce, Node.printStatus,
    Node.printSuccess, Node.printError,
    execSync, chdir, writeFileSync, mkdirSync, unlinkSync.
  apply follows_bind_ask. destruct (args E) as [|projectName rest]; walk fail.
  cbn [hd].
  eapply follows_tryCatch with (r' := fun _ _ => True).
  - walk ltac:(apply copyToClipboard_claiming).
  - intros e u _. apply follows_bind_ask.
    eapply follows_bind; [apply follows_print; destruct u; accepted|].
    intros _ v _. now apply follows_exit.
Qed.

Lemma claiming_seen (t : text) (h : trace) (s : bool) :
  observe (claiming t) false h = Some s ->
  (s = true -> exists h0 c, h = h0 ++ [Exec c true]
                            /\ In c (clipboardCommands t))
  /\ (forall h1 h2, h = h1 ++ Print copiedLine :: h2 ->
        exists h0 c, h1 = h0 ++ [Exec c true]
                     /\ In c (clipboardCommands t)).
Proof.
  revert s. induction h as [|ev h IH] using rev_ind; intros s.
  - intros [= <-]. split; [easy|]. intros [|? ?] ? H; discriminate H.
  - intros H. apply observe_snoc_inv in H as (s' & Hs' & N).
    destruct (IH s' Hs') as (L & P). split.
    + intros ->. unfold claiming in N.
      destruct ev as [line|c ok| | | | | | | | | | ]; try discriminate N.
      * destruct (text_eqb line copiedLine); [destruct s'|]; discriminate N.
      * injection N as N. apply andb_true_iff in N as [-> N].
        apply isClipboardCommand_In in N. eauto.
    + intros h1 h2 Hd.
      apply snoc_split in Hd as [(-> & -> & ->) | (h2' & -> & ->)].
      * unfold claiming in N. rewrite text_eqb_refl in N.
        destruct s'; [|discriminate N]. exact (L eq_refl).
      * exact (P _ _ eq_refl).
Qed.

(** X17.  The Node script says that the next command is in the
    clipboard only directly after a command has succeeded that is one
    of the four that [copyToClipboard] builds for the next command:
    [echo "cd name && npm run dev" | pbcopy], the same into [xclip] or
    [xsel], or, on Windows, [echo cd name && npm run dev | clip], in
    which the text stands without quotation marks. *)
Theorem node_copied_means_copied (E : environment) (h1 h2 : trace) :
  snd (Node.run E) = h1 ++ Print copiedLine :: h2 ->
  exists projectName rest h0 c,
    args E = projectName :: rest
    /\ h1 = h0 ++ [Exec c true]
    /\ In c (clipboardCommands (nextCommand projectName)).
Proof.
  intros Hh.
  pose proof (follows_run _ _ _ _ _ _ _ (node_claiming E)) as H.
  unfold Node.run in Hh.
  assert (Hs : exists s, observe (claiming (nextCommand (hd [] (args E)))) false
                                 (snd (Node.setupReactProject E [])) = Some s).
  { destruct (Node.setupReactProject E []) as [[[]|e|c'] h];
      destruct H as (u & Hu & H); cbn [snd]; eauto. }
  destruct Hs as (s & Hs).
  destruct (proj2 (claiming_seen _ _ _ Hs) _ _ Hh) as (h0 & c & Eh & Hc).
  destruct (args E) as [|projectName rest] eqn:Ha.
  - exfalso. clear - Hh Ha.
    unfold Node.setupReactProject, bind, ask in Hh. rewrite Ha in Hh.
    cbn in Hh.
    destruct h1 as [|e1 [|e2 [|e3 h1]]]; cbn in Hh; discriminate Hh.
  - exists projectName, rest, h0, c. auto.
Qed.

Lemma node_copied_means_copied_witness :
  let M := machine [lit "demo"] (lit "darwin") (q "{}") in
  exists projectName rest h0 c,
    args M = projectName :: rest
    /\ firstn 42 (snd (Node.run M)) = h0 ++ [Exec c true]
    /\ In c (clipboardCommands (nextCommand projectName)).
Proof.
  intros M.
  apply (node_copied_means_copied M (firstn 42 (snd (Node.run M)))
           (skipn 43 (snd (Node.run M)))).
  vm_compute. reflexivity.
Defined.


(** ** The page *)

Lemma startsWith_split (p l : text) :
  startsWith p l = true -> exists rest, l = p ++ rest.
Proof.
  revert l. induction p as [|a p IH]; intros l H; [now exists l|].
  destruct l as [|b l]; [discriminate H|]. cbn [startsWith] in H.
  apply andb_true_iff in H as [Hab H]. apply N.eqb_eq in Hab. subst b.
  destruct (IH l H) as (rest & ->). now exists rest.
Qed.

Lemma startsWith_shorter (l rest p post : text) :
  l ++ rest = p ++ post -> (List.length l <= List.length p)%nat ->
  startsWith l p = true.
Proof.
  revert p. induction l as [|a l IH]; intros p H Hlen; [reflexivity|].
  destruct p as [|b p]; [cbn in Hlen; lia|].
  cbn in H. injection H as -> H. cbn [startsWith].
  rewrite N.eqb_refl. cbn [andb]. apply (IH p H). cbn in Hlen. lia.
Qed.

Lemma findFirst_cons (p : text) (c : N) (r : text) :
  findFirst p (c :: r) =
  if startsWith p (c :: r)
  then Some ([], skipn (List.length p) (c :: r))
  else match findFirst p r with
       | Some (before, after) => Some (c :: before, after)
       | None => None
       end.
Proof. reflexivity. Qed.

(** A pattern that does not occur is not found. *)
Lemma findFirst_none (p t : text) :
  occurs p t = false -> findFirst p t = None.
Proof.
  induction t as [|c r IH]; intros H.
  - cbn in H. rewrite orb_false_r in H. cbn [findFirst]. now rewrite H.
  - rewrite occurs_cons in H. apply orb_false_iff in H as [Hs Ho].
    now rewrite findFirst_cons, Hs, (IH Ho).
Qed.

Lemma unbordered_at (p : text) (j : nat) :
  unbordered p = true -> (1 <= j < List.length p)%nat ->
  startsWith (skipn j p) p = false.
Proof.
  unfold unbordered. rewrite forallb_forall. intros H Hj.
  apply negb_true_iff. apply H. apply in_seq. lia.
Qed.

(** Where an unbordered pattern stands for the first time, it is
    found. *)
Lemma findFirst_first (p pre post : text) :
  unbordered p = true -> p <> [] -> occurs p pre = false ->
  findFirst p (pre ++ p ++ post) = Some (pre, post).
Proof.
  intros Hu Hp. induction pre as [|c pre IH]; intros Ho.
  - cbn [app]. destruct p as [|a p']; [easy|]. cbn [app].
    rewrite findFirst_cons. change (a :: p' ++ post) with ((a :: p') ++ post).
    now rewrite startsWith_app, skipn_app_length.
  - rewrite occurs_cons in Ho. apply orb_false_iff in Ho as [Hs Ho].
    cbn [app]. rewrite findFirst_cons, (IH Ho).
    destruct (startsWith p (c :: pre ++ p ++ post)) eqn:S; [|reflexivity].
    exfalso. apply startsWith_split in S as (rest & S).
    change (c :: pre ++ p ++ post) with ((c :: pre) ++ p ++ post) in S.
    apply app_eq_app in S as (l & [[Hpre Hrest] | [Hpat Hrest]]).
    + rewrite Hpre, startsWith_app in Hs. discriminate Hs.
    + destruct l as [|x l].
      * rewrite app_nil_r in Hpat. rewrite <- Hpat in Hs.
        rewrite <- (app_nil_r p) in Hs at 2. rewrite startsWith_app in Hs.
        discriminate Hs.
      * assert (Hl : x :: l = skipn (List.length (c :: pre)) p).
        { now rewrite Hpat, skipn_app_length. }
        assert (Hj : (1 <= List.length (c :: pre) < List.length p)%nat).
        { rewrite Hpat, length_app. cbn. lia. }
        pose proof (unbordered_at p _ Hu Hj) as Hb. rewrite <- Hl in Hb.
        rewrite (startsWith_shorter (x :: l) rest p post) in Hb;
          [discriminate Hb|now symmetry|].
        rewrite Hpat, length_app. lia.
Qed.

(** A replacement without a dollar sign is taken as it stands. *)
Lemma getSubstitution_plain (matched before after template : text) :
  hasDollar template = false ->
  getSubstitution matched before after template = template.
Proof.
  induction template as [|c r IH]; [reflexivity|].
  unfold hasDollar. cbn [existsb]. intros H.
  apply orb_false_iff in H as [Hc Hr]. cbn [getSubstitution].
  rewrite Hc. f_equal. now apply IH.
Qed.

Lemma hasDollar_app (a b : text) :
  hasDollar (a ++ b) = hasDollar a || hasDollar b.
Proof. apply existsb_app. Qed.

Lemma replaceFirst_absent (p template t : text) :
  occurs p t = false -> replaceFirst p template t = t.
Proof. intros H. unfold replaceFirst. now rewrite (findFirst_none _ _ H). Qed.

Lemma replaceFirst_first (p template pre post : text) :
  unbordered p = true -> p <> [] -> occurs p pre = false ->
  hasDollar template = false ->
  replaceFirst p template (pre ++ p ++ post) = pre ++ template ++ post.
Proof.
  intros Hu Hp Ho Hd. unfold replaceFirst.
  now rewrite (findFirst_first _ _ _ Hu Hp Ho), (getSubstitution_plain _ _ _ _ Hd).
Qed.

(** X18.  A page that holds neither the title nor the icon link of
    the Vite template is written back as it was read, whatever the name
    of the project: nothing is replaced and nothing is reported. *)
Theorem indexHtml_unchanged (html projectName emoji : text) :
  occurs titlePattern html = false ->
  occurs iconPattern html = false ->
  indexHtml html projectName emoji = html.
Proof.
  intros Ht Hi. unfold indexHtml.
  now rewrite (replaceFirst_absent _ _ _ Ht), (replaceFirst_absent _ _ _ Hi).
Qed.

Lemma indexHtml_unchanged_witness :
  indexHtml (lit "<html><head><title>Mine</title></head></html>")
            (lit "demo") (emojiAt 7)
  = lit "<html><head><title>Mine</title></head></html>".
Proof. apply indexHtml_unchanged; reflexivity. Defined.

(** X19.  On a page that holds the icon link and, after it, the title
    of the Vite template, the first icon link becomes the link to the
    emoji and the first title becomes the name of the project, and the
    rest of the page stays, provided neither the name nor the emoji
    holds a dollar sign. *)
Theorem indexHtml_title_and_icon (a b c projectName emoji : text) :
  occurs iconPattern a = false ->
  occurs titlePattern (a ++ iconPattern ++ b) = false ->
  hasDollar projectName = false ->
  hasDollar emoji = false ->
  indexHtml (a ++ iconPattern ++ b ++ titlePattern ++ c) projectName emoji
  = a ++ iconTemplate emoji ++ b ++ titleTemplate projectName ++ c.
Proof.
  intros Hi Ht Hn He. unfold indexHtml.
  assert (Dt : hasDollar (titleTemplate projectName) = false).
  { unfold titleTemplate. rewrite !hasDollar_app, Hn. reflexivity. }
  assert (Di : hasDollar (iconTemplate emoji) = false).
  { unfold iconTemplate. rewrite !hasDollar_app, He. reflexivity. }
  replace (a ++ iconPattern ++ b ++ titlePattern ++ c)
    with ((a ++ iconPattern ++ b) ++ titlePattern ++ c)
    by now rewrite <- !app_assoc.
  rewrite (replaceFirst_first titlePattern _ _ c eq_refl ltac:(easy) Ht Dt).
  rewrite <- !app_assoc.
  now rewrite (replaceFirst_first iconPattern _ a _ eq_refl ltac:(easy) Hi Di).
Qed.

Lemma indexHtml_title_and_icon_witness :
  indexHtml (lit "<head>" ++ iconPattern ++ lit "<meta />" ++ titlePattern
             ++ lit "</head>" ++ titlePattern)
            (lit "demo") (emojiAt 7)
  = lit "<head>" ++ iconTemplate (emojiAt 7) ++ lit "<meta />"
    ++ titleTemplate (lit "demo") ++ lit "</head>" ++ titlePattern.
Proof.
  apply (indexHtml_title_and_icon (lit "<head>") (lit "<meta />")
           (lit "</head>" ++ titlePattern) (lit "demo") (emojiAt 7));
    reflexivity.
Defined.


(** ** What [JSON.parse] builds *)

(** *** A property of all values the parser builds *)

Section Built.
Variable P : value -> Prop.
Hypothesis P_null : P VNull.
Hypothesis P_bool : forall b, P (VBool b).
Hypothesis P_num : forall x, P (VNum x).
Hypothesis P_str : forall s, P (VStr s).
Hypothesis P_arr : forall elems, Forall P elems -> P (VArr elems []).
Hypothesis P_obj :
  forall props, Forall (fun kv => P (snd kv)) props -> P (VObj props).

Section Descent.
Variable value_ : text -> parsed value.
Variable members_ : text -> parsed (list (text * value)).
Variable elements_ : text -> parsed (list value).

Lemma valueAt_built :
  yields (Forall (fun kv => P (snd kv))) members_ ->
  yields (Forall P) elements_ ->
  yields P (valueAt members_ elements_).
Proof.
  intros Hm He l v rest. unfold valueAt.
  destruct (skipWS l) as [|c r]; [easy|].
  destruct (c =? 123); [|destruct (c =? 91); [|destruct (c =? dquote)]].
  - destruct (skipWS r) as [|d r']; [easy|].
    destruct (d =? 125).
    + intros [= <- _]. apply P_obj. constructor.
    + destruct (members_ (d :: r')) as [ms rest'| |] eqn:E; try easy.
      simpl. intros [= <- _]. apply Hm in E.
      apply P_obj. now apply values_makeObject.
  - destruct (skipWS r) as [|d r']; [easy|].
    destruct (d =? 93).
    + intros [= <- _]. apply P_arr. constructor.
    + destruct (elements_ (d :: r')) as [vs rest'| |] eqn:E; try easy.
      simpl. intros [= <- _]. apply He in E. now apply P_arr.
  - destruct (parseChars r) as [[s rest']|]; [|easy].
    intros [= <- _]. apply P_str.
  - destruct (c =? 116); [|destruct (c =? 102); [|destruct (c =? 110)]];
      try (apply literal_yields; auto).
    destruct (parseNumber (c :: r)) as [[x rest']|]; [|easy].
    intros [= <- _]. apply P_num.
Qed.

Lemma membersAt_built :
  yields P value_ ->
  yields (Forall (fun kv => P (snd kv))) members_ ->
  yields (Forall (fun kv => P (snd kv))) (membersAt value_ members_).
Proof.
  intros Hv Hm l ms rest. unfold membersAt.
  destruct (skipWS l) as [|c r]; [easy|].
  destruct (c =? dquote); [|easy].
  destruct (parseChars r) as [[k r1]|]; [|easy].
  destruct (skipWS r1) as [|c1 r2]; [easy|].
  destruct (c1 =? 58); [|easy].
  destruct (value_ r2) as [v r3| |] eqn:Ev; try easy. simpl.
  apply Hv in Ev.
  destruct (skipWS r3) as [|c3 r4]; [easy|].
  destruct (c3 =? 44).
  - destruct (members_ r4) as [ms' rest'| |] eqn:Em; try easy.
    simpl. intros [= <- _]. apply Hm in Em. now constructor.
  - destruct (c3 =? 125); [|easy]. intros [= <- _]. now repeat constructor.
Qed.

Lemma elementsAt_built :
  yields P value_ ->
  yields (Forall P) elements_ ->
  yields (Forall P) (elementsAt value_ elements_).
Proof.
  intros Hv He l vs rest. unfold elementsAt.
  destruct (value_ l) as [v r1| |] eqn:Ev; try easy. simpl.
  apply Hv in Ev.
  destruct (skipWS r1) as [|c r2]; [easy|].
  destruct (c =? 44).
  - destruct (elements_ r2) as [vs' rest'| |] eqn:Ee; try easy.
    simpl. intros [= <- _]. apply He in Ee. now constructor.
  - destruct (c =? 93); [|easy]. intros [= <- _]. now repeat constructor.
Qed.
End Descent.

Lemma parse_built (f : nat) :
  yields P (parseValue f)
  /\ yields (Forall (fun kv => P (snd kv))) (parseMembers f)
  /\ yields (Forall P) (parseElements f).
Proof.
  induction f as [|f (IHv & IHm & IHe)].
  - repeat split; intros l a rest; discriminate.
  - split; [|split]; simpl.
    + now apply valueAt_built.
    + now apply membersAt_built.
    + now apply elementsAt_built.
Qed.

Lemma JSON_parse_built (t : text) (v : value) (rest : text) :
  JSON_parse t = POk v rest -> P v /\ rest = [].
Proof.
  unfold JSON_parse.
  destruct (parseValue _ t) as [v' rest'| |] eqn:E; try easy.
  destruct (skipWS rest'); [|easy]. intros [= <- <-].
  split; [exact (proj1 (parse_built _) _ _ _ E)|reflexivity].
Qed.
End Built.

(** The arrays the parser builds have no property besides their
    elements: all of a parsed document is shown. *)
Lemma JSON_parse_shown (t : text) (v : value) (rest : text) :
  JSON_parse t = POk v rest -> shown v = v.
Proof.
  intros H.
  refine (proj1 (JSON_parse_built (fun v => shown v = v) _ _ _ _ _ _ t v rest H));
    try reflexivity.
  - intros elems He. cbn [shown]. f_equal.
    rewrite <- (map_id elems) at 2. apply map_ext_Forall. exact He.
  - intros props Hp. cbn [shown]. f_equal.
    rewrite <- (map_id props) at 2. apply map_ext_Forall.
    eapply Forall_impl; [|exact Hp]. intros [k x] Hx. cbn in *. now rewrite Hx.
Qed.

(** X20.  A document that [JSON.parse] has read, written by
    [JSON.stringify] and read again, is the same document, provided its
    numbers are written in digits that read back as the same numbers.
    Nothing is left of the text after the document. *)
Theorem document_round_trip (t : text) (D : value) (rest : text) :
  JSON_parse t = POk D rest ->
  numbersReadBack D = true ->
  rest = [] /\ JSON_parse (JSON_stringify D) = POk D [].
Proof.
  intros H Hn. split.
  - exact (proj2 (JSON_parse_built (fun _ => True) I (fun _ => I) (fun _ => I)
                    (fun _ => I) (fun _ _ => I) (fun _ _ => I) t D rest H)).
  - rewrite (JSON_parse_stringify D (JSON_parse_wellKeyed _ _ _ H) Hn).
    now rewrite (JSON_parse_shown _ _ _ H).
Qed.

Lemma document_round_trip_witness :
  let D := VObj [(lit "7", VArr [VNum (ofDecimal false 25 (-1)); VNull] []);
                 (lit "name", VStr (lit "a/b"))] in
  @nil N = [] /\ JSON_parse (JSON_stringify D) = POk D [].
Proof.
  intros D.
  apply (document_round_trip (q "{'name': 'a\/b', '7': [2.5, null]}") D []);
    vm_compute; reflexivity.
Defined.

(** X21.  Every string, written by [JSON.stringify] and read by
    [JSON.parse], is the same string: quotation marks, backslashes,
    control characters and lone surrogates included. *)
Theorem string_round_trip (s : text) :
  JSON_parse (JSON_stringify (VStr s)) = POk (VStr s) [].
Proof. now apply (JSON_parse_stringify (VStr s)); [constructor|]. Qed.

(** *** Repeated keys *)

Lemma lookup_app (k : text) (a b : list (text * value)) :
  lookup k (a ++ b) =
  match lookup k a with
  | Some v => Some v
  | None => lookup k b
  end.
Proof.
  induction a as [|[k' v'] a IH]; [reflexivity|]. cbn [app lookup].
  destruct (text_eqb k k'); [reflexivity|exact IH].
Qed.

Lemma lookup_defineProperty (k k' : text) (v : value)
      (props : list (text * value)) :
  lookup k (defineProperty k' v props) =
  if text_eqb k k' then Some v else lookup k props.
Proof.
  destruct (text_eqb k k') eqn:Ek.
  - apply text_eqb_eq in Ek. subst k'. apply lookup_defineProperty_same.
  - apply lookup_defineProperty_other. intros ->.
    now rewrite text_eqb_refl in Ek.
Qed.

Lemma ordered_NoDup (props : list (text * value)) :
  ordered props -> NoDup (List.map fst props).
Proof.
  unfold ordered. induction 1 as [|k ks Hs IH Hk]; constructor; [|exact IH].
  intros Hin. rewrite Forall_forall in Hk.
  exact (keyBefore_irrefl k (Hk k Hin)).
Qed.

(** X22.  In an object that [JSON.parse] builds no key stands twice,
    and a key that the text repeats has the value given last. *)
Theorem repeated_keys (members : list (text * value)) (k : text) :
  NoDup (List.map fst (makeObject members))
  /\ lookup k (makeObject members) = lookup k (rev members).
Proof.
  split; [apply ordered_NoDup, ordered_makeObject|].
  unfold makeObject.
  assert (G : forall ms acc,
             lookup k (fold_left (fun props kv =>
                                    defineProperty (fst kv) (snd kv) props)
                                 ms acc)
             = match lookup k (rev ms) with
               | Some v => Some v
               | None => lookup k acc
               end).
  { induction ms as [|[k' v'] ms IH]; intros acc; [reflexivity|].
    cbn [fold_left rev fst snd]. rewrite IH, lookup_app, lookup_defineProperty.
    cbn [lookup]. destruct (lookup k (rev ms)); [reflexivity|].
    now destruct (text_eqb k k'). }
  rewrite G. now destruct (lookup k (rev members)).
Qed.


(** *** The error line *)

Section Reporting.
Variable E : environment.

Lemma commandExists_reporting (command : text) s r x :
  follows reporting false E s (Node.commandExists command)
          (fun _ t => t = s) r x.
Proof.
  unfold Node.commandExists, execSync.
  eapply follows_tryCatch with (r' := fun _ t => t = s).
  - walk fail.
  - intros e t ->. eapply follows_tryCatch with (r' := fun _ t => t = s).
    + walk fail.
    + intros e' t ->. walk fail.
Qed.

Lemma copyToClipboard_reporting (t : text) s r x :
  follows reporting false E s (Node.copyToClipboard t) (fun _ u => u = s) r x.
Proof.
  unfold Node.copyToClipboard, Node.clipboardCommand, execSync.
  eapply follows_tryCatch with (r' := fun _ u => u = s).
  - walk ltac:(apply commandExists_reporting).
  - intros e u ->. walk fail.
Qed.

Lemma node_reporting :
  follows reporting false E false Node.setupReactProject
          (fun _ _ => True) (fun _ _ => False) (fun _ t => t = true).
Proof.
  unfold Node.setupReactProject, Node.setup, Node.build, Node.scaffold,
    Node.updateAppConfig, Node.finish, Node.announce, Node.printStatus,
    Node.printSuccess, Node.printError,
    execSync, chdir, writeFileSync, mkdirSync, unlinkSync.
  apply follows_bind_ask. destruct (args E) as [|projectName rest]; walk fail.
  eapply follows_tryCatch with (r' := fun _ _ => True).
  - walk ltac:(apply copyToClipboard_reporting).
  - intros e t _. walk fail.
Qed.
End Reporting.

Lemma reporting_seen (h : trace) (s : bool) :
  observe reporting false h = Some s -> s = true ->
  exists message, In (nodeError message) h.
Proof.
  revert s. induction h as [|ev h IH] using rev_ind; intros s.
  - intros [= <-]. easy.
  - intros H ->. apply observe_snoc_inv in H as (s' & Hs' & N).
    assert (Hin : (exists message, ev = nodeError message) \/ s' = true).
    { destruct ev as [line| | | | | | | | | | | ]; unfold reporting in N;
        try (injection N as ->; now right).
      destruct (startsWith errorPrefix line) eqn:Sw.
      - left. apply startsWith_split in Sw as (message & ->). now exists message.
      - right. now injection N as ->. }
    destruct Hin as [(message & ->) | ->].
    + exists message. apply in_or_app. right. now left.
    + destruct (IH true Hs' eq_refl) as (message & Hm).
      exists message. apply in_or_app. now left.
Qed.

(** X23.  The Node script does not fail in silence: a run that exits
    with status 1 has printed an [[ERROR]] line. *)
Theorem node_failure_is_reported (E : environment) :
  fst (Node.run E) = Exits 1 ->
  exists message, In (nodeError message) (snd (Node.run E)).
Proof.
  pose proof (follows_run _ _ _ _ _ _ _ (node_reporting E)) as H.
  unfold Node.run. destruct (Node.setupReactProject E []) as [[[]|e|c] h];
    destruct H as (t & Ht & H); cbn [fst snd]; try easy.
  intros _. exact (reporting_seen _ _ Ht H).
Qed.

Lemma node_failure_is_reported_witness :
  exists message,
    In (nodeError message)
       (snd (Node.run (machine [lit "demo"] (lit "linux") (q "{'extends': 'base}")))).
Proof.
  apply node_failure_is_reported. vm_compute. reflexivity.
Defined.


(** *** The clipboard of the shell script *)

(** X24.  [copy_to_clipboard] of the shell script always returns, and
    it answers yes exactly when [command -v] has found one of the
    tools: whether the tool then succeeds does not count. *)
Theorem copy_to_clipboard_answer (t : text) (E : environment) (h : trace) :
  exists added,
    Shell.copy_to_clipboard t E h = (Normal (toolFound added), h ++ added).
Proof.
  unfold Shell.copy_to_clipboard, Shell.hasCommand, Shell.succeeds,
    tryCatch, bind, execSync, attempt, ret, ask.
  repeat match goal with
         | |- context [if ?b then _ else _] =>
             lazymatch b with
             | execOk _ _ _ => destruct b
             end
         | |- context [match wslDistroName E with _ => _ end] =>
             destruct (wslDistroName E)
         end;
    rewrite <- ?app_assoc; cbn [app];
    match goal with
    | |- exists added, (_, _ ++ ?l) = _ => exists l
    end; reflexivity.
Qed.


(** *** Creating and entering *)

Section Creating.
Variable E : environment.

Lemma commandExists_creating (command : text) s r x :
  follows creating false E s (Node.commandExists command)
          (fun _ _ => True) r x.
Proof.
  unfold Node.commandExists, execSync.
  eapply follows_tryCatch with (r' := fun _ _ => True).
  - walk fail.
  - intros e t _. eapply follows_tryCatch with (r' := fun _ _ => True).
    + walk fail.
    + intros e' u _. walk fail.
Qed.

Lemma copyToClipboard_creating (t : text) s r x :
  follows creating false E s (Node.copyToClipboard t) (fun _ _ => True) r x.
Proof.
  unfold Node.copyToClipboard, Node.clipboardCommand, execSync.
  eapply follows_tryCatch with (r' := fun _ _ => True).
  - walk ltac:(apply commandExists_creating).
  - intros e u _. walk fail.
Qed.

Lemma node_creating :
  follows creating false E false Node.setupReactProject
          (fun _ _ => True) (fun _ _ => False) (fun _ _ => True).
Proof.
  unfold Node.setupReactProject, Node.setup, Node.build, Node.scaffold,
    Node.updateAppConfig, Node.finish, Node.announce, Node.printStatus,
    Node.printSuccess, Node.printError,
    execSync, chdir, writeFileSync, mkdirSync, unlinkSync.
  apply follows_bind_ask. destruct (args E) as [|projectName rest]; walk fail.
  eapply follows_tryCatch with (r' := fun _ _ => True).
  - walk ltac:(apply copyToClipboard_creating).
  - intros e t _. walk fail.
Qed.

Lemma succeeds_creating (command : text) s r x :
  follows creating false E s (Shell.succeeds command) (fun _ _ => True) r x.
Proof.
  unfold Shell.succeeds, execSync.
  eapply follows_tryCatch with (r' := fun _ _ => True); [walk fail|].
  intros e t _. walk fail.
Qed.

Lemma copy_to_clipboard_creating (t : text) s r x :
  follows creating false E s (Shell.copy_to_clipboard t) (fun _ _ => True) r x.
Proof.
  unfold Shell.copy_to_clipboard, Shell.hasCommand.
  walk ltac:(apply succeeds_creating).
Qed.

Lemma shell_updateAppConfig_creating s r x :
  (forall c t, x c t : Prop) ->
  follows creating false E s Shell.updateAppConfig (fun _ _ => True) r x.
Proof.
  intros Hx. unfold Shell.updateAppConfig, writeFileSync.
  eapply follows_tryCatch with (r' := fun _ _ => True).
  - walk fail.
  - intros e t _. apply follows_exit. apply Hx.
Qed.

Lemma shell_creating :
  follows creating false E false Shell.main
          (fun _ _ => True) (fun _ _ => True) (fun _ _ => True).
Proof.
  unfold Shell.main, Shell.setup, Shell.hereDoc, Shell.rm,
    Shell.print_status, Shell.print_success, Shell.print_error,
    execSync, chdir, writeFileSync, mkdirSync, unlinkSync.
  apply follows_bind_ask. destruct (args E) as [|PROJECT_NAME rest];
    walk ltac:(first [ apply shell_updateAppConfig_creating; easy
                     | apply copy_to_clipboard_creating ]).
Qed.
End Creating.

Lemma creating_seen (h : trace) (s : bool) :
  observe creating false h = Some s ->
  (s = true ->
   exists h0 c, h = h0 ++ [Exec c true]
                /\ startsWith (lit "npm create vite@latest ") c = true)
  /\ (forall h1 d ok h2, h = h1 ++ Chdir d ok :: h2 ->
        exists h0 c, h1 = h0 ++ [Exec c true]
                     /\ startsWith (lit "npm create vite@latest ") c = true).
Proof.
  revert s. induction h as [|ev h IH] using rev_ind; intros s.
  - intros [= <-]. split; [easy|]. intros [|? ?] ? ? ? H; discriminate H.
  - intros H. apply observe_snoc_inv in H as (s' & Hs' & N).
    destruct (IH s' Hs') as (L & C). split.
    + intros ->. unfold creating in N.
      destruct ev as [line|c ok| | | | | | | | | | ]; try discriminate N.
      * injection N as N. apply andb_true_iff in N as [-> N]. eauto.
      * destruct s'; discriminate N.
    + intros h1 d ok h2 Hd.
      apply snoc_split in Hd as [(-> & -> & ->) | (h2' & -> & ->)].
      * unfold creating in N. destruct s'; [|discriminate N]. exact (L eq_refl).
      * exact (C _ _ _ _ eq_refl).
Qed.

(** X25.  Either script changes directory only directly after
    [npm create vite@latest] has succeeded: it never tries to enter a
    project that was not created. *)
Theorem created_before_entered (E : environment) (h1 h2 : trace) (d : text)
        (ok : bool) :
  snd (Node.run E) = h1 ++ Chdir d ok :: h2
  \/ snd (Shell.run E) = h1 ++ Chdir d ok :: h2 ->
  exists h0 c, h1 = h0 ++ [Exec c true]
               /\ startsWith (lit "npm create vite@latest ") c = true.
Proof.
  intros [Hh | Hh].
  - pose proof (follows_run _ _ _ _ _ _ _ (node_creating E)) as H.
    unfold Node.run in Hh.
    assert (Hs : exists s, observe creating false
                                   (snd (Node.setupReactProject E [])) = Some s).
    { destruct (Node.setupReactProject E []) as [[[]|e|c'] h];
        destruct H as (t & Ht & H); cbn [snd]; eauto. }
    destruct Hs as (s & Hs). exact (proj2 (creating_seen _ _ Hs) _ _ _ _ Hh).
  - pose proof (follows_run _ _ _ _ _ _ _ (shell_creating E)) as H.
    unfold Shell.run in Hh.
    assert (Hs : exists s, observe creating false (snd (Shell.main E [])) = Some s).
    { destruct (Shell.main E []) as [[[]|e|c'] h];
        destruct H as (t & Ht & H); cbn [snd]; eauto. }
    destruct Hs as (s & Hs). exact (proj2 (creating_seen _ _ Hs) _ _ _ _ Hh).
Qed.

Lemma created_before_entered_witness :
  let M := machine [lit "demo"] (lit "linux") (q "{}") in
  exists h0 c,
    firstn 4 (snd (Shell.run M)) = h0 ++ [Exec c true]
    /\ startsWith (lit "npm create vite@latest ") c = true.
Proof.
  intros M.
  apply (created_before_entered M (firstn 4 (snd (Shell.run M)))
           (skipn 5 (snd (Shell.run M))) (lit "demo") true).
  right. vm_compute. reflexivity.
Defined.


(** *** What a complete run has done *)

Lemma recording_seen (h : trace) (s : list text * list text) :
  observe recording ([], []) h = Some s ->
  s = (commandsRun h, filesWritten h).
Proof.
  revert s. induction h as [|ev h IH] using rev_ind; intros s.
  - now intros [= <-].
  - intros H. apply observe_snoc_inv in H as (s' & Hs' & N).
    rewrite (IH s' Hs') in N. unfold commandsRun, filesWritten.
    rewrite !flat_map_app. cbn [flat_map]. rewrite !app_nil_r.
    fold (commandsRun h) (filesWritten h).
    destruct ev as [ |c [] | | | | |p c [] | | | | | ]; cbn [recording fst snd] in N;
      injection N as <-; rewrite ?app_nil_r; try reflexivity.
    destruct (isPackageCommand c); now rewrite ?app_nil_r.
Qed.

Section Recording.
Variable E : environment.

Lemma echo_no_package (command : text) :
  startsWith (lit "echo ") command = true -> isPackageCommand command = false.
Proof.
  intros H. apply startsWith_split in H as (rest & ->). reflexivity.
Qed.

Lemma other_recording (command : text) s x :
  isPackageCommand command = false ->
  follows recording ([], []) E s (execSync command)
          (fun _ t => t = s) (fun _ t => t = s) x.
Proof.
  intros H h Hh. unfold execSync, attempt. destruct (execOk E h command).
  - exists s. split; [|reflexivity].
    apply (observe_snoc recording _ s _ _ _ Hh). cbn. now rewrite H.
  - exists s. split; [|reflexivity].
    now apply (observe_snoc recording _ s _ _ _ Hh).
Qed.

Lemma commandExists_recording (command : text) s r x :
  follows recording ([], []) E s (Node.commandExists command)
          (fun _ t => t = s) r x.
Proof.
  unfold Node.commandExists.
  eapply follows_tryCatch with (r' := fun _ t => t = s).
  - eapply follows_bind; [now apply other_recording|].
    intros _ t ->. now apply follows_ret.
  - intros e t ->. eapply follows_tryCatch with (r' := fun _ t => t = s).
    + eapply follows_bind; [now apply other_recording|].
      intros _ t ->. now apply follows_ret.
    + intros e' t ->. now apply follows_ret.
Qed.

Lemma clipboardCommand_recording (t : text) s r x :
  follows recording ([], []) E s (Node.clipboardCommand t)
          (fun c u => u = s
                      /\ match c with
                         | Some command => isPackageCommand command = false
                         | None => True
                         end) r x.
Proof.
  unfold Node.clipboardCommand.
  eapply follows_bind; [apply follows_osPlatform; intros p; accepted|].
  intros p u H. lazy in H. injection H as <-.
  repeat match goal with
         | |- follows _ _ _ _ (if ?b then _ else _) _ _ _ => destruct b
         | |- follows _ _ _ _ (ret _) _ _ _ =>
             apply follows_ret; split; [reflexivity|];
             try (apply echo_no_package; reflexivity); exact I
         | |- follows _ _ _ _ (bind (Node.commandExists _) _) _ _ _ =>
             eapply follows_bind;
             [apply commandExists_recording | intros ? ? ->]
         end.
Qed.

Lemma copyToClipboard_recording (t : text) s r x :
  follows recording ([], []) E s (Node.copyToClipboard t)
          (fun _ u => u = s) r x.
Proof.
  unfold Node.copyToClipboard.
  eapply follows_tryCatch with (r' := fun _ u => u = s).
  - eapply follows_bind; [apply clipboardCommand_recording|].
    intros [command|] u [-> H]; [|now apply follows_ret].
    eapply follows_bind; [now apply other_recording|].
    intros _ u ->. now apply follows_ret.
  - intros e u ->. now apply follows_ret.
Qed.

Lemma node_recording :
  follows recording ([], []) E ([], []) Node.setupReactProject
          (fun _ t => match args E with
                      | [] => False
                      | projectName :: _ => t = (allCommands projectName, nodeFiles)
                      end)
          (fun _ _ => False) (fun _ _ => True).
Proof.
  unfold Node.setupReactProject, Node.setup, Node.build, Node.scaffold,
    Node.updateAppConfig, Node.finish, Node.announce, Node.printStatus,
    Node.printSuccess, Node.printError,
    execSync, chdir, writeFileSync, mkdirSync, unlinkSync.
  apply follows_bind_ask. destruct (args E) as [|projectName rest]; walk fail.
  eapply follows_tryCatch with (r' := fun _ _ => True).
  - walk ltac:(apply copyToClipboard_recording).
  - intros e t _. walk fail.
Qed.

Lemma succeeds_recording (command : text) s r x :
  isPackageCommand command = false ->
  follows recording ([], []) E s (Shell.succeeds command)
          (fun _ t => t = s) r x.
Proof.
  intros H. unfold Shell.succeeds.
  eapply follows_tryCatch with (r' := fun _ t => t = s).
  - eapply follows_bind; [now apply other_recording|].
    intros _ t ->. now apply follows_ret.
  - intros e t ->. now apply follows_ret.
Qed.

Lemma copy_to_clipboard_recording (t : text) s r x :
  follows recording ([], []) E s (Shell.copy_to_clipboard t)
          (fun _ u => u = s) r x.
Proof.
  unfold Shell.copy_to_clipboard, Shell.hasCommand.
  repeat (cbv beta zeta;
          match goal with
          | |- follows _ _ _ _ (bind (Shell.succeeds _) _) _ _ _ =>
              eapply follows_bind;
              [apply succeeds_recording; reflexivity | intros ? ? ->]
          | |- follows _ _ _ _ (bind (ask _) _) _ _ _ =>
              apply follows_bind_ask
          | |- follows _ _ _ _ (if ?b then _ else _) _ _ _ => destruct b
          | |- follows _ _ _ _ (match ?l with [] => _ | _ :: _ => _ end) _ _ _ =>
              destruct l
          | |- follows _ _ _ _ (ret _) _ _ _ => now apply follows_ret
          end).
Qed.

Lemma shell_updateAppConfig_recording (s : list text * list text) r
      (x : Z -> list text * list text -> Prop) :
  (forall c t, x c t) ->
  follows recording ([], []) E s Shell.updateAppConfig
          (fun _ t => t = (fst s, snd s ++ [lit "tsconfig.app.json"])) r x.
Proof.
  intros Hx. unfold Shell.updateAppConfig, writeFileSync.
  eapply follows_tryCatch with (r' := fun _ _ => True).
  - walk fail.
  - intros e t _. apply follows_exit. apply Hx.
Qed.

Lemma shell_recording :
  follows recording ([], []) E ([], []) Shell.main
          (fun _ t => match args E with
                      | [] => False
                      | PROJECT_NAME :: _ =>
                          t = (allCommands PROJECT_NAME, shellFiles)
                      end)
          (fun _ _ => True) (fun _ _ => True).
Proof.
  unfold Shell.main, Shell.setup, Shell.hereDoc, Shell.rm,
    Shell.print_status, Shell.print_success, Shell.print_error,
    execSync, chdir, writeFileSync, mkdirSync, unlinkSync.
  apply follows_bind_ask. destruct (args E) as [|PROJECT_NAME rest];
    walk ltac:(first [ apply shell_updateAppConfig_recording; easy
                     | apply copy_to_clipboard_recording ]).
Qed.
End Recording.

(** X26.  A run of the Node script that comes to its end has run the
    seven commands of the package manager, each once, successfully and
    in this order, and has written its nine files, each once,
    successfully and in this order. *)
Theorem node_complete_run (E : environment) :
  fst (Node.run E) = Normal tt ->
  exists projectName,
    hd_error (args E) = Some projectName
    /\ commandsRun (snd (Node.run E)) = allCommands projectName
    /\ filesWritten (snd (Node.run E)) = nodeFiles.
Proof.
  pose proof (follows_run _ _ _ _ _ _ _ (node_recording E)) as H.
  unfold Node.run. destruct (Node.setupReactProject E []) as [[[]|e|c] h];
    destruct H as (t & Ht & H); cbn [fst snd]; try easy.
  intros _. apply recording_seen in Ht.
  destruct (args E) as [|projectName rest]; [destruct H|].
  exists projectName. rewrite H in Ht. injection Ht as <- <-. auto.
Qed.

Lemma node_complete_run_witness :
  let M := machine [lit "demo"] (lit "linux") (q "{}") in
  exists projectName,
    hd_error (args M) = Some projectName
    /\ commandsRun (snd (Node.run M)) = allCommands projectName
    /\ filesWritten (snd (Node.run M)) = nodeFiles.
Proof.
  intros M. apply (node_complete_run M). vm_compute. reflexivity.
Defined.

(** X27.  A run of the shell script that comes to its end has run the
    same seven commands of the package manager, in the same order, and
    has written the same files but [index.html], which it changes in
    place with [sed]. *)
Theorem shell_complete_run (E : environment) :
  fst (Shell.run E) = Normal tt ->
  exists PROJECT_NAME,
    hd_error (args E) = Some PROJECT_NAME
    /\ commandsRun (snd (Shell.run E)) = allCommands PROJECT_NAME
    /\ filesWritten (snd (Shell.run E)) = shellFiles.
Proof.
  pose proof (follows_run _ _ _ _ _ _ _ (shell_recording E)) as H.
  unfold Shell.run. destruct (Shell.main E []) as [[[]|e|c] h];
    destruct H as (t & Ht & H); cbn [fst snd]; try easy.
  intros _. apply recording_seen in Ht.
  destruct (args E) as [|PROJECT_NAME rest]; [destruct H|].
  exists PROJECT_NAME. rewrite H in Ht. injection Ht as <- <-. auto.
Qed.

Lemma shell_complete_run_witness :
  let M := machine [lit "demo"] (lit "linux") (q "{}") in
  exists PROJECT_NAME,
    hd_error (args M) = Some PROJECT_NAME
    /\ commandsRun (snd (Shell.run M)) = allCommands PROJECT_NAME
    /\ filesWritten (snd (Shell.run M)) = shellFiles.
Proof.
  intros M. apply (shell_complete_run M). vm_compute. reflexivity.
Defined.
